(** * boba-tvl: the block locator, the adaptive event fetcher, balance
    reconstruction, price lookup, TVL aggregation and the TWAP integrator.

    A shallow embedding of [src/BlockFinder.js] and of the main script
    ([getRateLimitedEvents], [getCoingeckoPriceAt], [addFirstBalance],
    [calculateTwap] and the balance / "Total" loops of [main]). *)

From Stdlib Require Import ZArith List Bool Lia Sorted Permutation.
From Stdlib Require Import QArith Qcanon Floats Lqa.
From Stdlib Require String.
Import ListNotations String.StringSyntax.
Local Open Scope string_scope.
Local Open Scope Z_scope.

(* ================================================================== *)
(** * Array helpers shared by both files *)
(* ================================================================== *)

(** [arr.splice(index, 0, x)]: insert [x] before position [index]. *)
Definition splice {A : Type} (arr : list A) (index : nat) (x : A) : list A :=
  firstn index arr ++ x :: skipn index arr.

(** [arr.slice(-1)[0]]: the last element, [undefined] on the empty array. *)
Definition last_opt {A : Type} (arr : list A) : option A :=
  match arr with
  | [] => None
  | x :: rest => Some (last rest x)
  end.

(** [arr.findIndex(p)], with [None] for JavaScript's [-1]. *)
Fixpoint findIndex {A : Type} (p : A -> bool) (arr : list A) : option nat :=
  match arr with
  | [] => None
  | x :: rest => if p x then Some O else option_map S (findIndex p rest)
  end.

(** How a call ends: a value, a thrown error, or (a device of the model
    only) the recursion budget of a loop ran out. *)
Inductive Outcome (A : Type) : Type :=
| Ok (a : A)
| Throw (msg : String.string)
| OutOfFuel.
Arguments Ok {A} a.
Arguments Throw {A} msg.
Arguments OutOfFuel {A}.

(** [lodash.sortBy(arr, [key])]: a stable ascending sort, here by insertion;
    [ltb] is JavaScript's [<] on the keys. *)
Fixpoint insertBy {A K : Type} (ltb : K -> K -> bool) (key : A -> K)
    (x : A) (sorted : list A) : list A :=
  match sorted with
  | [] => [x]
  | y :: rest =>
      if ltb (key y) (key x)
      then y :: insertBy ltb key x rest
      else x :: y :: rest
  end.

Definition sortBy {A K : Type} (ltb : K -> K -> bool) (key : A -> K)
    (arr : list A) : list A :=
  fold_right (insertBy ltb key) [] arr.

(* ================================================================== *)
(** * src/BlockFinder.js *)
(* ================================================================== *)

Module BlockFinder.

(** A block as the locator reads it: [{number, timestamp}]. *)
Record Block : Type := mkBlock { number : Z; timestamp : Z }.

(** What [requestBlock] is called with: the ["latest"] sentinel or a number. *)
Inductive BlockId : Type :=
| Latest
| Num (n : Z).

(** Methods read and mutate [this.blocks]; a throw keeps the mutations made
    so far, so the cache is returned on every outcome. *)
Definition M (A : Type) : Type := list Block -> Outcome A * list Block.

Definition ret {A} (a : A) : M A := fun blocks => (Ok a, blocks).
Definition throw {A} (msg : String.string) : M A := fun blocks => (Throw msg, blocks).
Definition out_of_fuel {A} : M A := fun blocks => (OutOfFuel, blocks).
Definition bind {A B} (m : M A) (k : A -> M B) : M B :=
  fun blocks =>
    match m blocks with
    | (Ok a, blocks') => k a blocks'
    | (Throw msg, blocks') => (Throw msg, blocks')
    | (OutOfFuel, blocks') => (OutOfFuel, blocks')
    end.
Definition this_blocks : M (list Block) := fun blocks => (Ok blocks, blocks).

(** A property of the cache that every step of a method keeps. *)
Definition preserves (P : list Block -> Prop) {A : Type} (m : M A) : Prop :=
  forall blocks, P blocks -> P (snd (m blocks)).

Notation "x <- m ;; k" := (bind m (fun x => k))
  (at level 61, m at next level, right associativity).
Notation "m ;;; k" := (bind m (fun _ => k))
  (at level 61, right associativity).

(** lodash's [baseSortedIndexBy]: the binary search
    [while (low < high) { mid = floor((low + high) / 2); if (key(arr[mid]) <
    value) low = mid + 1; else high = mid; } return high].  The loop runs at
    most [high - low] times, which is the budget [sortedIndexBy] gives it. *)
Fixpoint baseSortedIndexBy (budget : nat) (key : Block -> Z) (arr : list Block)
    (value : Z) (low high : nat) : nat :=
  match budget with
  | O => high
  | S budget' =>
      if (low <? high)%nat then
        let mid := ((low + high) / 2)%nat in
        match nth_error arr mid with
        | Some b =>
            if key b <? value
            then baseSortedIndexBy budget' key arr value (S mid) high
            else baseSortedIndexBy budget' key arr value low mid
        | None => baseSortedIndexBy budget' key arr value low mid
        end
      else high
  end.

Definition sortedIndexBy (arr : list Block) (value : Z) (key : Block -> Z) : nat :=
  baseSortedIndexBy (length arr) key arr value 0 (length arr).

(** [lodash.clamp(n, lower, upper)]: first cap by [upper], then by [lower]. *)
Definition clamp (n lower upper : Z) : Z := Z.max lower (Z.min n upper).

Section Locator.

(** The node behind [requestBlock]. *)
Variable requestBlock : BlockId -> Block.

(** [estimateBlocksElapsed(seconds, 1.1)], i.e.
    [Math.floor((seconds * 2.1) / 13.5)] in double arithmetic, and the
    interpolated guess of [findBlock],
    [startBlock.number + Math.round(blockPercentile * totalBlockDistance)].
    Both are computed in floating point by the source; the locator only uses
    them as hints ([Math.max(_, 1)], [clamp]), so the model takes them as
    arbitrary integer-valued functions. *)
Variable estimateBlocksElapsed : Z -> Z.
Variable estimatedBlock : Block -> Block -> Z -> Z.

(** [getLatestBlock]. *)
Definition getLatestBlock : M Block :=
  fun blocks =>
    let block := requestBlock Latest in
    let index := sortedIndexBy blocks (number block) number in
    let blocks' :=
      match nth_error blocks index with
      | Some b =>
          if negb (number b =? number block)
          then splice blocks index block else blocks
      | None => splice blocks index block
      end in
    match nth_error blocks' index with
    | Some b => (Ok b, blocks')
    | None => (Throw "TypeError: undefined block", blocks')
    end.

(** [getBlock(number)]. *)
Definition getBlock (n : Z) : M Block :=
  fun blocks =>
    let index := sortedIndexBy blocks n number in
    let cached :=
      match nth_error blocks index with
      | Some b => if number b =? n then Some b else None
      | None => None
      end in
    match cached with
    | Some b => (Ok b, blocks)
    | None =>
        let block := requestBlock (Num n) in
        (Ok block, splice blocks index block)
    end.

(** [findBlock(_startBlock, _endBlock, timestamp)]; either argument may be
    [undefined] (an out-of-range array read), and reading a field of
    [undefined] throws. *)
Fixpoint findBlock (fuel : nat) (_startBlock _endBlock : option Block)
    (ts : Z) : M Block :=
  match fuel with
  | O => out_of_fuel
  | S fuel' =>
      match _endBlock with
      | None => throw "TypeError: endBlock is undefined"
      | Some endBlock =>
          if timestamp endBlock =? ts then ret endBlock
          else
            match _startBlock with
            | None => throw "TypeError: startBlock is undefined"
            | Some startBlock =>
                if number endBlock =? number startBlock + 1 then ret startBlock
                else if number endBlock =? number startBlock
                then throw "startBlock cannot equal endBlock"
                else if negb ((ts <? timestamp endBlock)
                              && (timestamp startBlock <? ts))
                then throw "timestamp not in between start and end blocks"
                else
                  newBlock <- getBlock (clamp (estimatedBlock startBlock endBlock ts)
                                              (number startBlock + 1)
                                              (number endBlock - 1)) ;;
                  if timestamp newBlock <? ts
                  then findBlock fuel' (Some newBlock) (Some endBlock) ts
                  else findBlock fuel' (Some startBlock) (Some newBlock) ts
            end
      end
  end.

(** The backward walk of [getBlockForTimestamp]:
    [for (let multiplier = 1; ; multiplier++) { ... }]. *)
Fixpoint searchBackwards (fuel : nat) (initialBlock : Block)
    (incrementDistance ts multiplier : Z) : M unit :=
  match fuel with
  | O => out_of_fuel
  | S fuel' =>
      let distance := multiplier * incrementDistance in
      let blockNumber := Z.max 0 (number initialBlock - distance) in
      block <- getBlock blockNumber ;;
      if timestamp block <=? ts then ret tt
      else if 0 <? blockNumber
      then searchBackwards fuel' initialBlock incrementDistance ts (multiplier + 1)
      else throw "timestamp is before block 0"
  end.

(** [getBlockForTimestamp(timestamp)], lines 25-44: with the cache's last
    block at or after [ts], walk back if the first cached block is too late,
    then bracket [ts] in the cache and narrow. *)
Definition searchCache (fuel : nat) (ts : Z) : M Block :=
  blocks <- this_blocks ;;
  match nth_error blocks 0 with
  | None => throw "TypeError: blocks[0] is undefined"
  | Some initialBlock =>
      (if ts <? timestamp initialBlock
       then
         let incrementDistance :=
           Z.max (estimateBlocksElapsed (timestamp initialBlock - ts)) 1 in
         searchBackwards fuel initialBlock incrementDistance ts 1
       else ret tt) ;;;
      blocks <- this_blocks ;;
      let index := sortedIndexBy blocks ts timestamp in
      findBlock fuel
        (match index with O => None | S i => nth_error blocks i end)
        (nth_error blocks index) ts
  end.

(** [getBlockForTimestamp(timestamp)]: lines 16-23 (fetch the head when the
    cache is empty or ends too early, and return it if it is early enough),
    then the search above. *)
Definition getBlockForTimestamp (fuel : nat) (ts : Z) : M Block :=
  blocks <- this_blocks ;;
  early <- (if match last_opt blocks with
               | None => true
               | Some lastBlock => timestamp lastBlock <? ts
               end
            then block <- getLatestBlock ;;
                 if timestamp block <=? ts then ret (Some block) else ret None
            else ret None) ;;
  match early with
  | Some block => ret block
  | None => searchCache fuel ts
  end.

End Locator.

(** The two hints evaluated in exact arithmetic (the source rounds them
    through doubles): [floor(seconds * 2.1 / 13.5)] and
    [start.number + round((ts - start.ts) / (end.ts - start.ts) * distance)]. *)
Definition estimateBlocksElapsed_exact (seconds : Z) : Z :=
  (seconds * 21) / 135.

Definition estimatedBlock_exact (startBlock endBlock : Block) (ts : Z) : Z :=
  let totalTimeDifference := timestamp endBlock - timestamp startBlock in
  let totalBlockDistance := number endBlock - number startBlock in
  number startBlock
  + (2 * (ts - timestamp startBlock) * totalBlockDistance + totalTimeDifference)
    / (2 * totalTimeDifference).

(** ** Specification vocabulary for the locator *)

(** The cache invariant: strictly ascending by block number (hence at most
    one entry per number). *)
Definition cache_sorted (blocks : list Block) : Prop :=
  StronglySorted (fun a b => number a < number b) blocks.

(** An array is ascending (not necessarily strictly) by [key]. *)
Definition ascending_by (key : Block -> Z) (arr : list Block) : Prop :=
  forall i j a b, (i <= j)%nat ->
    nth_error arr i = Some a -> nth_error arr j = Some b -> key a <= key b.

Section Chain.

Variable requestBlock : BlockId -> Block.
Variable estimateBlocksElapsed : Z -> Z.
Variable estimatedBlock : Block -> Block -> Z -> Z.

(** The chain head and the block with a given number, as the node reports
    them. *)
Definition head : Block := requestBlock Latest.
Definition block_at (n : Z) : Block := requestBlock (Num n).

(** The node answers a request by number with the block of that number. *)
Definition answers_by_number : Prop :=
  forall n, number (block_at n) = n.

(** A chain that does not change during the run: blocks [0 .. head] exist,
    ["latest"] is the block with the highest number, and timestamps strictly
    increase with the block number. *)
Definition chain_ok : Prop :=
  answers_by_number /\
  0 <= number head /\
  block_at (number head) = head /\
  (forall m n, 0 <= m -> m < n -> n <= number head ->
     timestamp (block_at m) < timestamp (block_at n)).

(** A cache entry is a block of the chain. *)
Definition on_chain (b : Block) : Prop :=
  0 <= number b <= number head /\ block_at (number b) = b.

(** Cache states the locator's operations can produce, starting from the
    empty cache of the constructor; [getBlock] is asked for blocks that
    exist.  An operation that throws still leaves its insertions behind. *)
Inductive reachable : list Block -> Prop :=
| reach_new : reachable []
| reach_getLatestBlock blocks :
    reachable blocks ->
    reachable (snd (getLatestBlock requestBlock blocks))
| reach_getBlock blocks n :
    reachable blocks -> 0 <= n <= number head ->
    reachable (snd (getBlock requestBlock n blocks))
| reach_getBlockForTimestamp blocks fuel ts :
    reachable blocks ->
    reachable (snd (getBlockForTimestamp requestBlock estimateBlocksElapsed
                      estimatedBlock fuel ts blocks)).

(** The cache holds blocks of the chain, strictly ascending by number. *)
Definition cache_valid (blocks : list Block) : Prop :=
  cache_sorted blocks /\ Forall on_chain blocks.

(** [B] is the latest block at or before [ts]: its timestamp is at most [ts]
    and it is the head or its successor by number is later than [ts]. *)
Definition latest_at_or_before (ts : Z) (B : Block) : Prop :=
  on_chain B /\
  timestamp B <= ts /\
  (B = head \/ (number B < number head /\ ts < timestamp (block_at (number B + 1)))).

End Chain.

(** A three-block chain used to exercise the locator: block [n] is stamped
    [100 + 100 * n] and block 2 is the head. *)
Definition example_requestBlock (id : BlockId) : Block :=
  match id with
  | Latest => mkBlock 2 300
  | Num n => mkBlock n (100 + 100 * n)
  end.

End BlockFinder.

(* ================================================================== *)
(** * The main script: the adaptive event fetcher *)
(* ================================================================== *)

Module Fetcher.

Section Fetch.

Variable Event : Type.

(** The node's log: the events of the requested kind in each block. *)
Variable eventsAt : Z -> list Event.

(** The fault pattern: whether the request number [attempt] (counted from 0)
    for the inclusive range [fromBlock .. toBlock] fails. *)
Variable fails : nat -> Z -> Z -> bool.

(** The blocks [fromBlock .. toBlock], ascending. *)
Definition blockRangeOf (fromBlock toBlock : Z) : list Z :=
  map (fun i => fromBlock + Z.of_nat i) (seq 0 (Z.to_nat (toBlock - fromBlock + 1))).

(** [contract.getPastEvents(eventName, {fromBlock, toBlock})]: [None] when
    the request throws, otherwise every event of the range, once. *)
Definition getPastEvents (attempt : nat) (fromBlock toBlock : Z)
  : option (list Event) :=
  if fails attempt fromBlock toBlock then None
  else Some (flat_map eventsAt (blockRangeOf fromBlock toBlock)).

(** The [while (true)] loop of [getRateLimitedEvents]; [requested] records
    the ranges of the requests that succeeded (it is not in the source and
    does not influence the loop). *)
Fixpoint fetchLoop (fuel attempt : nat) (toBlock : Z) (events : list Event)
    (requested : list (Z * Z)) (lastBlock blockRange : Z)
  : option (list Event * list (Z * Z)) :=
  match fuel with
  | O => None
  | S fuel' =>
      let hi := Z.min (lastBlock + blockRange) toBlock in
      match getPastEvents attempt (lastBlock + 1) hi with
      | None =>
          (* catch: blockRange = Math.max(parseInt(blockRange / 2), 1) *)
          fetchLoop fuel' (S attempt) toBlock events requested lastBlock
            (Z.max (Z.quot blockRange 2) 1)
      | Some found =>
          let events := events ++ found in
          let requested := requested ++ [(lastBlock + 1, hi)] in
          if lastBlock + 1 + blockRange <? toBlock
          then fetchLoop fuel' (S attempt) toBlock events requested
                 (lastBlock + blockRange) (blockRange * 2)
          else Some (events, requested)
      end
  end.

(** [getRateLimitedEvents(contract, eventName, fromBlock, toBlock)]; [None]
    only when the budget of the model runs out. *)
Definition getRateLimitedEvents_trace (fuel : nat) (fromBlock toBlock : Z)
  : option (list Event * list (Z * Z)) :=
  let lastBlock := fromBlock - 1 in
  let blockRange := toBlock - lastBlock in
  fetchLoop fuel 0 toBlock [] [] lastBlock blockRange.

Definition getRateLimitedEvents (fuel : nat) (fromBlock toBlock : Z)
  : option (list Event) :=
  option_map fst (getRateLimitedEvents_trace fuel fromBlock toBlock).

End Fetch.

(** The scenario of the specification: one synthetic event per block (its
    block number), and every request for more than 50 blocks fails. *)
Definition synthetic_events (n : Z) : list Z := [n].
Definition fails_above_50 (_ : nat) (fromBlock toBlock : Z) : bool :=
  50 <? toBlock - fromBlock + 1.

End Fetcher.

(* ================================================================== *)
(** * The main script: balances, prices, TVL and TWAP *)
(* ================================================================== *)

Module Tvl.

(** ** JavaScript numbers

    Balances, prices, values and timestamps are JavaScript numbers.  The
    model is written once over the operations the script uses and is run on
    two carriers: IEEE 754 doubles (what node computes) and exact rationals
    (the arithmetic the specification reasons in). *)
Class JSNumber (num : Type) : Type := {
  num_of_Z : Z -> num;               (* the literals [0] and [1000] *)
  num_add : num -> num -> num;
  num_sub : num -> num -> num;
  num_mul : num -> num -> num;
  num_div : num -> num -> num;
  num_ltb : num -> num -> bool;      (* [a < b];  [a > b] is [b < a] *)
  num_leb : num -> num -> bool;      (* [a <= b]; [a >= b] is [b <= a] *)
  num_truthy : num -> bool           (* neither [0] nor [NaN] *)
}.

(** Doubles: primitive binary64 floats, round-to-nearest-even. *)
Definition double_of_Z (z : Z) : float :=
  match z with
  | Z0 => PrimFloat.zero
  | Zpos _ => PrimFloat.of_uint63 (Uint63.of_Z z)
  | Zneg p => PrimFloat.opp (PrimFloat.of_uint63 (Uint63.of_Z (Zpos p)))
  end.

Definition double_truthy (x : float) : bool :=
  negb (PrimFloat.eqb x PrimFloat.zero) && negb (PrimFloat.is_nan x).

#[export] Instance double_number : JSNumber float := {
  num_of_Z := double_of_Z;
  num_add := PrimFloat.add;
  num_sub := PrimFloat.sub;
  num_mul := PrimFloat.mul;
  num_div := PrimFloat.div;
  num_ltb := PrimFloat.ltb;
  num_leb := PrimFloat.leb;
  num_truthy := double_truthy
}.

(** Exact rationals.  (Division by zero, which JavaScript answers with an
    infinity or [NaN], is [0] here; no statement below divides by zero.) *)
Definition exact_ltb (a b : Qc) : bool :=
  match (a ?= b)%Qc with Lt => true | _ => false end.
Definition exact_leb (a b : Qc) : bool :=
  match (a ?= b)%Qc with Gt => false | _ => true end.
Definition exact_truthy (a : Qc) : bool :=
  match (a ?= Q2Qc 0)%Qc with Eq => false | _ => true end.

#[export] Instance exact_number : JSNumber Qc := {
  num_of_Z := fun z => Q2Qc (inject_Z z);
  num_add := Qcplus;
  num_sub := Qcminus;
  num_mul := Qcmult;
  num_div := Qcdiv;
  num_ltb := exact_ltb;
  num_leb := exact_leb;
  num_truthy := exact_truthy
}.

(** What the proofs about ordering need of the comparisons: a total order
    (so no [NaN] among the numbers compared). *)
Class JSNumberOrder (num : Type) `{JSNumber num} : Prop := {
  num_leb_total : forall a b : num, num_ltb a b = false -> num_leb b a = true;
  num_ltb_leb : forall a b : num, num_ltb a b = true -> num_leb a b = true;
  num_leb_not_ltb : forall a b : num, num_leb a b = true -> num_ltb b a = false;
  num_leb_trans : forall a b c : num,
    num_leb a b = true -> num_leb b c = true -> num_leb a c = true;
  num_ltb_leb_trans : forall a b c : num,
    num_ltb a b = true -> num_leb b c = true -> num_ltb a c = true
}.

(** [0] is falsy. *)
Class JSNumberZero (num : Type) `{JSNumber num} : Prop := {
  num_zero_falsy : num_truthy (num_of_Z 0) = false
}.

(** ** Objects with optional fields

    A field that is absent reads as [undefined]; in arithmetic [undefined]
    becomes [NaN], which every operation propagates and every comparison
    rejects.  [None] stands for both. *)
Section JSValues.

Context {num : Type} `{JSNumber num}.

Definition lift2 (op : num -> num -> num) (a b : option num) : option num :=
  match a, b with
  | Some x, Some y => Some (op x y)
  | _, _ => None
  end.

Definition js_add := lift2 num_add.
Definition js_sub := lift2 num_sub.
Definition js_mul := lift2 num_mul.
Definition js_div := lift2 num_div.

Definition js_lt (a b : option num) : bool :=
  match a, b with
  | Some x, Some y => num_ltb x y
  | _, _ => false
  end.

Definition js_le (a b : option num) : bool :=
  match a, b with
  | Some x, Some y => num_leb x y
  | _, _ => false
  end.

Definition js_gt (a b : option num) : bool := js_lt b a.
Definition js_ge (a b : option num) : bool := js_le b a.

Definition js_truthy (a : option num) : bool :=
  match a with
  | Some x => num_truthy x
  | None => false
  end.

End JSValues.

(** A balance sample.  [main] creates it as [{blockNumber, rawBalance}] and
    adds [tokenBalance], [timestamp], [price] and [value] later;
    [addFirstBalance] and the price loop create samples without the first
    two.  [rawBalance] is a big integer (BN); [tokenBalance] is the decimal
    string of [fromWei], which the script only uses as a number. *)
Record BalanceItem (num : Type) : Type := mkBalanceItem {
  blockNumber : option Z;
  rawBalance : option Z;
  tokenBalance : option num;
  timestamp : option num;
  price : option num;
  value : option num
}.
Arguments mkBalanceItem {num} _ _ _ _ _ _.
Arguments blockNumber {num} _.
Arguments rawBalance {num} _.
Arguments tokenBalance {num} _.
Arguments timestamp {num} _.
Arguments price {num} _.
Arguments value {num} _.

(** A decoded bridge event: [{token, netAmount, blockNumber}]. *)
Record Transaction : Type := mkTransaction {
  token : String.string;
  netAmount : Z;
  txBlockNumber : Z
}.

(** An object used as a map from token address to an array, in insertion
    order (the order [for ... in] visits it). *)
Definition TokenMap (A : Type) : Type := list (String.string * A).

Fixpoint lookup {A : Type} (key : String.string) (m : TokenMap A) : option A :=
  match m with
  | [] => None
  | (k, v) :: rest => if String.eqb k key then Some v else lookup key rest
  end.

(** [m[key] = v] for a key that is present keeps its place; a new key is
    added at the end. *)
Fixpoint assign {A : Type} (key : String.string) (v : A) (m : TokenMap A)
  : TokenMap A :=
  match m with
  | [] => [(key, v)]
  | (k, old) :: rest =>
      if String.eqb k key then (k, v) :: rest else (k, old) :: assign key v rest
  end.

Section Script.

Context {num : Type} `{JSNumber num}.

(** *** Balance reconstruction (lines 205-218 of the script) *)

(** One step of [sortedBridgeTransactions.forEach]: pushing onto
    [balances[token]] mutates the array the map holds. *)
Definition recordTransaction (balances : TokenMap (list (BalanceItem num)))
    (transaction : Transaction)
  : Outcome (TokenMap (list (BalanceItem num))) :=
  match lookup (token transaction) balances with
  | Some items =>
      match last_opt items with
      | None => Throw "TypeError: reading rawBalance of undefined"
      | Some lastItem =>
          match rawBalance lastItem with
          | None => Throw "TypeError: rawBalance is undefined"
          | Some raw =>
              Ok (assign (token transaction)
                    (items ++ [mkBalanceItem (Some (txBlockNumber transaction))
                                 (Some (raw + netAmount transaction))
                                 None None None None])
                    balances)
          end
      end
  | None =>
      Ok (assign (token transaction)
            [mkBalanceItem (Some (txBlockNumber transaction))
               (Some (netAmount transaction)) None None None None]
            balances)
  end.

Fixpoint recordTransactions (balances : TokenMap (list (BalanceItem num)))
    (transactions : list Transaction)
  : Outcome (TokenMap (list (BalanceItem num))) :=
  match transactions with
  | [] => Ok balances
  | transaction :: rest =>
      match recordTransaction balances transaction with
      | Ok balances' => recordTransactions balances' rest
      | Throw msg => Throw msg
      | OutOfFuel => OutOfFuel
      end
  end.

(** [lodash.sortBy(rawBridgeTransactions, ["blockNumber"])] followed by the
    [forEach] that fills [balances], starting from [{}]. *)
Definition reconstructBalances (rawBridgeTransactions : list Transaction)
  : Outcome (TokenMap (list (BalanceItem num))) :=
  let sortedBridgeTransactions :=
    sortBy Z.ltb txBlockNumber rawBridgeTransactions in
  recordTransactions [] sortedBridgeTransactions.

(** The reference for the reconstruction, in the specification's words: the
    samples of one asset carry the running sum of its signed amounts, one
    sample per event, in the order the events are processed. *)
Definition eventsOf (tokenAddress : String.string) (transactions : list Transaction)
  : list Transaction :=
  filter (fun transaction => String.eqb (token transaction) tokenAddress)
         transactions.

Definition sumZ (amounts : list Z) : Z := fold_right Z.add 0 amounts.

Fixpoint runningSamples (sumSoFar : Z) (events : list Transaction)
  : list (BalanceItem num) :=
  match events with
  | [] => []
  | event :: rest =>
      mkBalanceItem (Some (txBlockNumber event))
        (Some (sumSoFar + netAmount event)) None None None None
      :: runningSamples (sumSoFar + netAmount event) rest
  end.

(** What [balances] holds after the events [processed]: for each asset its
    running samples, and no entry for an asset without events. *)
Definition holds (balances : TokenMap (list (BalanceItem num)))
    (processed : list Transaction) : Prop :=
  forall tokenAddress,
    lookup tokenAddress balances
    = match eventsOf tokenAddress processed with
      | [] => None
      | events => Some (runningSamples 0 events)
      end.

(** *** [getCoingeckoPriceAt] *)

(** A price point is the pair [[timestampMillis, price]]; [timestamp] is
    [undefined] for a sample outside the requested range. *)
Definition getCoingeckoPriceAt (tokenPrices : TokenMap (list (num * num)))
    (tokenAddress : String.string) (timestamp : option num) : Outcome num :=
  match lookup tokenAddress tokenPrices with
  | None => Throw "TypeError: tokenPrices[tokenAddress] is undefined"
  | Some prices =>
      let nextPriceIndex :=
        findIndex (fun timestampPrice : num * num =>
                     js_gt (Some (num_div (fst timestampPrice) (num_of_Z 1000)))
                           timestamp) prices in
      match nextPriceIndex with
      | None =>
          match last_opt prices with
          | Some timestampPrice => Ok (snd timestampPrice)
          | None => Throw "TypeError: reading [1] of undefined"
          end
      | Some O =>
          Throw (String.append "No price available for " tokenAddress)
      | Some (S i) =>
          match nth_error prices i with
          | Some timestampPrice => Ok (snd timestampPrice)
          | None => Throw "TypeError: reading [1] of undefined"
          end
      end
  end.

(** *** [addFirstBalance] *)

(** [{...item, ...{timestamp: startTimestamp}}]; spreading [undefined]
    contributes no field. *)
Definition emptyItem : BalanceItem num :=
  mkBalanceItem None None None None None None.

Definition withTimestamp (item : option (BalanceItem num)) (startTimestamp : num)
  : BalanceItem num :=
  match item with
  | Some b =>
      mkBalanceItem (blockNumber b) (rawBalance b) (tokenBalance b)
        (Some startTimestamp) (price b) (value b)
  | None =>
      mkBalanceItem None None None (Some startTimestamp) None None
  end.

(** [{...{tokenBalance: 0, value: 0}, ...{timestamp: startTimestamp}}]. *)
Definition zeroItem (startTimestamp : num) : BalanceItem num :=
  mkBalanceItem None None (Some (num_of_Z 0)) (Some startTimestamp) None
    (Some (num_of_Z 0)).

(** The array is mutated in place; the model returns its new contents. *)
Definition addFirstBalance (tokenBalances : list (BalanceItem num))
    (startTimestamp : num) : list (BalanceItem num) :=
  let firstBalanceIndex :=
    findIndex (fun balanceItem =>
                 js_gt (timestamp balanceItem) (Some startTimestamp))
              tokenBalances in
  match firstBalanceIndex with
  | None =>
      tokenBalances ++ [withTimestamp (last_opt tokenBalances) startTimestamp]
  | Some O =>
      splice tokenBalances 0 (zeroItem startTimestamp)
  | Some (S i) =>
      splice tokenBalances (S i)
        (withTimestamp (nth_error tokenBalances i) startTimestamp)
  end.

(** *** [calculateTwap] *)

(** The filter: [balanceItem.timestamp && balanceItem.timestamp >=
    startTimestamp && balanceItem.timestamp < endTimestamp]. *)
Definition selected (startTimestamp endTimestamp : num)
    (balanceItem : BalanceItem num) : bool :=
  js_truthy (timestamp balanceItem)
  && js_ge (timestamp balanceItem) (Some startTimestamp)
  && js_lt (timestamp balanceItem) (Some endTimestamp).

(** Reading a field of an array slot; the slots read by [calculateTwap] are
    always in range, an out-of-range one would read as [undefined]. *)
Definition field {A : Type} (f : BalanceItem num -> option A)
    (slot : option (BalanceItem num)) : option A :=
  match slot with
  | Some b => f b
  | None => None
  end.

Definition calculateTwap (tokenBalances : list (BalanceItem num))
    (startTimestamp endTimestamp : num) : option num :=
  let selectedBalances :=
    filter (selected startTimestamp endTimestamp) tokenBalances in
  let cumValue :=
    fold_left
      (fun (cumValue : option num) (entry : BalanceItem num * nat) =>
         let (balanceItem, balanceIndex) := entry in
         let timePeriod :=
           if (balanceIndex <? length selectedBalances - 1)%nat
           then js_sub (field timestamp (nth_error selectedBalances (balanceIndex + 1)))
                       (timestamp balanceItem)
           else js_sub (Some endTimestamp) (timestamp balanceItem) in
         js_add cumValue
           (js_mul (field value (nth_error selectedBalances balanceIndex)) timePeriod))
      (combine selectedBalances (seq 0 (length selectedBalances)))
      (Some (num_of_Z 0)) in
  js_div cumValue (Some (num_sub endTimestamp startTimestamp)).

(** The integration as the specification words it: each selected sample is
    weighted by the time until the next selected sample, the last one by the
    time until [endTimestamp]; the weighted values are summed in order and
    divided by the length of the window.  [select] says which samples are
    selected. *)
Fixpoint weightedSum (endTimestamp : num) (samples : list (BalanceItem num))
    (acc : option num) : option num :=
  match samples with
  | [] => acc
  | sample :: rest =>
      let weight :=
        match rest with
        | next :: _ => js_sub (timestamp next) (timestamp sample)
        | [] => js_sub (Some endTimestamp) (timestamp sample)
        end in
      weightedSum endTimestamp rest (js_add acc (js_mul (value sample) weight))
  end.

Definition twapBy (select : BalanceItem num -> bool)
    (series : list (BalanceItem num)) (startTimestamp endTimestamp : num)
  : option num :=
  js_div (weightedSum endTimestamp (filter select series) (Some (num_of_Z 0)))
         (Some (num_sub endTimestamp startTimestamp)).

(** "Those with timestamp in [[start, end)]". *)
Definition inWindow (startTimestamp endTimestamp : num)
    (sample : BalanceItem num) : bool :=
  js_ge (timestamp sample) (Some startTimestamp)
  && js_lt (timestamp sample) (Some endTimestamp).

(** *** The "Total" series (lines 283-312 of the script) *)

(** An entry of [combinedBalances]. *)
Record CombinedItem : Type := mkCombinedItem {
  c_tokenAddress : String.string;
  c_timestamp : option num;
  c_value : option num;
  c_previousValue : option num
}.

(** The callback of [balances[tokenAddress].forEach] at index
    [balanceIndex]: what it pushes onto [combinedBalances]. *)
Definition combinedEntry (fromTimestamp : num) (tokenAddress : String.string)
    (series : list (BalanceItem num)) (balanceItem : BalanceItem num)
    (balanceIndex : nat) : list CombinedItem :=
  if negb (js_truthy (timestamp balanceItem))
     || js_lt (timestamp balanceItem) (Some fromTimestamp)
  then []
  else
    let previousValue :=
      match balanceIndex with
      | O => Some (num_of_Z 0)
      | S previousIndex =>
          if js_ge (field timestamp (nth_error series previousIndex))
                   (Some fromTimestamp)
          then field value (nth_error series previousIndex)
          else Some (num_of_Z 0)
      end in
    [mkCombinedItem tokenAddress (timestamp balanceItem) (value balanceItem)
       previousValue].

Definition combinedOfToken (fromTimestamp : num)
    (entry : String.string * list (BalanceItem num)) : list CombinedItem :=
  let (tokenAddress, series) := entry in
  flat_map (fun p : BalanceItem num * nat =>
              combinedEntry fromTimestamp tokenAddress series (fst p) (snd p))
           (combine series (seq 0 (length series))).

Definition combinedBalances (fromTimestamp : num)
    (balances : TokenMap (list (BalanceItem num))) : list CombinedItem :=
  flat_map (combinedOfToken fromTimestamp) balances.

(** [{timestamp, value}]. *)
Definition totalItem (ts v : option num) : BalanceItem num :=
  mkBalanceItem None None None ts None v.

(** [item.value = v], in place. *)
Definition withValue (item : BalanceItem num) (v : option num) : BalanceItem num :=
  mkBalanceItem (blockNumber item) (rawBalance item) (tokenBalance item)
    (timestamp item) (price item) v.

(** One step of [sortedBalances.forEach] on [balances["Total"]]. *)
Definition addToTotal (total : list (BalanceItem num)) (balanceItem : CombinedItem)
  : list (BalanceItem num) :=
  match last_opt total with
  | None =>
      total ++ [totalItem (c_timestamp balanceItem) (c_value balanceItem)]
  | Some lastTotal =>
      if js_lt (timestamp lastTotal) (c_timestamp balanceItem)
      then total ++ [totalItem (c_timestamp balanceItem)
                       (js_sub (js_add (value lastTotal) (c_value balanceItem))
                               (c_previousValue balanceItem))]
      else removelast total
           ++ [withValue lastTotal
                 (js_add (value lastTotal)
                         (js_sub (c_value balanceItem)
                                 (c_previousValue balanceItem)))]
  end.

Definition totalSeries (fromTimestamp : num)
    (balances : TokenMap (list (BalanceItem num))) : list (BalanceItem num) :=
  let sortedBalances :=
    sortBy js_lt c_timestamp (combinedBalances fromTimestamp balances) in
  fold_left addToTotal sortedBalances [].

(** The naive reference: at a timestamp, re-sum over every asset the value
    of its latest in-range sample at or before that timestamp ([0] for an
    asset with none). *)
Definition inRange (fromTimestamp : num) (sample : BalanceItem num) : bool :=
  js_truthy (timestamp sample) && js_ge (timestamp sample) (Some fromTimestamp).

Definition latestValue (fromTimestamp : num) (series : list (BalanceItem num))
    (at_ : num) : option num :=
  match last_opt (filter (fun sample =>
                            inRange fromTimestamp sample
                            && js_le (timestamp sample) (Some at_)) series) with
  | Some sample => value sample
  | None => Some (num_of_Z 0)
  end.

Definition naiveTotal (fromTimestamp : num)
    (balances : TokenMap (list (BalanceItem num))) (at_ : num) : option num :=
  fold_left (fun acc (entry : String.string * list (BalanceItem num)) =>
               js_add acc (latestValue fromTimestamp (snd entry) at_))
            balances (Some (num_of_Z 0)).

(** A series is sorted ascending by timestamp; samples without a timestamp
    (history before the requested range) come first. *)
Definition sampleLe (a b : BalanceItem num) : Prop :=
  match timestamp a, timestamp b with
  | None, _ => True
  | Some _, None => False
  | Some x, Some y => num_leb x y = true
  end.

Definition seriesSorted (series : list (BalanceItem num)) : Prop :=
  StronglySorted sampleLe series.

(** The time of a price point in seconds, as [getCoingeckoPriceAt] compares
    it: [timestampPrice[0] / 1000]. *)
Definition pointTime (timestampPrice : num * num) : num :=
  num_div (fst timestampPrice) (num_of_Z 1000).

Definition pricesAscending (prices : list (num * num)) : Prop :=
  StronglySorted (fun p q => num_leb (pointTime p) (pointTime q) = true) prices.

(** A sample is after [startTimestamp], or not after it (at or before it,
    or without a timestamp: history before the requested range). *)
Definition isAfter (startTimestamp : num) (sample : BalanceItem num) : Prop :=
  match timestamp sample with
  | Some t => num_ltb startTimestamp t = true
  | None => False
  end.

Definition notAfter (startTimestamp : num) (sample : BalanceItem num) : Prop :=
  match timestamp sample with
  | Some t => num_leb t startTimestamp = true
  | None => True
  end.

(** A sample that carries only a timestamp and a value. *)
Definition sampleAt (ts v : num) : BalanceItem num :=
  mkBalanceItem None None None (Some ts) None (Some v).

End Script.

Arguments CombinedItem num : clear implicits.

(** ** Vocabulary for the "Total" series in exact arithmetic *)

(** An entry of [combinedBalances] all of whose fields are present. *)
Record Delta : Type := mkDelta {
  d_token : String.string;
  d_time : Qc;
  d_value : Qc;
  d_previous : Qc
}.

Definition ofDelta (d : Delta) : CombinedItem Qc :=
  mkCombinedItem (d_token d) (Some (d_time d)) (Some (d_value d))
    (Some (d_previous d)).

(** The changes [value - previousValue] of the entries at or before [t],
    summed. *)
Definition deltaUpTo (deltas : list Delta) (t : Qc) : Qc :=
  fold_right (fun d acc =>
                if exact_leb (d_time d) t
                then (d_value d - d_previous d + acc)%Qc else acc)
             (Q2Qc 0) deltas.

(** The entries of one asset: each carries the value of the one before it
    as its previous value. *)
Fixpoint chain (tokenAddress : String.string) (previous : Qc)
    (points : list (Qc * Qc)) : list Delta :=
  match points with
  | [] => []
  | (t, v) :: rest =>
      mkDelta tokenAddress t v previous :: chain tokenAddress v rest
  end.

(** The [(timestamp, value)] points of the in-range samples of a series. *)
Definition pointsOf (fromTimestamp : Qc) (series : list (BalanceItem Qc))
  : list (Qc * Qc) :=
  flat_map (fun sample =>
              match timestamp sample, value sample with
              | Some t, Some v => [(t, v)]
              | _, _ => []
              end)
           (filter (inRange fromTimestamp) series).

(** The value of the last point at or before [t], [initial] if there is
    none. *)
Definition latestFrom (initial : Qc) (points : list (Qc * Qc)) (t : Qc) : Qc :=
  fold_left (fun current point =>
               if exact_leb (fst point) t then snd point else current)
            points initial.

(** Every entry either starts from [0] or comes after an entry (one of
    [seen] or an earlier one of the list) that is not later than it. *)
Fixpoint anchored (seen deltas : list Delta) : Prop :=
  match deltas with
  | [] => True
  | d :: rest =>
      (d_previous d = Q2Qc 0 \/
       exists d', In d' seen /\ (d_time d' <= d_time d)%Qc) /\
      anchored (d :: seen) rest
  end.

(** All entries of a collection of series, asset after asset. *)
Definition deltasOf (fromTimestamp : Qc)
    (balances : TokenMap (list (BalanceItem Qc))) : list Delta :=
  flat_map (fun entry : String.string * list (BalanceItem Qc) =>
              chain (fst entry) (Q2Qc 0) (pointsOf fromTimestamp (snd entry)))
           balances.

(** The input the aggregation is meant for: every series is sorted by
    timestamp and every in-range sample carries a value. *)
Definition valueSeries (fromTimestamp : Qc)
    (entry : String.string * list (BalanceItem Qc)) : Prop :=
  seriesSorted (snd entry) /\
  (forall sample, In sample (snd entry) ->
     inRange fromTimestamp sample = true -> exists v, value sample = Some v).

End Tvl.

(* ================================================================== *)
(** * The main script: decoding the bridge events *)
(* ================================================================== *)

Module Bridge.
Import Tvl.

(** [earliestBlock]: no events are looked for before the bridge was
    deployed. *)
Definition earliestBlock : Z := 13012048.

(** The address that stands for ether. *)
Definition zeroAddress : String.string :=
  "0x0000000000000000000000000000000000000000".

(** The four event kinds the script fetches from the L1 bridge. *)
Inductive EventName : Type :=
| ETHDepositInitiated
| ERC20DepositInitiated
| ETHWithdrawalFinalized
| ERC20WithdrawalFinalized.

(** An event as the node returns it, reduced to the fields the script
    reads: [returnValues._l1Token] (ETH events have none, and it is not read
    for them), [returnValues._amount] (a [uint256], turned into a big integer
    by [toBN]) and [blockNumber]. *)
Record BridgeEvent : Type := mkBridgeEvent {
  returnValues_l1Token : String.string;
  returnValues_amount : Z;
  event_blockNumber : Z
}.

Section Decoders.

(** The bridge's log per event kind and block, and the fault pattern of the
    node per event kind (the four fetches run independently). *)
Variable eventsAt : EventName -> Z -> list BridgeEvent.
Variable fails : EventName -> nat -> Z -> Z -> bool.

(** [getRateLimitedEvents(contract, eventName, earliestBlock, toBlock)]. *)
Definition getBridgeEvents (eventName : EventName) (fuel : nat) (toBlock : Z)
  : option (list BridgeEvent) :=
  Fetcher.getRateLimitedEvents BridgeEvent (eventsAt eventName) (fails eventName)
    fuel earliestBlock toBlock.

Definition getEthDepositInitiated (fuel : nat) (toBlock : Z)
  : option (list Transaction) :=
  option_map
    (map (fun event =>
            mkTransaction zeroAddress (returnValues_amount event)
              (event_blockNumber event)))
    (getBridgeEvents ETHDepositInitiated fuel toBlock).

Definition getErc20DepositInitiated (fuel : nat) (toBlock : Z)
  : option (list Transaction) :=
  option_map
    (map (fun event =>
            mkTransaction (returnValues_l1Token event) (returnValues_amount event)
              (event_blockNumber event)))
    (getBridgeEvents ERC20DepositInitiated fuel toBlock).

Definition getEthWithdrawalFinalized (fuel : nat) (toBlock : Z)
  : option (list Transaction) :=
  option_map
    (map (fun event =>
            mkTransaction zeroAddress (- returnValues_amount event)
              (event_blockNumber event)))
    (getBridgeEvents ETHWithdrawalFinalized fuel toBlock).

Definition getErc20WithdrawalFinalized (fuel : nat) (toBlock : Z)
  : option (list Transaction) :=
  option_map
    (map (fun event =>
            mkTransaction (returnValues_l1Token event) (- returnValues_amount event)
              (event_blockNumber event)))
    (getBridgeEvents ERC20WithdrawalFinalized fuel toBlock).

(** [(await Promise.all([...])).flat()]: the four results, in the order of
    the array; [None] when the budget of one of the fetches runs out. *)
Definition rawBridgeTransactions (fuel : nat) (toBlock : Z)
  : option (list Transaction) :=
  match getEthDepositInitiated fuel toBlock,
        getErc20DepositInitiated fuel toBlock,
        getEthWithdrawalFinalized fuel toBlock,
        getErc20WithdrawalFinalized fuel toBlock with
  | Some ethDeposits, Some erc20Deposits, Some ethWithdrawals,
    Some erc20Withdrawals =>
      Some (ethDeposits ++ erc20Deposits ++ ethWithdrawals ++ erc20Withdrawals)
  | _, _, _, _ => None
  end.

(** Lines 198-218 of [main]: fetch, sort by block number, accumulate. *)
Definition bridgeBalances {num : Type} (fuel : nat) (toBlock : Z)
  : Outcome (TokenMap (list (BalanceItem num))) :=
  match rawBridgeTransactions fuel toBlock with
  | Some raw => reconstructBalances raw
  | None => OutOfFuel
  end.

(** The amounts of the events of one kind that concern [tokenAddress], in
    the blocks [earliestBlock .. lastBlock]: an ETH event concerns the zero
    address, an ERC20 event the token it names. *)
Definition concerns (eventName : EventName) (tokenAddress : String.string)
    (event : BridgeEvent) : bool :=
  match eventName with
  | ETHDepositInitiated | ETHWithdrawalFinalized =>
      String.eqb zeroAddress tokenAddress
  | ERC20DepositInitiated | ERC20WithdrawalFinalized =>
      String.eqb (returnValues_l1Token event) tokenAddress
  end.

Definition amountsOf (eventName : EventName) (tokenAddress : String.string)
    (lastBlock : Z) : list Z :=
  map returnValues_amount
    (filter (concerns eventName tokenAddress)
       (flat_map (eventsAt eventName)
          (Fetcher.blockRangeOf earliestBlock lastBlock))).

(** Deposits less withdrawals of [tokenAddress], each event kind taken up to
    its own last block. *)
Definition netDeposits (covered : EventName -> Z) (tokenAddress : String.string)
  : Z :=
  sumZ (amountsOf ETHDepositInitiated tokenAddress (covered ETHDepositInitiated))
  + sumZ (amountsOf ERC20DepositInitiated tokenAddress
            (covered ERC20DepositInitiated))
  - sumZ (amountsOf ETHWithdrawalFinalized tokenAddress
            (covered ETHWithdrawalFinalized))
  - sumZ (amountsOf ERC20WithdrawalFinalized tokenAddress
            (covered ERC20WithdrawalFinalized)).

End Decoders.

(** A small log: block [earliestBlock] holds an ether deposit of 5 and an
    ether withdrawal of 2; the node serves at most two blocks per request. *)
Definition example_eventsAt (eventName : EventName) (n : Z) : list BridgeEvent :=
  if n =? earliestBlock then
    match eventName with
    | ETHDepositInitiated => [mkBridgeEvent "" 5 n]
    | ETHWithdrawalFinalized => [mkBridgeEvent "" 2 n]
    | _ => []
    end
  else [].

Definition example_fails (_ : EventName) (_ : nat) (fromBlock toBlock : Z) : bool :=
  2 <? toBlock - fromBlock + 1.

End Bridge.

(* ================================================================== *)
(** * The main script: the steps of [main] *)
(* ================================================================== *)

Module Main.
Import Tvl.

(** ** Scaling by the token's decimals (lines 224-227)

    [rawBalance.mul(toBN(toWei("1"))).div(toBN("10").pow(toBN(tokenDecimals)))]
    on big integers; [div] truncates toward zero.  [fromWei] then writes the
    result as a decimal number of ether units, i.e. divided by [10^18]. *)
Definition scaledBalance (rawBalance tokenDecimals : Z) : Z :=
  Z.quot (rawBalance * 10 ^ 18) (10 ^ tokenDecimals).

(** [fromWei(wei)] read as an exact number. *)
Definition fromWei_exact (wei : Z) : Qc :=
  (Q2Qc (inject_Z wei) / Q2Qc (inject_Z (10 ^ 18)))%Qc.

Section Steps.

Context {num : Type} `{JSNumber num}.

(** ** The evaluation range (lines 179-189) *)

(** [argv.x ? argv.x : fallback]. *)
Definition orDefault (argument : option num) (fallback : num) : num :=
  match argument with
  | Some x => if num_truthy x then x else fallback
  | None => fallback
  end.

(** [now] is [Math.round(new Date().getTime() / 1000)]. *)
Definition resolveArguments (argv_from argv_to argv_interval : option num)
    (now : num) : Outcome (num * num * num) :=
  let toTimestamp := orDefault argv_to now in
  let fromTimestamp :=
    orDefault argv_from (num_sub toTimestamp (num_of_Z 86400)) in
  if num_ltb toTimestamp fromTimestamp
  then Throw "--from timestamp cannot be higher than --to timestamp"
  else
    let interval :=
      orDefault argv_interval
        (if num_ltb (num_of_Z 86400) (num_sub toTimestamp fromTimestamp)
         then num_of_Z 86400 else num_of_Z 3600) in
    Ok (fromTimestamp, toTimestamp, interval).

(** ** Prices and values of the samples (lines 256-261) *)

Definition priceItem (tokenPrices : TokenMap (list (num * num)))
    (tokenAddress : String.string) (balanceItem : BalanceItem num)
  : Outcome (BalanceItem num) :=
  match getCoingeckoPriceAt tokenPrices tokenAddress (timestamp balanceItem) with
  | Ok p =>
      Ok (mkBalanceItem (blockNumber balanceItem) (rawBalance balanceItem)
            (tokenBalance balanceItem) (timestamp balanceItem) (Some p)
            (js_mul (tokenBalance balanceItem) (Some p)))
  | Throw msg => Throw msg
  | OutOfFuel => OutOfFuel
  end.

(** [for (balanceItem of balances[tokenAddress])]: the first throw ends the
    script. *)
Fixpoint priceSeries (tokenPrices : TokenMap (list (num * num)))
    (tokenAddress : String.string) (tokenBalances : list (BalanceItem num))
  : Outcome (list (BalanceItem num)) :=
  match tokenBalances with
  | [] => Ok []
  | balanceItem :: rest =>
      match priceItem tokenPrices tokenAddress balanceItem with
      | Ok priced =>
          match priceSeries tokenPrices tokenAddress rest with
          | Ok rest' => Ok (priced :: rest')
          | Throw msg => Throw msg
          | OutOfFuel => OutOfFuel
          end
      | Throw msg => Throw msg
      | OutOfFuel => OutOfFuel
      end
  end.

(** ** A sample for every price change inside the range (lines 264-280) *)

(** [{timestamp, tokenBalance, price, value}] built from the sample before
    the price point. *)
Definition updatedValue (previous : BalanceItem num) (timestampPrice : num * num)
  : BalanceItem num :=
  mkBalanceItem None None (tokenBalance previous)
    (Some (pointTime timestampPrice)) (Some (snd timestampPrice))
    (js_mul (tokenBalance previous) (Some (snd timestampPrice))).

(** The body of the [if]: [findIndex] over the reversed copy answers [-1]
    when no sample is earlier than the price point, which makes
    [previousBalanceIndex] the array's length and the read of
    [.tokenBalance] throw. *)
Definition insertPriceUpdate (tokenBalances : list (BalanceItem num))
    (timestampPrice : num * num) : Outcome (list (BalanceItem num)) :=
  let reversedIndex :=
    findIndex (fun balanceItem =>
                 js_lt (timestamp balanceItem) (Some (pointTime timestampPrice)))
              (rev tokenBalances) in
  let previousBalanceIndex :=
    match reversedIndex with
    | Some j => (length tokenBalances - 1 - j)%nat
    | None => length tokenBalances
    end in
  match nth_error tokenBalances previousBalanceIndex with
  | Some previous =>
      Ok (splice tokenBalances (previousBalanceIndex + 1)
            (updatedValue previous timestampPrice))
  | None => Throw "TypeError: reading tokenBalance of undefined"
  end.

(** [for (timestampPrice of tokenPrices[tokenAddress])]. *)
Fixpoint updatePrices (fromTimestamp toTimestamp : num)
    (tokenBalances : list (BalanceItem num)) (prices : list (num * num))
  : Outcome (list (BalanceItem num)) :=
  match prices with
  | [] => Ok tokenBalances
  | timestampPrice :: rest =>
      if num_ltb fromTimestamp (pointTime timestampPrice)
         && num_ltb (pointTime timestampPrice) toTimestamp
      then
        match insertPriceUpdate tokenBalances timestampPrice with
        | Ok tokenBalances' =>
            updatePrices fromTimestamp toTimestamp tokenBalances' rest
        | Throw msg => Throw msg
        | OutOfFuel => OutOfFuel
        end
      else updatePrices fromTimestamp toTimestamp tokenBalances rest
  end.

(** Lines 235-280 of [main] as they act on the series of one token: the
    seed at [fromTimestamp], the price and value of every sample, a sample
    for every price change inside the range. *)
Definition valuedSeries (tokenPrices : TokenMap (list (num * num)))
    (tokenAddress : String.string) (fromTimestamp toTimestamp : num)
    (tokenBalances : list (BalanceItem num)) : Outcome (list (BalanceItem num)) :=
  match priceSeries tokenPrices tokenAddress
          (addFirstBalance tokenBalances fromTimestamp) with
  | Ok priced =>
      match lookup tokenAddress tokenPrices with
      | Some prices => updatePrices fromTimestamp toTimestamp priced prices
      | None => Throw "TypeError: tokenPrices[tokenAddress] is not iterable"
      end
  | Throw msg => Throw msg
  | OutOfFuel => OutOfFuel
  end.

(** ** The TWAP of every interval and of the whole range (lines 316-323) *)

(** [for (startTimestamp = fromTimestamp; startTimestamp < toTimestamp;
    startTimestamp += interval)]: each round seeds the series at the start of
    its interval (the array is mutated, so later rounds see the earlier
    seeds) and records the TWAP of the interval.  The object
    [twaps[tokenAddress]] is returned as the list of its entries in the order
    they are written. *)
Fixpoint intervalTwaps (fuel : nat) (tokenBalances : list (BalanceItem num))
    (startTimestamp toTimestamp interval : num)
  : Outcome (list (num * option num) * list (BalanceItem num)) :=
  match fuel with
  | O => OutOfFuel
  | S fuel' =>
      if num_ltb startTimestamp toTimestamp then
        let tokenBalances := addFirstBalance tokenBalances startTimestamp in
        let twap :=
          calculateTwap tokenBalances startTimestamp
            (num_add startTimestamp interval) in
        match intervalTwaps fuel' tokenBalances
                (num_add startTimestamp interval) toTimestamp interval with
        | Ok (twaps, tokenBalances') =>
            Ok ((startTimestamp, twap) :: twaps, tokenBalances')
        | Throw msg => Throw msg
        | OutOfFuel => OutOfFuel
        end
      else Ok ([], tokenBalances)
  end.

(** The body of [for (const tokenAddress in balances)]: the interval TWAPs,
    then [twaps[tokenAddress]["All"]] over the series as the loop left it. *)
Definition twapsOfToken (fuel : nat) (tokenBalances : list (BalanceItem num))
    (fromTimestamp toTimestamp interval : num)
  : Outcome (list (num * option num) * option num) :=
  match intervalTwaps fuel tokenBalances fromTimestamp toTimestamp interval with
  | Ok (twaps, tokenBalances') =>
      Ok (twaps, calculateTwap tokenBalances' fromTimestamp toTimestamp)
  | Throw msg => Throw msg
  | OutOfFuel => OutOfFuel
  end.

End Steps.

(** ** Start and end block, timestamps of the samples (lines 192-195, 221-232) *)

Section OnChain.

Context {num : Type} `{JSNumber num}.

Variable requestBlock : BlockFinder.BlockId -> BlockFinder.Block.
Variable estimateBlocksElapsed : Z -> Z.
Variable estimatedBlock : BlockFinder.Block -> BlockFinder.Block -> Z -> Z.

(** The answer of the token contract's [decimals()]. *)
Variable decimals : String.string -> Z.

(** [fromWei(wei)] is a decimal string; the script only multiplies it by a
    price, which reads it as a number. *)
Variable numberOfWei : Z -> num.

(** [fromBlock] and [toBlock] of the evaluation range. *)
Definition evaluationBlocks (fuel : nat) (fromTimestamp toTimestamp : Z)
  : BlockFinder.M (Z * Z) :=
  BlockFinder.bind
    (BlockFinder.getBlockForTimestamp requestBlock estimateBlocksElapsed
       estimatedBlock fuel fromTimestamp)
    (fun fromBlock =>
       BlockFinder.bind
         (BlockFinder.getBlockForTimestamp requestBlock estimateBlocksElapsed
            estimatedBlock fuel toTimestamp)
         (fun toBlock =>
            if BlockFinder.number toBlock <? Bridge.earliestBlock
            then BlockFinder.throw
                   "--to timestamp cannot be earlier than L1StandardBridge deployment"
            else BlockFinder.ret
                   (BlockFinder.number fromBlock, BlockFinder.number toBlock))).

Definition getTokenDecimals (tokenAddress : String.string) : Z :=
  if String.eqb tokenAddress Bridge.zeroAddress then 18 else decimals tokenAddress.

(** The body of [for (balanceItem of balances[tokenAddress])]: the scaled
    balance for every sample, the block's timestamp for the samples at or
    after [fromBlock]. *)
Definition annotateItem (tokenDecimals fromBlock : Z)
    (balanceItem : BalanceItem num) : BlockFinder.M (BalanceItem num) :=
  match rawBalance balanceItem with
  | None => BlockFinder.throw "TypeError: reading mul of undefined"
  | Some raw =>
      let scaled := Some (numberOfWei (scaledBalance raw tokenDecimals)) in
      match blockNumber balanceItem with
      | Some n =>
          if fromBlock <=? n
          then
            BlockFinder.bind (BlockFinder.getBlock requestBlock n)
              (fun block =>
                 BlockFinder.ret
                   (mkBalanceItem (blockNumber balanceItem)
                      (rawBalance balanceItem) scaled
                      (Some (num_of_Z (BlockFinder.timestamp block)))
                      (price balanceItem) (value balanceItem)))
          else
            BlockFinder.ret
              (mkBalanceItem (blockNumber balanceItem) (rawBalance balanceItem)
                 scaled (timestamp balanceItem) (price balanceItem)
                 (value balanceItem))
      | None =>
          BlockFinder.ret
            (mkBalanceItem (blockNumber balanceItem) (rawBalance balanceItem)
               scaled (timestamp balanceItem) (price balanceItem)
               (value balanceItem))
      end
  end.

Fixpoint annotateSeries (tokenDecimals fromBlock : Z)
    (tokenBalances : list (BalanceItem num))
  : BlockFinder.M (list (BalanceItem num)) :=
  match tokenBalances with
  | [] => BlockFinder.ret []
  | balanceItem :: rest =>
      BlockFinder.bind (annotateItem tokenDecimals fromBlock balanceItem)
        (fun annotated =>
           BlockFinder.bind (annotateSeries tokenDecimals fromBlock rest)
             (fun rest' => BlockFinder.ret (annotated :: rest')))
  end.

(** [for (const tokenAddress in balances)]. *)
Fixpoint annotateBalances (fromBlock : Z)
    (balances : TokenMap (list (BalanceItem num)))
  : BlockFinder.M (TokenMap (list (BalanceItem num))) :=
  match balances with
  | [] => BlockFinder.ret []
  | (tokenAddress, tokenBalances) :: rest =>
      BlockFinder.bind
        (annotateSeries (getTokenDecimals tokenAddress) fromBlock tokenBalances)
        (fun annotated =>
           BlockFinder.bind (annotateBalances fromBlock rest)
             (fun rest' => BlockFinder.ret ((tokenAddress, annotated) :: rest')))
  end.

End OnChain.

(** A series is ascending by block number, each sample carrying a block
    number and a raw balance, as the reconstruction leaves it. *)
Definition byBlockNumber {num : Type} (a b : BalanceItem num) : Prop :=
  match blockNumber a, blockNumber b with
  | Some m, Some n => m <= n
  | _, _ => False
  end.

(** The timestamps of a series strictly ascend (so no two samples share one,
    and in a series of two or more every sample has one). *)
Definition strictlyAscending {num : Type} `{JSNumber num}
    (series : list (BalanceItem num)) : Prop :=
  StronglySorted
    (fun a b =>
       exists ta tb,
         timestamp a = Some ta /\ timestamp b = Some tb /\ num_ltb ta tb = true)
    series.

(** A chain long enough to hold the bridge: block [n] is stamped [13 * n]
    and the head is 100 blocks after the deployment of the bridge. *)
Definition example_mainnet (id : BlockFinder.BlockId) : BlockFinder.Block :=
  match id with
  | BlockFinder.Latest =>
      BlockFinder.mkBlock (Bridge.earliestBlock + 100)
        (13 * (Bridge.earliestBlock + 100))
  | BlockFinder.Num n => BlockFinder.mkBlock n (13 * n)
  end.

End Main.

(* ================================================================== *)
(** * Facts about arrays *)
(* ================================================================== *)

Section ArrayFacts.
Context {A : Type}.

Lemma splice_length (arr : list A) (i : nat) (x : A) :
  length (splice arr i x) = S (length arr).
Proof.
  unfold splice. rewrite length_app. simpl.
  rewrite <- (firstn_skipn i arr) at 3. rewrite length_app. lia.
Qed.

Lemma splice_In (arr : list A) (i : nat) (x y : A) :
  In y (splice arr i x) <-> y = x \/ In y arr.
Proof.
  unfold splice. rewrite in_app_iff. simpl.
  rewrite <- (firstn_skipn i arr) at 3. rewrite in_app_iff.
  intuition auto.
Qed.

Lemma splice_nth_error (arr : list A) (i : nat) (x : A) :
  (i <= length arr)%nat -> nth_error (splice arr i x) i = Some x.
Proof.
  intros Hi. unfold splice.
  rewrite nth_error_app2; rewrite length_firstn, Nat.min_l by lia; [|lia].
  rewrite Nat.sub_diag. reflexivity.
Qed.

Lemma StronglySorted_app_iff (R : A -> A -> Prop) (l1 l2 : list A) :
  StronglySorted R (l1 ++ l2) <->
  StronglySorted R l1 /\ StronglySorted R l2 /\
  (forall a b, In a l1 -> In b l2 -> R a b).
Proof.
  induction l1 as [|x l1 IH]; simpl.
  - split.
    + intros H. repeat split; [constructor | assumption | intros ? ? []].
    + intros (_ & H & _). exact H.
  - split.
    + intros H. apply StronglySorted_inv in H. destruct H as [H HF].
      apply IH in H. destruct H as (H1 & H2 & H3).
      rewrite Forall_app in HF. destruct HF as [HF1 HF2].
      repeat split; [constructor; assumption | assumption |].
      intros a b [<- | Ha] Hb.
      * rewrite Forall_forall in HF2. auto.
      * auto.
    + intros (H1 & H2 & H3). apply StronglySorted_inv in H1.
      destruct H1 as [H1 HF]. constructor.
      * apply IH. repeat split; auto.
      * rewrite Forall_app. split; [assumption |].
        rewrite Forall_forall. intros b Hb. apply H3; auto.
Qed.

Lemma StronglySorted_nth (R : A -> A -> Prop) (l : list A) :
  StronglySorted R l ->
  forall i j a b, (i < j)%nat ->
    nth_error l i = Some a -> nth_error l j = Some b -> R a b.
Proof.
  induction 1 as [|x l Hs IH HF]; intros i j a b Hij Ha Hb.
  - destruct i; discriminate.
  - destruct j as [|j]; [lia |]. simpl in Hb.
    destruct i as [|i]; simpl in Ha.
    + injection Ha as <-. rewrite Forall_forall in HF.
      apply HF. eapply nth_error_In; eassumption.
    + eapply IH; [| eassumption | eassumption]. lia.
Qed.

Lemma last_opt_app (l : list A) (x : A) : last_opt (l ++ [x]) = Some x.
Proof.
  destruct l as [|y l]; simpl; [reflexivity |].
  f_equal. apply last_last.
Qed.

Lemma last_opt_Some (l : list A) (x : A) :
  last_opt l = Some x -> exists l', l = l' ++ [x].
Proof.
  intros H. destruct l as [|y l]; [discriminate |].
  destruct (@exists_last A (y :: l)) as (l' & a & E); [discriminate |].
  rewrite E in H. rewrite last_opt_app in H. injection H as ->.
  exists l'. exact E.
Qed.

Lemma nil_or_snoc (l : list A) : l = [] \/ exists l' x, l = l' ++ [x].
Proof.
  destruct l as [|y l]; [left; reflexivity | right].
  destruct (@exists_last A (y :: l)) as (l' & x & E); [discriminate |].
  eauto.
Qed.

Lemma In_firstn_nth (l : list A) (i : nat) (a : A) :
  In a (firstn i l) -> exists j, (j < i)%nat /\ nth_error l j = Some a.
Proof.
  intros H. apply In_nth_error in H. destruct H as [j Hj].
  rewrite nth_error_firstn in Hj.
  destruct (Nat.ltb_spec j i); [| discriminate]. eauto.
Qed.

Lemma In_skipn_nth (l : list A) (i : nat) (a : A) :
  In a (skipn i l) -> exists j, (i <= j)%nat /\ nth_error l j = Some a.
Proof.
  intros H. apply In_nth_error in H. destruct H as [j Hj].
  rewrite nth_error_skipn in Hj. exists (i + j)%nat. split; [lia | assumption].
Qed.

Lemma StronglySorted_splice (R : A -> A -> Prop) (l : list A) (i : nat) (x : A) :
  StronglySorted R l ->
  (forall j a, (j < i)%nat -> nth_error l j = Some a -> R a x) ->
  (forall j a, (i <= j)%nat -> nth_error l j = Some a -> R x a) ->
  StronglySorted R (splice l i x).
Proof.
  intros Hs Hlo Hhi. unfold splice.
  rewrite <- (firstn_skipn i l) in Hs.
  apply StronglySorted_app_iff in Hs. destruct Hs as (H1 & H2 & H3).
  apply StronglySorted_app_iff. repeat split.
  - assumption.
  - constructor; [assumption |]. rewrite Forall_forall. intros b Hb.
    apply In_skipn_nth in Hb. destruct Hb as (j & Hj & Hb). eauto.
  - intros a b Ha [<- | Hb].
    + apply In_firstn_nth in Ha. destruct Ha as (j & Hj & Ha). eauto.
    + auto.
Qed.

End ArrayFacts.

(* ================================================================== *)
(** * The block locator *)
(* ================================================================== *)

Section BinarySearch.
Import BlockFinder.

Lemma baseSortedIndexBy_spec (key : Block -> Z) (arr : list Block) (v : Z) :
  ascending_by key arr ->
  forall budget low high,
    (low <= high)%nat -> (high <= length arr)%nat -> (high - low <= budget)%nat ->
    (forall i a, (i < low)%nat -> nth_error arr i = Some a -> key a < v) ->
    (forall i a, (high <= i)%nat -> nth_error arr i = Some a -> v <= key a) ->
    (baseSortedIndexBy budget key arr v low high <= length arr)%nat /\
    (forall i a, (i < baseSortedIndexBy budget key arr v low high)%nat ->
       nth_error arr i = Some a -> key a < v) /\
    (forall i a, (baseSortedIndexBy budget key arr v low high <= i)%nat ->
       nth_error arr i = Some a -> v <= key a).
Proof.
  intros Hasc. induction budget as [|budget IH]; intros low high Hlh Hlen Hb Hlo Hhi.
  - simpl. assert (low = high) by lia. subst. auto.
  - cbn [baseSortedIndexBy]. destruct (Nat.ltb_spec low high) as [Hlt | Hge].
    2: { assert (low = high) by lia. subst. auto. }
    assert (Hmid : (low <= (low + high) / 2 < high)%nat).
    { split.
      - apply Nat.div_le_lower_bound; lia.
      - apply Nat.Div0.div_lt_upper_bound; lia. }
    destruct (nth_error arr ((low + high) / 2)) as [b|] eqn:Eb.
    2: { apply nth_error_None in Eb. lia. }
    destruct (Z.ltb_spec (key b) v) as [Hk | Hk].
    + apply IH; try lia; [| assumption].
      intros i a Hi Ha.
      assert (key a <= key b)
        by (apply (Hasc i ((low + high) / 2)%nat a b); [lia | assumption | assumption]).
      lia.
    + apply IH; try lia; [assumption |].
      intros i a Hi Ha.
      assert (key b <= key a)
        by (apply (Hasc ((low + high) / 2)%nat i b a); [lia | assumption | assumption]).
      lia.
Qed.

Lemma sortedIndexBy_spec (key : Block -> Z) (arr : list Block) (v : Z) :
  ascending_by key arr ->
  (sortedIndexBy arr v key <= length arr)%nat /\
  (forall i a, (i < sortedIndexBy arr v key)%nat ->
     nth_error arr i = Some a -> key a < v) /\
  (forall i a, (sortedIndexBy arr v key <= i)%nat ->
     nth_error arr i = Some a -> v <= key a).
Proof.
  intros Hasc. unfold sortedIndexBy.
  apply baseSortedIndexBy_spec; [assumption | lia | lia | lia | |].
  - intros i a Hi. inversion Hi.
  - intros i a Hi Ha.
    assert (nth_error arr i <> None) by congruence.
    apply nth_error_Some in H. lia.
Qed.

End BinarySearch.

Section CacheInvariant.
Import BlockFinder.

Variable requestBlock : BlockId -> Block.
Variable estimateBlocksElapsed : Z -> Z.
Variable estimatedBlock : Block -> Block -> Z -> Z.

Lemma cache_sorted_ascending (blocks : list Block) :
  cache_sorted blocks -> ascending_by number blocks.
Proof.
  intros Hs i j a b Hij Ha Hb.
  destruct (Nat.eq_dec i j) as [-> | Hne].
  - assert (a = b) by congruence. subst. lia.
  - assert (number a < number b); [| lia].
    eapply (StronglySorted_nth _ _ Hs i j); [lia | eassumption | eassumption].
Qed.

(** Inserting a block at the index the binary search by number returns keeps
    the cache strictly ascending, provided the slot does not already hold
    that number. *)
Lemma splice_cache_sorted (blocks : list Block) (x : Block) :
  cache_sorted blocks ->
  (forall b, nth_error blocks (sortedIndexBy blocks (number x) number) = Some b ->
     number b <> number x) ->
  cache_sorted (splice blocks (sortedIndexBy blocks (number x) number) x).
Proof.
  intros Hs Hslot.
  destruct (sortedIndexBy_spec number blocks (number x)
              (cache_sorted_ascending _ Hs)) as (Hlen & Hlo & Hhi).
  apply StronglySorted_splice; [assumption | |].
  - intros j a Hj Ha. eapply Hlo; eassumption.
  - intros j a Hj Ha.
    destruct (Nat.eq_dec j (sortedIndexBy blocks (number x) number)) as [-> | Hne].
    + specialize (Hslot _ Ha). specialize (Hhi _ _ (Nat.le_refl _) Ha). lia.
    + destruct (nth_error blocks (sortedIndexBy blocks (number x) number))
        as [c|] eqn:Ec.
      * assert (number c < number a).
        { eapply (StronglySorted_nth _ _ Hs); [| exact Ec | exact Ha]. lia. }
        specialize (Hhi _ _ (Nat.le_refl _) Ec). lia.
      * apply nth_error_None in Ec.
        assert (nth_error blocks j <> None) by congruence.
        apply nth_error_Some in H. lia.
Qed.

Lemma getLatestBlock_sorted (blocks : list Block) :
  cache_sorted blocks ->
  cache_sorted (snd (getLatestBlock requestBlock blocks)).
Proof.
  intros Hs. unfold getLatestBlock.
  set (block := requestBlock Latest).
  set (index := sortedIndexBy blocks (number block) number).
  assert (Hins : (forall b, nth_error blocks index = Some b ->
                    number b <> number block) ->
                 cache_sorted (splice blocks index block)).
  { intros H. apply splice_cache_sorted; assumption. }
  destruct (nth_error blocks index) as [b|] eqn:Eb.
  - destruct (Z.eqb_spec (number b) (number block)) as [He | Hne]; simpl.
    + rewrite Eb. exact Hs.
    + assert (Hs' : cache_sorted (splice blocks index block)).
      { apply Hins. intros b0 Hb0. congruence. }
      destruct (nth_error (splice blocks index block) index); exact Hs'.
  - assert (Hs' : cache_sorted (splice blocks index block)).
    { apply Hins. intros b0 Hb0. discriminate. }
    destruct (nth_error (splice blocks index block) index); exact Hs'.
Qed.

Hypothesis Hnum : answers_by_number requestBlock.

Lemma getBlock_sorted (n : Z) (blocks : list Block) :
  cache_sorted blocks ->
  cache_sorted (snd (getBlock requestBlock n blocks)).
Proof.
  intros Hs. unfold getBlock.
  destruct (nth_error blocks (sortedIndexBy blocks n number)) as [b|] eqn:Eb.
  - destruct (Z.eqb_spec (number b) n) as [He | Hne]; simpl; [exact Hs |].
    rewrite <- (Hnum n) at 1. rewrite <- (Hnum n) in Eb, Hne.
    apply splice_cache_sorted; [assumption |].
    unfold block_at in *. intros b0 Hb0. congruence.
  - simpl. rewrite <- (Hnum n) at 1. rewrite <- (Hnum n) in Eb.
    apply splice_cache_sorted; [assumption |].
    unfold block_at in *. intros b0 Hb0. congruence.
Qed.

End CacheInvariant.

Section Preservation.
Import BlockFinder.

Lemma preserves_ret P A (a : A) : preserves P (ret a).
Proof. intros blocks H. exact H. Qed.

Lemma preserves_throw P A msg : preserves P (@throw A msg).
Proof. intros blocks H. exact H. Qed.

Lemma preserves_out_of_fuel P A : preserves P (@out_of_fuel A).
Proof. intros blocks H. exact H. Qed.

Lemma preserves_this_blocks P : preserves P this_blocks.
Proof. intros blocks H. exact H. Qed.

Lemma preserves_bind P A B (m : M A) (k : A -> M B) :
  preserves P m -> (forall a, preserves P (k a)) -> preserves P (bind m k).
Proof.
  intros Hm Hk blocks H. unfold bind.
  specialize (Hm blocks H).
  destruct (m blocks) as [[a | msg |] blocks']; simpl in *; auto.
  apply Hk. assumption.
Qed.

Variable requestBlock : BlockId -> Block.
Variable estimateBlocksElapsed : Z -> Z.
Variable estimatedBlock : Block -> Block -> Z -> Z.
Hypothesis Hnum : answers_by_number requestBlock.

Lemma findBlock_sorted fuel :
  forall s e ts,
    preserves cache_sorted (findBlock requestBlock estimatedBlock fuel s e ts).
Proof.
  induction fuel as [|fuel IH]; intros s e ts; simpl.
  - apply preserves_out_of_fuel.
  - destruct e as [e|]; [| apply preserves_throw].
    destruct (timestamp e =? ts); [apply preserves_ret |].
    destruct s as [s|]; [| apply preserves_throw].
    destruct (number e =? number s + 1); [apply preserves_ret |].
    destruct (number e =? number s); [apply preserves_throw |].
    destruct (negb _); [apply preserves_throw |].
    apply preserves_bind.
    + intros blocks H. apply getBlock_sorted; assumption.
    + intros newBlock. destruct (timestamp newBlock <? ts); apply IH.
Qed.

Lemma searchBackwards_sorted fuel :
  forall initialBlock inc ts multiplier,
    preserves cache_sorted
      (searchBackwards requestBlock fuel initialBlock inc ts multiplier).
Proof.
  induction fuel as [|fuel IH]; intros initialBlock inc ts multiplier; simpl.
  - apply preserves_out_of_fuel.
  - apply preserves_bind.
    + intros blocks H. apply getBlock_sorted; assumption.
    + intros block. destruct (timestamp block <=? ts); [apply preserves_ret |].
      destruct (0 <? _); [apply IH | apply preserves_throw].
Qed.

Lemma searchCache_sorted fuel ts :
  preserves cache_sorted
    (searchCache requestBlock estimateBlocksElapsed estimatedBlock fuel ts).
Proof.
  unfold searchCache.
  apply preserves_bind; [apply preserves_this_blocks |]. intros blocks0.
  destruct (nth_error blocks0 0) as [initialBlock|]; [| apply preserves_throw].
  apply preserves_bind.
  - destruct (ts <? timestamp initialBlock);
      [apply searchBackwards_sorted | apply preserves_ret].
  - intros _. apply preserves_bind; [apply preserves_this_blocks |].
    intros blocks1. apply findBlock_sorted.
Qed.

Lemma getBlockForTimestamp_sorted fuel ts :
  preserves cache_sorted
    (getBlockForTimestamp requestBlock estimateBlocksElapsed estimatedBlock fuel ts).
Proof.
  unfold getBlockForTimestamp.
  apply preserves_bind; [apply preserves_this_blocks |]. intros blocks.
  apply preserves_bind.
  - destruct (match last_opt blocks with None => true | Some l => timestamp l <? ts end).
    + apply preserves_bind.
      * intros b H. apply getLatestBlock_sorted. assumption.
      * intros block. destruct (timestamp block <=? ts); apply preserves_ret.
    + apply preserves_ret.
  - intros [block|]; [apply preserves_ret | apply searchCache_sorted].
Qed.

Lemma cache_sorted_NoDup (blocks : list Block) :
  cache_sorted blocks -> NoDup (map number blocks).
Proof.
  induction 1 as [|b blocks Hs IH HF]; simpl; constructor; [| assumption].
  intros Hin. apply in_map_iff in Hin. destruct Hin as (c & Hc & Hin).
  rewrite Forall_forall in HF. specialize (HF c Hin). lia.
Qed.

End Preservation.

Section CacheInvariantClaim.
Import BlockFinder.

Variable requestBlock : BlockId -> Block.
Variable estimateBlocksElapsed : Z -> Z.
Variable estimatedBlock : Block -> Block -> Z -> Z.

(** C3. On a node that answers a request by number with the block of that
    number, every operation of the locator ([getLatestBlock], [getBlock],
    [getBlockForTimestamp], whatever its outcome) takes a cache that is
    strictly ascending by block number to a cache that is strictly ascending
    by block number, hence with at most one entry per block number. *)
Theorem cache_stays_sorted_and_unique :
  answers_by_number requestBlock ->
  forall blocks, cache_sorted blocks ->
    (let blocks' := snd (getLatestBlock requestBlock blocks) in
     cache_sorted blocks' /\ NoDup (map number blocks')) /\
    (forall n,
       let blocks' := snd (getBlock requestBlock n blocks) in
       cache_sorted blocks' /\ NoDup (map number blocks')) /\
    (forall fuel ts,
       let blocks' := snd (getBlockForTimestamp requestBlock estimateBlocksElapsed
                             estimatedBlock fuel ts blocks) in
       cache_sorted blocks' /\ NoDup (map number blocks')).
Proof.
  intros Hnum blocks Hs. repeat split.
  - apply getLatestBlock_sorted; assumption.
  - apply cache_sorted_NoDup, getLatestBlock_sorted; assumption.
  - apply getBlock_sorted; assumption.
  - apply cache_sorted_NoDup, getBlock_sorted; assumption.
  - apply getBlockForTimestamp_sorted; assumption.
  - apply cache_sorted_NoDup, getBlockForTimestamp_sorted; assumption.
Qed.

End CacheInvariantClaim.

Section ChainFacts.
Import BlockFinder.

Variable requestBlock : BlockId -> Block.
Hypothesis Hchain : chain_ok requestBlock.

Local Abbreviation head := (BlockFinder.head requestBlock).
Local Abbreviation block_at := (BlockFinder.block_at requestBlock).
Local Abbreviation on_chain := (BlockFinder.on_chain requestBlock).
Local Abbreviation cache_valid := (BlockFinder.cache_valid requestBlock).

Lemma chain_number n : number (block_at n) = n.
Proof. apply Hchain. Qed.

Lemma chain_head_nonneg : 0 <= number head.
Proof. apply Hchain. Qed.

Lemma chain_head : block_at (number head) = head.
Proof. apply Hchain. Qed.

Lemma chain_mono m n :
  0 <= m -> m < n -> n <= number head ->
  timestamp (block_at m) < timestamp (block_at n).
Proof. apply Hchain. Qed.

Lemma on_chain_block_at n : 0 <= n <= number head -> on_chain (block_at n).
Proof.
  intros Hn. split; rewrite chain_number; [assumption | reflexivity].
Qed.

Lemma on_chain_head : on_chain head.
Proof. rewrite <- chain_head. apply on_chain_block_at. pose proof chain_head_nonneg. lia. Qed.

Lemma on_chain_eq a b : on_chain a -> on_chain b -> number a = number b -> a = b.
Proof. intros [_ Ha] [_ Hb] E. rewrite <- Ha, <- Hb, E. reflexivity. Qed.

Lemma on_chain_lt a b :
  on_chain a -> on_chain b -> number a < number b -> timestamp a < timestamp b.
Proof.
  intros [Ra Ha] [Rb Hb] Hlt. rewrite <- Ha, <- Hb.
  apply chain_mono; lia.
Qed.

Lemma on_chain_le a b :
  on_chain a -> on_chain b -> number a <= number b -> timestamp a <= timestamp b.
Proof.
  intros Ha Hb Hle. destruct (Z.eq_dec (number a) (number b)) as [E | Hne].
  - rewrite (on_chain_eq a b Ha Hb E). lia.
  - assert (timestamp a < timestamp b) by (apply on_chain_lt; auto; lia). lia.
Qed.

Lemma on_chain_ts_lt a b :
  on_chain a -> on_chain b -> timestamp a < timestamp b -> number a < number b.
Proof.
  intros Ha Hb Hlt. destruct (Z_lt_le_dec (number a) (number b)) as [H | H]; [assumption |].
  pose proof (on_chain_le b a Hb Ha H). lia.
Qed.

Lemma cache_valid_ascending_ts blocks :
  cache_valid blocks -> ascending_by timestamp blocks.
Proof.
  intros [Hs HF] i j a b Hij Ha Hb. rewrite Forall_forall in HF.
  apply on_chain_le.
  - apply HF. eapply nth_error_In; eassumption.
  - apply HF. eapply nth_error_In; eassumption.
  - eapply cache_sorted_ascending; eassumption.
Qed.

Lemma cache_valid_splice blocks x :
  cache_valid blocks -> on_chain x ->
  (forall b, nth_error blocks (sortedIndexBy blocks (number x) number) = Some b ->
     number b <> number x) ->
  cache_valid (splice blocks (sortedIndexBy blocks (number x) number) x).
Proof.
  intros [Hs HF] Hx Hslot. split.
  - apply splice_cache_sorted; assumption.
  - rewrite Forall_forall in *. intros y Hy. apply splice_In in Hy.
    destruct Hy as [-> | Hy]; auto.
Qed.

(** [getBlock(n)] for a block that exists: it returns that block, and the
    cache gains at most that block. *)
Lemma getBlock_spec n blocks :
  cache_valid blocks -> 0 <= n <= number head ->
  exists blocks',
    getBlock requestBlock n blocks = (Ok (block_at n), blocks') /\
    cache_valid blocks' /\
    In (block_at n) blocks' /\
    (forall x, In x blocks' <-> x = block_at n \/ In x blocks).
Proof.
  intros Hv Hn. unfold getBlock.
  pose proof (on_chain_block_at n Hn) as Hon.
  destruct Hv as [Hs HF].
  destruct (nth_error blocks (sortedIndexBy blocks n number)) as [b|] eqn:Eb.
  - destruct (Z.eqb_spec (number b) n) as [He | Hne].
    + assert (Hb : b = block_at n).
      { apply on_chain_eq; [| assumption | rewrite chain_number; assumption].
        rewrite Forall_forall in HF. apply HF. eapply nth_error_In; eassumption. }
      subst b. exists blocks. repeat split; try assumption.
      * eapply nth_error_In; eassumption.
      * auto.
      * intros [-> | H]; [eapply nth_error_In; eassumption | assumption].
    + exists (splice blocks (sortedIndexBy blocks n number) (block_at n)).
      split; [reflexivity |]. split; [| split].
      * rewrite <- (chain_number n) at 1. apply cache_valid_splice;
          [split; assumption | assumption |].
        rewrite chain_number. intros b0 Hb0. congruence.
      * apply splice_In. auto.
      * intros x. apply splice_In.
  - exists (splice blocks (sortedIndexBy blocks n number) (block_at n)).
    split; [reflexivity |]. split; [| split].
    + rewrite <- (chain_number n) at 1. apply cache_valid_splice;
        [split; assumption | assumption |].
      rewrite chain_number. intros b0 Hb0. congruence.
    + apply splice_In. auto.
    + intros x. apply splice_In.
Qed.

(** [getLatestBlock()] returns the head, and the cache gains at most it. *)
Lemma getLatestBlock_spec blocks :
  cache_valid blocks ->
  exists blocks',
    getLatestBlock requestBlock blocks = (Ok head, blocks') /\
    cache_valid blocks' /\
    In head blocks' /\
    (forall x, In x blocks' <-> x = head \/ In x blocks).
Proof.
  intros Hv. unfold getLatestBlock. change (requestBlock Latest) with head.
  pose proof on_chain_head as Hon.
  assert (Hidx : (sortedIndexBy blocks (number head) number <= length blocks)%nat).
  { apply (sortedIndexBy_spec number blocks (number head)).
    apply cache_sorted_ascending. apply Hv. }
  remember (sortedIndexBy blocks (number head) number) as index eqn:Eindex.
  assert (Hins : (forall b, nth_error blocks index = Some b -> number b <> number head) ->
    exists blocks',
      match nth_error (splice blocks index head) index with
      | Some b => (Ok b, splice blocks index head)
      | None => (Throw "TypeError: undefined block", splice blocks index head)
      end = (Ok head, blocks') /\
      cache_valid blocks' /\ In head blocks' /\
      (forall x, In x blocks' <-> x = head \/ In x blocks)).
  { intros Hslot. exists (splice blocks index head).
    rewrite splice_nth_error by assumption. split; [reflexivity |].
    split; [| split].
    - subst index. apply cache_valid_splice; assumption.
    - apply splice_In. auto.
    - intros x. apply splice_In. }
  destruct (nth_error blocks index) as [b|] eqn:Eb.
  - destruct (Z.eqb_spec (number b) (number head)) as [He | Hne]; simpl.
    + rewrite Eb.
      assert (Hb : b = head).
      { destruct Hv as [Hs HF]. rewrite Forall_forall in HF.
        apply on_chain_eq; [| assumption | assumption].
        apply HF. eapply nth_error_In; eassumption. }
      subst b. exists blocks. repeat split; try apply Hv.
      * eapply nth_error_In; eassumption.
      * auto.
      * intros [-> | H]; [eapply nth_error_In; eassumption | assumption].
    + apply Hins. intros b0 Hb0. congruence.
  - apply Hins. intros b0 Hb0. discriminate.
Qed.

End ChainFacts.

Section LocatorCorrect.
Import BlockFinder.

Variable requestBlock : BlockId -> Block.
Variable estimateBlocksElapsed : Z -> Z.
Variable estimatedBlock : Block -> Block -> Z -> Z.
Hypothesis Hchain : chain_ok requestBlock.

Local Abbreviation head := (BlockFinder.head requestBlock).
Local Abbreviation block_at := (BlockFinder.block_at requestBlock).
Local Abbreviation on_chain := (BlockFinder.on_chain requestBlock).
Local Abbreviation cache_valid := (BlockFinder.cache_valid requestBlock).
Local Abbreviation latest_at_or_before := (BlockFinder.latest_at_or_before requestBlock).

(** The backward walk ends, without throwing, once it reaches a block at or
    before [ts]; block 0 is such a block when [ts] is not before genesis. *)
Lemma searchBackwards_spec initialBlock inc ts :
  on_chain initialBlock -> 1 <= inc ->
  timestamp (block_at 0) <= ts ->
  forall fuel multiplier blocks,
    1 <= multiplier ->
    (Z.to_nat (Z.max 0 (number initialBlock - multiplier * inc)) < fuel)%nat ->
    cache_valid blocks ->
    exists blocks',
      searchBackwards requestBlock fuel initialBlock inc ts multiplier blocks
        = (Ok tt, blocks') /\
      cache_valid blocks' /\
      (forall x, In x blocks -> In x blocks') /\
      (exists b, In b blocks' /\ timestamp b <= ts).
Proof.
  intros Hinit Hinc Hgen.
  induction fuel as [|fuel IH]; intros multiplier blocks Hm Hfuel Hv; [lia |].
  cbn [searchBackwards].
  set (blockNumber := Z.max 0 (number initialBlock - multiplier * inc)) in *.
  assert (Hrange : 0 <= blockNumber <= number head).
  { destruct Hinit as [Hr _]. unfold blockNumber. nia. }
  destruct (getBlock_spec requestBlock Hchain blockNumber blocks Hv Hrange)
    as (blocks1 & Hget & Hv1 & Hin1 & Hiff1).
  unfold bind at 1. rewrite Hget.
  destruct (Z.leb_spec (timestamp (block_at blockNumber)) ts) as [Hle | Hgt].
  - exists blocks1. split; [reflexivity |]. split; [assumption |]. split.
    + intros x Hx. apply Hiff1. auto.
    + eauto.
  - destruct (Z.ltb_spec 0 blockNumber) as [Hpos | Hzero].
    + destruct (IH (multiplier + 1) blocks1) as (blocks2 & Hrun & Hv2 & Hsub & Hex);
        [lia | | assumption |].
      { unfold blockNumber in *. nia. }
      exists blocks2. split; [assumption |]. split; [assumption |].
      split; [| assumption].
      intros x Hx. apply Hsub, Hiff1. auto.
    + assert (blockNumber = 0) by lia.
      rewrite H in Hgt. lia.
Qed.

(** Narrowing a bracket [startBlock.timestamp < ts <= endBlock.timestamp]
    ends with the latest block at or before [ts]. *)
Lemma findBlock_spec ts :
  forall fuel startBlock endBlock blocks,
    cache_valid blocks ->
    on_chain startBlock -> on_chain endBlock ->
    timestamp startBlock < ts -> ts <= timestamp endBlock ->
    (Z.to_nat (number endBlock - number startBlock) <= fuel)%nat ->
    exists B blocks',
      findBlock requestBlock estimatedBlock fuel (Some startBlock) (Some endBlock)
        ts blocks = (Ok B, blocks') /\
      cache_valid blocks' /\
      latest_at_or_before ts B.
Proof.
  induction fuel as [|fuel IH]; intros s e blocks Hv Hs He Hlo Hhi Hfuel.
  - assert (number s < number e)
      by (apply (on_chain_ts_lt requestBlock Hchain); auto; lia).
    lia.
  - assert (Hse : number s < number e)
      by (apply (on_chain_ts_lt requestBlock Hchain); auto; lia).
    cbn [findBlock].
    destruct (Z.eqb_spec (timestamp e) ts) as [Heq | Hne].
    { (* the end block sits exactly at [ts] *)
      exists e, blocks. split; [reflexivity |]. split; [assumption |].
      split; [assumption |]. split; [lia |].
      destruct (Z.eq_dec (number e) (number head)) as [Eh | Nh].
      - left. apply (on_chain_eq requestBlock); auto.
        apply on_chain_head; assumption.
      - right. destruct He as [Re Ee]. split; [lia |].
        rewrite <- Heq. rewrite <- Ee at 1.
        apply (chain_mono requestBlock Hchain); lia. }
    destruct (Z.eqb_spec (number e) (number s + 1)) as [Hadj | Hnadj].
    { (* adjacent blocks: the start block is the answer *)
      exists s, blocks. split; [reflexivity |]. split; [assumption |].
      split; [assumption |]. split; [lia |].
      right. destruct He as [Re Ee]. split; [lia |].
      rewrite <- Hadj, Ee. lia. }
    destruct (Z.eqb_spec (number e) (number s)) as [Hsame | _]; [lia |].
    destruct (Z.ltb_spec ts (timestamp e)) as [Hlt | Hge]; [| lia].
    destruct (Z.ltb_spec (timestamp s) ts) as [_ | Hge]; [| lia].
    cbn [andb negb].
    set (n := clamp (estimatedBlock s e ts) (number s + 1) (number e - 1)).
    assert (Hn : number s + 1 <= n <= number e - 1) by (unfold n, clamp; lia).
    assert (Hrange : 0 <= n <= number head).
    { destruct Hs as [Rs _], He as [Re _]. lia. }
    destruct (getBlock_spec requestBlock Hchain n blocks Hv Hrange)
      as (blocks1 & Hget & Hv1 & Hin1 & Hiff1).
    unfold bind at 1. rewrite Hget.
    pose proof (on_chain_block_at requestBlock Hchain n Hrange) as Hnew.
    pose proof (chain_number requestBlock Hchain n) as Hnum.
    destruct (Z.ltb_spec (timestamp (block_at n)) ts) as [Hbelow | Habove].
    + apply IH; try assumption; rewrite ?Hnum; lia.
    + apply IH; try assumption; rewrite ?Hnum; lia.
Qed.

(** With only an end block (the slot before it does not exist), [findBlock]
    answers when the end block sits exactly at [ts]. *)
Lemma findBlock_exact ts fuel startBlock endBlock blocks :
  timestamp endBlock = ts ->
  findBlock requestBlock estimatedBlock (S fuel) startBlock (Some endBlock) ts blocks
    = (Ok endBlock, blocks).
Proof.
  intros H. cbn [findBlock]. rewrite (proj2 (Z.eqb_eq _ _) H). reflexivity.
Qed.

Lemma exact_is_latest ts e :
  on_chain e -> timestamp e = ts -> latest_at_or_before ts e.
Proof.
  intros He Heq. split; [assumption |]. split; [lia |].
  destruct (Z.eq_dec (number e) (number head)) as [Eh | Nh].
  - left. apply (on_chain_eq requestBlock); auto.
    apply on_chain_head; assumption.
  - right. destruct He as [Re Ee]. split; [lia |].
    rewrite <- Heq. rewrite <- Ee at 1.
    apply (chain_mono requestBlock Hchain); lia.
Qed.

(** ** Every outcome leaves a cache of chain blocks *)

Lemma searchBackwards_valid initialBlock inc ts :
  on_chain initialBlock -> 1 <= inc ->
  forall fuel multiplier blocks,
    1 <= multiplier -> cache_valid blocks ->
    cache_valid
      (snd (searchBackwards requestBlock fuel initialBlock inc ts multiplier blocks)).
Proof.
  intros Hinit Hinc.
  induction fuel as [|fuel IH]; intros multiplier blocks Hm Hv; [exact Hv |].
  cbn [searchBackwards].
  set (blockNumber := Z.max 0 (number initialBlock - multiplier * inc)) in *.
  assert (Hrange : 0 <= blockNumber <= number head).
  { destruct Hinit as [Hr _]. unfold blockNumber. nia. }
  destruct (getBlock_spec requestBlock Hchain blockNumber blocks Hv Hrange)
    as (blocks1 & Hget & Hv1 & _).
  unfold bind at 1. rewrite Hget.
  destruct (timestamp (block_at blockNumber) <=? ts); [exact Hv1 |].
  destruct (0 <? blockNumber); [apply IH; [lia | assumption] | exact Hv1].
Qed.

Lemma findBlock_valid ts :
  forall fuel s e blocks,
    cache_valid blocks ->
    (forall s0 e0, s = Some s0 -> e = Some e0 ->
       on_chain s0 /\ on_chain e0 /\ number s0 < number e0) ->
    cache_valid (snd (findBlock requestBlock estimatedBlock fuel s e ts blocks)).
Proof.
  induction fuel as [|fuel IH]; intros s e blocks Hv Hwf; [exact Hv |].
  cbn [findBlock].
  destruct e as [e|]; [| exact Hv].
  destruct (timestamp e =? ts); [exact Hv |].
  destruct s as [s|]; [| exact Hv].
  destruct (Hwf s e eq_refl eq_refl) as (Hs & He & Hse).
  destruct (Z.eqb_spec (number e) (number s + 1)) as [_ | Hnadj]; [exact Hv |].
  destruct (number e =? number s); [exact Hv |].
  destruct (negb _); [exact Hv |].
  set (n := clamp (estimatedBlock s e ts) (number s + 1) (number e - 1)).
  assert (Hn : number s + 1 <= n <= number e - 1) by (unfold n, clamp; lia).
  assert (Hrange : 0 <= n <= number head).
  { destruct Hs as [Rs _], He as [Re _]. lia. }
  destruct (getBlock_spec requestBlock Hchain n blocks Hv Hrange)
    as (blocks1 & Hget & Hv1 & _).
  unfold bind at 1. rewrite Hget.
  pose proof (on_chain_block_at requestBlock Hchain n Hrange) as Hnew.
  pose proof (chain_number requestBlock Hchain n) as Hnum.
  destruct (timestamp (block_at n) <? ts); apply IH; try assumption;
    intros s0 e0 E1 E2; injection E1 as <-; injection E2 as <-;
    (split; [assumption | split; [assumption | rewrite ?Hnum; lia]]).
Qed.

Lemma searchCache_valid fuel ts blocks :
  cache_valid blocks ->
  cache_valid
    (snd (searchCache requestBlock estimateBlocksElapsed estimatedBlock fuel ts blocks)).
Proof.
  intros Hv. unfold searchCache, bind at 1, this_blocks at 1.
  destruct (nth_error blocks 0) as [initialBlock|] eqn:E0; [| exact Hv].
  assert (Hinit : on_chain initialBlock).
  { destruct Hv as [_ HF]. rewrite Forall_forall in HF.
    apply HF. eapply nth_error_In; eassumption. }
  assert (Hstep : forall blocks1, cache_valid blocks1 ->
    cache_valid (snd ((blocks2 <- this_blocks ;;
       findBlock requestBlock estimatedBlock fuel
         match sortedIndexBy blocks2 ts timestamp with
         | 0%nat => None
         | S i => nth_error blocks2 i
         end (nth_error blocks2 (sortedIndexBy blocks2 ts timestamp)) ts) blocks1))).
  { intros blocks1 Hv1. unfold bind, this_blocks.
    apply findBlock_valid; [assumption |].
    intros s0 e0 Es Ee.
    destruct (sortedIndexBy blocks1 ts timestamp) as [|i] eqn:Ei; [discriminate |].
    destruct Hv1 as [Hs1 HF1]. rewrite Forall_forall in HF1.
    split; [apply HF1; eapply nth_error_In; eassumption |].
    split; [apply HF1; eapply nth_error_In; eassumption |].
    eapply (StronglySorted_nth _ _ Hs1 i (S i)); [lia | eassumption | eassumption]. }
  unfold bind at 1.
  destruct (ts <? timestamp initialBlock).
  - pose proof (searchBackwards_valid initialBlock
      (Z.max (estimateBlocksElapsed (timestamp initialBlock - ts)) 1) ts
      Hinit ltac:(lia) fuel 1 blocks ltac:(lia) Hv) as Hv1.
    destruct (searchBackwards _ _ _ _ _ _ _) as [[[] | msg |] blocks1];
      simpl in Hv1 |- *; auto.
  - unfold ret. apply Hstep. assumption.
Qed.

Lemma getBlockForTimestamp_valid fuel ts blocks :
  cache_valid blocks ->
  cache_valid
    (snd (getBlockForTimestamp requestBlock estimateBlocksElapsed estimatedBlock
            fuel ts blocks)).
Proof.
  intros Hv. unfold getBlockForTimestamp, bind at 1, this_blocks at 1.
  unfold bind at 1.
  destruct (match last_opt blocks with None => true | Some l => timestamp l <? ts end).
  - destruct (getLatestBlock_spec requestBlock Hchain blocks Hv)
      as (blocks1 & Hget & Hv1 & _).
    unfold bind at 1. rewrite Hget.
    destruct (timestamp head <=? ts); unfold ret; [exact Hv1 |].
    apply searchCache_valid. assumption.
  - unfold ret. apply searchCache_valid. assumption.
Qed.

Lemma reachable_valid blocks :
  reachable requestBlock estimateBlocksElapsed estimatedBlock blocks ->
  cache_valid blocks.
Proof.
  induction 1 as [| blocks _ IH | blocks n _ IH Hn | blocks fuel ts _ IH].
  - split; constructor.
  - destruct (getLatestBlock_spec requestBlock Hchain blocks IH)
      as (blocks1 & -> & Hv1 & _). exact Hv1.
  - destruct (getBlock_spec requestBlock Hchain n blocks IH Hn)
      as (blocks1 & -> & Hv1 & _). exact Hv1.
  - apply getBlockForTimestamp_valid. assumption.
Qed.

(** ** The search returns the latest block at or before [ts] *)

Lemma searchCache_spec fuel ts blocks :
  cache_valid blocks ->
  timestamp (block_at 0) <= ts ->
  (exists e, In e blocks /\ ts <= timestamp e) ->
  (Z.to_nat (number head) < fuel)%nat ->
  exists B blocks',
    searchCache requestBlock estimateBlocksElapsed estimatedBlock fuel ts blocks
      = (Ok B, blocks') /\
    cache_valid blocks' /\ latest_at_or_before ts B.
Proof.
  intros Hv Hgen (e & Hein & Hets) Hfuel.
  unfold searchCache, bind at 1, this_blocks at 1.
  destruct (nth_error blocks 0) as [initialBlock|] eqn:E0.
  2: { apply nth_error_None in E0. destruct blocks; [destruct Hein | simpl in E0; lia]. }
  assert (Hinit : on_chain initialBlock).
  { destruct Hv as [_ HF]. rewrite Forall_forall in HF.
    apply HF. eapply nth_error_In; eassumption. }
  (* after the optional backward walk: a valid cache bracketing [ts] *)
  assert (Hwalk : exists blocks1,
    (if ts <? timestamp initialBlock
     then searchBackwards requestBlock fuel initialBlock
            (Z.max (estimateBlocksElapsed (timestamp initialBlock - ts)) 1) ts 1
     else ret tt) blocks = (Ok tt, blocks1) /\
    cache_valid blocks1 /\ In e blocks1 /\
    (exists b, In b blocks1 /\ timestamp b <= ts)).
  { destruct (Z.ltb_spec ts (timestamp initialBlock)) as [Hlate | Hearly].
    - destruct (searchBackwards_spec initialBlock
        (Z.max (estimateBlocksElapsed (timestamp initialBlock - ts)) 1) ts
        Hinit ltac:(lia) Hgen fuel 1 blocks ltac:(lia)) as (blocks1 & Hrun & Hv1 & Hsub & Hex);
        [| assumption |].
      { destruct Hinit as [Hr _]. lia. }
      exists blocks1. auto.
    - exists blocks. split; [reflexivity |]. split; [assumption |].
      split; [assumption |]. exists initialBlock. split; [| assumption].
      eapply nth_error_In; eassumption. }
  destruct Hwalk as (blocks1 & Hrun & Hv1 & Hein1 & (b & Hbin & Hbts)).
  unfold bind at 1. rewrite Hrun. unfold bind, this_blocks.
  pose proof (cache_valid_ascending_ts requestBlock Hchain blocks1 Hv1) as Hasc.
  destruct (sortedIndexBy_spec timestamp blocks1 ts Hasc) as (Hlen & Hlo & Hhi).
  remember (sortedIndexBy blocks1 ts timestamp) as index eqn:Eindex.
  destruct Hv1 as [Hs1 HF1]. pose proof HF1 as HF1'. rewrite Forall_forall in HF1.
  apply In_nth_error in Hein1. destruct Hein1 as [j Hj].
  apply In_nth_error in Hbin. destruct Hbin as [i Hi].
  assert (Hjge : (index <= j)%nat).
  { destruct (Nat.le_gt_cases index j) as [H | H]; [assumption |].
    specialize (Hlo j e H Hj). lia. }
  destruct (nth_error blocks1 index) as [e'|] eqn:Ee'.
  2: { apply nth_error_None in Ee'.
       assert (nth_error blocks1 j <> None) by congruence.
       apply nth_error_Some in H. lia. }
  assert (He' : on_chain e') by (apply HF1; eapply nth_error_In; eassumption).
  pose proof (Hhi index e' (Nat.le_refl _) Ee') as Hets'.
  destruct fuel as [|fuel]; [lia |].
  destruct (Z.eq_dec (timestamp e') ts) as [Hexact | Hnot].
  - rewrite findBlock_exact by assumption.
    exists e', blocks1. split; [reflexivity |]. split; [split; assumption |].
    apply exact_is_latest; assumption.
  - assert (Hilt : (i < index)%nat).
    { destruct (Nat.le_gt_cases index i) as [H | H]; [| assumption].
      pose proof (Hasc index i e' b H Ee' Hi). lia. }
    destruct index as [|k]; [lia |].
    destruct (nth_error blocks1 k) as [s|] eqn:Es.
    2: { apply nth_error_None in Es. lia. }
    assert (Hs : on_chain s) by (apply HF1; eapply nth_error_In; eassumption).
    pose proof (Hlo k s ltac:(lia) Es) as Hsts.
    apply findBlock_spec; try assumption; try lia.
    + split; assumption.
    + destruct Hs as [Rs _], He' as [Re _]. lia.
Qed.

(** ** Before genesis the search throws *)

Lemma before_genesis_all_later ts b :
  ts < timestamp (block_at 0) -> on_chain b -> ts < timestamp b.
Proof.
  intros Hgen Hb.
  assert (Hg : on_chain (block_at 0)).
  { apply on_chain_block_at; [assumption |].
    pose proof (chain_head_nonneg requestBlock Hchain). lia. }
  assert (timestamp (block_at 0) <= timestamp b).
  { apply (on_chain_le requestBlock Hchain); [assumption | assumption |].
    rewrite (chain_number requestBlock Hchain). apply Hb. }
  lia.
Qed.

Lemma searchBackwards_throws initialBlock inc ts :
  on_chain initialBlock -> 1 <= inc ->
  ts < timestamp (block_at 0) ->
  forall fuel multiplier blocks,
    1 <= multiplier ->
    (Z.to_nat (Z.max 0 (number initialBlock - multiplier * inc)) < fuel)%nat ->
    cache_valid blocks ->
    exists blocks',
      searchBackwards requestBlock fuel initialBlock inc ts multiplier blocks
        = (Throw "timestamp is before block 0", blocks').
Proof.
  intros Hinit Hinc Hgen.
  induction fuel as [|fuel IH]; intros multiplier blocks Hm Hfuel Hv; [lia |].
  cbn [searchBackwards].
  set (blockNumber := Z.max 0 (number initialBlock - multiplier * inc)) in *.
  assert (Hrange : 0 <= blockNumber <= number head).
  { destruct Hinit as [Hr _]. unfold blockNumber. nia. }
  destruct (getBlock_spec requestBlock Hchain blockNumber blocks Hv Hrange)
    as (blocks1 & Hget & Hv1 & _).
  unfold bind at 1. rewrite Hget.
  pose proof (before_genesis_all_later ts (block_at blockNumber) Hgen
                (on_chain_block_at requestBlock Hchain blockNumber Hrange)) as Hlater.
  destruct (Z.leb_spec (timestamp (block_at blockNumber)) ts) as [Hle | _]; [lia |].
  destruct (Z.ltb_spec 0 blockNumber) as [Hpos | Hzero].
  - apply IH; [lia | | assumption]. unfold blockNumber in *. nia.
  - exists blocks1. reflexivity.
Qed.

Lemma searchCache_throws fuel ts blocks :
  cache_valid blocks -> blocks <> [] ->
  ts < timestamp (block_at 0) ->
  (Z.to_nat (number head) < fuel)%nat ->
  exists blocks',
    searchCache requestBlock estimateBlocksElapsed estimatedBlock fuel ts blocks
      = (Throw "timestamp is before block 0", blocks').
Proof.
  intros Hv Hne Hgen Hfuel.
  unfold searchCache, bind at 1, this_blocks at 1.
  destruct blocks as [|initialBlock rest]; [congruence |]. cbn [nth_error].
  assert (Hinit : on_chain initialBlock).
  { destruct Hv as [_ HF]. apply Forall_inv in HF. exact HF. }
  pose proof (before_genesis_all_later ts initialBlock Hgen Hinit) as Hlater.
  destruct (Z.ltb_spec ts (timestamp initialBlock)) as [_ | Hge]; [| lia].
  destruct (searchBackwards_throws initialBlock
              (Z.max (estimateBlocksElapsed (timestamp initialBlock - ts)) 1) ts
              Hinit ltac:(lia) Hgen fuel 1 (initialBlock :: rest) ltac:(lia))
    as (blocks1 & Hrun); [| assumption |].
  { destruct Hinit as [Hr _]. lia. }
  unfold bind at 1. rewrite Hrun. eauto.
Qed.

End LocatorCorrect.

Section LocatorClaim.
Import BlockFinder.

Variable requestBlock : BlockId -> Block.
Variable estimateBlocksElapsed : Z -> Z.
Variable estimatedBlock : Block -> Block -> Z -> Z.

Lemma getBlockForTimestamp_spec fuel ts blocks :
  chain_ok requestBlock ->
  cache_valid requestBlock blocks ->
  timestamp (block_at requestBlock 0) <= ts ->
  (Z.to_nat (number (head requestBlock)) < fuel)%nat ->
  exists B blocks',
    getBlockForTimestamp requestBlock estimateBlocksElapsed estimatedBlock
      fuel ts blocks = (Ok B, blocks') /\
    cache_valid requestBlock blocks' /\
    latest_at_or_before requestBlock ts B.
Proof.
  intros Hchain Hv Hgen Hfuel.
  unfold getBlockForTimestamp, bind at 1, this_blocks at 1.
  unfold bind at 1.
  destruct (last_opt blocks) as [lastBlock|] eqn:El.
  - destruct (Z.ltb_spec (timestamp lastBlock) ts) as [Hearly | Hlate].
    + destruct (getLatestBlock_spec requestBlock Hchain blocks Hv)
        as (blocks1 & Hget & Hv1 & Hin1 & _).
      unfold bind at 1. rewrite Hget.
      destruct (Z.leb_spec (timestamp (head requestBlock)) ts) as [Hle | Hgt].
      * exists (head requestBlock), blocks1. split; [reflexivity |].
        split; [assumption |]. split; [apply on_chain_head; assumption |].
        split; [assumption | left; reflexivity].
      * unfold ret. apply searchCache_spec; try assumption.
        exists (head requestBlock). split; [assumption | lia].
    + unfold ret. apply searchCache_spec; try assumption.
      exists lastBlock. split; [| assumption].
      apply last_opt_Some in El. destruct El as [l' ->].
      apply in_or_app. right. left. reflexivity.
  - destruct (getLatestBlock_spec requestBlock Hchain blocks Hv)
      as (blocks1 & Hget & Hv1 & Hin1 & _).
    unfold bind at 1. rewrite Hget.
    destruct (Z.leb_spec (timestamp (head requestBlock)) ts) as [Hle | Hgt].
    + exists (head requestBlock), blocks1. split; [reflexivity |].
      split; [assumption |]. split; [apply on_chain_head; assumption |].
      split; [assumption | left; reflexivity].
    + unfold ret. apply searchCache_spec; try assumption.
      exists (head requestBlock). split; [assumption | lia].
Qed.

Lemma getBlockForTimestamp_throws fuel ts blocks :
  chain_ok requestBlock ->
  cache_valid requestBlock blocks ->
  ts < timestamp (block_at requestBlock 0) ->
  (Z.to_nat (number (head requestBlock)) < fuel)%nat ->
  exists blocks',
    getBlockForTimestamp requestBlock estimateBlocksElapsed estimatedBlock
      fuel ts blocks = (Throw "timestamp is before block 0", blocks').
Proof.
  intros Hchain Hv Hgen Hfuel.
  pose proof (before_genesis_all_later requestBlock Hchain ts (head requestBlock)
                Hgen (on_chain_head requestBlock Hchain)) as Hhead.
  assert (Hfetch : exists blocks',
    (block <- getLatestBlock requestBlock ;;
     (if timestamp block <=? ts then ret (Some block) else ret None)) blocks
    = (Ok None, blocks') /\ cache_valid requestBlock blocks' /\ blocks' <> []).
  { destruct (getLatestBlock_spec requestBlock Hchain blocks Hv)
      as (blocks1 & Hget & Hv1 & Hin1 & _).
    exists blocks1. unfold bind. rewrite Hget.
    destruct (Z.leb_spec (timestamp (head requestBlock)) ts) as [Hle | _]; [lia |].
    split; [reflexivity |]. split; [assumption |].
    intros ->. destruct Hin1. }
  unfold getBlockForTimestamp, bind at 1, this_blocks at 1.
  unfold bind at 1.
  destruct (last_opt blocks) as [lastBlock|] eqn:El.
  - destruct (timestamp lastBlock <? ts).
    + destruct Hfetch as (blocks1 & -> & Hv1 & Hne1).
      apply searchCache_throws; assumption.
    + unfold ret. apply searchCache_throws; try assumption.
      intros ->. discriminate.
  - destruct Hfetch as (blocks1 & -> & Hv1 & Hne1).
    apply searchCache_throws; assumption.
Qed.

(** C1 (amended). On a chain whose timestamps strictly increase with the
    block number, from every cache the locator's operations can produce,
    for any rounding of its two floating-point hints and with enough
    recursion budget: for every timestamp [ts] at or after the genesis
    block's, [getBlockForTimestamp(ts)] returns a block [B] of the chain with
    [B.timestamp <= ts] such that [B] is the head or the block numbered
    [B.number + 1] has a timestamp greater than [ts]; for every [ts] before
    the genesis block's it throws "timestamp is before block 0". *)
Theorem getBlockForTimestamp_returns_latest_at_or_before :
  forall blocks ts fuel,
    chain_ok requestBlock ->
    reachable requestBlock estimateBlocksElapsed estimatedBlock blocks ->
    (Z.to_nat (number (head requestBlock)) < fuel)%nat ->
    (timestamp (block_at requestBlock 0) <= ts ->
     exists B blocks',
       getBlockForTimestamp requestBlock estimateBlocksElapsed estimatedBlock
         fuel ts blocks = (Ok B, blocks') /\
       on_chain requestBlock B /\
       timestamp B <= ts /\
       (B = head requestBlock \/
        (number B < number (head requestBlock) /\
         ts < timestamp (block_at requestBlock (number B + 1))))) /\
    (ts < timestamp (block_at requestBlock 0) ->
     exists blocks',
       getBlockForTimestamp requestBlock estimateBlocksElapsed estimatedBlock
         fuel ts blocks = (Throw "timestamp is before block 0", blocks')).
Proof.
  intros blocks ts fuel Hchain Hreach Hfuel.
  pose proof (reachable_valid _ _ _ Hchain _ Hreach) as Hv.
  split.
  - intros Hgen.
    destruct (getBlockForTimestamp_spec fuel ts blocks Hchain Hv Hgen Hfuel)
      as (B & blocks' & Hrun & _ & Hlatest).
    exists B, blocks'. split; [assumption | exact Hlatest].
  - intros Hgen. apply getBlockForTimestamp_throws; assumption.
Qed.

End LocatorClaim.

Section LocatorExamples.
Import BlockFinder.

Lemma example_chain_ok : chain_ok example_requestBlock.
Proof.
  split; [intros n; reflexivity |].
  split; [simpl; lia |].
  split; [reflexivity |].
  intros m n Hm Hmn Hn. unfold block_at, example_requestBlock.
  cbn [timestamp]. lia.
Qed.

Lemma example_answers_by_number : answers_by_number example_requestBlock.
Proof. intros n. reflexivity. Qed.

(** C1, an instance: on the example chain, from the empty cache, the latest
    block at or before 250 is found, and a request for 50 throws. *)
Lemma getBlockForTimestamp_returns_latest_witness :
  (exists B blocks',
     getBlockForTimestamp example_requestBlock estimateBlocksElapsed_exact
       estimatedBlock_exact 5 250 [] = (Ok B, blocks') /\
     on_chain example_requestBlock B /\
     timestamp B <= 250 /\
     (B = head example_requestBlock \/
      (number B < number (head example_requestBlock) /\
       250 < timestamp (block_at example_requestBlock (number B + 1))))) /\
  (exists blocks',
     getBlockForTimestamp example_requestBlock estimateBlocksElapsed_exact
       estimatedBlock_exact 5 50 []
     = (Throw "timestamp is before block 0", blocks')).
Proof.
  split.
  - apply (getBlockForTimestamp_returns_latest_at_or_before
             example_requestBlock estimateBlocksElapsed_exact estimatedBlock_exact
             [] 250 5).
    + exact example_chain_ok.
    + constructor.
    + simpl. lia.
    + simpl. lia.
  - apply (getBlockForTimestamp_returns_latest_at_or_before
             example_requestBlock estimateBlocksElapsed_exact estimatedBlock_exact
             [] 50 5).
    + exact example_chain_ok.
    + constructor.
    + simpl. lia.
    + simpl. lia.
Defined.

(** C1, as stated, fails before genesis: on the example chain (genesis
    stamped 100) a request for timestamp 50 from the empty cache fetches the
    head, walks back to block 0 and throws; no block is returned. *)
Lemma getBlockForTimestamp_before_genesis_throws :
  chain_ok example_requestBlock /\
  reachable example_requestBlock estimateBlocksElapsed_exact estimatedBlock_exact [] /\
  50 < timestamp (block_at example_requestBlock 0) /\
  getBlockForTimestamp example_requestBlock estimateBlocksElapsed_exact
    estimatedBlock_exact 5 50 []
  = (Throw "timestamp is before block 0", [mkBlock 0 100; mkBlock 2 300]).
Proof.
  split; [exact example_chain_ok |].
  split; [constructor |].
  split; [simpl; lia | reflexivity].
Qed.

(** C3, an instance: the example node and a two-entry cache. *)
Lemma cache_stays_sorted_and_unique_witness :
  (let blocks' := snd (getLatestBlock example_requestBlock
                         [mkBlock 0 100; mkBlock 1 200]) in
   cache_sorted blocks' /\ NoDup (map number blocks')) /\
  (forall n,
     let blocks' := snd (getBlock example_requestBlock n
                           [mkBlock 0 100; mkBlock 1 200]) in
     cache_sorted blocks' /\ NoDup (map number blocks')) /\
  (forall fuel ts,
     let blocks' := snd (getBlockForTimestamp example_requestBlock
                           estimateBlocksElapsed_exact estimatedBlock_exact
                           fuel ts [mkBlock 0 100; mkBlock 1 200]) in
     cache_sorted blocks' /\ NoDup (map number blocks')).
Proof.
  apply (cache_stays_sorted_and_unique example_requestBlock
           estimateBlocksElapsed_exact estimatedBlock_exact).
  - exact example_answers_by_number.
  - repeat constructor; simpl; lia.
Defined.

End LocatorExamples.

(* ================================================================== *)
(** * The adaptive event fetcher *)
(* ================================================================== *)

Section FetcherFacts.
Import Fetcher.

Lemma blockRangeOf_nil (a b : Z) : b < a -> blockRangeOf a b = [].
Proof.
  intros H. unfold blockRangeOf.
  replace (Z.to_nat (b - a + 1)) with 0%nat by lia. reflexivity.
Qed.

Lemma map_seq_offset (a : Z) (k : nat) :
  forall len start,
    map (fun i => a + Z.of_nat i) (seq (start + k) len)
    = map (fun i => a + Z.of_nat k + Z.of_nat i) (seq start len).
Proof.
  induction len as [|len IH]; intros start; simpl; [reflexivity |].
  f_equal; [lia | apply (IH (S start))].
Qed.

Lemma blockRangeOf_app (a m b : Z) :
  a <= m + 1 -> m <= b ->
  blockRangeOf a m ++ blockRangeOf (m + 1) b = blockRangeOf a b.
Proof.
  intros Ham Hmb. unfold blockRangeOf.
  replace (Z.to_nat (b - a + 1))
    with (Z.to_nat (m - a + 1) + Z.to_nat (b - (m + 1) + 1))%nat by lia.
  rewrite seq_app, map_app. f_equal.
  rewrite map_seq_offset.
  replace (a + Z.of_nat (Z.to_nat (m - a + 1))) with (m + 1) by lia.
  reflexivity.
Qed.

Lemma blockRangeOf_In (a b n : Z) : In n (blockRangeOf a b) <-> a <= n <= b.
Proof.
  unfold blockRangeOf. rewrite in_map_iff. split.
  - intros (i & <- & Hi). apply in_seq in Hi. lia.
  - intros H. exists (Z.to_nat (n - a)). split; [lia |].
    apply in_seq. lia.
Qed.

Variable Event : Type.
Variable eventsAt : Z -> list Event.
Variable fails : nat -> Z -> Z -> bool.

(** What a successful run has accumulated: the events of an initial segment
    of the range that stops at [toBlock] or one block short of it. *)
Lemma fetchLoop_covers (fromBlock toBlock : Z) :
  forall fuel attempt events requested lastBlock blockRange result requested',
    fromBlock - 1 <= lastBlock -> lastBlock < toBlock -> 1 <= blockRange ->
    events = flat_map eventsAt (blockRangeOf fromBlock lastBlock) ->
    fetchLoop Event eventsAt fails fuel attempt toBlock events requested
      lastBlock blockRange = Some (result, requested') ->
    exists covered,
      (covered = toBlock \/ covered = toBlock - 1) /\
      result = flat_map eventsAt (blockRangeOf fromBlock covered).
Proof.
  induction fuel as [|fuel IH];
    intros attempt events requested lastBlock blockRange result requested'
           Hlo Hhi Hbr Hev Hrun; [discriminate |].
  cbn [fetchLoop] in Hrun. unfold getPastEvents in Hrun.
  destruct (fails attempt (lastBlock + 1) (Z.min (lastBlock + blockRange) toBlock)).
  - eapply IH; [| | | exact Hev | exact Hrun]; try lia.
  - assert (Hacc : events ++ flat_map eventsAt
                     (blockRangeOf (lastBlock + 1) (Z.min (lastBlock + blockRange) toBlock))
                   = flat_map eventsAt
                       (blockRangeOf fromBlock (Z.min (lastBlock + blockRange) toBlock))).
    { rewrite Hev, <- flat_map_app, blockRangeOf_app by lia. reflexivity. }
    rewrite Hacc in Hrun.
    destruct (Z.ltb_spec (lastBlock + 1 + blockRange) toBlock) as [Hmore | Hdone].
    + eapply IH; [| | | | exact Hrun]; try lia.
      rewrite Z.min_l by lia. reflexivity.
    + injection Hrun as <- _.
      exists (Z.min (lastBlock + blockRange) toBlock). split; [lia | reflexivity].
Qed.

End FetcherFacts.

Section FetcherClaims.
Import Fetcher.

(** C2, on the scenario of the specification (range [0, 200], one event per
    block, every request for more than 50 blocks fails): the run ends after
    the requests [0..49], [50..99], [100..149] and [150..199] and returns the
    events of blocks 0 to 199; block 200 is never requested. *)
Theorem getRateLimitedEvents_skips_last_block :
  getRateLimitedEvents_trace Z synthetic_events fails_above_50 20 0 200
    = Some (blockRangeOf 0 199, [(0, 49); (50, 99); (100, 149); (150, 199)]) /\
  getRateLimitedEvents Z synthetic_events fails_above_50 20 0 200
    = Some (blockRangeOf 0 199) /\
  In 200 (flat_map synthetic_events (blockRangeOf 0 200)) /\
  ~ In 200 (blockRangeOf 0 199).
Proof.
  split; [vm_compute; reflexivity |].
  split; [vm_compute; reflexivity |].
  split.
  - apply in_flat_map. exists 200.
    split; [rewrite blockRangeOf_In; lia | left; reflexivity].
  - rewrite blockRangeOf_In. lia.
Qed.

Variable Event : Type.
Variable eventsAt : Z -> list Event.
Variable fails : nat -> Z -> Z -> bool.

(** Whatever the fault pattern, a run of [getRateLimitedEvents] over a
    non-empty range that ends returns, in block order and once each, the
    events of [fromBlock .. toBlock] or of [fromBlock .. toBlock - 1]. *)
Theorem getRateLimitedEvents_covers_all_but_maybe_last :
  forall fuel fromBlock toBlock result,
    fromBlock <= toBlock ->
    getRateLimitedEvents Event eventsAt fails fuel fromBlock toBlock = Some result ->
    result = flat_map eventsAt (blockRangeOf fromBlock toBlock) \/
    result = flat_map eventsAt (blockRangeOf fromBlock (toBlock - 1)).
Proof.
  intros fuel fromBlock toBlock result Hle Hrun.
  unfold getRateLimitedEvents, getRateLimitedEvents_trace in Hrun.
  destruct (fetchLoop _ _ _ _ _ _ _ _ _ _) as [[res req]|] eqn:E; [| discriminate].
  injection Hrun as <-.
  assert (Hnil : @nil Event
                 = flat_map eventsAt (blockRangeOf fromBlock (fromBlock - 1)))
    by (rewrite blockRangeOf_nil by lia; reflexivity).
  destruct (fetchLoop_covers Event eventsAt fails fromBlock toBlock
              fuel 0%nat [] [] (fromBlock - 1) (toBlock - (fromBlock - 1)) res req
              ltac:(lia) ltac:(lia) ltac:(lia) Hnil E)
    as (covered & [-> | ->] & ->); auto.
Qed.

End FetcherClaims.

Section FetcherExamples.
Import Fetcher.

(** An instance: range [0, 5] when only single-block requests succeed. *)
Lemma getRateLimitedEvents_covers_witness :
  [0; 1; 2; 3; 4] = flat_map synthetic_events (blockRangeOf 0 5) \/
  [0; 1; 2; 3; 4] = flat_map synthetic_events (blockRangeOf 0 (5 - 1)).
Proof.
  apply (getRateLimitedEvents_covers_all_but_maybe_last Z synthetic_events
           (fun _ a b => 1 <? b - a + 1) 50 0 5 [0; 1; 2; 3; 4]).
  - lia.
  - vm_compute. reflexivity.
Defined.

End FetcherExamples.

(* ================================================================== *)
(** * The TWAP integrator *)
(* ================================================================== *)

Section TwapFacts.
Import Tvl.

Context {num : Type} `{JSNumber num}.

(** The index-driven loop of [calculateTwap] over a suffix of the selected
    samples is the weighted sum of that suffix. *)
Lemma calculateTwap_loop (endTimestamp : num) :
  forall (suffix pre : list (BalanceItem num)) (acc : option num),
    fold_left
      (fun (cumValue : option num) (entry : BalanceItem num * nat) =>
         let (balanceItem, balanceIndex) := entry in
         let timePeriod :=
           if (balanceIndex <? length (pre ++ suffix) - 1)%nat
           then js_sub (field timestamp (nth_error (pre ++ suffix) (balanceIndex + 1)))
                       (timestamp balanceItem)
           else js_sub (Some endTimestamp) (timestamp balanceItem) in
         js_add cumValue
           (js_mul (field value (nth_error (pre ++ suffix) balanceIndex)) timePeriod))
      (combine suffix (seq (length pre) (length suffix))) acc
    = weightedSum endTimestamp suffix acc.
Proof.
  induction suffix as [|b rest IH]; intros pre acc; [reflexivity |].
  cbn [length seq combine fold_left weightedSum].
  assert (Hb : nth_error (pre ++ b :: rest) (length pre) = Some b).
  { rewrite nth_error_app2 by lia. rewrite Nat.sub_diag. reflexivity. }
  rewrite Hb. cbn [field].
  assert (Hw : (if (length pre <? length (pre ++ b :: rest) - 1)%nat
                then js_sub (field timestamp
                               (nth_error (pre ++ b :: rest) (length pre + 1)))
                            (timestamp b)
                else js_sub (Some endTimestamp) (timestamp b))
               = match rest with
                 | next :: _ => js_sub (timestamp next) (timestamp b)
                 | [] => js_sub (Some endTimestamp) (timestamp b)
                 end).
  { rewrite length_app. cbn [length].
    destruct rest as [|next rest'].
    - cbn [length]. destruct (Nat.ltb_spec (length pre) (length pre + 1 - 1)); [lia |].
      reflexivity.
    - cbn [length].
      destruct (Nat.ltb_spec (length pre) (length pre + S (S (length rest')) - 1)); [| lia].
      rewrite nth_error_app2 by lia.
      replace (length pre + 1 - length pre)%nat with 1%nat by lia. reflexivity. }
  rewrite Hw.
  replace (S (length pre)) with (length (pre ++ [b]))
    by (rewrite length_app; cbn [length]; lia).
  replace (pre ++ b :: rest) with ((pre ++ [b]) ++ rest)
    by (rewrite <- app_assoc; reflexivity).
  apply IH.
Qed.

Lemma calculateTwap_weighted (series : list (BalanceItem num))
    (startTimestamp endTimestamp : num) :
  calculateTwap series startTimestamp endTimestamp
  = twapBy (selected startTimestamp endTimestamp) series startTimestamp endTimestamp.
Proof.
  unfold calculateTwap, twapBy. f_equal.
  apply (calculateTwap_loop endTimestamp
           (filter (selected startTimestamp endTimestamp) series) []).
Qed.

Lemma selected_truthy_inWindow (startTimestamp endTimestamp : num)
    (sample : BalanceItem num) :
  selected startTimestamp endTimestamp sample
  = js_truthy (timestamp sample) && inWindow startTimestamp endTimestamp sample.
Proof. unfold selected, inWindow. symmetry. apply andb_assoc. Qed.

Lemma filter_app_drop {A : Type} (p : A -> bool) (l1 l2 : list A) (x : A) :
  p x = false -> filter p (l1 ++ x :: l2) = filter p (l1 ++ l2).
Proof.
  intros Hx. rewrite !filter_app. cbn [filter]. rewrite Hx. reflexivity.
Qed.

Lemma filter_app_swap {A : Type} (p : A -> bool) (l1 l2 : list A) (x y : A) :
  p x = false -> p y = false ->
  filter p (l1 ++ x :: l2) = filter p (l1 ++ y :: l2).
Proof.
  intros Hx Hy. rewrite !filter_app. cbn [filter]. rewrite Hx, Hy. reflexivity.
Qed.

End TwapFacts.

Section TwapClaims.
Import Tvl.

Context {num : Type} `{JSNumber num}.

(** C4 (amended). For every balance series and every window, in any
    arithmetic, [calculateTwap(series, start, end)] is the sum, taken in
    order over the samples whose timestamp is present, non-zero and in
    [[start, end)], of value times weight, divided by [end - start]; the
    weight of a sample is the time until the next such sample and, for the
    last one, the time until [end]. *)
Theorem calculateTwap_is_weighted_average :
  forall (series : list (BalanceItem num)) (startTimestamp endTimestamp : num),
    calculateTwap series startTimestamp endTimestamp
    = twapBy (fun sample =>
                js_truthy (timestamp sample)
                && inWindow startTimestamp endTimestamp sample)
             series startTimestamp endTimestamp.
Proof.
  intros series startTimestamp endTimestamp.
  rewrite calculateTwap_weighted. unfold twapBy. do 2 f_equal.
  apply filter_ext. intros sample. apply selected_truthy_inWindow.
Qed.

(** C10. A sample whose timestamp is absent or exactly [0] is left out of
    the integration (also when [0] lies in the window): removing it, or
    replacing it by any other sample with the same timestamp, leaves the
    result of [calculateTwap] unchanged. *)
Theorem calculateTwap_ignores_untimed_samples :
  forall (Hzero : JSNumberZero num)
         (before after : list (BalanceItem num)) (sample : BalanceItem num)
         (startTimestamp endTimestamp : num),
    timestamp sample = None \/ timestamp sample = Some (num_of_Z 0) ->
    calculateTwap (before ++ sample :: after) startTimestamp endTimestamp
    = calculateTwap (before ++ after) startTimestamp endTimestamp /\
    (forall other,
       timestamp other = timestamp sample ->
       calculateTwap (before ++ other :: after) startTimestamp endTimestamp
       = calculateTwap (before ++ sample :: after) startTimestamp endTimestamp).
Proof.
  intros Hzero before after sample startTimestamp endTimestamp Hts.
  assert (Hout : forall other, timestamp other = timestamp sample ->
                   selected startTimestamp endTimestamp other = false).
  { intros other E. unfold selected. rewrite E.
    destruct Hts as [-> | ->]; cbn [js_truthy]; [reflexivity |].
    rewrite num_zero_falsy. reflexivity. }
  split.
  - unfold calculateTwap.
    rewrite (filter_app_drop _ before after sample (Hout sample eq_refl)).
    reflexivity.
  - intros other E. unfold calculateTwap.
    rewrite (filter_app_swap _ before after other sample (Hout other E)
               (Hout sample eq_refl)).
    reflexivity.
Qed.

End TwapClaims.

Section ExactArithmetic.
Import Tvl.
Local Open Scope Qc_scope.

Lemma exact_ltb_lt (a b : Qc) : exact_ltb a b = true <-> a < b.
Proof.
  unfold exact_ltb. rewrite Qclt_alt.
  destruct (a ?= b); split; congruence.
Qed.

Lemma exact_leb_le (a b : Qc) : exact_leb a b = true <-> a <= b.
Proof.
  unfold exact_leb. rewrite Qcle_alt.
  destruct (a ?= b); split; congruence.
Qed.

Lemma exact_truthy_nonzero (a : Qc) : exact_truthy a = true <-> a <> Q2Qc 0.
Proof.
  unfold exact_truthy. rewrite Qceq_alt.
  destruct (a ?= Q2Qc 0); split; congruence.
Qed.

#[export] Instance exact_order : JSNumberOrder Qc.
Proof.
  split; cbn [num_ltb num_leb exact_number].
  - intros a b Hab. apply exact_leb_le. apply Qcnot_lt_le.
    intros Hlt. apply exact_ltb_lt in Hlt. congruence.
  - intros a b Hab. apply exact_leb_le, Qclt_le_weak, exact_ltb_lt, Hab.
  - intros a b Hab. apply exact_leb_le in Hab.
    destruct (exact_ltb b a) eqn:E; [| reflexivity].
    apply exact_ltb_lt in E. exfalso. exact (Qcle_not_lt _ _ Hab E).
  - intros a b c Hab Hbc. apply exact_leb_le.
    eapply Qcle_trans; apply exact_leb_le; eassumption.
  - intros a b c Hab Hbc. apply exact_ltb_lt.
    eapply Qclt_le_trans; [apply exact_ltb_lt | apply exact_leb_le]; eassumption.
Qed.

#[export] Instance exact_zero : JSNumberZero Qc.
Proof. split. reflexivity. Qed.

#[export] Instance double_zero : JSNumberZero float.
Proof. split. reflexivity. Qed.

(** A series of samples that all carry the value [v], integrated up to
    [endTimestamp], telescopes. *)
Lemma weightedSum_constant (endTimestamp v : Qc) :
  forall (samples : list (BalanceItem Qc)) (first : BalanceItem Qc) (acc t0 : Qc),
    Forall (fun b => value b = Some v /\ exists t, timestamp b = Some t)
           (first :: samples) ->
    timestamp first = Some t0 ->
    weightedSum endTimestamp (first :: samples) (Some acc)
    = Some (acc + v * (endTimestamp - t0)).
Proof.
  induction samples as [|next rest IH]; intros first acc t0 HF Ht0.
  - apply Forall_inv in HF. destruct HF as [Hv _].
    cbn [weightedSum]. rewrite Hv, Ht0. reflexivity.
  - pose proof (Forall_inv HF) as [Hv _].
    apply Forall_inv_tail in HF.
    pose proof (Forall_inv HF) as [_ [t1 Ht1]].
    change (weightedSum endTimestamp (first :: next :: rest) (Some acc))
      with (weightedSum endTimestamp (next :: rest)
              (js_add (Some acc)
                 (js_mul (value first) (js_sub (timestamp next) (timestamp first))))).
    rewrite Hv, Ht0, Ht1.
    change (js_add (Some acc) (js_mul (Some v) (js_sub (Some t1) (Some t0))))
      with (Some (acc + v * (t1 - t0))).
    rewrite (IH next (acc + v * (t1 - t0)) t1 HF Ht1).
    f_equal. ring.
Qed.

End ExactArithmetic.

Section ConstantSeriesClaim.
Import Tvl.
Local Open Scope Qc_scope.

Lemma filter_head_split {A : Type} (p : A -> bool) (l : list A) (x : A) (rest : list A) :
  filter p l = x :: rest ->
  exists l1 l2,
    l = l1 ++ x :: l2 /\ Forall (fun y => p y = false) l1 /\ p x = true.
Proof.
  induction l as [|y l IH]; cbn [filter]; [discriminate |].
  destruct (p y) eqn:Ey.
  - intros E. injection E as -> _. exists [], l.
    split; [reflexivity |]. split; [constructor | assumption].
  - intros E. destruct (IH E) as (l1 & l2 & -> & Hl1 & Hx).
    exists (y :: l1), l2. split; [reflexivity |].
    split; [constructor; assumption | assumption].
Qed.

(** When the selected samples all carry [v] and begin at [start], the
    integral over [[start, end)] is [v * (end - start)]. *)
Lemma calculateTwap_constant_from_first
    (series : list (BalanceItem Qc)) (startTimestamp endTimestamp v : Qc) :
  startTimestamp < endTimestamp ->
  (forall sample, In sample series ->
     selected startTimestamp endTimestamp sample = true ->
     value sample = Some v) ->
  (exists first rest,
     filter (selected startTimestamp endTimestamp) series = first :: rest /\
     timestamp first = Some startTimestamp) ->
  calculateTwap series startTimestamp endTimestamp = Some v.
Proof.
  intros Hlt Hconst (first & rest & Hsel & Hfirst).
  rewrite calculateTwap_weighted. unfold twapBy. rewrite Hsel.
  rewrite (weightedSum_constant endTimestamp v rest first _ startTimestamp).
  - cbn [js_div lift2 num_div num_sub num_of_Z exact_number]. f_equal.
    assert (Hne : endTimestamp - startTimestamp <> 0).
    { intros E. apply Qclt_minus_iff in Hlt.
      change (endTimestamp + - startTimestamp) with (endTimestamp - startTimestamp) in Hlt.
      rewrite E in Hlt. discriminate. }
    change (Q2Qc (inject_Z 0)) with 0. field. exact Hne.
  - rewrite <- Hsel. rewrite Forall_forall. intros sample Hin.
    apply filter_In in Hin. destruct Hin as [Hin Hs]. split; [auto |].
    unfold selected in Hs. apply andb_prop in Hs. destruct Hs as [Hs _].
    apply andb_prop in Hs. destruct Hs as [Hs _].
    destruct (timestamp sample) as [t|]; [eauto | discriminate].
  - exact Hfirst.
Qed.

(** C5 (amended). In exact arithmetic, for every window with [start < end]
    and [start] non-zero, and every series sorted ascending by timestamp
    whose samples inside [[start, end)] all carry the value [v], with a
    sample present exactly at [start], [calculateTwap(series, start, end)]
    is exactly [v]. *)
Theorem calculateTwap_constant_series_exact :
  forall (series : list (BalanceItem Qc)) (startTimestamp endTimestamp v : Qc),
    startTimestamp < endTimestamp ->
    startTimestamp <> 0 ->
    seriesSorted series ->
    (exists sample, In sample series /\ timestamp sample = Some startTimestamp) ->
    (forall sample, In sample series ->
       inWindow startTimestamp endTimestamp sample = true ->
       value sample = Some v) ->
    calculateTwap series startTimestamp endTimestamp = Some v.
Proof.
  intros series startTimestamp endTimestamp v Hlt Hnz Hsorted (s0 & Hin0 & Hts0) Hconst.
  assert (Hsel0 : selected startTimestamp endTimestamp s0 = true).
  { unfold selected. rewrite Hts0.
    cbn [js_truthy js_ge js_le js_lt num_truthy num_leb num_ltb exact_number].
    rewrite (proj2 (exact_truthy_nonzero _) Hnz).
    rewrite (proj2 (exact_leb_le _ _) (Qcle_refl _)).
    rewrite (proj2 (exact_ltb_lt _ _) Hlt). reflexivity. }
  apply calculateTwap_constant_from_first; [assumption | |].
  - intros sample Hin Hsel. apply Hconst; [assumption |].
    rewrite selected_truthy_inWindow in Hsel.
    apply andb_prop in Hsel. apply Hsel.
  - destruct (filter (selected startTimestamp endTimestamp) series)
      as [|first rest] eqn:Efilter.
    { assert (Hin : In s0 (filter (selected startTimestamp endTimestamp) series))
        by (apply filter_In; split; assumption).
      rewrite Efilter in Hin. destruct Hin. }
    exists first, rest. split; [reflexivity |].
    destruct (filter_head_split _ _ _ _ Efilter) as (l1 & l2 & -> & Hl1 & Hfirst).
    apply in_app_or in Hin0. destruct Hin0 as [Hin0 | [<- | Hin0]].
    + rewrite Forall_forall in Hl1. rewrite (Hl1 s0 Hin0) in Hsel0. discriminate.
    + assumption.
    + apply StronglySorted_app_iff in Hsorted. destruct Hsorted as (_ & Hs2 & _).
      apply StronglySorted_inv in Hs2. destruct Hs2 as [_ HF].
      rewrite Forall_forall in HF. specialize (HF s0 Hin0).
      unfold sampleLe in HF. rewrite Hts0 in HF.
      unfold selected in Hfirst.
      destruct (timestamp first) as [tf|]; [| discriminate].
      cbn [js_truthy js_ge js_le js_lt num_truthy num_leb num_ltb exact_number] in *.
      apply andb_prop in Hfirst. destruct Hfirst as [Hfirst _].
      apply andb_prop in Hfirst. destruct Hfirst as [_ Hge].
      f_equal. apply Qcle_antisym; apply exact_leb_le; assumption.
Qed.

End ConstantSeriesClaim.

Section TwapExamples.
Import Tvl.

(** C4, as stated, fails for a sample stamped [0] inside the window: with
    doubles, the series [[{timestamp: 0, value: 5}]] over [[0, 10)] gives [0],
    while the weighted average over "those with timestamp in [[start, end)]"
    is [5]. *)
Lemma calculateTwap_drops_sample_at_zero :
  (calculateTwap [sampleAt 0 5] 0 10 = Some 0
   /\ twapBy (inWindow 0 10) [sampleAt 0 5] 0 10 = Some 5
   /\ PrimFloat.eqb 0 5 = false)%float.
Proof. repeat split. Qed.

(** C10, an instance with doubles: a sample without a timestamp in front of
    a series. *)
Lemma calculateTwap_ignores_untimed_samples_witness :
  (calculateTwap
     ([] ++ mkBalanceItem (Some 7%Z) (Some 5%Z) (Some 5) None (Some 2) (Some 10)
         :: [sampleAt 1000 2; sampleAt 1500 3]) 1000 2000
   = calculateTwap ([] ++ [sampleAt 1000 2; sampleAt 1500 3]) 1000 2000 /\
   (forall other,
      timestamp other = None ->
      calculateTwap ([] ++ other :: [sampleAt 1000 2; sampleAt 1500 3]) 1000 2000
      = calculateTwap
          ([] ++ mkBalanceItem (Some 7%Z) (Some 5%Z) (Some 5) None (Some 2) (Some 10)
              :: [sampleAt 1000 2; sampleAt 1500 3]) 1000 2000))%float.
Proof.
  apply (calculateTwap_ignores_untimed_samples double_zero []
           [sampleAt 1000 2; sampleAt 1500 3]
           (mkBalanceItem (Some 7%Z) (Some 5%Z) (Some 5) None (Some 2) (Some 10))
           1000 2000)%float.
  left. reflexivity.
Defined.

(** C5, as stated, fails in the arithmetic the script runs in: with doubles,
    the constant series [0.1] sampled at the start of an hourly window and 13
    seconds later integrates to [0.10000000000000002]. *)
Lemma calculateTwap_constant_series_rounds :
  (let v := 0x1.999999999999ap-4 in
   let series := [sampleAt 1600000000 v; sampleAt 1600000013 v] in
   PrimFloat.ltb 1600000000 1600003600 = true /\
   forallb (selected 1600000000 1600003600) series = true /\
   map value series = [Some v; Some v] /\
   map timestamp series = [Some 1600000000; Some 1600000013] /\
   calculateTwap series 1600000000 1600003600 = Some 0x1.999999999999bp-4 /\
   PrimFloat.eqb 0x1.999999999999bp-4 v = false)%float.
Proof. repeat split. Qed.

(** C5, an instance in exact arithmetic: the value [1/10] held over
    [[1000, 2000)] with samples at 1000 and 1500. *)
Lemma calculateTwap_constant_series_exact_witness :
  calculateTwap
    [sampleAt (Q2Qc 1000) (Q2Qc (1 # 10)); sampleAt (Q2Qc 1500) (Q2Qc (1 # 10))]
    (Q2Qc 1000) (Q2Qc 2000)
  = Some (Q2Qc (1 # 10)).
Proof.
  apply (calculateTwap_constant_series_exact
           [sampleAt (Q2Qc 1000) (Q2Qc (1 # 10)); sampleAt (Q2Qc 1500) (Q2Qc (1 # 10))]
           (Q2Qc 1000) (Q2Qc 2000) (Q2Qc (1 # 10))).
  - reflexivity.
  - discriminate.
  - repeat constructor.
  - eexists. split; [left; reflexivity | reflexivity].
  - intros sample [<- | [<- | []]] _; reflexivity.
Defined.

End TwapExamples.

(* ================================================================== *)
(** * Price lookup and the seed rule *)
(* ================================================================== *)

Section FindIndexFacts.
Context {A : Type}.

Lemma findIndex_None (p : A -> bool) (l : list A) :
  findIndex p l = None -> Forall (fun y => p y = false) l.
Proof.
  induction l as [|x l IH]; cbn [findIndex]; intros Hf; [constructor |].
  destruct (p x) eqn:Ex; [discriminate |].
  constructor; [assumption |]. apply IH.
  destruct (findIndex p l); [discriminate | reflexivity].
Qed.

Lemma findIndex_Some (p : A -> bool) (l : list A) (i : nat) :
  findIndex p l = Some i ->
  exists pre x post,
    l = pre ++ x :: post /\ length pre = i /\ p x = true /\
    Forall (fun y => p y = false) pre.
Proof.
  revert i. induction l as [|x l IH]; cbn [findIndex]; intros i Hf; [discriminate |].
  destruct (p x) eqn:Ex.
  - injection Hf as <-. exists [], x, l. repeat split; [assumption | constructor].
  - destruct (findIndex p l) as [j|]; [| discriminate].
    injection Hf as <-.
    destruct (IH j eq_refl) as (pre & y & post & -> & Hlen & Hy & Hpre).
    exists (x :: pre), y, post. repeat split.
    + cbn [length]. lia.
    + assumption.
    + constructor; assumption.
Qed.

Lemma findIndex_first (p : A -> bool) (x : A) (l : list A) :
  p x = true -> findIndex p (x :: l) = Some 0%nat.
Proof. intros Hx. cbn [findIndex]. rewrite Hx. reflexivity. Qed.

Lemma splice_app (pre post : list A) (c : A) :
  splice (pre ++ post) (length pre) c = pre ++ c :: post.
Proof.
  unfold splice. rewrite firstn_app, Nat.sub_diag, firstn_all, firstn_O, app_nil_r.
  rewrite skipn_app, Nat.sub_diag, skipn_all, skipn_O. reflexivity.
Qed.

Lemma nth_error_snoc_middle (pre post : list A) (x : A) :
  nth_error ((pre ++ [x]) ++ post) (length pre) = Some x.
Proof.
  rewrite <- app_assoc. rewrite nth_error_app2 by lia.
  rewrite Nat.sub_diag. reflexivity.
Qed.

End FindIndexFacts.

Section PriceLookup.
Import Tvl.

Context {num : Type} `{JSNumberOrder num}.

(** C6. For every non-empty price-point sequence that is ascending in time
    and every query timestamp, [getCoingeckoPriceAt] throws exactly when the
    query is strictly before the first point; otherwise it returns the price
    of the latest point whose time is at or before the query (every later
    point is strictly after the query); and when the query is after the last
    point it returns the last point's price. *)
Theorem getCoingeckoPriceAt_latest_at_or_before :
  forall (tokenPrices : TokenMap (list (num * num))) (tokenAddress : String.string)
         (prices : list (num * num)) (query : num),
    lookup tokenAddress tokenPrices = Some prices ->
    prices <> [] ->
    pricesAscending prices ->
    ((exists msg, getCoingeckoPriceAt tokenPrices tokenAddress (Some query) = Throw msg)
     <-> (exists first rest,
            prices = first :: rest /\ num_ltb query (pointTime first) = true)) /\
    ((forall first rest, prices = first :: rest ->
        num_ltb query (pointTime first) = false) ->
     exists i point,
       nth_error prices i = Some point /\
       getCoingeckoPriceAt tokenPrices tokenAddress (Some query) = Ok (snd point) /\
       num_leb (pointTime point) query = true /\
       (forall j later, (i < j)%nat -> nth_error prices j = Some later ->
          num_ltb query (pointTime later) = true)) /\
    (forall lastPoint,
       last_opt prices = Some lastPoint ->
       num_ltb (pointTime lastPoint) query = true ->
       getCoingeckoPriceAt tokenPrices tokenAddress (Some query)
       = Ok (snd lastPoint)).
Proof.
  intros tokenPrices tokenAddress prices query Hlookup Hne Hasc.
  unfold getCoingeckoPriceAt. rewrite Hlookup.
  set (isLater := fun timestampPrice : num * num =>
         js_gt (Some (num_div (fst timestampPrice) (num_of_Z 1000))) (Some query)).
  assert (HisLater : forall point, isLater point = num_ltb query (pointTime point))
    by reflexivity.
  destruct (findIndex isLater prices) as [[|i]|] eqn:Efind.
  - (* the first point is already later than the query: throw *)
    destruct (findIndex_Some _ _ _ Efind) as (pre & first & post & -> & Hlen & Hp & _).
    destruct pre; [| discriminate]. cbn [app] in *. rewrite HisLater in Hp.
    split; [| split].
    + split; [intros _; eauto | intros _; eauto].
    + intros Hnot. specialize (Hnot first post eq_refl). congruence.
    + intros lastPoint Hlast Hafter. exfalso.
      apply last_opt_Some in Hlast. destruct Hlast as [l' El].
      assert (Hle : num_leb (pointTime first) (pointTime lastPoint) = true).
      { destruct l' as [|x l']; cbn [app] in El.
        - injection El as -> _. apply num_leb_total.
          destruct (num_ltb (pointTime lastPoint) (pointTime lastPoint)) eqn:E;
            [| reflexivity].
          pose proof (num_leb_not_ltb _ _ (num_ltb_leb _ _ E)). congruence.
        - injection El as <- ->. apply StronglySorted_inv in Hasc.
          destruct Hasc as [_ HF]. rewrite Forall_forall in HF.
          apply HF. apply in_or_app. right. left. reflexivity. }
      pose proof (num_ltb_leb_trans _ _ _ Hp Hle) as Hq.
      pose proof (num_leb_not_ltb _ _ (num_ltb_leb _ _ Hq)). congruence.
  - (* a later point at index [S i]: the point before it is the answer *)
    destruct (findIndex_Some _ _ _ Efind) as (pre & next & post & -> & Hlen & Hp & Hpre).
    destruct (@exists_last _ pre) as (pre' & point & ->);
      [destruct pre; [discriminate | discriminate] |].
    rewrite length_app in Hlen. cbn [length] in Hlen.
    assert (Ei : i = length pre') by lia. subst i.
    rewrite nth_error_snoc_middle.
    rewrite HisLater in Hp.
    rewrite Forall_forall in Hpre.
    assert (Hpoint : num_leb (pointTime point) query = true).
    { apply num_leb_total. rewrite <- HisLater. apply Hpre.
      apply in_or_app. right. left. reflexivity. }
    assert (Hfirst : forall first rest,
              (pre' ++ [point]) ++ next :: post = first :: rest ->
              num_ltb query (pointTime first) = false).
    { intros first rest E. rewrite <- HisLater. apply Hpre.
      destruct pre'; cbn [app] in E; injection E as <- _;
        [left; reflexivity | left; reflexivity]. }
    assert (Hlater : forall j later, (length pre' < j)%nat ->
              nth_error ((pre' ++ [point]) ++ next :: post) j = Some later ->
              num_ltb query (pointTime later) = true).
    { intros j later Hj Hnth.
      rewrite nth_error_app2 in Hnth by (rewrite length_app; cbn [length]; lia).
      rewrite length_app in Hnth. cbn [length] in Hnth.
      destruct (j - (length pre' + 1))%nat as [|k] eqn:Ek; cbn [nth_error] in Hnth.
      - injection Hnth as <-. assumption.
      - apply StronglySorted_app_iff in Hasc. destruct Hasc as (_ & Hs & _).
        apply StronglySorted_inv in Hs. destruct Hs as [_ HF].
        rewrite Forall_forall in HF.
        eapply num_ltb_leb_trans; [exact Hp |].
        apply HF. eapply nth_error_In; eassumption. }
    split; [| split].
    + split.
      * intros [msg Hthrow]. discriminate.
      * intros (first & rest & E & Hq). rewrite (Hfirst _ _ E) in Hq. discriminate.
    + intros _. exists (length pre'), point.
      split; [apply nth_error_snoc_middle |]. split; [reflexivity |].
      split; assumption.
    + intros lastPoint Hlast Hafter. exfalso.
      apply last_opt_Some in Hlast. destruct Hlast as [l' El].
      assert (Hin : exists j, (length pre' < j)%nat /\
                nth_error ((pre' ++ [point]) ++ next :: post) j = Some lastPoint).
      { exists (length l'). split.
        - apply (f_equal (@length _)) in El.
          rewrite !length_app in El. cbn [length] in El. lia.
        - rewrite El. rewrite nth_error_app2 by lia.
          rewrite Nat.sub_diag. reflexivity. }
      destruct Hin as (j & Hj & Hnth).
      pose proof (Hlater j lastPoint Hj Hnth) as Hq.
      pose proof (num_leb_not_ltb _ _ (num_ltb_leb _ _ Hq)). congruence.
  - (* no later point: forward-fill with the last price *)
    pose proof (findIndex_None _ _ Efind) as Hall. rewrite Forall_forall in Hall.
    destruct (@exists_last _ prices Hne) as (init & lastPoint & ->).
    rewrite last_opt_app.
    split; [| split].
    + split.
      * intros [msg Hthrow]. discriminate.
      * intros (first & rest & E & Hq). rewrite <- HisLater in Hq.
        rewrite Hall in Hq; [discriminate |]. rewrite E. left. reflexivity.
    + intros _. exists (length init), lastPoint.
      split; [rewrite nth_error_app2 by lia; rewrite Nat.sub_diag; reflexivity |].
      split; [reflexivity |]. split.
      * apply num_leb_total. rewrite <- HisLater. apply Hall.
        apply in_or_app. right. left. reflexivity.
      * intros j later Hj Hnth.
        assert (Hsome : nth_error (init ++ [lastPoint]) j <> None) by congruence.
        apply nth_error_Some in Hsome. rewrite length_app in Hsome.
        cbn [length] in Hsome. lia.
    + intros lastPoint' Hlast _. injection Hlast as <-. reflexivity.
Qed.

End PriceLookup.

Section SeedRule.
Import Tvl.

Context {num : Type} `{JSNumberOrder num}.

Lemma not_later_notAfter (startTimestamp : num) (sample : BalanceItem num) :
  js_gt (timestamp sample) (Some startTimestamp) = false ->
  notAfter startTimestamp sample.
Proof.
  unfold js_gt, js_lt, notAfter. destruct (timestamp sample) as [t|]; [| trivial].
  apply num_leb_total.
Qed.

Lemma later_isAfter (startTimestamp : num) (sample : BalanceItem num) :
  js_gt (timestamp sample) (Some startTimestamp) = true ->
  isAfter startTimestamp sample.
Proof.
  unfold js_gt, js_lt, isAfter. destruct (timestamp sample) as [t|];
    [trivial | discriminate].
Qed.

Lemma isAfter_sampleLe (startTimestamp : num) (a b : BalanceItem num) :
  isAfter startTimestamp a -> sampleLe a b -> isAfter startTimestamp b.
Proof.
  unfold isAfter, sampleLe. destruct (timestamp a) as [ta|]; [| intros []].
  destruct (timestamp b) as [tb|]; [| intros _ []].
  apply num_ltb_leb_trans.
Qed.

Lemma isAfter_not_notAfter (startTimestamp : num) (sample : BalanceItem num) :
  isAfter startTimestamp sample -> ~ notAfter startTimestamp sample.
Proof.
  unfold isAfter, notAfter. destruct (timestamp sample) as [t|]; [| intros []].
  intros Hlt Hle. pose proof (num_leb_not_ltb _ _ Hle). congruence.
Qed.

Lemma num_leb_refl (a : num) : num_leb a a = true.
Proof.
  apply num_leb_total. destruct (num_ltb a a) eqn:E; [| reflexivity].
  pose proof (num_leb_not_ltb _ _ (num_ltb_leb _ _ E)). congruence.
Qed.

(** The sample placed at [startTimestamp] sits between the samples not after
    it and the samples after it. *)
Lemma seeded_sorted (startTimestamp : num)
    (before later : list (BalanceItem num)) (seed : BalanceItem num) :
  seriesSorted (before ++ later) ->
  timestamp seed = Some startTimestamp ->
  Forall (notAfter startTimestamp) before ->
  Forall (isAfter startTimestamp) later ->
  seriesSorted (before ++ seed :: later).
Proof.
  intros Hs Hseed Hb Hl.
  apply StronglySorted_app_iff in Hs. destruct Hs as (Hs1 & Hs2 & Hcross).
  rewrite Forall_forall in Hb, Hl.
  apply StronglySorted_app_iff. split; [assumption |]. split.
  - constructor; [assumption |]. rewrite Forall_forall. intros b Hin.
    specialize (Hl b Hin). unfold sampleLe, isAfter in *. rewrite Hseed.
    destruct (timestamp b) as [t|]; [| assumption].
    apply num_ltb_leb. assumption.
  - intros a b Ha [<- | Hin]; [| auto].
    specialize (Hb a Ha). unfold sampleLe, notAfter in *. rewrite Hseed.
    destruct (timestamp a) as [t|]; [assumption | trivial].
Qed.

(** The seed rule on a non-empty series sorted ascending by timestamp, for
    every start [S]: [addFirstBalance] does exactly one of three things.
    Every sample is after [S], and a sample at [S] with balance 0 and value 0
    is put in front; no sample is after [S], and a copy of the last sample
    stamped [S] is appended; otherwise a copy, stamped [S], of the last
    sample not after [S] is inserted right behind it, before the samples
    after [S].  The result is sorted and holds a sample at [S]. *)
Theorem addFirstBalance_seeds_start :
  forall (series : list (BalanceItem num)) (startTimestamp : num),
    series <> [] ->
    seriesSorted series ->
    ((Forall (isAfter startTimestamp) series /\
      addFirstBalance series startTimestamp = zeroItem startTimestamp :: series)
     \/
     (Forall (notAfter startTimestamp) series /\
      exists lastItem,
        last_opt series = Some lastItem /\
        addFirstBalance series startTimestamp
        = series ++ [withTimestamp (Some lastItem) startTimestamp])
     \/
     (~ Forall (isAfter startTimestamp) series /\
      ~ Forall (notAfter startTimestamp) series /\
      exists before nearest later,
        series = before ++ nearest :: later /\ later <> [] /\
        Forall (notAfter startTimestamp) (before ++ [nearest]) /\
        Forall (isAfter startTimestamp) later /\
        addFirstBalance series startTimestamp
        = before ++ nearest :: withTimestamp (Some nearest) startTimestamp :: later))
    /\ ~ (Forall (isAfter startTimestamp) series /\
          Forall (notAfter startTimestamp) series)
    /\ seriesSorted (addFirstBalance series startTimestamp)
    /\ (exists sample,
          In sample (addFirstBalance series startTimestamp) /\
          timestamp sample = Some startTimestamp).
Proof.
  intros series startTimestamp Hne Hsorted.
  assert (Hexcl : ~ (Forall (isAfter startTimestamp) series /\
                     Forall (notAfter startTimestamp) series)).
  { intros [Ha Hn]. destruct series as [|b rest]; [congruence |].
    apply Forall_inv in Ha. apply Forall_inv in Hn.
    exact (isAfter_not_notAfter _ _ Ha Hn). }
  unfold addFirstBalance.
  set (isLater := fun balanceItem : BalanceItem num =>
         js_gt (timestamp balanceItem) (Some startTimestamp)).
  destruct (findIndex isLater series) as [[|i]|] eqn:Efind.
  - (* the first sample is after the start: a zero sample in front *)
    destruct (findIndex_Some _ _ _ Efind) as (pre & first & post & -> & Hlen & Hp & _).
    destruct pre; [| discriminate]. cbn [app] in *.
    assert (Hall : Forall (isAfter startTimestamp) (first :: post)).
    { pose proof (later_isAfter _ _ Hp) as Hfirst.
      constructor; [assumption |].
      apply StronglySorted_inv in Hsorted. destruct Hsorted as [_ HF].
      eapply Forall_impl; [| exact HF].
      intros b Hle. eapply isAfter_sampleLe; eassumption. }
    change (splice (first :: post) 0 (zeroItem startTimestamp))
      with (zeroItem startTimestamp :: first :: post).
    split; [left; split; [assumption | reflexivity] |].
    split; [assumption |]. split.
    + apply (seeded_sorted startTimestamp [] (first :: post));
        [assumption | reflexivity | constructor | assumption].
    + exists (zeroItem startTimestamp). split; [left; reflexivity | reflexivity].
  - (* some later sample at index [S i]: copy the sample before it *)
    destruct (findIndex_Some _ _ _ Efind) as (pre & next & post & -> & Hlen & Hp & Hpre).
    destruct (@exists_last _ pre) as (before & nearest & ->);
      [destruct pre; [discriminate | discriminate] |].
    rewrite length_app in Hlen. cbn [length] in Hlen.
    assert (Ei : i = length before) by lia. subst i.
    rewrite nth_error_snoc_middle.
    replace (S (length before)) with (length (before ++ [nearest]))
      by (rewrite length_app; cbn [length]; lia).
    rewrite splice_app.
    assert (Hnot : Forall (notAfter startTimestamp) (before ++ [nearest])).
    { eapply Forall_impl; [| exact Hpre]. intros b. apply not_later_notAfter. }
    assert (Hlater : Forall (isAfter startTimestamp) (next :: post)).
    { pose proof (later_isAfter _ _ Hp) as Hnext.
      constructor; [assumption |].
      apply StronglySorted_app_iff in Hsorted. destruct Hsorted as (_ & Hs & _).
      apply StronglySorted_inv in Hs. destruct Hs as [_ HF].
      eapply Forall_impl; [| exact HF].
      intros b Hle. eapply isAfter_sampleLe; eassumption. }
    split.
    { right. right. split; [| split].
      - intros Hall. rewrite Forall_app in Hall. destruct Hall as [Hall _].
        rewrite Forall_app in Hall, Hnot.
        destruct Hall as [_ Hn], Hnot as [_ Hn'].
        apply Forall_inv in Hn. apply Forall_inv in Hn'.
        exact (isAfter_not_notAfter _ _ Hn Hn').
      - intros Hall. rewrite Forall_app in Hall. destruct Hall as [_ Hall].
        apply Forall_inv in Hall. apply Forall_inv in Hlater.
        exact (isAfter_not_notAfter _ _ Hlater Hall).
      - exists before, nearest, (next :: post).
        rewrite <- !app_assoc. cbn [app].
        split; [reflexivity |]. split; [discriminate |].
        split; [assumption |]. split; [assumption | reflexivity]. }
    split; [assumption |]. split.
    + apply (seeded_sorted startTimestamp);
        [assumption | reflexivity | assumption | assumption].
    + exists (withTimestamp (Some nearest) startTimestamp).
      split; [| reflexivity]. apply in_or_app. right. left. reflexivity.
  - (* no later sample: carry the last one forward *)
    pose proof (findIndex_None _ _ Efind) as Hall.
    assert (Hnot : Forall (notAfter startTimestamp) series).
    { eapply Forall_impl; [| exact Hall]. intros b. apply not_later_notAfter. }
    destruct (@exists_last _ series Hne) as (init & lastItem & E).
    assert (Hlast : last_opt series = Some lastItem)
      by (rewrite E; apply last_opt_app).
    rewrite Hlast.
    split.
    { right. left. split; [assumption |]. exists lastItem. split; reflexivity. }
    split; [assumption |]. split.
    + apply (seeded_sorted startTimestamp);
        [rewrite app_nil_r; assumption | reflexivity | assumption | constructor].
    + exists (withTimestamp (Some lastItem) startTimestamp).
      split; [| reflexivity]. apply in_or_app. right. left. reflexivity.
Qed.

End SeedRule.

Section PriceAndSeedExamples.
Import Tvl.

(** C6, an instance in exact arithmetic: price points at 1000 s and 2000 s,
    queried at 1500 s (the first price is returned) and at 500 s (throws). *)
Lemma getCoingeckoPriceAt_latest_at_or_before_witness :
  let prices := [(Q2Qc 1000000, Q2Qc 2); (Q2Qc 2000000, Q2Qc 3)] in
  let tokenPrices := [("0xA", prices)] in
  (exists i point,
     nth_error prices i = Some point /\
     getCoingeckoPriceAt tokenPrices "0xA" (Some (Q2Qc 1500)) = Ok (snd point) /\
     num_leb (pointTime point) (Q2Qc 1500) = true /\
     (forall j later, (i < j)%nat -> nth_error prices j = Some later ->
        num_ltb (Q2Qc 1500) (pointTime later) = true)) /\
  (exists msg, getCoingeckoPriceAt tokenPrices "0xA" (Some (Q2Qc 500)) = Throw msg).
Proof.
  split.
  - apply (getCoingeckoPriceAt_latest_at_or_before
             [("0xA", [(Q2Qc 1000000, Q2Qc 2); (Q2Qc 2000000, Q2Qc 3)])] "0xA"
             [(Q2Qc 1000000, Q2Qc 2); (Q2Qc 2000000, Q2Qc 3)] (Q2Qc 1500)).
    + reflexivity.
    + discriminate.
    + repeat constructor.
    + intros first rest E. injection E as <- _. reflexivity.
  - apply (getCoingeckoPriceAt_latest_at_or_before
             [("0xA", [(Q2Qc 1000000, Q2Qc 2); (Q2Qc 2000000, Q2Qc 3)])] "0xA"
             [(Q2Qc 1000000, Q2Qc 2); (Q2Qc 2000000, Q2Qc 3)] (Q2Qc 500)).
    + reflexivity.
    + discriminate.
    + repeat constructor.
    + eexists. eexists. split; reflexivity.
Defined.

(** The seed rule in exact arithmetic: samples at 1000 and 2000, start
    1500. *)
Lemma addFirstBalance_seeds_start_witness :
  let series := [sampleAt (Q2Qc 1000) (Q2Qc 5); sampleAt (Q2Qc 2000) (Q2Qc 7)] in
  let startTimestamp := Q2Qc 1500 in
  ((Forall (isAfter startTimestamp) series /\
    addFirstBalance series startTimestamp = zeroItem startTimestamp :: series)
   \/
   (Forall (notAfter startTimestamp) series /\
    exists lastItem,
      last_opt series = Some lastItem /\
      addFirstBalance series startTimestamp
      = series ++ [withTimestamp (Some lastItem) startTimestamp])
   \/
   (~ Forall (isAfter startTimestamp) series /\
    ~ Forall (notAfter startTimestamp) series /\
    exists before nearest later,
      series = before ++ nearest :: later /\ later <> [] /\
      Forall (notAfter startTimestamp) (before ++ [nearest]) /\
      Forall (isAfter startTimestamp) later /\
      addFirstBalance series startTimestamp
      = before ++ nearest :: withTimestamp (Some nearest) startTimestamp :: later))
  /\ ~ (Forall (isAfter startTimestamp) series /\
        Forall (notAfter startTimestamp) series)
  /\ seriesSorted (addFirstBalance series startTimestamp)
  /\ (exists sample,
        In sample (addFirstBalance series startTimestamp) /\
        timestamp sample = Some startTimestamp).
Proof.
  apply (addFirstBalance_seeds_start
           [sampleAt (Q2Qc 1000) (Q2Qc 5); sampleAt (Q2Qc 2000) (Q2Qc 7)]
           (Q2Qc 1500)).
  - discriminate.
  - repeat constructor.
Defined.

(** C7. On the empty series every sample is (vacuously) after the start, the
    case in which the seed is to carry balance 0 and value 0 as in the branch
    of line 152; yet [findIndex] answers [-1], the branch of line 148 is
    taken first and pushes a sample that carries only the timestamp.  [main]
    reaches this with the "Total" series of a run without bridge events
    (line 298 leaves it empty, line 319 seeds it): with doubles every
    interval TWAP and the TWAP over the range are [NaN], where the zero seed
    gives [0]. *)
Lemma addFirstBalance_empty_series_adds_no_value :
  (seriesSorted (@nil (BalanceItem float)) /\
   Forall (isAfter 1000) (@nil (BalanceItem float)) /\
   addFirstBalance [] 1000 = [mkBalanceItem None None None (Some 1000) None None] /\
   zeroItem 1000
   = mkBalanceItem None None (Some 0) (Some 1000) None (Some 0) /\
   calculateTwap (addFirstBalance [] 1000) 1000 2000 = None /\
   calculateTwap [zeroItem 1000] 1000 2000 = Some 0 /\
   totalSeries 1000 [] = [] /\
   Main.twapsOfToken 3 (totalSeries 1000 []) 1000 3000 1000
   = Ok ([(1000, None); (2000, None)], None))%float.
Proof. repeat split; constructor. Qed.

End PriceAndSeedExamples.

(* ================================================================== *)
(** * [sortBy] *)
(* ================================================================== *)

Section SortByFacts.
Context {A K : Type} (ltb : K -> K -> bool) (key : A -> K).

Lemma insertBy_Permutation (x : A) (l : list A) :
  Permutation (insertBy ltb key x l) (x :: l).
Proof.
  induction l as [|y l IH]; cbn [insertBy]; [reflexivity |].
  destruct (ltb (key y) (key x)); [| reflexivity].
  rewrite IH. apply perm_swap.
Qed.

Lemma sortBy_Permutation (l : list A) : Permutation (sortBy ltb key l) l.
Proof.
  induction l as [|x l IH]; cbn [sortBy fold_right]; [reflexivity |].
  fold (sortBy ltb key l). rewrite insertBy_Permutation. constructor. exact IH.
Qed.

End SortByFacts.

(* ================================================================== *)
(** * Balance reconstruction *)
(* ================================================================== *)

Section TokenMapFacts.
Import Tvl.
Context {A : Type}.

Lemma lookup_assign_same (key : String.string) (v : A) (m : TokenMap A) :
  lookup key (assign key v m) = Some v.
Proof.
  induction m as [|[k old] m IH]; cbn [assign lookup].
  - rewrite String.eqb_refl. reflexivity.
  - destruct (String.eqb k key) eqn:E; cbn [lookup]; rewrite E; [reflexivity | exact IH].
Qed.

Lemma lookup_assign_other (key key' : String.string) (v : A) (m : TokenMap A) :
  key <> key' -> lookup key' (assign key v m) = lookup key' m.
Proof.
  intros Hne. induction m as [|[k old] m IH]; cbn [assign lookup].
  - destruct (String.eqb_spec key key'); [contradiction | reflexivity].
  - destruct (String.eqb_spec k key) as [-> | Hk]; cbn [lookup].
    + destruct (String.eqb_spec key key'); [contradiction | reflexivity].
    + destruct (String.eqb k key'); [reflexivity | exact IH].
Qed.

End TokenMapFacts.

Section Reconstruction.
Import Tvl.
Context {num : Type}.

Lemma sumZ_app (l1 l2 : list Z) : sumZ (l1 ++ l2) = sumZ l1 + sumZ l2.
Proof. unfold sumZ. induction l1 as [|x l1 IH]; simpl; lia. Qed.

Lemma sumZ_Permutation (l1 l2 : list Z) : Permutation l1 l2 -> sumZ l1 = sumZ l2.
Proof. unfold sumZ. induction 1; simpl; lia. Qed.

Lemma eventsOf_Permutation (tokenAddress : String.string) (l1 l2 : list Transaction) :
  Permutation l1 l2 ->
  Permutation (eventsOf tokenAddress l1) (eventsOf tokenAddress l2).
Proof.
  unfold eventsOf. induction 1 as [| x l1 l2 _ IH | x y l | l1 l2 l3 _ IH1 _ IH2];
    cbn [filter].
  - constructor.
  - destruct (String.eqb (token x) tokenAddress); [constructor |]; exact IH.
  - destruct (String.eqb (token x) tokenAddress), (String.eqb (token y) tokenAddress);
      try reflexivity. apply perm_swap.
  - etransitivity; eassumption.
Qed.

Lemma eventsOf_app (tokenAddress : String.string) (l1 l2 : list Transaction) :
  eventsOf tokenAddress (l1 ++ l2)
  = eventsOf tokenAddress l1 ++ eventsOf tokenAddress l2.
Proof. apply filter_app. Qed.

Lemma runningSamples_app (events1 events2 : list Transaction) :
  forall sumSoFar,
    @runningSamples num sumSoFar (events1 ++ events2)
    = runningSamples sumSoFar events1
      ++ runningSamples (sumSoFar + sumZ (map netAmount events1)) events2.
Proof.
  induction events1 as [|e events1 IH]; intros sumSoFar;
    cbn [app runningSamples map sumZ fold_right].
  - rewrite Z.add_0_r. reflexivity.
  - rewrite IH. fold (sumZ (map netAmount events1)).
    rewrite Z.add_assoc. reflexivity.
Qed.

Lemma runningSamples_length (events : list Transaction) :
  forall sumSoFar, length (@runningSamples num sumSoFar events) = length events.
Proof.
  induction events as [|e events IH]; intros sumSoFar; cbn [runningSamples length];
    [reflexivity | rewrite IH; reflexivity].
Qed.

(** The [k]-th running sample (counting from 0) carries the sum of the first
    [k + 1] amounts, and the block number of the [k]-th event. *)
Lemma runningSamples_nth (events : list Transaction) :
  forall sumSoFar k sample,
    nth_error (@runningSamples num sumSoFar events) k = Some sample ->
    rawBalance sample
    = Some (sumSoFar + sumZ (firstn (S k) (map netAmount events))) /\
    blockNumber sample
    = option_map txBlockNumber (nth_error events k).
Proof.
  induction events as [|e events IH]; intros sumSoFar k sample Hk.
  - destruct k; discriminate.
  - destruct k as [|k]; cbn [runningSamples nth_error] in Hk.
    + injection Hk as <-. cbn [rawBalance blockNumber map firstn sumZ fold_right nth_error option_map].
      split; [f_equal; lia | reflexivity].
    + destruct (IH _ _ _ Hk) as [Hr Hb]. rewrite Hr, Hb.
      cbn [map firstn sumZ fold_right nth_error].
      fold (sumZ (firstn (S k) (map netAmount events))).
      split; [f_equal; lia | reflexivity].
Qed.

Lemma runningSamples_last (events : list Transaction) (e : Transaction) :
  forall sumSoFar,
    last_opt (@runningSamples num sumSoFar (events ++ [e]))
    = Some (mkBalanceItem (Some (txBlockNumber e))
              (Some (sumSoFar + sumZ (map netAmount (events ++ [e]))))
              None None None None).
Proof.
  intros sumSoFar. rewrite runningSamples_app. cbn [runningSamples].
  rewrite last_opt_app. rewrite map_app, sumZ_app. cbn [map sumZ fold_right].
  do 3 f_equal. lia.
Qed.

Lemma eventsOf_snoc_same (processed : list Transaction) (transaction : Transaction) :
  eventsOf (token transaction) (processed ++ [transaction])
  = eventsOf (token transaction) processed ++ [transaction].
Proof.
  rewrite eventsOf_app. f_equal. unfold eventsOf. cbn [filter].
  rewrite String.eqb_refl. reflexivity.
Qed.

Lemma eventsOf_snoc_other (tokenAddress : String.string)
    (processed : list Transaction) (transaction : Transaction) :
  token transaction <> tokenAddress ->
  eventsOf tokenAddress (processed ++ [transaction])
  = eventsOf tokenAddress processed.
Proof.
  intros Hne. rewrite eventsOf_app. unfold eventsOf at 2. cbn [filter].
  destruct (String.eqb_spec (token transaction) tokenAddress); [contradiction |].
  apply app_nil_r.
Qed.

Lemma recordTransaction_holds (balances : TokenMap (list (BalanceItem num)))
    (processed : list Transaction) (transaction : Transaction) :
  holds balances processed ->
  exists balances',
    recordTransaction balances transaction = Ok balances' /\
    holds balances' (processed ++ [transaction]).
Proof.
  intros Hholds. unfold recordTransaction. rewrite (Hholds (token transaction)).
  assert (Hother : forall tokenAddress items,
            token transaction <> tokenAddress ->
            lookup tokenAddress (assign (token transaction) items balances)
            = match eventsOf tokenAddress (processed ++ [transaction]) with
              | [] => None
              | events => Some (runningSamples 0 events)
              end).
  { intros tokenAddress items Hne. rewrite lookup_assign_other by assumption.
    rewrite Hholds, eventsOf_snoc_other by assumption. reflexivity. }
  pose proof (eventsOf_snoc_same processed transaction) as Hsame.
  destruct (eventsOf (token transaction) processed) as [|e es] eqn:Eev.
  - eexists. split; [reflexivity |]. intros tokenAddress.
    destruct (String.eqb_spec (token transaction) tokenAddress) as [<- | Hne];
      [| apply Hother; assumption].
    rewrite lookup_assign_same, Hsame. reflexivity.
  - destruct (@exists_last _ (e :: es)) as (init & lastEvent & Elast); [discriminate |].
    rewrite Elast, runningSamples_last. cbn [rawBalance].
    eexists. split; [reflexivity |]. intros tokenAddress.
    destruct (String.eqb_spec (token transaction) tokenAddress) as [<- | Hne];
      [| apply Hother; assumption].
    rewrite lookup_assign_same, Hsame, <- Elast.
    change (match (e :: es) ++ [transaction] with
            | [] => None
            | events => Some (runningSamples 0 events)
            end)
      with (Some (@runningSamples num 0 ((e :: es) ++ [transaction]))).
    rewrite (runningSamples_app (e :: es) [transaction]).
    reflexivity.
Qed.

Lemma recordTransactions_holds (transactions : list Transaction) :
  forall (balances : TokenMap (list (BalanceItem num))) (processed : list Transaction),
    holds balances processed ->
    exists balances',
      recordTransactions balances transactions = Ok balances' /\
      holds balances' (processed ++ transactions).
Proof.
  induction transactions as [|transaction rest IH]; intros balances processed Hholds.
  - exists balances. rewrite app_nil_r. split; [reflexivity | assumption].
  - destruct (recordTransaction_holds balances processed transaction Hholds)
      as (balances1 & Hstep & Hholds1).
    destruct (IH balances1 (processed ++ [transaction]) Hholds1)
      as (balances2 & Hrest & Hholds2).
    exists balances2. cbn [recordTransactions]. rewrite Hstep.
    split; [assumption |]. rewrite <- app_assoc in Hholds2. exact Hholds2.
Qed.

Lemma insertBy_ascending (x : Transaction) (l : list Transaction) :
  StronglySorted (fun a b => txBlockNumber a <= txBlockNumber b) l ->
  StronglySorted (fun a b => txBlockNumber a <= txBlockNumber b)
    (insertBy Z.ltb txBlockNumber x l).
Proof.
  induction 1 as [|y l Hs IH HF]; cbn [insertBy]; [repeat constructor |].
  destruct (Z.ltb_spec (txBlockNumber y) (txBlockNumber x)) as [Hlt | Hge].
  - constructor; [assumption |].
    rewrite Forall_forall in *. intros z Hz.
    apply (Permutation_in _ (insertBy_Permutation Z.ltb txBlockNumber x l)) in Hz.
    destruct Hz as [<- | Hz]; [lia | auto].
  - constructor; [constructor; assumption |].
    constructor; [assumption |].
    eapply Forall_impl; [| exact HF]. cbn beta. intros z Hz. lia.
Qed.

Lemma sortBy_ascending (l : list Transaction) :
  StronglySorted (fun a b => txBlockNumber a <= txBlockNumber b)
    (sortBy Z.ltb txBlockNumber l).
Proof.
  induction l as [|x l IH]; cbn [sortBy fold_right]; [constructor |].
  apply insertBy_ascending. exact IH.
Qed.

End Reconstruction.

Section ReconstructionClaim.
Import Tvl.
Context {num : Type}.

(** C9. [main] processes the bridge events in ascending block order: the
    sequence processed holds exactly the events fetched, each as often as it
    was fetched, ordered by block number.  For every asset it builds one
    sample per event of that asset whose [rawBalance] is the sum of the
    asset's signed amounts up to and including that event; the last sample's
    [rawBalance] is the sum of all signed amounts of the asset, in whatever
    order the events were fetched.  An asset has no entry exactly when no
    fetched event names it. *)
Theorem rawBalance_is_running_sum :
  forall rawBridgeTransactions : list Transaction,
    let processed := sortBy Z.ltb txBlockNumber rawBridgeTransactions in
    StronglySorted (fun a b => txBlockNumber a <= txBlockNumber b) processed /\
    Permutation processed rawBridgeTransactions /\
    exists balances : TokenMap (list (BalanceItem num)),
      reconstructBalances rawBridgeTransactions = Ok balances /\
      forall tokenAddress,
        let events := eventsOf tokenAddress processed in
        Permutation events (eventsOf tokenAddress rawBridgeTransactions) /\
        (lookup tokenAddress balances = None <->
         eventsOf tokenAddress rawBridgeTransactions = []) /\
        match lookup tokenAddress balances with
        | None => events = []
        | Some samples =>
            length samples = length events /\
            length samples
            = length (eventsOf tokenAddress rawBridgeTransactions) /\
            (forall k sample,
               nth_error samples k = Some sample ->
               rawBalance sample
               = Some (sumZ (firstn (S k) (map netAmount events))) /\
               blockNumber sample
               = option_map txBlockNumber (nth_error events k)) /\
            (exists lastSample,
               last_opt samples = Some lastSample /\
               rawBalance lastSample
               = Some (sumZ (map netAmount
                               (eventsOf tokenAddress rawBridgeTransactions))))
        end.
Proof.
  intros rawBridgeTransactions processed.
  split; [apply sortBy_ascending |].
  split; [apply sortBy_Permutation |].
  destruct (@recordTransactions_holds num processed [] [])
    as (balances & Hrun & Hholds); [intros tokenAddress; reflexivity |].
  exists balances. split; [exact Hrun |].
  intros tokenAddress events. cbn [app] in Hholds.
  assert (Hperm : Permutation events
                    (eventsOf tokenAddress rawBridgeTransactions))
    by (apply eventsOf_Permutation, sortBy_Permutation).
  split; [exact Hperm |].
  rewrite (Hholds tokenAddress). fold events.
  destruct events as [|e es] eqn:Eev.
  - split; [| reflexivity]. split; [| reflexivity].
    intros _. apply Permutation_nil. exact Hperm.
  - split.
    { split; [discriminate |]. intros Hnone. rewrite Hnone in Hperm.
      apply Permutation_sym, Permutation_nil in Hperm. discriminate. }
    split; [apply runningSamples_length |]. split.
    { rewrite runningSamples_length. apply Permutation_length. exact Hperm. }
    split.
    + intros k sample Hk.
      destruct (runningSamples_nth _ _ _ _ Hk) as [Hr Hb].
      rewrite Hr, Hb, Z.add_0_l. split; reflexivity.
    + destruct (@exists_last _ (e :: es)) as (init & lastEvent & Elast); [discriminate |].
      rewrite Elast, runningSamples_last. eexists. split; [reflexivity |].
      cbn [rawBalance]. rewrite Z.add_0_l, <- Elast. f_equal.
      apply sumZ_Permutation, Permutation_map. exact Hperm.
Qed.

End ReconstructionClaim.

(* ================================================================== *)
(** * The "Total" series *)
(* ================================================================== *)

Section SortByMore.
Context {A K : Type} (ltb : K -> K -> bool) (key : A -> K).

Lemma sortBy_map {B K' : Type} (ltb' : K' -> K' -> bool) (key' : B -> K')
    (f : A -> B) :
  (forall x y, ltb' (key' (f x)) (key' (f y)) = ltb (key x) (key y)) ->
  forall l, sortBy ltb' key' (map f l) = map f (sortBy ltb key l).
Proof.
  intros Hkey.
  assert (Hins : forall x l,
            insertBy ltb' key' (f x) (map f l) = map f (insertBy ltb key x l)).
  { intros x l. induction l as [|y l IH]; cbn [insertBy map]; [reflexivity |].
    rewrite Hkey. destruct (ltb (key y) (key x)); cbn [map]; [rewrite IH |];
      reflexivity. }
  induction l as [|x l IH]; cbn [sortBy fold_right map]; [reflexivity |].
  fold (sortBy ltb' key' (map f l)). fold (sortBy ltb key l).
  rewrite IH. apply Hins.
Qed.

(** The first element of the sorted array comes before, in the input, only
    elements with a strictly greater key. *)
Lemma sortBy_head (l : list A) (x0 : A) (rest : list A) :
  sortBy ltb key l = x0 :: rest ->
  exists l1 l2,
    l = l1 ++ x0 :: l2 /\
    forall y, In y l1 -> ltb (key x0) (key y) = true.
Proof.
  revert x0 rest. induction l as [|x l IH]; intros x0 rest Hs; [discriminate |].
  cbn [sortBy fold_right] in Hs. fold (sortBy ltb key l) in Hs.
  destruct (sortBy ltb key l) as [|h r] eqn:Esort; cbn [insertBy] in Hs.
  - injection Hs as <- <-. exists [], l. split; [reflexivity | intros y []].
  - destruct (ltb (key h) (key x)) eqn:Ehx.
    + injection Hs as <- <-.
      destruct (IH h r eq_refl) as (l1 & l2 & -> & Hl1).
      exists (x :: l1), l2. split; [reflexivity |].
      intros y [<- | Hy]; [assumption | auto].
    + injection Hs as <- <-. exists [], l. split; [reflexivity | intros y []].
Qed.

End SortByMore.

Section ExactSorting.
Import Tvl.
Local Open Scope Qc_scope.

Lemma insertBy_time_sorted (d : Delta) (l : list Delta) :
  StronglySorted (fun a b => d_time a <= d_time b) l ->
  StronglySorted (fun a b => d_time a <= d_time b)
    (insertBy exact_ltb d_time d l).
Proof.
  induction 1 as [|y l Hs IH HF]; cbn [insertBy]; [repeat constructor |].
  destruct (exact_ltb (d_time y) (d_time d)) eqn:E.
  - apply exact_ltb_lt in E. constructor; [assumption |].
    rewrite Forall_forall in *. intros z Hz.
    apply (Permutation_in _ (insertBy_Permutation exact_ltb d_time d l)) in Hz.
    destruct Hz as [<- | Hz]; [apply Qclt_le_weak; assumption | auto].
  - assert (Hle : d_time d <= d_time y).
    { apply Qcnot_lt_le. intros Hlt. apply exact_ltb_lt in Hlt. congruence. }
    constructor; [constructor; assumption |].
    constructor; [assumption |].
    eapply Forall_impl; [| exact HF]. cbn beta. intros z Hz.
    eapply Qcle_trans; eassumption.
Qed.

Lemma sortBy_time_sorted (l : list Delta) :
  StronglySorted (fun a b => d_time a <= d_time b) (sortBy exact_ltb d_time l).
Proof.
  induction l as [|x l IH]; cbn [sortBy fold_right]; [constructor |].
  apply insertBy_time_sorted. exact IH.
Qed.

Lemma sortBy_ofDelta (l : list Delta) :
  sortBy js_lt c_timestamp (map ofDelta l)
  = map ofDelta (sortBy exact_ltb d_time l).
Proof. apply sortBy_map. intros x y. reflexivity. Qed.

(** ** Sums of changes *)

Lemma deltaUpTo_app (l1 l2 : list Delta) (t : Qc) :
  deltaUpTo (l1 ++ l2) t = deltaUpTo l1 t + deltaUpTo l2 t.
Proof.
  unfold deltaUpTo. induction l1 as [|d l1 IH]; cbn [app fold_right].
  - change (Q2Qc 0) with 0. ring.
  - rewrite IH. destruct (exact_leb (d_time d) t); [ring | reflexivity].
Qed.

Lemma deltaUpTo_Permutation (l1 l2 : list Delta) (t : Qc) :
  Permutation l1 l2 -> deltaUpTo l1 t = deltaUpTo l2 t.
Proof.
  unfold deltaUpTo.
  induction 1 as [| x l1 l2 _ IH | x y l | l1 l2 l3 _ IH1 _ IH2];
    cbn [fold_right].
  - reflexivity.
  - rewrite IH. reflexivity.
  - destruct (exact_leb (d_time x) t), (exact_leb (d_time y) t);
      try reflexivity. ring.
  - congruence.
Qed.

(** Beyond the latest entry nothing more is added. *)
Lemma deltaUpTo_all (l : list Delta) (t t' : Qc) :
  (forall d, In d l -> d_time d <= t) -> t <= t' ->
  deltaUpTo l t' = deltaUpTo l t.
Proof.
  intros Hall Htt'. unfold deltaUpTo.
  induction l as [|d l IH]; cbn [fold_right]; [reflexivity |].
  rewrite IH by (intros d' Hd'; apply Hall; right; assumption).
  assert (Hd : d_time d <= t) by (apply Hall; left; reflexivity).
  rewrite (proj2 (exact_leb_le _ _) Hd).
  rewrite (proj2 (exact_leb_le _ _) (Qcle_trans _ _ _ Hd Htt')). reflexivity.
Qed.

Lemma deltaUpTo_snoc (l : list Delta) (d : Delta) (t : Qc) :
  deltaUpTo (l ++ [d]) t
  = deltaUpTo l t + (if exact_leb (d_time d) t then d_value d - d_previous d else 0).
Proof.
  rewrite deltaUpTo_app. f_equal. unfold deltaUpTo. cbn [fold_right].
  change (Q2Qc 0) with 0. destruct (exact_leb (d_time d) t); [ring | reflexivity].
Qed.

End ExactSorting.

Section TotalWalk.
Import Tvl.
Local Open Scope Qc_scope.

Lemma exact_leb_false_lt (a b : Qc) : exact_leb a b = false -> b < a.
Proof.
  intros E. apply Qcnot_le_lt. intros Hle. apply exact_leb_le in Hle. congruence.
Qed.

Lemma exact_ltb_false_le (a b : Qc) : exact_ltb a b = false -> b <= a.
Proof.
  intros E. apply Qcnot_lt_le. intros Hlt. apply exact_ltb_lt in Hlt. congruence.
Qed.

Lemma deltaUpTo_snoc_later (l : list Delta) (d : Delta) (t : Qc) :
  t < d_time d -> deltaUpTo (l ++ [d]) t = deltaUpTo l t.
Proof.
  intros Hlt. rewrite deltaUpTo_snoc.
  destruct (exact_leb (d_time d) t) eqn:E.
  - apply exact_leb_le in E. exfalso. exact (Qclt_not_le _ _ Hlt E).
  - ring.
Qed.

Lemma deltaUpTo_snoc_at (l : list Delta) (d : Delta) :
  deltaUpTo (l ++ [d]) (d_time d)
  = deltaUpTo l (d_time d) + (d_value d - d_previous d).
Proof.
  rewrite deltaUpTo_snoc.
  rewrite (proj2 (exact_leb_le _ _) (Qcle_refl _)). reflexivity.
Qed.

(** The walk over the sorted entries: every total emitted so far is the sum
    of the changes at or before its timestamp; the last total sits at the
    timestamp of the last entry, the others strictly before it. *)
Lemma addToTotal_walk :
  forall deltas : list Delta,
    StronglySorted (fun a b => d_time a <= d_time b) deltas ->
    (forall d0 rest, deltas = d0 :: rest -> d_previous d0 = 0) ->
    (deltas = [] /\ fold_left addToTotal (map ofDelta deltas) [] = [])
    \/
    (exists earlier lastDelta totals,
       deltas = earlier ++ [lastDelta] /\
       fold_left addToTotal (map ofDelta deltas) []
       = totals ++ [totalItem (Some (d_time lastDelta))
                      (Some (deltaUpTo deltas (d_time lastDelta)))] /\
       Forall (fun total =>
                 exists t, timestamp total = Some t /\ t < d_time lastDelta /\
                           value total = Some (deltaUpTo deltas t)) totals).
Proof.
  induction deltas as [|q deltas IH] using rev_ind; intros Hsorted Hfirst.
  - left. split; reflexivity.
  - right. apply StronglySorted_app_iff in Hsorted.
    destruct Hsorted as (Hsorted & _ & Hbefore).
    assert (Hle : forall d, In d deltas -> d_time d <= d_time q)
      by (intros d Hd; apply Hbefore; [assumption | left; reflexivity]).
    rewrite map_app, fold_left_app. cbn [map fold_left].
    destruct IH as [[-> Hwalk] | (earlier & lastDelta & totals & -> & Hwalk & Htotals)];
      [assumption | | | ].
    + intros d0 rest E. apply (Hfirst d0 (rest ++ [q])). rewrite E. reflexivity.
    + (* the very first entry *)
      exists [], q, []. split; [reflexivity |]. split; [| constructor].
      cbn [map fold_left app]. unfold addToTotal. cbn [last_opt app ofDelta c_timestamp c_value].
      do 3 f_equal. unfold deltaUpTo. cbn [fold_right].
      rewrite (proj2 (exact_leb_le _ _) (Qcle_refl _)).
      rewrite (Hfirst q [] eq_refl). change (Q2Qc 0) with 0. ring.
    + rewrite Hwalk. unfold addToTotal at 1. rewrite last_opt_app.
      cbn [timestamp value totalItem ofDelta c_timestamp c_value c_previousValue].
      assert (Hall : forall d, In d (earlier ++ [lastDelta]) ->
                d_time d <= d_time lastDelta).
      { apply StronglySorted_app_iff in Hsorted.
        destruct Hsorted as (_ & _ & Hcross).
        intros d Hd. apply in_app_iff in Hd. destruct Hd as [Hd | [<- | []]].
        - apply Hcross; [assumption | left; reflexivity].
        - apply Qcle_refl. }
      assert (Hlast : d_time lastDelta <= d_time q)
        by (apply Hle, in_or_app; right; left; reflexivity).
      change (js_lt (Some (d_time lastDelta)) (Some (d_time q)))
        with (exact_ltb (d_time lastDelta) (d_time q)).
      destruct (exact_ltb (d_time lastDelta) (d_time q)) eqn:Enew.
      * (* a new timestamp: push a new total *)
        apply exact_ltb_lt in Enew.
        exists (earlier ++ [lastDelta]), q,
          (totals ++ [totalItem (Some (d_time lastDelta))
                        (Some (deltaUpTo (earlier ++ [lastDelta]) (d_time lastDelta)))]).
        split; [reflexivity |]. split.
        -- f_equal. f_equal. unfold totalItem. f_equal.
           change (js_sub (js_add (Some ?a) (Some ?b)) (Some ?c))
             with (Some (a + b - c)).
           apply f_equal. rewrite (deltaUpTo_snoc_at (earlier ++ [lastDelta]) q).
           rewrite (deltaUpTo_all _ (d_time lastDelta) (d_time q) Hall Hlast). ring.
        -- apply Forall_app. split.
           ++ eapply Forall_impl; [| exact Htotals]. cbn beta.
              intros total (t & Ht & Hlt & Hv). exists t.
              split; [assumption |]. split; [eapply Qclt_trans; eassumption |].
              rewrite Hv. f_equal. symmetry. apply deltaUpTo_snoc_later.
              eapply Qclt_trans; eassumption.
           ++ constructor; [| constructor]. exists (d_time lastDelta).
              split; [reflexivity |]. split; [assumption |].
              cbn [value totalItem]. f_equal. symmetry.
              apply deltaUpTo_snoc_later. assumption.
      * (* the same timestamp again: adjust the last total in place *)
        apply exact_ltb_false_le in Enew.
        assert (Esame : d_time lastDelta = d_time q)
          by (apply Qcle_antisym; assumption).
        exists (earlier ++ [lastDelta]), q, totals.
        split; [reflexivity |]. split.
        -- rewrite removelast_last. f_equal. f_equal.
           unfold withValue, totalItem.
           cbn [blockNumber rawBalance tokenBalance timestamp price].
           rewrite Esame. f_equal.
           change (js_add (Some ?a) (js_sub (Some ?b) (Some ?c)))
             with (Some (a + (b - c))).
           apply f_equal. rewrite (deltaUpTo_snoc_at (earlier ++ [lastDelta]) q).
           rewrite <- Esame. reflexivity.
        -- eapply Forall_impl; [| exact Htotals]. cbn beta.
           intros total (t & Ht & Hlt & Hv). exists t.
           split; [assumption |]. rewrite <- Esame. split; [assumption |].
           rewrite Hv. f_equal. symmetry. apply deltaUpTo_snoc_later.
           rewrite <- Esame. assumption.
Qed.

(** The walk keeps every timestamp it has seen: the last total sits at the
    timestamp of the last entry and every other entry's timestamp is the
    last one or that of an earlier total. *)
Lemma addToTotal_walk_timestamps :
  forall deltas : list Delta,
    StronglySorted (fun a b => d_time a <= d_time b) deltas ->
    (deltas = [] /\ fold_left addToTotal (map ofDelta deltas) [] = [])
    \/
    (exists lastDelta totals lastTotal,
       (exists earlier, deltas = earlier ++ [lastDelta]) /\
       fold_left addToTotal (map ofDelta deltas) [] = totals ++ [lastTotal] /\
       timestamp lastTotal = Some (d_time lastDelta) /\
       forall d, In d deltas ->
         d_time d = d_time lastDelta \/
         exists total, In total totals /\ timestamp total = Some (d_time d)).
Proof.
  induction deltas as [|q deltas IH] using rev_ind; intros Hsorted.
  - left. split; reflexivity.
  - right. apply StronglySorted_app_iff in Hsorted.
    destruct Hsorted as (Hsorted & _ & Hbefore).
    rewrite map_app, fold_left_app. cbn [map fold_left].
    destruct (IH Hsorted)
      as [[-> Hwalk] | (lastDelta & totals & lastTotal & [earlier ->] & Hwalk & Hts & Hcover)].
    + exists q, [], (totalItem (Some (d_time q)) (Some (d_value q))).
      split; [exists []; reflexivity |]. split; [reflexivity |].
      split; [reflexivity |].
      intros d [<- | []]. left. reflexivity.
    + rewrite Hwalk. unfold addToTotal. rewrite last_opt_app, Hts.
      cbn [ofDelta c_timestamp c_value c_previousValue].
      change (js_lt (Some (d_time lastDelta)) (Some (d_time q)))
        with (exact_ltb (d_time lastDelta) (d_time q)).
      assert (Hlast : d_time lastDelta <= d_time q).
      { apply Hbefore; [| left; reflexivity].
        apply in_or_app. right. left. reflexivity. }
      destruct (exact_ltb (d_time lastDelta) (d_time q)) eqn:Enew.
      * eexists q, (totals ++ [lastTotal]), _.
        split; [eexists; reflexivity |]. split; [reflexivity |].
        split; [reflexivity |].
        intros d Hd. apply in_app_or in Hd.
        destruct Hd as [Hd | [<- | []]]; [| left; reflexivity].
        right. destruct (Hcover d Hd) as [E | (total & Hin & Ht)].
        -- exists lastTotal. split; [apply in_or_app; right; left; reflexivity |].
           rewrite Hts, E. reflexivity.
        -- exists total. split; [apply in_or_app; left; assumption | assumption].
      * apply exact_ltb_false_le in Enew.
        assert (Esame : d_time lastDelta = d_time q)
          by (apply Qcle_antisym; assumption).
        rewrite removelast_last.
        eexists q, totals, _.
        split; [eexists; reflexivity |]. split; [reflexivity |].
        split; [cbn [withValue timestamp]; rewrite Hts, Esame; reflexivity |].
        intros d Hd. apply in_app_or in Hd.
        destruct Hd as [Hd | [<- | []]]; [| left; reflexivity].
        destruct (Hcover d Hd) as [E | Hex]; [left; congruence | right; assumption].
Qed.

End TotalWalk.

Section CombinedStructure.
Import Tvl.
Local Open Scope Qc_scope.

Lemma combine_seq_app {A : Type} (l1 l2 : list A) :
  forall k,
    combine (l1 ++ l2) (seq k (length (l1 ++ l2)))
    = combine l1 (seq k (length l1))
      ++ combine l2 (seq (k + length l1) (length l2)).
Proof.
  induction l1 as [|x l1 IH]; intros k; cbn [app length seq combine].
  - rewrite Nat.add_0_r. reflexivity.
  - rewrite IH. rewrite Nat.add_succ_r. reflexivity.
Qed.

Variable fromTimestamp : Qc.
Hypothesis Hfrom : 0 < fromTimestamp.

(** With a positive range start, a timestamp at or after it is non-zero. *)
Lemma inRange_ge (sample : BalanceItem Qc) :
  inRange fromTimestamp sample = js_ge (timestamp sample) (Some fromTimestamp).
Proof.
  unfold inRange. destruct (timestamp sample) as [t|]; [| reflexivity].
  cbn [js_truthy js_ge js_le num_truthy num_leb exact_number].
  destruct (exact_leb fromTimestamp t) eqn:E; [| apply andb_false_r].
  rewrite andb_true_r. apply exact_truthy_nonzero.
  apply exact_leb_le in E. intros ->.
  exact (Qclt_not_le _ _ Hfrom E).
Qed.

Lemma skip_not_inRange (sample : BalanceItem Qc) :
  negb (js_truthy (timestamp sample))
  || js_lt (timestamp sample) (Some fromTimestamp)
  = negb (inRange fromTimestamp sample).
Proof.
  rewrite inRange_ge. destruct (timestamp sample) as [t|]; [| reflexivity].
  cbn [js_truthy js_ge js_le js_lt num_truthy num_leb num_ltb exact_number].
  destruct (exact_leb fromTimestamp t) eqn:E; cbn [negb].
  - apply exact_leb_le in E.
    assert (Ht : exact_truthy t = true).
    { apply exact_truthy_nonzero. intros ->. exact (Qclt_not_le _ _ Hfrom E). }
    rewrite Ht. cbn [negb orb].
    destruct (exact_ltb t fromTimestamp) eqn:E'; [| reflexivity].
    apply exact_ltb_lt in E'. exfalso. exact (Qclt_not_le _ _ E' E).
  - apply exact_leb_false_lt in E. apply exact_ltb_lt in E. rewrite E.
    apply orb_true_r.
Qed.

Lemma inRange_sampleLe (a b : BalanceItem Qc) :
  sampleLe a b -> inRange fromTimestamp a = true -> inRange fromTimestamp b = true.
Proof.
  rewrite !inRange_ge. unfold sampleLe.
  destruct (timestamp a) as [ta|]; [| discriminate].
  destruct (timestamp b) as [tb|]; [| intros []].
  cbn [js_ge js_le num_leb exact_number]. intros Hab Ha.
  apply exact_leb_le. apply exact_leb_le in Hab, Ha.
  eapply Qcle_trans; eassumption.
Qed.

(** A sorted series is its out-of-range samples followed by its in-range
    samples. *)
Lemma sorted_series_split (series : list (BalanceItem Qc)) :
  seriesSorted series ->
  exists out inr,
    series = out ++ inr /\
    Forall (fun s => inRange fromTimestamp s = false) out /\
    Forall (fun s => inRange fromTimestamp s = true) inr.
Proof.
  induction 1 as [|b series Hs IH HF].
  - exists [], []. repeat constructor.
  - destruct (inRange fromTimestamp b) eqn:Eb.
    + exists [], (b :: series). split; [reflexivity |]. split; [constructor |].
      constructor; [assumption |].
      eapply Forall_impl; [| exact HF]. intros c Hle.
      eapply inRange_sampleLe; eassumption.
    + destruct IH as (out & inr & -> & Hout & Hinr).
      exists (b :: out), inr. split; [reflexivity |].
      split; [constructor; assumption | assumption].
Qed.

Lemma pointsOf_out (out inr : list (BalanceItem Qc)) :
  Forall (fun s => inRange fromTimestamp s = false) out ->
  pointsOf fromTimestamp (out ++ inr) = pointsOf fromTimestamp inr.
Proof.
  intros Hout. unfold pointsOf. rewrite filter_app. f_equal.
  induction Hout as [|b out Hb _ IH]; cbn [filter app]; [reflexivity |].
  rewrite Hb. exact IH.
Qed.

Lemma combined_out (tokenAddress : String.string)
    (series out : list (BalanceItem Qc)) :
  Forall (fun s => inRange fromTimestamp s = false) out ->
  forall k,
    flat_map (fun p : BalanceItem Qc * nat =>
                combinedEntry fromTimestamp tokenAddress series (fst p) (snd p))
             (combine out (seq k (length out)))
    = [].
Proof.
  induction 1 as [|b out Hb _ IH]; intros k; cbn [length seq combine flat_map];
    [reflexivity |].
  rewrite IH, app_nil_r. cbn [fst snd]. unfold combinedEntry.
  rewrite skip_not_inRange, Hb. reflexivity.
Qed.

(** The entries of the in-range samples form a chain: each carries the
    value of the sample before it, the first one the value [previous] that
    the sample in front of them gives. *)
Lemma combined_inRange (tokenAddress : String.string) :
  forall (todo done : list (BalanceItem Qc)) (previous : Qc),
    Forall (fun s => inRange fromTimestamp s = true /\
                     exists v, value s = Some v) todo ->
    (done = [] -> previous = 0) ->
    (forall l, last_opt done = Some l ->
       if inRange fromTimestamp l then value l = Some previous
       else previous = 0) ->
    flat_map (fun p : BalanceItem Qc * nat =>
                combinedEntry fromTimestamp tokenAddress (done ++ todo)
                  (fst p) (snd p))
             (combine todo (seq (length done) (length todo)))
    = map ofDelta (chain tokenAddress previous (pointsOf fromTimestamp todo)).
Proof.
  induction todo as [|b rest IH]; intros done previous Htodo Hnil Hlast;
    [reflexivity |].
  pose proof (Forall_inv Htodo) as [Hb [v Hv]].
  apply Forall_inv_tail in Htodo.
  assert (Hts : exists t, timestamp b = Some t).
  { unfold inRange in Hb. destruct (timestamp b) as [t|]; [eauto | discriminate]. }
  destruct Hts as [t Ht].
  assert (Hpoints : pointsOf fromTimestamp (b :: rest)
                    = (t, v) :: pointsOf fromTimestamp rest).
  { unfold pointsOf. cbn [filter]. rewrite Hb. cbn [flat_map].
    rewrite Ht, Hv. reflexivity. }
  assert (Hentry : combinedEntry fromTimestamp tokenAddress (done ++ b :: rest)
                     b (length done)
                   = [ofDelta (mkDelta tokenAddress t v previous)]).
  { unfold combinedEntry. rewrite skip_not_inRange, Hb. cbn [negb].
    rewrite Ht, Hv. unfold ofDelta. cbn [d_token d_time d_value d_previous].
    f_equal. f_equal.
    destruct (nil_or_snoc done) as [Enil | (done0 & d0 & Edone)].
    - subst done. cbn [length]. rewrite (Hnil eq_refl). reflexivity.
    - specialize (Hlast d0). rewrite Edone in Hlast |- *.
      specialize (Hlast (last_opt_app _ _)).
      rewrite length_app. cbn [length].
      replace (length done0 + 1)%nat with (S (length done0)) by lia.
      cbn iota. rewrite <- app_assoc. cbn [app].
      rewrite nth_error_app2 by lia. rewrite Nat.sub_diag. cbn [nth_error field].
      rewrite <- inRange_ge.
      destruct (inRange fromTimestamp d0); [assumption | rewrite Hlast; reflexivity]. }
  rewrite Hpoints. cbn [chain map length seq combine flat_map fst snd].
  rewrite Hentry. cbn [app]. f_equal.
  specialize (IH (done ++ [b]) v Htodo).
  rewrite <- app_assoc in IH. cbn [app] in IH.
  rewrite length_app in IH. cbn [length] in IH.
  replace (length done + 1)%nat with (S (length done)) in IH by lia.
  apply IH.
  - intros E. destruct done; discriminate.
  - intros l Hl. rewrite last_opt_app in Hl. injection Hl as <-.
    rewrite Hb. exact Hv.
Qed.

(** The entries of one asset, for a sorted series whose in-range samples
    carry values. *)
Lemma combinedOfToken_chain (entry : String.string * list (BalanceItem Qc)) :
  valueSeries fromTimestamp entry ->
  combinedOfToken fromTimestamp entry
  = map ofDelta (chain (fst entry) 0 (pointsOf fromTimestamp (snd entry))).
Proof.
  destruct entry as [tokenAddress series]. intros [Hsorted Hvalues].
  cbn [fst snd] in *. unfold combinedOfToken.
  destruct (sorted_series_split series Hsorted) as (out & inr & -> & Hout & Hinr).
  rewrite (combine_seq_app out inr 0), flat_map_app.
  rewrite (combined_out tokenAddress (out ++ inr) out Hout 0). cbn [app Nat.add].
  rewrite pointsOf_out by assumption.
  apply combined_inRange.
  - rewrite Forall_forall in *. intros s Hs. split; [auto |].
    apply Hvalues; [apply in_or_app; right; assumption | auto].
  - reflexivity.
  - intros l Hl. apply last_opt_Some in Hl. destruct Hl as [out' ->].
    rewrite Forall_forall in Hout.
    rewrite (Hout l) by (apply in_or_app; right; left; reflexivity).
    reflexivity.
Qed.

End CombinedStructure.

Section Telescoping.
Import Tvl.
Local Open Scope Qc_scope.

Variable fromTimestamp : Qc.

Lemma In_pointsOf (series : list (BalanceItem Qc)) (t v : Qc) :
  In (t, v) (pointsOf fromTimestamp series) ->
  exists s, In s series /\ timestamp s = Some t /\ value s = Some v.
Proof.
  unfold pointsOf. rewrite in_flat_map. intros (s & Hs & Hin).
  apply filter_In in Hs. destruct Hs as [Hs _]. exists s. split; [assumption |].
  destruct (timestamp s) as [t'|]; [| destruct Hin].
  destruct (value s) as [v'|]; [| destruct Hin].
  destruct Hin as [E | []]. injection E as -> ->. split; reflexivity.
Qed.

Lemma pointsOf_cons (b : BalanceItem Qc) (series : list (BalanceItem Qc)) :
  pointsOf fromTimestamp (b :: series)
  = (if inRange fromTimestamp b
     then match timestamp b, value b with
          | Some t, Some v => [(t, v)]
          | _, _ => []
          end
     else [])
    ++ pointsOf fromTimestamp series.
Proof.
  unfold pointsOf. cbn [filter].
  destruct (inRange fromTimestamp b); reflexivity.
Qed.

Lemma pointsOf_app (l1 l2 : list (BalanceItem Qc)) :
  pointsOf fromTimestamp (l1 ++ l2)
  = pointsOf fromTimestamp l1 ++ pointsOf fromTimestamp l2.
Proof. unfold pointsOf. rewrite filter_app, flat_map_app. reflexivity. Qed.

Lemma pointsOf_sorted (series : list (BalanceItem Qc)) :
  seriesSorted series ->
  StronglySorted (fun p q : Qc * Qc => fst p <= fst q)
    (pointsOf fromTimestamp series).
Proof.
  induction 1 as [|b series Hs IH HF]; [constructor |].
  rewrite pointsOf_cons.
  destruct (inRange fromTimestamp b); [| exact IH].
  destruct (timestamp b) as [t|] eqn:Et; [| exact IH].
  destruct (value b) as [v|]; [| exact IH].
  cbn [app]. constructor; [exact IH |].
  rewrite Forall_forall in *. intros [t' v'] Hin.
  destruct (In_pointsOf _ _ _ Hin) as (s & Hs' & Ht' & _).
  specialize (HF s Hs'). unfold sampleLe in HF. rewrite Et, Ht' in HF.
  cbn [fst]. apply exact_leb_le. exact HF.
Qed.

Lemma latestFrom_later (points : list (Qc * Qc)) (t : Qc) :
  Forall (fun p => t < fst p) points ->
  forall initial, latestFrom initial points t = initial.
Proof.
  unfold latestFrom.
  induction 1 as [|p points Hp _ IH]; intros initial; cbn [fold_left];
    [reflexivity |].
  destruct (exact_leb (fst p) t) eqn:E.
  - apply exact_leb_le in E. exfalso. exact (Qclt_not_le _ _ Hp E).
  - apply IH.
Qed.

(** The changes of a chain at or before [t] add up to the latest value at
    or before [t] minus the value the chain started from. *)
Lemma deltaUpTo_chain (tokenAddress : String.string) (t : Qc) :
  forall (points : list (Qc * Qc)) (previous : Qc),
    StronglySorted (fun p q : Qc * Qc => fst p <= fst q) points ->
    deltaUpTo (chain tokenAddress previous points) t
    = latestFrom previous points t - previous.
Proof.
  induction points as [|[t1 v1] rest IH]; intros previous Hsorted.
  - unfold deltaUpTo, latestFrom. cbn [chain fold_right fold_left].
    change (Q2Qc 0) with 0. ring.
  - apply StronglySorted_inv in Hsorted. destruct Hsorted as [Hrest HF].
    cbn [chain]. change (mkDelta tokenAddress t1 v1 previous :: chain tokenAddress v1 rest)
      with ([mkDelta tokenAddress t1 v1 previous] ++ chain tokenAddress v1 rest).
    rewrite deltaUpTo_app, (IH v1 Hrest).
    unfold deltaUpTo at 1. cbn [fold_right d_time d_value d_previous].
    unfold latestFrom at 2. cbn [fold_left fst snd].
    fold (latestFrom (if exact_leb t1 t then v1 else previous) rest t).
    change (Q2Qc 0) with 0.
    destruct (exact_leb t1 t) eqn:E; [ring |].
    apply exact_leb_false_lt in E.
    assert (Hlater : Forall (fun p : Qc * Qc => t < fst p) rest).
    { eapply Forall_impl; [| exact HF]. cbn [fst]. intros p Hp.
      eapply Qclt_le_trans; eassumption. }
    rewrite !(latestFrom_later rest t Hlater). ring.
Qed.

(** The latest in-range value of a series at or before [t], read off its
    points. *)
Lemma latestValue_points (series : list (BalanceItem Qc)) (t : Qc) :
  (forall sample, In sample series ->
     inRange fromTimestamp sample = true -> exists v, value sample = Some v) ->
  latestValue fromTimestamp series t
  = Some (latestFrom 0 (pointsOf fromTimestamp series) t).
Proof.
  unfold latestValue.
  induction series as [|x series IH] using rev_ind; intros Hvalues; [reflexivity |].
  assert (IH' := IH (fun s Hs => Hvalues s (in_or_app _ _ _ (or_introl Hs)))).
  clear IH.
  rewrite filter_app, pointsOf_app. unfold latestFrom. rewrite fold_left_app.
  fold (latestFrom 0 (pointsOf fromTimestamp series) t).
  rewrite (pointsOf_cons x []).
  change (pointsOf fromTimestamp []) with (@nil (Qc * Qc)). rewrite app_nil_r.
  cbn [filter].
  destruct (inRange fromTimestamp x) eqn:Ein.
  - assert (Hx : In x (series ++ [x]))
      by (apply in_or_app; right; left; reflexivity).
    destruct (Hvalues x Hx Ein) as [v Hv].
    assert (Hts : exists tx, timestamp x = Some tx).
    { unfold inRange in Ein. destruct (timestamp x) as [tx|]; [eauto | discriminate]. }
    destruct Hts as [tx Htx].
    rewrite Htx, Hv. cbn [andb fold_left fst snd].
    change (js_le (Some tx) (Some t)) with (exact_leb tx t).
    destruct (exact_leb tx t).
    + rewrite last_opt_app. exact Hv.
    + rewrite app_nil_r. exact IH'.
  - cbn [andb fold_left]. rewrite app_nil_r. exact IH'.
Qed.

(** ** All assets together *)

Lemma combinedBalances_deltas (balances : TokenMap (list (BalanceItem Qc))) :
  0 < fromTimestamp ->
  Forall (valueSeries fromTimestamp) balances ->
  combinedBalances fromTimestamp balances
  = map ofDelta (deltasOf fromTimestamp balances).
Proof.
  intros Hfrom. unfold combinedBalances, deltasOf.
  induction 1 as [|entry balances Hentry _ IH]; cbn [flat_map]; [reflexivity |].
  rewrite map_app, IH, (combinedOfToken_chain fromTimestamp Hfrom entry Hentry).
  reflexivity.
Qed.

Lemma naiveTotal_deltas (balances : TokenMap (list (BalanceItem Qc))) (t : Qc) :
  Forall (valueSeries fromTimestamp) balances ->
  naiveTotal fromTimestamp balances t
  = Some (deltaUpTo (deltasOf fromTimestamp balances) t).
Proof.
  unfold naiveTotal, deltasOf. intros Hall.
  assert (Hgen : forall acc,
    fold_left (fun acc0 (entry : String.string * list (BalanceItem Qc)) =>
                 js_add acc0 (latestValue fromTimestamp (snd entry) t))
              balances (Some acc)
    = Some (acc + deltaUpTo
                    (flat_map (fun entry : String.string * list (BalanceItem Qc) =>
                                 chain (fst entry) (Q2Qc 0)
                                   (pointsOf fromTimestamp (snd entry)))
                              balances) t)).
  { induction Hall as [|entry balances [Hsorted Hvalues] _ IH]; intros acc;
      cbn [fold_left flat_map].
    - unfold deltaUpTo. cbn [fold_right]. change (Q2Qc 0) with 0.
      f_equal. ring.
    - rewrite (latestValue_points _ t Hvalues).
      change (js_add (Some acc) (Some ?x)) with (Some (acc + x)).
      rewrite IH, deltaUpTo_app.
      rewrite (deltaUpTo_chain _ t _ _ (pointsOf_sorted _ Hsorted)).
      change (Q2Qc 0) with 0. f_equal. ring. }
  change (num_of_Z 0) with 0. rewrite Hgen. f_equal. ring.
Qed.

End Telescoping.

Section Anchoring.
Import Tvl.
Local Open Scope Qc_scope.

Lemma anchored_mono (deltas : list Delta) :
  forall seen seen',
    (forall d, In d seen -> In d seen') ->
    anchored seen deltas -> anchored seen' deltas.
Proof.
  induction deltas as [|d deltas IH]; intros seen seen' Hincl; cbn [anchored];
    [trivial |].
  intros [Hd Hrest]. split.
  - destruct Hd as [Hz | (d' & Hin & Hle)]; [left; assumption | right; eauto].
  - apply (IH (d :: seen)); [| assumption].
    intros x [<- | Hx]; [left; reflexivity | right; auto].
Qed.

Lemma anchored_app (l1 l2 : list Delta) :
  forall seen,
    anchored seen l1 -> anchored (l1 ++ seen) l2 -> anchored seen (l1 ++ l2).
Proof.
  induction l1 as [|d l1 IH]; intros seen H1 H2; cbn [app anchored] in *;
    [assumption |].
  destruct H1 as [Hd H1]. split; [assumption |].
  apply IH; [assumption |].
  eapply anchored_mono; [| exact H2].
  intros x [<- | Hx]; [apply in_or_app; right; left; reflexivity |].
  apply in_app_iff in Hx. apply in_app_iff.
  destruct Hx as [Hx | Hx]; [left; assumption | right; right; assumption].
Qed.

Lemma anchored_chain (tokenAddress : String.string) :
  forall (points : list (Qc * Qc)) (previous : Qc) (seen : list Delta),
    StronglySorted (fun p q : Qc * Qc => fst p <= fst q) points ->
    (forall t1 v1 rest, points = (t1, v1) :: rest ->
       previous = 0 \/ exists d', In d' seen /\ d_time d' <= t1) ->
    anchored seen (chain tokenAddress previous points).
Proof.
  induction points as [|[t1 v1] rest IH]; intros previous seen Hsorted Hfirst;
    cbn [chain anchored]; [trivial |].
  apply StronglySorted_inv in Hsorted. destruct Hsorted as [Hrest HF].
  split; [exact (Hfirst t1 v1 rest eq_refl) |].
  apply IH; [assumption |].
  intros t2 v2 rest' E. right.
  exists (mkDelta tokenAddress t1 v1 previous). split; [left; reflexivity |].
  rewrite E in HF. apply Forall_inv in HF. exact HF.
Qed.

Lemma anchored_deltasOf (fromTimestamp : Qc)
    (balances : TokenMap (list (BalanceItem Qc))) :
  Forall (valueSeries fromTimestamp) balances ->
  forall seen, anchored seen (deltasOf fromTimestamp balances).
Proof.
  unfold deltasOf.
  induction 1 as [|entry balances [Hsorted _] _ IH]; intros seen; cbn [flat_map];
    [exact I |].
  apply anchored_app; [| apply IH].
  apply anchored_chain; [apply pointsOf_sorted; assumption |].
  intros t1 v1 rest _. left. reflexivity.
Qed.

Lemma anchored_at (l1 l2 : list Delta) (d : Delta) :
  forall seen,
    anchored seen (l1 ++ d :: l2) ->
    d_previous d = 0 \/
    exists d', (In d' seen \/ In d' l1) /\ d_time d' <= d_time d.
Proof.
  induction l1 as [|x l1 IH]; intros seen; cbn [app anchored].
  - intros [[Hz | (d' & Hin & Hle)] _]; [left; assumption | right; eauto].
  - intros [_ Hrest]. destruct (IH _ Hrest) as [Hz | (d' & Hin & Hle)];
      [left; assumption | right].
    exists d'. split; [| assumption].
    destruct Hin as [[<- | Hin] | Hin]; [right; left; reflexivity | left; assumption |].
    right. right. assumption.
Qed.

(** The first entry of the sorted array starts from [0]: an entry that
    carries a previous value comes after an entry of its own asset that is
    not later, which the stable sort keeps in front of it. *)
Lemma first_sorted_previous (deltas : list Delta) (d0 : Delta) (rest : list Delta) :
  anchored [] deltas ->
  sortBy exact_ltb d_time deltas = d0 :: rest ->
  d_previous d0 = 0.
Proof.
  intros Hanch Hsort.
  destruct (sortBy_head exact_ltb d_time deltas d0 rest Hsort)
    as (l1 & l2 & -> & Hl1).
  destruct (anchored_at l1 l2 d0 [] Hanch) as [Hz | (d' & [[] | Hin] & Hle)];
    [assumption |].
  specialize (Hl1 d' Hin). apply exact_ltb_lt in Hl1.
  exfalso. exact (Qclt_not_le _ _ Hl1 Hle).
Qed.

End Anchoring.

Section TotalValues.
Import Tvl.
Local Open Scope Qc_scope.

Lemma totalSeries_sorted_deltas (balances : TokenMap (list (BalanceItem Qc)))
    (fromTimestamp : Qc) :
  0 < fromTimestamp ->
  Forall (valueSeries fromTimestamp) balances ->
  totalSeries fromTimestamp balances
  = fold_left addToTotal
      (map ofDelta (sortBy exact_ltb d_time (deltasOf fromTimestamp balances))) [].
Proof.
  intros Hfrom Hvalid. unfold totalSeries.
  rewrite (combinedBalances_deltas fromTimestamp balances Hfrom Hvalid).
  rewrite sortBy_ofDelta. reflexivity.
Qed.

Lemma In_chain (tokenAddress : String.string) (t v : Qc) :
  forall (points : list (Qc * Qc)) (previous : Qc),
    In (t, v) points ->
    exists d, In d (chain tokenAddress previous points) /\ d_time d = t.
Proof.
  induction points as [|[t1 v1] rest IH]; intros previous Hin; [destruct Hin |].
  cbn [chain]. destruct Hin as [E | Hin].
  - injection E as -> ->. eexists. split; [left; reflexivity | reflexivity].
  - destruct (IH v1 Hin) as (d & Hd & Ht). exists d. split; [right |]; assumption.
Qed.

Lemma pointsOf_In (fromTimestamp : Qc) (series : list (BalanceItem Qc))
    (sample : BalanceItem Qc) (t v : Qc) :
  In sample series -> inRange fromTimestamp sample = true ->
  timestamp sample = Some t -> value sample = Some v ->
  In (t, v) (pointsOf fromTimestamp series).
Proof.
  intros Hin Hrange Ht Hv. unfold pointsOf. apply in_flat_map.
  exists sample. split; [apply filter_In; split; assumption |].
  rewrite Ht, Hv. left. reflexivity.
Qed.

End TotalValues.

Section TotalClaim.
Import Tvl.
Local Open Scope Qc_scope.

(** C8 (amended). In exact arithmetic, for every collection of per-asset
    series that are sorted by timestamp and carry a value on every in-range
    sample, and every positive range start, each sample of the "Total"
    series built by the delta-propagation merge has a timestamp [t] and the
    value of the naive reference at [t]: the sum over all assets of the
    asset's latest in-range value at or before [t], [0] for an asset with
    none. *)
Theorem totalSeries_matches_naive_total_exact :
  forall (balances : TokenMap (list (BalanceItem Qc))) (fromTimestamp : Qc),
    0 < fromTimestamp ->
    Forall (valueSeries fromTimestamp) balances ->
    Forall (fun total =>
              exists t, timestamp total = Some t /\
                        value total = naiveTotal fromTimestamp balances t)
           (totalSeries fromTimestamp balances).
Proof.
  intros balances fromTimestamp Hfrom Hvalid.
  rewrite (totalSeries_sorted_deltas balances fromTimestamp Hfrom Hvalid).
  set (deltas := deltasOf fromTimestamp balances).
  assert (Hvalue : forall t,
            Some (deltaUpTo (sortBy exact_ltb d_time deltas) t)
            = naiveTotal fromTimestamp balances t).
  { intros t. rewrite (naiveTotal_deltas fromTimestamp balances t Hvalid).
    f_equal. apply deltaUpTo_Permutation, sortBy_Permutation. }
  destruct (addToTotal_walk (sortBy exact_ltb d_time deltas)
              (sortBy_time_sorted deltas))
    as [[_ ->] | (earlier & lastDelta & totals & _ & -> & Htotals)].
  - intros d0 rest E.
    apply (first_sorted_previous deltas d0 rest); [| assumption].
    apply anchored_deltasOf with (fromTimestamp := fromTimestamp). assumption.
  - constructor.
  - apply Forall_app. split.
    + eapply Forall_impl; [| exact Htotals]. cbn beta.
      intros total (t & Ht & _ & Hv). exists t. split; [assumption |].
      rewrite Hv. apply Hvalue.
    + constructor; [| constructor]. exists (d_time lastDelta).
      split; [reflexivity |]. apply Hvalue.
Qed.

(** In the same setting, the timestamp of every in-range sample of every
    asset is emitted: the "Total" series has a sample at it. *)
Theorem totalSeries_covers_in_range_samples :
  forall (balances : TokenMap (list (BalanceItem Qc))) (fromTimestamp : Qc)
         (entry : String.string * list (BalanceItem Qc))
         (sample : BalanceItem Qc) (t : Qc),
    0 < fromTimestamp ->
    Forall (valueSeries fromTimestamp) balances ->
    In entry balances -> In sample (snd entry) ->
    inRange fromTimestamp sample = true ->
    timestamp sample = Some t ->
    exists total,
      In total (totalSeries fromTimestamp balances) /\
      timestamp total = Some t.
Proof.
  intros balances fromTimestamp entry sample t Hfrom Hvalid Hentry Hsample
         Hrange Ht.
  assert (Hdelta : exists d,
            In d (sortBy exact_ltb d_time (deltasOf fromTimestamp balances)) /\
            d_time d = t).
  { pose proof Hvalid as Hv. rewrite Forall_forall in Hv.
    destruct (Hv entry Hentry) as [_ Hvalues].
    destruct (Hvalues sample Hsample Hrange) as [v Hval].
    pose proof (pointsOf_In fromTimestamp _ _ t v Hsample Hrange Ht Hval) as Hpoint.
    destruct (In_chain (fst entry) t v _ 0 Hpoint) as (d & Hd & Hdt).
    exists d. split; [| assumption].
    apply (Permutation_in _ (Permutation_sym (sortBy_Permutation exact_ltb d_time _))).
    unfold deltasOf. apply in_flat_map. exists entry. split; assumption. }
  destruct Hdelta as (d & Hd & Hdt).
  rewrite (totalSeries_sorted_deltas balances fromTimestamp Hfrom Hvalid).
  destruct (addToTotal_walk_timestamps _
              (sortBy_time_sorted (deltasOf fromTimestamp balances)))
    as [[E _] | (lastDelta & totals & lastTotal & _ & -> & Hts & Hcover)].
  - rewrite E in Hd. destruct Hd.
  - destruct (Hcover d Hd) as [E | (total & Hin & Htotal)].
    + exists lastTotal. split; [apply in_or_app; right; left; reflexivity |].
      rewrite Hts, <- E, Hdt. reflexivity.
    + exists total. split; [apply in_or_app; left; assumption |].
      rewrite Htotal, Hdt. reflexivity.
Qed.

End TotalClaim.

Section TotalExamples.
Import Tvl.

(** C8, an instance in exact arithmetic: two assets over the range starting
    at 1000. *)
Lemma totalSeries_matches_naive_total_exact_witness :
  let balances :=
    [("A", [sampleAt (Q2Qc 1000) (Q2Qc (1 # 10)); sampleAt (Q2Qc 1200) (Q2Qc (2 # 10))]);
     ("B", [sampleAt (Q2Qc 1000) (Q2Qc 0); sampleAt (Q2Qc 1100) (Q2Qc (3 # 10))])] in
  Forall (fun total =>
            exists t, timestamp total = Some t /\
                      value total = naiveTotal (Q2Qc 1000) balances t)
         (totalSeries (Q2Qc 1000) balances).
Proof.
  apply (totalSeries_matches_naive_total_exact
           [("A", [sampleAt (Q2Qc 1000) (Q2Qc (1 # 10));
                   sampleAt (Q2Qc 1200) (Q2Qc (2 # 10))]);
            ("B", [sampleAt (Q2Qc 1000) (Q2Qc 0);
                   sampleAt (Q2Qc 1100) (Q2Qc (3 # 10))])]
           (Q2Qc 1000)).
  - reflexivity.
  - repeat constructor;
      intros sample [<- | [<- | []]] _; eexists; reflexivity.
Defined.

(** An instance of the coverage: asset A's sample at 1200. *)
Lemma totalSeries_covers_in_range_samples_witness :
  let balances :=
    [("A", [sampleAt (Q2Qc 1000) (Q2Qc (1 # 10)); sampleAt (Q2Qc 1200) (Q2Qc (2 # 10))]);
     ("B", [sampleAt (Q2Qc 1000) (Q2Qc 0); sampleAt (Q2Qc 1100) (Q2Qc (3 # 10))])] in
  exists total,
    In total (totalSeries (Q2Qc 1000) balances) /\
    timestamp total = Some (Q2Qc 1200).
Proof.
  apply (totalSeries_covers_in_range_samples
           [("A", [sampleAt (Q2Qc 1000) (Q2Qc (1 # 10));
                   sampleAt (Q2Qc 1200) (Q2Qc (2 # 10))]);
            ("B", [sampleAt (Q2Qc 1000) (Q2Qc 0);
                   sampleAt (Q2Qc 1100) (Q2Qc (3 # 10))])]
           (Q2Qc 1000)
           ("A", [sampleAt (Q2Qc 1000) (Q2Qc (1 # 10));
                  sampleAt (Q2Qc 1200) (Q2Qc (2 # 10))])
           (sampleAt (Q2Qc 1200) (Q2Qc (2 # 10))) (Q2Qc 1200)).
  - reflexivity.
  - repeat constructor;
      intros sample [<- | [<- | []]] _; eexists; reflexivity.
  - left. reflexivity.
  - right. left. reflexivity.
  - reflexivity.
  - reflexivity.
Defined.

(** C8, as stated, fails in the arithmetic the script runs in: with doubles,
    asset A worth 0.1 and then 0.2, asset B worth 0 and then 0.3, the merge
    ends at [0.4 + 0.2 - 0.1 = 0.5000000000000001] while re-summing the latest
    values gives [0.2 + 0.3 = 0.5]. *)
Lemma totalSeries_differs_from_naive_total_in_doubles :
  (let balances :=
     [("A", [sampleAt 1600000000 0x1.999999999999ap-4;
             sampleAt 1600000200 0x1.999999999999ap-3]);
      ("B", [sampleAt 1600000000 0;
             sampleAt 1600000100 0x1.3333333333333p-2])] in
   totalSeries 1600000000 balances
   = [totalItem (Some 1600000000) (Some 0x1.999999999999ap-4);
      totalItem (Some 1600000100) (Some 0x1.999999999999ap-2);
      totalItem (Some 1600000200) (Some 0x1.0000000000001p-1)] /\
   naiveTotal 1600000000 balances 1600000200 = Some 0x1p-1 /\
   PrimFloat.eqb 0x1.0000000000001p-1 0x1p-1 = false)%float.
Proof. repeat split. Qed.

End TotalExamples.

(* ================================================================== *)
(** * The block locator: caching, cache growth, ordering of the answers *)
(* ================================================================== *)

Section CacheLookup.
Import BlockFinder.

(** On a cache strictly ascending by number, the binary search by number
    lands on the entry that carries the number searched for. *)
Lemma sortedIndexBy_finds (blocks : list Block) (b : Block) :
  cache_sorted blocks -> In b blocks ->
  nth_error blocks (sortedIndexBy blocks (number b) number) = Some b.
Proof.
  intros Hs Hin.
  destruct (sortedIndexBy_spec number blocks (number b)
              (cache_sorted_ascending _ Hs)) as (Hlen & Hlo & Hhi).
  apply In_nth_error in Hin. destruct Hin as [i Hi].
  set (index := sortedIndexBy blocks (number b) number) in *.
  destruct (Nat.lt_trichotomy i index) as [Hlt | [-> | Hgt]].
  - specialize (Hlo i b Hlt Hi). lia.
  - assumption.
  - destruct (nth_error blocks index) as [c|] eqn:Ec.
    + assert (number c < number b)
        by (eapply (StronglySorted_nth _ _ Hs index i); eassumption).
      specialize (Hhi index c (Nat.le_refl _) Ec). lia.
    + apply nth_error_None in Ec.
      assert (nth_error blocks i <> None) by congruence.
      apply nth_error_Some in H. lia.
Qed.

(** The slot the search returns holds the number searched for only if the
    cache has an entry with that number. *)
Lemma sortedIndexBy_misses (blocks : list Block) (n : Z) :
  (forall b, In b blocks -> number b <> n) ->
  match nth_error blocks (sortedIndexBy blocks n number) with
  | Some b => (number b =? n) = false
  | None => True
  end.
Proof.
  intros Hnone.
  destruct (nth_error blocks (sortedIndexBy blocks n number)) as [b|] eqn:Eb;
    [| trivial].
  apply Z.eqb_neq. apply Hnone. eapply nth_error_In; eassumption.
Qed.

End CacheLookup.

Section CacheHits.
Import BlockFinder.

Variable requestBlock : BlockId -> Block.

(** [getBlock(n)] on a cache strictly ascending by number consults the node
    only on a miss: with block [n] cached, the cached entry is returned and
    the cache is left as it is, whatever the node would answer; with no block
    [n] cached, the node's answer is returned and becomes one more entry. *)
Theorem getBlock_consults_node_only_on_miss :
  forall blocks : list Block,
    cache_sorted blocks ->
    (forall b, In b blocks ->
       getBlock requestBlock (number b) blocks = (Ok b, blocks)) /\
    (forall n, (forall b, In b blocks -> number b <> n) ->
       exists blocks',
         getBlock requestBlock n blocks = (Ok (requestBlock (Num n)), blocks') /\
         length blocks' = S (length blocks) /\
         (forall x, In x blocks' <-> x = requestBlock (Num n) \/ In x blocks)).
Proof.
  intros blocks Hs. split.
  - intros b Hin. unfold getBlock.
    rewrite (sortedIndexBy_finds blocks b Hs Hin).
    rewrite Z.eqb_refl. reflexivity.
  - intros n Hnone. unfold getBlock.
    pose proof (sortedIndexBy_misses blocks n Hnone) as Hslot.
    exists (splice blocks (sortedIndexBy blocks n number) (requestBlock (Num n))).
    split; [| split].
    + destruct (nth_error blocks (sortedIndexBy blocks n number)) as [b|];
        [rewrite Hslot |]; reflexivity.
    + apply splice_length.
    + intros x. apply splice_In.
Qed.

(** [getLatestBlock()] on a cache strictly ascending by number never throws.
    When the cache already holds a block with the number of the node's
    latest block, that cached entry is what is returned and the cache is
    left as it is; otherwise the node's answer is inserted and returned. *)
Theorem getLatestBlock_prefers_cached_block :
  forall blocks : list Block,
    cache_sorted blocks ->
    (forall b, In b blocks -> number b = number (requestBlock Latest) ->
       getLatestBlock requestBlock blocks = (Ok b, blocks)) /\
    ((forall b, In b blocks -> number b <> number (requestBlock Latest)) ->
     exists blocks',
       getLatestBlock requestBlock blocks = (Ok (requestBlock Latest), blocks') /\
       length blocks' = S (length blocks) /\
       (forall x, In x blocks' <-> x = requestBlock Latest \/ In x blocks)).
Proof.
  intros blocks Hs. split.
  - intros b Hin Hnum. unfold getLatestBlock. rewrite <- Hnum.
    rewrite (sortedIndexBy_finds blocks b Hs Hin).
    rewrite Hnum, <- Hnum, Z.eqb_refl. cbn [negb].
    rewrite (sortedIndexBy_finds blocks b Hs Hin). reflexivity.
  - intros Hnone. unfold getLatestBlock.
    set (block := requestBlock Latest) in *.
    set (index := sortedIndexBy blocks (number block) number).
    pose proof (sortedIndexBy_misses blocks (number block) Hnone) as Hslot.
    fold index in Hslot.
    assert (Hidx : (index <= length blocks)%nat).
    { apply (sortedIndexBy_spec number blocks (number block)).
      apply cache_sorted_ascending. assumption. }
    exists (splice blocks index block).
    split; [| split].
    + destruct (nth_error blocks index) as [b|]; [rewrite Hslot; cbn [negb] |];
        rewrite splice_nth_error by assumption; reflexivity.
    + apply splice_length.
    + intros x. apply splice_In.
Qed.

End CacheHits.

Section CacheGrowth.
Import BlockFinder.

Variable requestBlock : BlockId -> Block.
Variable estimateBlocksElapsed : Z -> Z.
Variable estimatedBlock : Block -> Block -> Z -> Z.

Variable kept : list Block.

(** The entries of [kept] are still cached. *)
Local Abbreviation keeps := (fun blocks : list Block => incl kept blocks).

Lemma getBlock_keeps (n : Z) : preserves keeps (getBlock requestBlock n).
Proof.
  intros blocks Hk. unfold getBlock.
  destruct (match nth_error blocks (sortedIndexBy blocks n number) with
            | Some b => if number b =? n then Some b else None
            | None => None
            end); cbn [snd]; [assumption |].
  intros x Hx. apply splice_In. right. apply Hk. assumption.
Qed.

Lemma getLatestBlock_keeps : preserves keeps (getLatestBlock requestBlock).
Proof.
  intros blocks Hk. unfold getLatestBlock.
  set (block := requestBlock Latest).
  set (index := sortedIndexBy blocks (number block) number).
  assert (Hs : keeps (splice blocks index block)).
  { intros x Hx. apply splice_In. right. apply Hk. assumption. }
  destruct (nth_error blocks index) as [b|].
  - destruct (negb (number b =? number block)).
    + destruct (nth_error (splice blocks index block) index); exact Hs.
    + destruct (nth_error blocks index); exact Hk.
  - destruct (nth_error (splice blocks index block) index); exact Hs.
Qed.

Lemma findBlock_keeps fuel :
  forall s e ts,
    preserves keeps (findBlock requestBlock estimatedBlock fuel s e ts).
Proof.
  induction fuel as [|fuel IH]; intros s e ts; simpl.
  - apply preserves_out_of_fuel.
  - destruct e as [e|]; [| apply preserves_throw].
    destruct (timestamp e =? ts); [apply preserves_ret |].
    destruct s as [s|]; [| apply preserves_throw].
    destruct (number e =? number s + 1); [apply preserves_ret |].
    destruct (number e =? number s); [apply preserves_throw |].
    destruct (negb _); [apply preserves_throw |].
    apply preserves_bind; [apply getBlock_keeps |].
    intros newBlock. destruct (timestamp newBlock <? ts); apply IH.
Qed.

Lemma searchBackwards_keeps fuel :
  forall initialBlock inc ts multiplier,
    preserves keeps
      (searchBackwards requestBlock fuel initialBlock inc ts multiplier).
Proof.
  induction fuel as [|fuel IH]; intros initialBlock inc ts multiplier; simpl.
  - apply preserves_out_of_fuel.
  - apply preserves_bind; [apply getBlock_keeps |].
    intros block. destruct (timestamp block <=? ts); [apply preserves_ret |].
    destruct (0 <? _); [apply IH | apply preserves_throw].
Qed.

Lemma searchCache_keeps fuel ts :
  preserves keeps
    (searchCache requestBlock estimateBlocksElapsed estimatedBlock fuel ts).
Proof.
  unfold searchCache.
  apply preserves_bind; [apply preserves_this_blocks |]. intros blocks0.
  destruct (nth_error blocks0 0) as [initialBlock|]; [| apply preserves_throw].
  apply preserves_bind.
  - destruct (ts <? timestamp initialBlock);
      [apply searchBackwards_keeps | apply preserves_ret].
  - intros _. apply preserves_bind; [apply preserves_this_blocks |].
    intros blocks1. apply findBlock_keeps.
Qed.

Lemma getBlockForTimestamp_keeps fuel ts :
  preserves keeps
    (getBlockForTimestamp requestBlock estimateBlocksElapsed estimatedBlock fuel ts).
Proof.
  unfold getBlockForTimestamp.
  apply preserves_bind; [apply preserves_this_blocks |]. intros blocks.
  apply preserves_bind.
  - destruct (match last_opt blocks with None => true | Some l => timestamp l <? ts end).
    + apply preserves_bind; [apply getLatestBlock_keeps |].
      intros block. destruct (timestamp block <=? ts); apply preserves_ret.
    + apply preserves_ret.
  - intros [block|]; [apply preserves_ret | apply searchCache_keeps].
Qed.

End CacheGrowth.

Section CacheGrowthTheorem.
Import BlockFinder.

Variable requestBlock : BlockId -> Block.
Variable estimateBlocksElapsed : Z -> Z.
Variable estimatedBlock : Block -> Block -> Z -> Z.

(** The locator never drops a cache entry: whatever the node answers,
    whatever the cache holds and however the call ends (a value, a throw, an
    exhausted budget), every block cached before [getLatestBlock],
    [getBlock] or [getBlockForTimestamp] is cached after it. *)
Theorem locator_never_evicts :
  forall blocks : list Block,
    incl blocks (snd (getLatestBlock requestBlock blocks)) /\
    (forall n, incl blocks (snd (getBlock requestBlock n blocks))) /\
    (forall fuel ts,
       incl blocks
         (snd (getBlockForTimestamp requestBlock estimateBlocksElapsed
                 estimatedBlock fuel ts blocks))).
Proof.
  intros blocks. split; [| split].
  - apply (getLatestBlock_keeps requestBlock blocks). apply incl_refl.
  - intros n. apply (getBlock_keeps requestBlock blocks). apply incl_refl.
  - intros fuel ts.
    apply (getBlockForTimestamp_keeps requestBlock estimateBlocksElapsed
             estimatedBlock blocks).
    apply incl_refl.
Qed.

End CacheGrowthTheorem.

Section AnswerOrdering.
Import BlockFinder.

Variable requestBlock : BlockId -> Block.
Hypothesis Hchain : chain_ok requestBlock.

(** The latest block at or before a timestamp grows with the timestamp. *)
Lemma latest_at_or_before_mono (ts1 ts2 : Z) (B1 B2 : Block) :
  latest_at_or_before requestBlock ts1 B1 ->
  latest_at_or_before requestBlock ts2 B2 ->
  ts1 <= ts2 -> number B1 <= number B2.
Proof.
  intros (Hon1 & Hle1 & _) (Hon2 & _ & Hnext2) Hts.
  destruct (Z.le_gt_cases (number B1) (number B2)) as [Hle | Hgt]; [assumption |].
  exfalso. destruct Hnext2 as [-> | [Hlt Hnext]].
  - destruct Hon1 as [Hr1 _]. lia.
  - destruct Hon1 as [Hr1 E1]. destruct Hon2 as [Hr2 _].
    assert (timestamp (block_at requestBlock (number B2 + 1)) <= timestamp B1).
    { destruct (Z.eq_dec (number B2 + 1) (number B1)) as [E | N].
      - rewrite E, E1. lia.
      - rewrite <- E1. apply Z.lt_le_incl.
        apply (chain_mono requestBlock Hchain); lia. }
    lia.
Qed.

Lemma latest_at_or_before_unique (ts : Z) (B1 B2 : Block) :
  latest_at_or_before requestBlock ts B1 ->
  latest_at_or_before requestBlock ts B2 -> B1 = B2.
Proof.
  intros H1 H2.
  apply (on_chain_eq requestBlock); [apply H1 | apply H2 |].
  pose proof (latest_at_or_before_mono ts ts B1 B2 H1 H2 (Z.le_refl _)).
  pose proof (latest_at_or_before_mono ts ts B2 B1 H2 H1 (Z.le_refl _)).
  lia.
Qed.

End AnswerOrdering.

Section AnswerTheorems.
Import BlockFinder.

Variable requestBlock : BlockId -> Block.

(** On a chain whose timestamps strictly increase, the answer of
    [getBlockForTimestamp] depends on the timestamp only, and grows with it:
    for two caches of chain blocks, two roundings of the floating-point
    hints and timestamps [ts1 <= ts2] not before genesis, both calls return
    and the block for [ts1] is not numbered above the block for [ts2]; for
    [ts1 = ts2] it is the same block. *)
Theorem getBlockForTimestamp_answer_is_monotone :
  forall (estimateBlocksElapsed1 estimateBlocksElapsed2 : Z -> Z)
         (estimatedBlock1 estimatedBlock2 : Block -> Block -> Z -> Z)
         (blocks1 blocks2 : list Block) (ts1 ts2 : Z) (fuel1 fuel2 : nat),
    chain_ok requestBlock ->
    cache_valid requestBlock blocks1 ->
    cache_valid requestBlock blocks2 ->
    timestamp (block_at requestBlock 0) <= ts1 -> ts1 <= ts2 ->
    (Z.to_nat (number (head requestBlock)) < fuel1)%nat ->
    (Z.to_nat (number (head requestBlock)) < fuel2)%nat ->
    exists B1 B2 blocks1' blocks2',
      getBlockForTimestamp requestBlock estimateBlocksElapsed1 estimatedBlock1
        fuel1 ts1 blocks1 = (Ok B1, blocks1') /\
      getBlockForTimestamp requestBlock estimateBlocksElapsed2 estimatedBlock2
        fuel2 ts2 blocks2 = (Ok B2, blocks2') /\
      number B1 <= number B2 /\
      (ts1 = ts2 -> B1 = B2).
Proof.
  intros est1 est2 guess1 guess2 blocks1 blocks2 ts1 ts2 fuel1 fuel2
         Hchain Hv1 Hv2 Hgen Hts Hfuel1 Hfuel2.
  destruct (getBlockForTimestamp_spec requestBlock est1 guess1 fuel1 ts1 blocks1
              Hchain Hv1 Hgen Hfuel1) as (B1 & blocks1' & Hrun1 & _ & Hl1).
  destruct (getBlockForTimestamp_spec requestBlock est2 guess2 fuel2 ts2 blocks2
              Hchain Hv2 ltac:(lia) Hfuel2) as (B2 & blocks2' & Hrun2 & _ & Hl2).
  exists B1, B2, blocks1', blocks2'.
  split; [assumption |]. split; [assumption |]. split.
  - apply (latest_at_or_before_mono requestBlock Hchain ts1 ts2); assumption.
  - intros E. subst ts2.
    apply (latest_at_or_before_unique requestBlock Hchain ts1); assumption.
Qed.

(** Asked for the timestamp of block [n] of the chain, [getBlockForTimestamp]
    returns block [n]. *)
Theorem getBlockForTimestamp_of_block_timestamp :
  forall (estimateBlocksElapsed : Z -> Z)
         (estimatedBlock : Block -> Block -> Z -> Z)
         (blocks : list Block) (n : Z) (fuel : nat),
    chain_ok requestBlock ->
    cache_valid requestBlock blocks ->
    0 <= n <= number (head requestBlock) ->
    (Z.to_nat (number (head requestBlock)) < fuel)%nat ->
    exists blocks',
      getBlockForTimestamp requestBlock estimateBlocksElapsed estimatedBlock
        fuel (timestamp (block_at requestBlock n)) blocks
      = (Ok (block_at requestBlock n), blocks').
Proof.
  intros est guess blocks n fuel Hchain Hv Hn Hfuel.
  assert (Hgen : timestamp (block_at requestBlock 0)
                 <= timestamp (block_at requestBlock n)).
  { destruct (Z.eq_dec n 0) as [-> | Hne]; [lia |].
    apply Z.lt_le_incl. apply (chain_mono requestBlock Hchain); lia. }
  destruct (getBlockForTimestamp_spec requestBlock est guess fuel
              (timestamp (block_at requestBlock n)) blocks Hchain Hv Hgen Hfuel)
    as (B & blocks' & Hrun & _ & Hl).
  exists blocks'. rewrite Hrun. f_equal. f_equal.
  apply (latest_at_or_before_unique requestBlock Hchain
           (timestamp (block_at requestBlock n))); [assumption |].
  apply (exact_is_latest requestBlock Hchain);
    [apply on_chain_block_at; assumption | reflexivity].
Qed.

End AnswerTheorems.

Section NarrowingCost.
Import BlockFinder.

Variable requestBlock : BlockId -> Block.
Variable estimatedBlock : Block -> Block -> Z -> Z.

Lemma getBlock_length (n : Z) (blocks : list Block) :
  (length (snd (getBlock requestBlock n blocks)) <= S (length blocks))%nat.
Proof.
  unfold getBlock.
  destruct (match nth_error blocks (sortedIndexBy blocks n number) with
            | Some b => if number b =? n then Some b else None
            | None => None
            end); cbn [snd]; [lia |].
  rewrite splice_length. lia.
Qed.

(** Narrowing a bracket [startBlock.timestamp < ts <= endBlock.timestamp] of
    chain blocks returns a block of the bracket, and every block it adds to
    the cache is numbered strictly between the two ends: at most
    [endBlock.number - startBlock.number - 1] blocks are added. *)
Theorem findBlock_fetches_inside_bracket :
  forall (ts : Z) (fuel : nat) (startBlock endBlock : Block) (blocks : list Block),
    chain_ok requestBlock ->
    cache_valid requestBlock blocks ->
    on_chain requestBlock startBlock -> on_chain requestBlock endBlock ->
    timestamp startBlock < ts -> ts <= timestamp endBlock ->
    (Z.to_nat (number endBlock - number startBlock) <= fuel)%nat ->
    exists B blocks',
      findBlock requestBlock estimatedBlock fuel (Some startBlock) (Some endBlock)
        ts blocks = (Ok B, blocks') /\
      number startBlock <= number B <= number endBlock /\
      (forall x, In x blocks' ->
         In x blocks \/ number startBlock < number x < number endBlock) /\
      (length blocks'
       <= length blocks + Z.to_nat (number endBlock - number startBlock - 1))%nat.
Proof.
  intros ts fuel s e blocks Hchain. revert s e blocks.
  induction fuel as [|fuel IH]; intros s e blocks Hv Hs He Hlo Hhi Hfuel.
  - assert (number s < number e)
      by (apply (on_chain_ts_lt requestBlock Hchain); auto; lia).
    lia.
  - assert (Hse : number s < number e)
      by (apply (on_chain_ts_lt requestBlock Hchain); auto; lia).
    cbn [findBlock].
    destruct (Z.eqb_spec (timestamp e) ts) as [Heq | Hne].
    { exists e, blocks. split; [reflexivity |]. split; [lia |].
      split; [auto | lia]. }
    destruct (Z.eqb_spec (number e) (number s + 1)) as [Hadj | Hnadj].
    { exists s, blocks. split; [reflexivity |]. split; [lia |].
      split; [auto | lia]. }
    destruct (Z.eqb_spec (number e) (number s)) as [Hsame | _]; [lia |].
    destruct (Z.ltb_spec ts (timestamp e)) as [Hlt | Hge]; [| lia].
    destruct (Z.ltb_spec (timestamp s) ts) as [_ | Hge]; [| lia].
    cbn [andb negb].
    set (n := clamp (estimatedBlock s e ts) (number s + 1) (number e - 1)).
    assert (Hn : number s + 1 <= n <= number e - 1) by (unfold n, clamp; lia).
    assert (Hrange : 0 <= n <= number (head requestBlock)).
    { destruct Hs as [Rs _], He as [Re _]. lia. }
    pose proof (getBlock_length n blocks) as Hlen1.
    destruct (getBlock_spec requestBlock Hchain n blocks Hv Hrange)
      as (blocks1 & Hget & Hv1 & Hin1 & Hiff1).
    rewrite Hget in Hlen1. cbn [snd] in Hlen1.
    unfold bind at 1. rewrite Hget.
    pose proof (on_chain_block_at requestBlock Hchain n Hrange) as Hnew.
    pose proof (chain_number requestBlock Hchain n) as Hnum.
    assert (Hold : forall x, In x blocks1 ->
                     In x blocks \/ number s < number x < number e).
    { intros x Hx. apply Hiff1 in Hx. destruct Hx as [-> | Hx]; [right | left; assumption].
      rewrite Hnum. lia. }
    destruct (Z.ltb_spec (timestamp (block_at requestBlock n)) ts) as [Hbelow | Habove].
    + destruct (IH (block_at requestBlock n) e blocks1 Hv1 Hnew He Hbelow Hhi)
        as (B & blocks' & Hrun & HB & Hloc & Hlen); [rewrite Hnum; lia |].
      exists B, blocks'. split; [assumption |]. rewrite Hnum in *.
      split; [lia |]. split; [| lia].
      intros x Hx. destruct (Hloc x Hx) as [Hx1 | Hx1]; [auto | right; lia].
    + destruct (IH s (block_at requestBlock n) blocks1 Hv1 Hs Hnew Hlo Habove)
        as (B & blocks' & Hrun & HB & Hloc & Hlen); [rewrite Hnum; lia |].
      exists B, blocks'. split; [assumption |]. rewrite Hnum in *.
      split; [lia |]. split; [| lia].
      intros x Hx. destruct (Hloc x Hx) as [Hx1 | Hx1]; [auto | right; lia].
Qed.

End NarrowingCost.

Section LocatorMoreExamples.
Import BlockFinder.

Lemma example_cache_valid :
  cache_valid example_requestBlock [mkBlock 0 100; mkBlock 2 300].
Proof.
  split.
  - repeat constructor; simpl; lia.
  - repeat constructor; simpl; lia.
Qed.

(** The example: a cache holding blocks 0 and 2; block 2 is served from the
    cache, block 1 is fetched. *)
Lemma getBlock_consults_node_only_on_miss_witness :
  (forall b, In b [mkBlock 0 100; mkBlock 2 300] ->
     getBlock example_requestBlock (number b) [mkBlock 0 100; mkBlock 2 300]
     = (Ok b, [mkBlock 0 100; mkBlock 2 300])) /\
  (forall n, (forall b, In b [mkBlock 0 100; mkBlock 2 300] -> number b <> n) ->
     exists blocks',
       getBlock example_requestBlock n [mkBlock 0 100; mkBlock 2 300]
       = (Ok (example_requestBlock (Num n)), blocks') /\
       length blocks' = 3%nat /\
       (forall x, In x blocks' <->
          x = example_requestBlock (Num n) \/ In x [mkBlock 0 100; mkBlock 2 300])).
Proof.
  apply (getBlock_consults_node_only_on_miss example_requestBlock
           [mkBlock 0 100; mkBlock 2 300]).
  repeat constructor; simpl; lia.
Defined.

(** The example: a stale entry for the head's number (stamped 299 where the
    node now says 300) is what [getLatestBlock] returns. *)
Lemma getLatestBlock_prefers_cached_block_witness :
  (forall b, In b [mkBlock 0 100; mkBlock 2 299] ->
     number b = number (example_requestBlock Latest) ->
     getLatestBlock example_requestBlock [mkBlock 0 100; mkBlock 2 299]
     = (Ok b, [mkBlock 0 100; mkBlock 2 299])) /\
  ((forall b, In b [mkBlock 0 100; mkBlock 2 299] ->
      number b <> number (example_requestBlock Latest)) ->
   exists blocks',
     getLatestBlock example_requestBlock [mkBlock 0 100; mkBlock 2 299]
     = (Ok (example_requestBlock Latest), blocks') /\
     length blocks' = 3%nat /\
     (forall x, In x blocks' <->
        x = example_requestBlock Latest \/ In x [mkBlock 0 100; mkBlock 2 299])).
Proof.
  apply (getLatestBlock_prefers_cached_block example_requestBlock
           [mkBlock 0 100; mkBlock 2 299]).
  repeat constructor; simpl; lia.
Defined.

(** The example chain: timestamps 150 and 250, from the empty cache and from
    a cache holding blocks 0 and 2, with two different hints. *)
Lemma getBlockForTimestamp_answer_is_monotone_witness :
  exists B1 B2 blocks1' blocks2',
    getBlockForTimestamp example_requestBlock estimateBlocksElapsed_exact
      estimatedBlock_exact 5 150 [] = (Ok B1, blocks1') /\
    getBlockForTimestamp example_requestBlock (fun _ => 1)
      (fun startBlock _ _ => number startBlock) 4 250
      [mkBlock 0 100; mkBlock 2 300] = (Ok B2, blocks2') /\
    number B1 <= number B2 /\
    (150 = 250 -> B1 = B2).
Proof.
  apply (getBlockForTimestamp_answer_is_monotone example_requestBlock
           estimateBlocksElapsed_exact (fun _ => 1)
           estimatedBlock_exact (fun startBlock _ _ => number startBlock)
           [] [mkBlock 0 100; mkBlock 2 300] 150 250 5 4).
  - exact example_chain_ok.
  - split; constructor.
  - exact example_cache_valid.
  - simpl. lia.
  - lia.
  - simpl. lia.
  - simpl. lia.
Defined.

(** The example chain: the timestamp of block 1 leads back to block 1. *)
Lemma getBlockForTimestamp_of_block_timestamp_witness :
  exists blocks',
    getBlockForTimestamp example_requestBlock estimateBlocksElapsed_exact
      estimatedBlock_exact 5 (timestamp (block_at example_requestBlock 1)) []
    = (Ok (block_at example_requestBlock 1), blocks').
Proof.
  apply (getBlockForTimestamp_of_block_timestamp example_requestBlock
           estimateBlocksElapsed_exact estimatedBlock_exact [] 1 5).
  - exact example_chain_ok.
  - split; constructor.
  - simpl. lia.
  - simpl. lia.
Defined.

(** The example chain: narrowing between blocks 0 and 2 for timestamp 250
    adds block 1 at most. *)
Lemma findBlock_fetches_inside_bracket_witness :
  exists B blocks',
    findBlock example_requestBlock estimatedBlock_exact 2
      (Some (mkBlock 0 100)) (Some (mkBlock 2 300)) 250
      [mkBlock 0 100; mkBlock 2 300] = (Ok B, blocks') /\
    0 <= number B <= 2 /\
    (forall x, In x blocks' ->
       In x [mkBlock 0 100; mkBlock 2 300] \/ 0 < number x < 2) /\
    (length blocks' <= 2 + 1)%nat.
Proof.
  apply (findBlock_fetches_inside_bracket example_requestBlock estimatedBlock_exact
           250 2 (mkBlock 0 100) (mkBlock 2 300) [mkBlock 0 100; mkBlock 2 300]).
  - exact example_chain_ok.
  - exact example_cache_valid.
  - split; [simpl; lia | reflexivity].
  - split; [simpl; lia | reflexivity].
  - simpl. lia.
  - simpl. lia.
  - simpl. lia.
Defined.

End LocatorMoreExamples.

(* ================================================================== *)
(** * The adaptive fetcher: when it ends, and the balances it leads to *)
(* ================================================================== *)

Section FetcherProgress.
Import Fetcher.

Variable Event : Type.
Variable eventsAt : Z -> list Event.
Variable fails : nat -> Z -> Z -> bool.

(** A run that ended is not changed by a larger budget. *)
Lemma fetchLoop_more_fuel (toBlock : Z) :
  forall fuel attempt events requested lastBlock blockRange result,
    fetchLoop Event eventsAt fails fuel attempt toBlock events requested
      lastBlock blockRange = Some result ->
    forall extra,
      fetchLoop Event eventsAt fails (fuel + extra) attempt toBlock events
        requested lastBlock blockRange = Some result.
Proof.
  induction fuel as [|fuel IH];
    intros attempt events requested lastBlock blockRange result Hrun extra;
    [discriminate |].
  cbn [fetchLoop Nat.add] in *.
  destruct (getPastEvents Event eventsAt fails attempt (lastBlock + 1)
              (Z.min (lastBlock + blockRange) toBlock)) as [found|].
  - destruct (lastBlock + 1 + blockRange <? toBlock); [| assumption].
    apply IH. assumption.
  - apply IH. assumption.
Qed.

(** With single-block requests never failing, the loop ends from every
    state: a failure strictly shrinks a window of two or more blocks, a
    success strictly advances [lastBlock]. *)
Lemma fetchLoop_ends (toBlock : Z) :
  (forall attempt a, fails attempt a a = false) ->
  forall (n : nat) lastBlock,
    Z.to_nat (toBlock - lastBlock) = n -> lastBlock < toBlock ->
    forall (m : nat) blockRange,
      Z.to_nat blockRange = m -> 1 <= blockRange ->
      forall attempt events requested,
      exists fuel result,
        fetchLoop Event eventsAt fails fuel attempt toBlock events requested
          lastBlock blockRange = Some result.
Proof.
  intros Hsingle.
  induction n as [n IHn] using lt_wf_ind. intros lastBlock Hn Hlast.
  induction m as [m IHm] using lt_wf_ind.
  intros blockRange Hm Hrange attempt events requested.
  destruct (fails attempt (lastBlock + 1) (Z.min (lastBlock + blockRange) toBlock))
    eqn:Efail.
  - assert (Hwide : 2 <= blockRange).
    { destruct (Z.eq_dec blockRange 1) as [-> | Hne]; [| lia].
      rewrite Z.min_l in Efail by lia. rewrite Hsingle in Efail. discriminate. }
    assert (Hhalf : 1 <= Z.quot blockRange 2 < blockRange).
    { pose proof (Z.quot_rem' blockRange 2) as Hqr.
      pose proof (Z.rem_bound_pos blockRange 2 ltac:(lia) ltac:(lia)). lia. }
    destruct (IHm (Z.to_nat (Z.max (Z.quot blockRange 2) 1)) ltac:(lia)
                (Z.max (Z.quot blockRange 2) 1) eq_refl ltac:(lia)
                (S attempt) events requested) as (fuel & result & Hrun).
    exists (S fuel), result. cbn [fetchLoop]. unfold getPastEvents.
    rewrite Efail. exact Hrun.
  - destruct (Z.ltb_spec (lastBlock + 1 + blockRange) toBlock) as [Hmore | Hdone].
    + destruct (IHn (Z.to_nat (toBlock - (lastBlock + blockRange))) ltac:(lia)
                  (lastBlock + blockRange) eq_refl ltac:(lia)
                  (Z.to_nat (blockRange * 2)) (blockRange * 2) eq_refl ltac:(lia)
                  (S attempt)
                  (events ++ flat_map eventsAt
                     (blockRangeOf (lastBlock + 1)
                        (Z.min (lastBlock + blockRange) toBlock)))
                  (requested ++ [(lastBlock + 1,
                                  Z.min (lastBlock + blockRange) toBlock)]))
        as (fuel & result & Hrun).
      exists (S fuel), result. cbn [fetchLoop]. unfold getPastEvents.
      rewrite Efail.
      destruct (Z.ltb_spec (lastBlock + 1 + blockRange) toBlock); [| lia].
      exact Hrun.
    + exists 1%nat. eexists. cbn [fetchLoop]. unfold getPastEvents.
      rewrite Efail.
      destruct (Z.ltb_spec (lastBlock + 1 + blockRange) toBlock); [lia |].
      reflexivity.
Qed.

(** The run over a non-empty range, with its budget and what it covers. *)
Lemma getRateLimitedEvents_ends (fromBlock toBlock : Z) :
  fromBlock <= toBlock ->
  (forall attempt a, fails attempt a a = false) ->
  exists fuel covered,
    (covered = toBlock \/ covered = toBlock - 1) /\
    forall extra,
      getRateLimitedEvents Event eventsAt fails (fuel + extra) fromBlock toBlock
      = Some (flat_map eventsAt (blockRangeOf fromBlock covered)).
Proof.
  intros Hle Hsingle.
  destruct (fetchLoop_ends toBlock Hsingle
              (Z.to_nat (toBlock - (fromBlock - 1))) (fromBlock - 1) eq_refl
              ltac:(lia)
              (Z.to_nat (toBlock - (fromBlock - 1))) (toBlock - (fromBlock - 1))
              eq_refl ltac:(lia) 0%nat [] [])
    as (fuel & [result requested] & Hrun).
  assert (Hnil : @nil Event
                 = flat_map eventsAt (blockRangeOf fromBlock (fromBlock - 1)))
    by (rewrite blockRangeOf_nil by lia; reflexivity).
  destruct (fetchLoop_covers Event eventsAt fails fromBlock toBlock
              fuel 0%nat [] [] (fromBlock - 1) (toBlock - (fromBlock - 1))
              result requested
              ltac:(lia) ltac:(lia) ltac:(lia) Hnil Hrun)
    as (covered & Hcovered & ->).
  exists fuel, covered. split; [assumption |].
  intros extra. unfold getRateLimitedEvents, getRateLimitedEvents_trace.
  rewrite (fetchLoop_more_fuel toBlock _ _ _ _ _ _ _ Hrun extra). reflexivity.
Qed.

End FetcherProgress.

Section FetcherBehaviour.
Import Fetcher.

Variable Event : Type.
Variable eventsAt : Z -> list Event.
Variable fails : nat -> Z -> Z -> bool.

(** When the first request, for the whole range, succeeds,
    [getRateLimitedEvents] makes that one request and returns the events of
    every block of [fromBlock .. toBlock], [toBlock] included. *)
Theorem getRateLimitedEvents_one_request_without_faults :
  forall (fuel : nat) (fromBlock toBlock : Z),
    fails 0%nat fromBlock toBlock = false ->
    getRateLimitedEvents_trace Event eventsAt fails (S fuel) fromBlock toBlock
    = Some (flat_map eventsAt (blockRangeOf fromBlock toBlock),
            [(fromBlock, toBlock)]).
Proof.
  intros fuel fromBlock toBlock Hok.
  unfold getRateLimitedEvents_trace. cbn [fetchLoop]. unfold getPastEvents.
  replace (fromBlock - 1 + 1) with fromBlock by lia.
  replace (Z.min (fromBlock - 1 + (toBlock - (fromBlock - 1))) toBlock)
    with toBlock by lia.
  rewrite Hok.
  destruct (Z.ltb_spec (fromBlock + (toBlock - (fromBlock - 1))) toBlock);
    [lia | reflexivity].
Qed.

(** When requests for a single block never fail, [getRateLimitedEvents] over
    a non-empty range returns: some budget is enough, and every larger one
    gives the same result. *)
Theorem getRateLimitedEvents_returns_when_single_blocks_succeed :
  forall fromBlock toBlock : Z,
    fromBlock <= toBlock ->
    (forall attempt a, fails attempt a a = false) ->
    exists fuel result,
      forall extra,
        getRateLimitedEvents Event eventsAt fails (fuel + extra) fromBlock toBlock
        = Some result.
Proof.
  intros fromBlock toBlock Hle Hsingle.
  destruct (getRateLimitedEvents_ends Event eventsAt fails fromBlock toBlock
              Hle Hsingle) as (fuel & covered & _ & Hrun).
  exists fuel. eexists. exact Hrun.
Qed.

(** When every request that starts at [fromBlock] fails,
    [getRateLimitedEvents] retries for ever: it neither returns nor throws,
    whatever the budget. *)
Theorem getRateLimitedEvents_retries_forever :
  forall fromBlock toBlock : Z,
    (forall attempt b, fails attempt fromBlock b = true) ->
    forall fuel,
      getRateLimitedEvents Event eventsAt fails fuel fromBlock toBlock = None.
Proof.
  intros fromBlock toBlock Hfail fuel.
  unfold getRateLimitedEvents, getRateLimitedEvents_trace.
  assert (Hloop : forall fuel attempt blockRange,
            fetchLoop Event eventsAt fails fuel attempt toBlock [] []
              (fromBlock - 1) blockRange = None).
  { clear fuel. induction fuel as [|fuel IH]; intros attempt blockRange;
      [reflexivity |].
    cbn [fetchLoop]. unfold getPastEvents.
    replace (fromBlock - 1 + 1) with fromBlock by lia.
    rewrite Hfail. apply IH. }
  rewrite Hloop. reflexivity.
Qed.

End FetcherBehaviour.

Section BridgeFacts.
Import Tvl Bridge.

Lemma eventsOf_map_filter (tokenAddress : String.string)
    (decode : BridgeEvent -> Transaction) (keep : BridgeEvent -> bool)
    (events : list BridgeEvent) :
  (forall event, String.eqb (token (decode event)) tokenAddress = keep event) ->
  eventsOf tokenAddress (map decode events) = map decode (filter keep events).
Proof.
  intros Hkeep. unfold eventsOf.
  induction events as [|event events IH]; cbn [map filter]; [reflexivity |].
  rewrite Hkeep. destruct (keep event); cbn [map]; rewrite IH; reflexivity.
Qed.

Lemma sumZ_map_opp (amounts : list Z) :
  sumZ (map Z.opp amounts) = - sumZ amounts.
Proof.
  unfold sumZ. induction amounts as [|a amounts IH]; cbn [map fold_right]; lia.
Qed.

End BridgeFacts.

Section BridgeBalances.
Import Tvl Bridge.

Context {num : Type}.

Variable eventsAt : EventName -> Z -> list BridgeEvent.
Variable fails : EventName -> nat -> Z -> Z -> bool.

(** Lines 198-218 of [main], with a node that never fails a single-block
    request: the four fetches end, each having covered the blocks from
    [earliestBlock] to [toBlock] or to [toBlock - 1], and for every token the
    last sample's [rawBalance] is the sum of the deposited amounts less the
    sum of the withdrawn amounts over the blocks covered (ETH events count
    for the zero address, ERC20 events for the token they name); a token
    without an entry has no such event. *)
Theorem bridgeBalances_are_deposits_less_withdrawals :
  forall toBlock : Z,
    earliestBlock <= toBlock ->
    (forall eventName attempt a, fails eventName attempt a a = false) ->
    exists (fuel : nat) (covered : EventName -> Z),
      (forall eventName,
         covered eventName = toBlock \/ covered eventName = toBlock - 1) /\
      forall extra,
      exists balances : TokenMap (list (BalanceItem num)),
        bridgeBalances eventsAt fails (fuel + extra) toBlock = Ok balances /\
        forall tokenAddress,
          match lookup tokenAddress balances with
          | Some samples =>
              exists lastSample,
                last_opt samples = Some lastSample /\
                rawBalance lastSample
                = Some (netDeposits eventsAt covered tokenAddress)
          | None =>
              forall eventName,
                amountsOf eventsAt eventName tokenAddress (covered eventName) = []
          end.
Proof.
  intros toBlock Hle Hsingle.
  destruct (getRateLimitedEvents_ends BridgeEvent (eventsAt ETHDepositInitiated)
              (fails ETHDepositInitiated) earliestBlock toBlock Hle
              (Hsingle ETHDepositInitiated)) as (f1 & c1 & Hc1 & Hrun1).
  destruct (getRateLimitedEvents_ends BridgeEvent (eventsAt ERC20DepositInitiated)
              (fails ERC20DepositInitiated) earliestBlock toBlock Hle
              (Hsingle ERC20DepositInitiated)) as (f2 & c2 & Hc2 & Hrun2).
  destruct (getRateLimitedEvents_ends BridgeEvent (eventsAt ETHWithdrawalFinalized)
              (fails ETHWithdrawalFinalized) earliestBlock toBlock Hle
              (Hsingle ETHWithdrawalFinalized)) as (f3 & c3 & Hc3 & Hrun3).
  destruct (getRateLimitedEvents_ends BridgeEvent (eventsAt ERC20WithdrawalFinalized)
              (fails ERC20WithdrawalFinalized) earliestBlock toBlock Hle
              (Hsingle ERC20WithdrawalFinalized)) as (f4 & c4 & Hc4 & Hrun4).
  set (covered := fun eventName =>
                    match eventName with
                    | ETHDepositInitiated => c1
                    | ERC20DepositInitiated => c2
                    | ETHWithdrawalFinalized => c3
                    | ERC20WithdrawalFinalized => c4
                    end).
  exists (f1 + f2 + f3 + f4)%nat, covered.
  split; [intros []; assumption |].
  intros extra.
  unfold bridgeBalances, rawBridgeTransactions, getEthDepositInitiated,
    getErc20DepositInitiated, getEthWithdrawalFinalized,
    getErc20WithdrawalFinalized, getBridgeEvents.
  pose proof (Hrun1 (f2 + f3 + f4 + extra)%nat) as R1.
  pose proof (Hrun2 (f1 + f3 + f4 + extra)%nat) as R2.
  pose proof (Hrun3 (f1 + f2 + f4 + extra)%nat) as R3.
  pose proof (Hrun4 (f1 + f2 + f3 + extra)%nat) as R4.
  replace (f1 + (f2 + f3 + f4 + extra))%nat with (f1 + f2 + f3 + f4 + extra)%nat
    in R1 by lia.
  replace (f2 + (f1 + f3 + f4 + extra))%nat with (f1 + f2 + f3 + f4 + extra)%nat
    in R2 by lia.
  replace (f3 + (f1 + f2 + f4 + extra))%nat with (f1 + f2 + f3 + f4 + extra)%nat
    in R3 by lia.
  replace (f4 + (f1 + f2 + f3 + extra))%nat with (f1 + f2 + f3 + f4 + extra)%nat
    in R4 by lia.
  rewrite R1, R2, R3, R4.
  cbn [option_map].
  set (decodeEthDeposit := fun event =>
         mkTransaction zeroAddress (returnValues_amount event)
           (event_blockNumber event)).
  set (decodeErc20Deposit := fun event =>
         mkTransaction (returnValues_l1Token event) (returnValues_amount event)
           (event_blockNumber event)).
  set (decodeEthWithdrawal := fun event =>
         mkTransaction zeroAddress (- returnValues_amount event)
           (event_blockNumber event)).
  set (decodeErc20Withdrawal := fun event =>
         mkTransaction (returnValues_l1Token event) (- returnValues_amount event)
           (event_blockNumber event)).
  set (events1 := flat_map (eventsAt ETHDepositInitiated)
                    (Fetcher.blockRangeOf earliestBlock c1)).
  set (events2 := flat_map (eventsAt ERC20DepositInitiated)
                    (Fetcher.blockRangeOf earliestBlock c2)).
  set (events3 := flat_map (eventsAt ETHWithdrawalFinalized)
                    (Fetcher.blockRangeOf earliestBlock c3)).
  set (events4 := flat_map (eventsAt ERC20WithdrawalFinalized)
                    (Fetcher.blockRangeOf earliestBlock c4)).
  set (raw := map decodeEthDeposit events1 ++ map decodeErc20Deposit events2
              ++ map decodeEthWithdrawal events3
              ++ map decodeErc20Withdrawal events4).
  unfold reconstructBalances.
  destruct (@recordTransactions_holds num (sortBy Z.ltb txBlockNumber raw) [] [])
    as (balances & Hrun & Hholds); [intros tokenAddress; reflexivity |].
  exists balances. split; [exact Hrun |].
  intros tokenAddress. cbn [app] in Hholds. rewrite (Hholds tokenAddress).
  assert (Hperm : Permutation
                    (eventsOf tokenAddress (sortBy Z.ltb txBlockNumber raw))
                    (eventsOf tokenAddress raw))
    by (apply eventsOf_Permutation, sortBy_Permutation).
  assert (Hraw : eventsOf tokenAddress raw
                 = map decodeEthDeposit
                     (filter (concerns ETHDepositInitiated tokenAddress) events1)
                   ++ map decodeErc20Deposit
                        (filter (concerns ERC20DepositInitiated tokenAddress) events2)
                   ++ map decodeEthWithdrawal
                        (filter (concerns ETHWithdrawalFinalized tokenAddress) events3)
                   ++ map decodeErc20Withdrawal
                        (filter (concerns ERC20WithdrawalFinalized tokenAddress)
                           events4)).
  { unfold raw. rewrite !eventsOf_app.
    rewrite (eventsOf_map_filter tokenAddress decodeEthDeposit
               (concerns ETHDepositInitiated tokenAddress)) by (intros; reflexivity).
    rewrite (eventsOf_map_filter tokenAddress decodeErc20Deposit
               (concerns ERC20DepositInitiated tokenAddress)) by (intros; reflexivity).
    rewrite (eventsOf_map_filter tokenAddress decodeEthWithdrawal
               (concerns ETHWithdrawalFinalized tokenAddress)) by (intros; reflexivity).
    rewrite (eventsOf_map_filter tokenAddress decodeErc20Withdrawal
               (concerns ERC20WithdrawalFinalized tokenAddress))
      by (intros; reflexivity).
    reflexivity. }
  destruct (eventsOf tokenAddress (sortBy Z.ltb txBlockNumber raw))
    as [|e es] eqn:Eev.
  - (* no event of the token *)
    apply Permutation_nil in Hperm. rewrite Hraw in Hperm.
    apply app_eq_nil in Hperm. destruct Hperm as [E1 Hperm].
    apply app_eq_nil in Hperm. destruct Hperm as [E2 Hperm].
    apply app_eq_nil in Hperm. destruct Hperm as [E3 E4].
    apply map_eq_nil in E1, E2, E3, E4.
    intros []; unfold amountsOf; cbn [covered];
      fold events1 events2 events3 events4;
      rewrite ?E1, ?E2, ?E3, ?E4; reflexivity.
  - destruct (@exists_last _ (e :: es)) as (init & lastEvent & Elast);
      [discriminate |].
    rewrite Elast, runningSamples_last. eexists. split; [reflexivity |].
    cbn [rawBalance]. rewrite Z.add_0_l, <- Elast. f_equal.
    rewrite (sumZ_Permutation _ _ (Permutation_map netAmount Hperm)).
    rewrite Hraw, !map_app, !sumZ_app, !map_map.
    unfold netDeposits, amountsOf. cbn [covered].
    fold events1 events2 events3 events4.
    cbn [netAmount decodeEthDeposit decodeErc20Deposit decodeEthWithdrawal
           decodeErc20Withdrawal].
    rewrite <- !(map_map returnValues_amount Z.opp), !sumZ_map_opp.
    change (fun x : BridgeEvent => returnValues_amount x) with returnValues_amount.
    lia.
Qed.

End BridgeBalances.

Section FetcherMoreExamples.
Import Fetcher Tvl Bridge.

(** The scenario of the specification, where single-block requests
    succeed. *)
Lemma getRateLimitedEvents_returns_when_single_blocks_succeed_witness :
  exists fuel result,
    forall extra,
      getRateLimitedEvents Z synthetic_events fails_above_50 (fuel + extra) 0 200
      = Some result.
Proof.
  apply (getRateLimitedEvents_returns_when_single_blocks_succeed
           Z synthetic_events fails_above_50 0 200).
  - lia.
  - intros attempt a. unfold fails_above_50.
    destruct (Z.ltb_spec 50 (a - a + 1)); [lia | reflexivity].
Defined.

(** A node that is down. *)
Lemma getRateLimitedEvents_retries_forever_witness :
  getRateLimitedEvents Z synthetic_events (fun _ _ _ => true) 1000 0 200 = None.
Proof.
  apply (getRateLimitedEvents_retries_forever Z synthetic_events
           (fun _ _ _ => true) 0 200).
  intros attempt b. reflexivity.
Defined.

(** A range of 40 blocks on the scenario's node, which serves up to 50. *)
Lemma getRateLimitedEvents_one_request_without_faults_witness :
  getRateLimitedEvents_trace Z synthetic_events fails_above_50 1 0 39
  = Some (flat_map synthetic_events (blockRangeOf 0 39), [(0, 39)]).
Proof.
  apply (getRateLimitedEvents_one_request_without_faults
           Z synthetic_events fails_above_50 0 0 39).
  reflexivity.
Defined.

(** The example log, up to two blocks after the deployment of the bridge. *)
Lemma bridgeBalances_are_deposits_less_withdrawals_witness :
  exists (fuel : nat) (covered : EventName -> Z),
    (forall eventName,
       covered eventName = earliestBlock + 2 \/
       covered eventName = earliestBlock + 2 - 1) /\
    forall extra,
    exists balances : TokenMap (list (BalanceItem Qc)),
      bridgeBalances example_eventsAt example_fails (fuel + extra)
        (earliestBlock + 2) = Ok balances /\
      forall tokenAddress,
        match lookup tokenAddress balances with
        | Some samples =>
            exists lastSample,
              last_opt samples = Some lastSample /\
              rawBalance lastSample
              = Some (netDeposits example_eventsAt covered tokenAddress)
        | None =>
            forall eventName,
              amountsOf example_eventsAt eventName tokenAddress
                (covered eventName) = []
        end.
Proof.
  apply (bridgeBalances_are_deposits_less_withdrawals
           example_eventsAt example_fails (earliestBlock + 2)).
  - unfold earliestBlock. lia.
  - intros eventName attempt a. unfold example_fails.
    destruct (Z.ltb_spec 2 (a - a + 1)); [lia | reflexivity].
Defined.

End FetcherMoreExamples.

(* ================================================================== *)
(** * Seeding and integrating: how [addFirstBalance] and [calculateTwap]
      compose *)
(* ================================================================== *)

Section SeedShape.
Import Tvl.

Context {num : Type} `{JSNumber num}.

(** What [addFirstBalance] does to any array: the samples up to the first
    one later than [startTimestamp] stay in front, one new sample follows
    them, the rest follows unchanged. *)
Lemma addFirstBalance_shape (series : list (BalanceItem num)) (startTimestamp : num) :
  exists before later,
    series = before ++ later /\
    Forall (fun sample =>
              js_gt (timestamp sample) (Some startTimestamp) = false) before /\
    match later with
    | [] => True
    | next :: _ => js_gt (timestamp next) (Some startTimestamp) = true
    end /\
    addFirstBalance series startTimestamp
    = before
      ++ match before, later with
         | [], _ :: _ => zeroItem startTimestamp
         | _, _ => withTimestamp (last_opt before) startTimestamp
         end
      :: later.
Proof.
  unfold addFirstBalance.
  destruct (findIndex _ series) as [[|i]|] eqn:Efind.
  - destruct (findIndex_Some _ _ _ Efind) as (pre & x & post & -> & Hlen & Hx & Hpre).
    destruct pre; [| discriminate].
    exists [], (x :: post). repeat split; auto.
  - destruct (findIndex_Some _ _ _ Efind) as (pre & x & post & -> & Hlen & Hx & Hpre).
    exists pre, (x :: post). split; [reflexivity |].
    split; [assumption |]. split; [assumption |].
    rewrite <- Hlen, splice_app.
    destruct (nil_or_snoc pre) as [-> | (pre' & z & ->)]; [discriminate |].
    rewrite length_app in Hlen. cbn [length] in Hlen.
    assert (Hi : i = length pre') by lia. subst i.
    rewrite nth_error_snoc_middle, last_opt_app.
    destruct pre'; reflexivity.
  - exists series, []. split; [symmetry; apply app_nil_r |].
    split; [apply findIndex_None; assumption |]. split; [trivial |].
    destruct series; reflexivity.
Qed.

End SeedShape.

Section SeedShapeTheorem.
Import Tvl.

Context {num : Type} `{JSNumber num}.

(** [addFirstBalance] on any array, sorted or not, empty or not: exactly one
    sample is added, stamped [startTimestamp], right before the first sample
    that is later than [startTimestamp] (at the end if there is none); the
    samples that were there keep their order and their contents.  The new
    sample has balance and value [0] when it is put in front of a non-empty
    array, and is otherwise a copy of the sample before it (of nothing, on
    the empty array). *)
Theorem addFirstBalance_inserts_one_sample :
  forall (series : list (BalanceItem num)) (startTimestamp : num),
  exists before seed later,
    series = before ++ later /\
    addFirstBalance series startTimestamp = before ++ seed :: later /\
    timestamp seed = Some startTimestamp /\
    Forall (fun sample =>
              js_gt (timestamp sample) (Some startTimestamp) = false) before /\
    match later with
    | [] => True
    | next :: _ => js_gt (timestamp next) (Some startTimestamp) = true
    end /\
    seed = match before, later with
           | [], _ :: _ => zeroItem startTimestamp
           | _, _ => withTimestamp (last_opt before) startTimestamp
           end.
Proof.
  intros series startTimestamp.
  destruct (addFirstBalance_shape series startTimestamp)
    as (before & later & Hseries & Hbefore & Hlater & Hrun).
  exists before. eexists. exists later.
  split; [assumption |]. split; [exact Hrun |].
  split; [| split; [assumption | split; [assumption | reflexivity]]].
  destruct before as [|b before'], later as [|l later']; try reflexivity;
    cbn [withTimestamp]; destruct (last_opt _); reflexivity.
Qed.

End SeedShapeTheorem.

Section SortedSeed.
Import Tvl.

Context {num : Type} `{JSNumberOrder num}.

(** On a sorted series the samples behind the new one are all later than
    [startTimestamp], and the result is sorted. *)
Lemma addFirstBalance_sorted_shape (series : list (BalanceItem num))
    (startTimestamp : num) :
  seriesSorted series ->
  exists before later,
    series = before ++ later /\
    Forall (notAfter startTimestamp) before /\
    Forall (isAfter startTimestamp) later /\
    addFirstBalance series startTimestamp
    = before
      ++ match before, later with
         | [], _ :: _ => zeroItem startTimestamp
         | _, _ => withTimestamp (last_opt before) startTimestamp
         end
      :: later /\
    seriesSorted (addFirstBalance series startTimestamp).
Proof.
  intros Hsorted.
  destruct (addFirstBalance_shape series startTimestamp)
    as (before & later & Hseries & Hbefore & Hlater & Hrun).
  assert (Hb : Forall (notAfter startTimestamp) before).
  { eapply Forall_impl; [| exact Hbefore]. cbn beta.
    intros sample. apply not_later_notAfter. }
  assert (Hl : Forall (isAfter startTimestamp) later).
  { destruct later as [|next later']; [constructor |].
    apply later_isAfter in Hlater.
    constructor; [assumption |].
    rewrite Hseries in Hsorted.
    apply StronglySorted_app_iff in Hsorted. destruct Hsorted as (_ & Hs2 & _).
    apply StronglySorted_inv in Hs2. destruct Hs2 as [_ HF].
    eapply Forall_impl; [| exact HF]. cbn beta.
    intros sample. apply isAfter_sampleLe. assumption. }
  exists before, later. split; [assumption |]. split; [assumption |].
  split; [assumption |]. split; [assumption |].
  rewrite Hrun. apply (seeded_sorted startTimestamp); try assumption.
  - rewrite <- Hseries. assumption.
  - destruct before as [|b before'], later as [|l later']; try reflexivity;
      cbn [withTimestamp]; destruct (last_opt _); reflexivity.
Qed.

End SortedSeed.

(** Comparisons between rationals, read in [Q]. *)
Ltac qc_order := unfold Qcle, Qclt in *; lra.

Lemma filter_none {A : Type} (p : A -> bool) (l : list A) :
  Forall (fun y => p y = false) l -> filter p l = [].
Proof.
  induction 1 as [|y l Hy _ IH]; cbn [filter]; [reflexivity |].
  rewrite Hy. exact IH.
Qed.

Section ExactIntegration.
Import Tvl.
Local Open Scope Qc_scope.

Lemma selected_exact (a c : Qc) (sample : BalanceItem Qc) (t : Qc) :
  timestamp sample = Some t ->
  (selected a c sample = true <-> t <> 0 /\ a <= t /\ t < c).
Proof.
  intros Ht. unfold selected. rewrite Ht.
  cbn [js_truthy js_ge js_le js_lt num_truthy num_leb num_ltb exact_number].
  rewrite !andb_true_iff, exact_truthy_nonzero, exact_leb_le, exact_ltb_lt.
  tauto.
Qed.

Lemma selected_timestamp (a c : Qc) (sample : BalanceItem Qc) :
  selected a c sample = true -> exists t, timestamp sample = Some t.
Proof.
  unfold selected. destruct (timestamp sample) as [t|]; [eauto |].
  cbn. discriminate.
Qed.

Lemma selected_false (a c : Qc) (sample : BalanceItem Qc) (t : Qc) :
  timestamp sample = Some t ->
  (selected a c sample = false <-> ~ (t <> 0 /\ a <= t /\ t < c)).
Proof.
  intros Ht. rewrite <- (selected_exact a c sample t Ht).
  destruct (selected a c sample); split; intros; congruence.
Qed.

(** On a sorted series the samples selected for [[a, c)] are those selected
    for [[a, b)] followed by those selected for [[b, c)]. *)
Lemma selected_split (a b c : Qc) (series : list (BalanceItem Qc)) :
  seriesSorted series -> a <= b -> b <= c ->
  filter (selected a c) series
  = filter (selected a b) series ++ filter (selected b c) series.
Proof.
  intros Hsorted Hab Hbc.
  induction Hsorted as [|x l Hs IH HF]; [reflexivity |].
  cbn [filter].
  destruct (timestamp x) as [t|] eqn:Et.
  2: { assert (Hn : forall p q, selected p q x = false).
       { intros p q. unfold selected. rewrite Et. reflexivity. }
       rewrite !Hn. exact IH. }
  destruct (selected a b x) eqn:E1.
  - apply (selected_exact a b x t Et) in E1. destruct E1 as (Hnz & Hat & Htb).
    assert (E2 : selected b c x = false).
    { apply (selected_false b c x t Et). intros (_ & Hbt & _). qc_order. }
    assert (E3 : selected a c x = true).
    { apply (selected_exact a c x t Et). repeat split; [assumption | | ]; qc_order. }
    rewrite E2, E3, IH. reflexivity.
  - destruct (selected b c x) eqn:E2.
    + apply (selected_exact b c x t Et) in E2. destruct E2 as (Hnz & Hbt & Htc).
      assert (E3 : selected a c x = true).
      { apply (selected_exact a c x t Et). repeat split; [assumption | | ]; qc_order. }
      assert (Hnone : filter (selected a b) l = []).
      { apply filter_none. rewrite Forall_forall. intros y Hy.
        rewrite Forall_forall in HF. specialize (HF y Hy).
        unfold sampleLe in HF. rewrite Et in HF.
        destruct (timestamp y) as [ty|] eqn:Ey; [| destruct HF].
        apply (selected_false a b y ty Ey). intros (_ & _ & Hty).
        cbn [num_leb exact_number] in HF. apply exact_leb_le in HF. qc_order. }
      rewrite E3, IH, Hnone. reflexivity.
    + assert (E3 : selected a c x = false).
      { apply (selected_false a c x t Et). intros (Hnz & Hat & Htc).
        apply (selected_false a b x t Et) in E1.
        apply (selected_false b c x t Et) in E2.
        destruct (Qclt_le_dec t b) as [Hlt | Hge].
        - apply E1. repeat split; assumption.
        - apply E2. repeat split; assumption. }
      rewrite E3. exact IH.
Qed.

Lemma js_add_assoc (x y z : option Qc) :
  js_add (js_add x y) z = js_add x (js_add y z).
Proof.
  destruct x as [x|], y as [y|], z as [z|]; try reflexivity.
  cbn [js_add lift2 num_add exact_number]. f_equal. ring.
Qed.

Lemma js_add_zero_r (x : option Qc) : js_add x (Some 0) = x.
Proof.
  destruct x as [x|]; [| reflexivity].
  cbn [js_add lift2 num_add exact_number]. f_equal. ring.
Qed.

Lemma js_add_zero_l (x : option Qc) : js_add (Some 0) x = x.
Proof.
  destruct x as [x|]; [| reflexivity].
  cbn [js_add lift2 num_add exact_number]. f_equal. ring.
Qed.

(** The running sum comes out of the integration. *)
Lemma weightedSum_acc (endTimestamp : Qc) (samples : list (BalanceItem Qc)) :
  forall acc extra : option Qc,
    weightedSum endTimestamp samples (js_add acc extra)
    = js_add acc (weightedSum endTimestamp samples extra).
Proof.
  induction samples as [|sample rest IH]; intros acc extra; [reflexivity |].
  cbn [weightedSum]. rewrite js_add_assoc. apply IH.
Qed.

(** Integrating up to a sample and on from it. *)
Lemma weightedSum_app_at (endTimestamp : Qc) (x : BalanceItem Qc) (tx : Qc)
    (later : list (BalanceItem Qc)) :
  timestamp x = Some tx ->
  forall (earlier : list (BalanceItem Qc)) (acc : option Qc),
    weightedSum endTimestamp (earlier ++ x :: later) acc
    = weightedSum endTimestamp (x :: later) (weightedSum tx earlier acc).
Proof.
  intros Hx. induction earlier as [|y earlier IH]; intros acc; [reflexivity |].
  cbn [app]. destruct earlier as [|z earlier'].
  - cbn [app weightedSum]. rewrite Hx. reflexivity.
  - change (weightedSum endTimestamp (y :: (z :: earlier') ++ x :: later) acc)
      with (weightedSum endTimestamp ((z :: earlier') ++ x :: later)
              (js_add acc (js_mul (value y) (js_sub (timestamp z) (timestamp y))))).
    rewrite IH. reflexivity.
Qed.

(** The samples selected for a window that starts at a sample's timestamp
    begin with a sample at that timestamp. *)
Lemma selected_starts_at (a c : Qc) (series : list (BalanceItem Qc)) :
  seriesSorted series -> a < c -> a <> 0 ->
  (exists sample, In sample series /\ timestamp sample = Some a) ->
  exists first rest,
    filter (selected a c) series = first :: rest /\ timestamp first = Some a.
Proof.
  intros Hsorted Hlt Hnz (s0 & Hin0 & Hts0).
  assert (Hsel0 : selected a c s0 = true).
  { apply (selected_exact a c s0 a Hts0).
    repeat split; [assumption | apply Qcle_refl | assumption]. }
  destruct (filter (selected a c) series) as [|first rest] eqn:Efilter.
  { assert (Hin : In s0 (filter (selected a c) series))
      by (apply filter_In; split; assumption).
    rewrite Efilter in Hin. destruct Hin. }
  exists first, rest. split; [reflexivity |].
  destruct (filter_head_split _ _ _ _ Efilter) as (l1 & l2 & -> & Hl1 & Hfirst).
  apply in_app_or in Hin0. destruct Hin0 as [Hin0 | [<- | Hin0]].
  - rewrite Forall_forall in Hl1. rewrite (Hl1 s0 Hin0) in Hsel0. discriminate.
  - assumption.
  - apply StronglySorted_app_iff in Hsorted. destruct Hsorted as (_ & Hs2 & _).
    apply StronglySorted_inv in Hs2. destruct Hs2 as [_ HF].
    rewrite Forall_forall in HF. specialize (HF s0 Hin0).
    unfold sampleLe in HF. rewrite Hts0 in HF.
    destruct (selected_timestamp _ _ _ Hfirst) as [tf Htf].
    rewrite Htf in HF. cbn [num_leb exact_number] in HF. apply exact_leb_le in HF.
    apply (selected_exact a c first tf Htf) in Hfirst.
    destruct Hfirst as (_ & Hge & _).
    f_equal. rewrite Htf. f_equal. apply Qcle_antisym; assumption.
Qed.

(** The integral over [[a, c)] is the integral over [[a, b)] plus the
    integral over [[b, c)], once a sample sits at [b]. *)
Lemma integral_split (a b c : Qc) (series : list (BalanceItem Qc)) :
  seriesSorted series -> a <= b -> b < c -> b <> 0 ->
  (exists sample, In sample series /\ timestamp sample = Some b) ->
  weightedSum c (filter (selected a c) series) (Some 0)
  = js_add (weightedSum b (filter (selected a b) series) (Some 0))
           (weightedSum c (filter (selected b c) series) (Some 0)).
Proof.
  intros Hsorted Hab Hbc Hnz Hat.
  rewrite (selected_split a b c series Hsorted Hab (Qclt_le_weak _ _ Hbc)).
  destruct (selected_starts_at b c series Hsorted Hbc Hnz Hat)
    as (first & rest & -> & Hfirst).
  rewrite (weightedSum_app_at c first b rest Hfirst).
  rewrite <- (js_add_zero_r (weightedSum b (filter (selected a b) series) (Some 0)))
    at 1.
  apply weightedSum_acc.
Qed.

Lemma js_div_mul_cancel (x : option Qc) (d : Qc) :
  d <> 0 -> js_mul (js_div x (Some d)) (Some d) = x.
Proof.
  intros Hd. destruct x as [x|]; [| reflexivity].
  cbn [js_mul js_div lift2 num_mul num_div exact_number]. f_equal. field. exact Hd.
Qed.

Lemma Qcminus_pos_nonzero (a c : Qc) : a < c -> c - a <> 0.
Proof.
  intros Hlt E. apply Qclt_minus_iff in Hlt.
  change (c + - a) with (c - a) in Hlt. rewrite E in Hlt. discriminate.
Qed.

Lemma calculateTwap_times_length (series : list (BalanceItem Qc)) (a c : Qc) :
  a < c ->
  js_mul (calculateTwap series a c) (Some (c - a))
  = weightedSum c (filter (selected a c) series) (Some 0).
Proof.
  intros Hlt. rewrite calculateTwap_weighted. unfold twapBy.
  cbn [num_sub num_of_Z exact_number].
  apply js_div_mul_cancel. apply Qcminus_pos_nonzero. assumption.
Qed.

End ExactIntegration.

Section WindowAdditivity.
Import Tvl.
Local Open Scope Qc_scope.

(** In exact arithmetic, on a series sorted by timestamp with a sample
    exactly at [b], for [a < b < c] and [b] non-zero: the TWAP over
    [[a, c)] weighted by [c - a] is the TWAP over [[a, b)] weighted by
    [b - a] plus the TWAP over [[b, c)] weighted by [c - b]. *)
Theorem calculateTwap_adds_over_adjacent_windows :
  forall (series : list (BalanceItem Qc)) (a b c : Qc),
    a < b -> b < c -> b <> 0 ->
    seriesSorted series ->
    (exists sample, In sample series /\ timestamp sample = Some b) ->
    js_mul (calculateTwap series a c) (Some (c - a))
    = js_add (js_mul (calculateTwap series a b) (Some (b - a)))
             (js_mul (calculateTwap series b c) (Some (c - b))).
Proof.
  intros series a b c Hab Hbc Hnz Hsorted Hat.
  rewrite !calculateTwap_times_length;
    [| assumption | assumption | eapply Qclt_trans; eassumption].
  apply integral_split; try assumption. apply Qclt_le_weak. assumption.
Qed.

End WindowAdditivity.

Lemma StronglySorted_filter {A : Type} (R : A -> A -> Prop) (p : A -> bool)
    (l : list A) :
  StronglySorted R l -> StronglySorted R (filter p l).
Proof.
  induction 1 as [|x l Hs IH HF]; cbn [filter]; [constructor |].
  destruct (p x); [| assumption].
  constructor; [assumption |].
  rewrite Forall_forall in *. intros y Hy. apply filter_In in Hy. apply HF, Hy.
Qed.

Section ExactBounds.
Import Tvl.
Local Open Scope Qc_scope.

Lemma Qcminus_nonneg (t0 t1 : Qc) : t0 <= t1 -> 0 <= t1 - t0.
Proof. intros Hle. apply Qcle_minus_iff in Hle. exact Hle. Qed.

Lemma integral_step_lower (acc m v t0 t1 c r : Qc) :
  m <= v -> t0 <= t1 ->
  acc + v * (t1 - t0) + m * (c - t1) <= r ->
  acc + m * (c - t0) <= r.
Proof.
  intros Hmv Ht Hr. eapply Qcle_trans; [| exact Hr].
  replace (acc + m * (c - t0)) with (acc + m * (t1 - t0) + m * (c - t1)) by ring.
  apply Qcplus_le_compat; [| apply Qcle_refl].
  apply Qcplus_le_compat; [apply Qcle_refl |].
  apply Qcmult_le_compat_r; [assumption | apply Qcminus_nonneg; assumption].
Qed.

Lemma integral_step_upper (acc M v t0 t1 c r : Qc) :
  v <= M -> t0 <= t1 ->
  r <= acc + v * (t1 - t0) + M * (c - t1) ->
  r <= acc + M * (c - t0).
Proof.
  intros HvM Ht Hr. eapply Qcle_trans; [exact Hr |].
  replace (acc + M * (c - t0)) with (acc + M * (t1 - t0) + M * (c - t1)) by ring.
  apply Qcplus_le_compat; [| apply Qcle_refl].
  apply Qcplus_le_compat; [apply Qcle_refl |].
  apply Qcmult_le_compat_r; [assumption | apply Qcminus_nonneg; assumption].
Qed.

(** Integrating samples whose values lie between [m] and [M], from the
    first sample's timestamp [t0] up to [c]. *)
Lemma weightedSum_between (c m M : Qc) :
  forall (rest : list (BalanceItem Qc)) (first : BalanceItem Qc) (acc t0 : Qc),
    StronglySorted sampleLe (first :: rest) ->
    Forall (fun sample =>
              exists t v, timestamp sample = Some t /\ t < c /\
                          value sample = Some v /\ m <= v <= M)
           (first :: rest) ->
    timestamp first = Some t0 ->
    exists r,
      weightedSum c (first :: rest) (Some acc) = Some r /\
      acc + m * (c - t0) <= r <= acc + M * (c - t0).
Proof.
  induction rest as [|next rest IH]; intros first acc t0 Hsorted HF Ht0.
  - apply Forall_inv in HF. destruct HF as (t & v & Ht & Htc & Hv & Hm & HM).
    assert (t = t0) by congruence. subst t.
    exists (acc + v * (c - t0)). cbn [weightedSum]. rewrite Hv, Ht0.
    split; [reflexivity |].
    assert (Hpos : 0 <= c - t0)
      by (apply Qcminus_nonneg, Qclt_le_weak; assumption).
    split; (apply Qcplus_le_compat; [apply Qcle_refl |]);
      apply Qcmult_le_compat_r; assumption.
  - pose proof (Forall_inv HF) as (t & v & Ht & Htc & Hv & Hm & HM).
    assert (t = t0) by congruence. subst t.
    apply Forall_inv_tail in HF.
    pose proof (Forall_inv HF) as (t1 & v1 & Ht1 & _).
    assert (Hle : t0 <= t1).
    { apply StronglySorted_inv in Hsorted. destruct Hsorted as [_ Hall].
      apply Forall_inv in Hall. unfold sampleLe in Hall.
      rewrite Ht0, Ht1 in Hall. apply exact_leb_le. exact Hall. }
    apply StronglySorted_inv in Hsorted. destruct Hsorted as [Hsorted _].
    destruct (IH next (acc + v * (t1 - t0)) t1 Hsorted HF Ht1)
      as (r & Hrun & Hlo & Hhi).
    exists r. split.
    + change (weightedSum c (first :: next :: rest) (Some acc))
        with (weightedSum c (next :: rest)
                (js_add (Some acc)
                   (js_mul (value first) (js_sub (timestamp next) (timestamp first))))).
      rewrite Hv, Ht0, Ht1. exact Hrun.
    + split.
      * apply (integral_step_lower acc m v t0 t1 c r); assumption.
      * apply (integral_step_upper acc M v t0 t1 c r); assumption.
Qed.

End ExactBounds.

Section TwapBounds.
Import Tvl.
Local Open Scope Qc_scope.

(** In exact arithmetic, for a window [[start, end)] with [start < end] and
    [start] non-zero, on a series sorted by timestamp with a sample exactly
    at [start]: when every sample inside the window carries a value between
    [m] and [M], the TWAP is a number between [m] and [M]. *)
Theorem calculateTwap_between_extreme_values :
  forall (series : list (BalanceItem Qc)) (startTimestamp endTimestamp m M : Qc),
    startTimestamp < endTimestamp ->
    startTimestamp <> 0 ->
    seriesSorted series ->
    (exists sample, In sample series /\ timestamp sample = Some startTimestamp) ->
    (forall sample, In sample series ->
       inWindow startTimestamp endTimestamp sample = true ->
       exists v, value sample = Some v /\ m <= v <= M) ->
    exists twap,
      calculateTwap series startTimestamp endTimestamp = Some twap /\
      m <= twap <= M.
Proof.
  intros series a c m M Hlt Hnz Hsorted Hat Hvalues.
  destruct (selected_starts_at a c series Hsorted Hlt Hnz Hat)
    as (first & rest & Hsel & Hfirst).
  assert (HF : Forall (fun sample =>
                         exists t v, timestamp sample = Some t /\ t < c /\
                                     value sample = Some v /\ m <= v <= M)
                      (first :: rest)).
  { rewrite <- Hsel. rewrite Forall_forall. intros sample Hin.
    apply filter_In in Hin. destruct Hin as [Hin Hs].
    destruct (selected_timestamp _ _ _ Hs) as [t Ht].
    pose proof (proj1 (selected_exact a c sample t Ht) Hs) as (_ & _ & Htc).
    rewrite selected_truthy_inWindow in Hs. apply andb_prop in Hs.
    destruct (Hvalues sample Hin (proj2 Hs)) as (v & Hv & Hm).
    exists t, v. auto. }
  assert (Hss : StronglySorted sampleLe (first :: rest)).
  { rewrite <- Hsel. apply StronglySorted_filter. exact Hsorted. }
  destruct (weightedSum_between c m M rest first 0 a Hss HF Hfirst)
    as (r & Hrun & Hlo & Hhi).
  assert (Hd : c - a <> 0) by (apply Qcminus_pos_nonzero; assumption).
  assert (Hpos : 0 < c - a).
  { apply Qclt_minus_iff in Hlt. exact Hlt. }
  exists (r / (c - a)). split.
  - rewrite calculateTwap_weighted. unfold twapBy. rewrite Hsel.
    change (num_of_Z 0) with (Q2Qc 0). rewrite Hrun. reflexivity.
  - assert (Hr : r / (c - a) * (c - a) = r) by (field; exact Hd).
    split; apply (Qcmult_lt_0_le_reg_r _ _ (c - a) Hpos); rewrite Hr.
    + rewrite Qcplus_0_l in Hlo. exact Hlo.
    + rewrite Qcplus_0_l in Hhi. exact Hhi.
Qed.

End TwapBounds.

Section SeedingInsideAWindow.
Import Tvl.
Local Open Scope Qc_scope.

(** In exact arithmetic, on a series sorted by timestamp, seeding at [S]
    does not change the TWAP of a window [[start, end)] with [0 < start]
    that already has a sample between [start] and [S]: the copy placed at
    [S] splits the time of the sample before it in two parts that carry the
    same value. *)
Theorem calculateTwap_unchanged_by_seeding_inside :
  forall (series : list (BalanceItem Qc)) (startTimestamp endTimestamp S : Qc),
    0 < startTimestamp ->
    seriesSorted series ->
    (exists sample t,
       In sample series /\ timestamp sample = Some t /\
       startTimestamp <= t /\ t <= S) ->
    calculateTwap (addFirstBalance series S) startTimestamp endTimestamp
    = calculateTwap series startTimestamp endTimestamp.
Proof.
  intros series a c S Hpos Hsorted (s0 & t0 & Hin0 & Hts0 & Hat0 & Ht0S).
  destruct (addFirstBalance_sorted_shape series S Hsorted)
    as (before & later & Hseries & Hb & Hl & Hrun & _).
  assert (Hin0b : In s0 before).
  { rewrite Hseries in Hin0. apply in_app_or in Hin0.
    destruct Hin0 as [Hin0 | Hin0]; [assumption | exfalso].
    rewrite Forall_forall in Hl. specialize (Hl s0 Hin0).
    unfold isAfter in Hl. rewrite Hts0 in Hl.
    cbn [num_ltb exact_number] in Hl. apply exact_ltb_lt in Hl. qc_order. }
  destruct (nil_or_snoc before) as [-> | (before' & prev & ->)];
    [destruct Hin0b |].
  assert (Hseed : match before' ++ [prev], later with
                  | [], _ :: _ => zeroItem S
                  | _, _ => withTimestamp (last_opt (before' ++ [prev])) S
                  end = withTimestamp (Some prev) S).
  { rewrite last_opt_app. destruct before', later; reflexivity. }
  rewrite Hseed in Hrun. clear Hseed.
  assert (Hprev : exists tp, timestamp prev = Some tp /\ t0 <= tp /\ tp <= S).
  { assert (Hle : exists tp, timestamp prev = Some tp /\ t0 <= tp).
    { apply in_app_or in Hin0b. destruct Hin0b as [Hin0b | [<- | []]].
      - rewrite Hseries in Hsorted.
        apply StronglySorted_app_iff in Hsorted. destruct Hsorted as (Hs1 & _ & _).
        apply StronglySorted_app_iff in Hs1. destruct Hs1 as (_ & _ & Hcross).
        specialize (Hcross s0 prev Hin0b (or_introl eq_refl)).
        unfold sampleLe in Hcross. rewrite Hts0 in Hcross.
        destruct (timestamp prev) as [tp|]; [| destruct Hcross].
        exists tp. split; [reflexivity |]. apply exact_leb_le. exact Hcross.
      - exists t0. split; [assumption | apply Qcle_refl]. }
    destruct Hle as (tp & Htp & Hle). exists tp.
    split; [assumption |]. split; [assumption |].
    rewrite Forall_forall in Hb.
    assert (Hinp : In prev (before' ++ [prev]))
      by (apply in_or_app; right; left; reflexivity).
    specialize (Hb prev Hinp).
    unfold notAfter in Hb. rewrite Htp in Hb. apply exact_leb_le. exact Hb. }
  destruct Hprev as (tp & Htp & Ht0p & HtpS).
  rewrite !calculateTwap_weighted. unfold twapBy. f_equal.
  rewrite Hrun, Hseries.
  assert (Hts_seed : timestamp (withTimestamp (Some prev) S) = Some S)
    by reflexivity.
  destruct (Qclt_le_dec S c) as [HSc | HcS].
  - (* the new sample is inside the window *)
    assert (Hsel_seed : selected a c (withTimestamp (Some prev) S) = true).
    { apply (selected_exact a c _ S Hts_seed). split; [| split].
      - intros E. rewrite E in *. qc_order.
      - qc_order.
      - assumption. }
    assert (Hsel_prev : selected a c prev = true).
    { apply (selected_exact a c prev tp Htp). split; [| split].
      - intros E. rewrite E in *. qc_order.
      - qc_order.
      - qc_order. }
    rewrite <- !app_assoc. cbn [app].
    rewrite !filter_app. cbn [filter]. rewrite Hsel_prev, Hsel_seed.
    rewrite !(weightedSum_app_at c prev tp _ Htp).
    set (A := weightedSum tp (filter (selected a c) before') (Some (num_of_Z 0))).
    set (L := filter (selected a c) later).
    change (weightedSum c (prev :: withTimestamp (Some prev) S :: L) A)
      with (weightedSum c (withTimestamp (Some prev) S :: L)
              (js_add A (js_mul (value prev)
                           (js_sub (Some S) (timestamp prev))))).
    cbn [weightedSum]. f_equal.
    change (value (withTimestamp (Some prev) S)) with (value prev).
    change (timestamp (withTimestamp (Some prev) S)) with (Some S).
    rewrite Htp.
    set (N := match L with
              | next :: _ => timestamp next
              | [] => Some c
              end).
    assert (E1 : match L with
                 | next :: _ => js_sub (timestamp next) (Some S)
                 | [] => js_sub (Some c) (Some S)
                 end = js_sub N (Some S)) by (unfold N; destruct L; reflexivity).
    assert (E2 : match L with
                 | next :: _ => js_sub (timestamp next) (Some tp)
                 | [] => js_sub (Some c) (Some tp)
                 end = js_sub N (Some tp)) by (unfold N; destruct L; reflexivity).
    rewrite E1, E2.
    destruct A as [x|], (value prev) as [v|], N as [n|]; try reflexivity.
    cbn [js_add js_mul js_sub lift2 num_add num_mul num_sub exact_number].
    f_equal. ring.
  - (* the new sample is at or after the end of the window *)
    f_equal. apply filter_app_drop.
    apply (selected_false a c _ S Hts_seed). intros (_ & _ & HSc). qc_order.
Qed.

End SeedingInsideAWindow.

Section IntervalLoop.
Import Tvl Main.
Local Open Scope Qc_scope.

(** The natural number [k] as a rational. *)
Local Abbreviation qn := (fun k : nat => Q2Qc (inject_Z (Z.of_nat k))).

Lemma qn_S (k : nat) : qn (S k) = qn k + 1.
Proof.
  cbn beta. rewrite Nat2Z.inj_succ. unfold Z.succ. rewrite inject_Z_plus.
  unfold Qcplus. apply Q2Qc_eq_iff.
  cbn [this Q2Qc]. rewrite !Qred_correct. reflexivity.
Qed.

Lemma qn_nonneg (k : nat) : 0 <= qn k.
Proof.
  unfold Qcle. cbn [this Q2Qc]. rewrite !Qred_correct.
  unfold Qle. cbn. lia.
Qed.

Lemma qn_pos (k : nat) : (0 < k)%nat -> 0 < qn k.
Proof.
  intros Hk. unfold Qclt. cbn [this Q2Qc]. rewrite !Qred_correct.
  unfold Qlt. cbn. lia.
Qed.

Lemma Qcmult_nonneg (x y : Qc) : 0 <= x -> 0 <= y -> 0 <= x * y.
Proof.
  intros Hx Hy. rewrite <- (Qcmult_0_l y). apply Qcmult_le_compat_r; assumption.
Qed.

Lemma Qcplus_pos_r (x d : Qc) : 0 < d -> x < x + d.
Proof.
  intros Hd. apply Qclt_minus_iff.
  replace (x + d + - x) with d by ring. exact Hd.
Qed.

Lemma Qcplus_nonneg_r (x d : Qc) : 0 <= d -> x <= x + d.
Proof.
  intros Hd. apply Qcle_minus_iff.
  replace (x + d + - x) with d by ring. exact Hd.
Qed.

Lemma selected_empty_window (a : Qc) (series : list (BalanceItem Qc)) :
  filter (selected a a) series = [].
Proof.
  apply filter_none. rewrite Forall_forall. intros sample _.
  destruct (timestamp sample) as [t|] eqn:Et.
  - apply (selected_false a a sample t Et). intros (_ & H1 & H2). qc_order.
  - unfold selected. rewrite Et. reflexivity.
Qed.

(** A sample carries a value. *)
Local Abbreviation has_value :=
  (fun sample : BalanceItem Qc => exists v, value sample = Some v).

Lemma weightedSum_Some (endTimestamp : Qc) (samples : list (BalanceItem Qc)) :
  Forall (fun sample => (exists t, timestamp sample = Some t) /\ has_value sample)
         samples ->
  forall acc, exists r, weightedSum endTimestamp samples (Some acc) = Some r.
Proof.
  induction samples as [|sample rest IH]; intros HF acc; [eexists; reflexivity |].
  pose proof (Forall_inv HF) as [[t Ht] [v Hv]].
  apply Forall_inv_tail in HF. cbn [weightedSum]. rewrite Ht, Hv.
  destruct rest as [|next rest'].
  - apply IH. assumption.
  - pose proof (Forall_inv HF) as [[t1 Ht1] _]. rewrite Ht1.
    apply IH. assumption.
Qed.

Lemma calculateTwap_Some (series : list (BalanceItem Qc)) (a c : Qc) :
  Forall has_value series -> exists v, calculateTwap series a c = Some v.
Proof.
  intros HF. rewrite calculateTwap_weighted. unfold twapBy.
  destruct (weightedSum_Some c (filter (selected a c) series)) with (acc := 0)
    as [r Hr].
  - rewrite Forall_forall in *. intros sample Hin. apply filter_In in Hin.
    destruct Hin as [Hin Hsel]. split; [| apply HF; assumption].
    apply (selected_timestamp a c). assumption.
  - change (num_of_Z 0) with (Q2Qc 0). rewrite Hr. eexists. reflexivity.
Qed.

Lemma addFirstBalance_has_value (series : list (BalanceItem Qc)) (S : Qc) :
  series <> [] -> Forall has_value series ->
  Forall has_value (addFirstBalance series S).
Proof.
  intros Hne HF.
  destruct (addFirstBalance_shape series S)
    as (before & later & Hseries & _ & _ & Hrun).
  rewrite Hrun. rewrite Hseries in HF. apply Forall_app in HF.
  destruct HF as [HFb HFl].
  apply Forall_app. split; [assumption |]. constructor; [| assumption].
  destruct (nil_or_snoc before) as [-> | (before' & prev & ->)].
  - destruct later as [|next later'].
    + rewrite Hseries in Hne. contradiction Hne. reflexivity.
    + exists 0. reflexivity.
  - apply Forall_app in HFb. destruct HFb as [_ HFp].
    apply Forall_inv in HFp. destruct HFp as [v Hv].
    exists v. rewrite last_opt_app.
    destruct before', later; cbn [app withTimestamp value]; exact Hv.
Qed.

Lemma addFirstBalance_nonempty (series : list (BalanceItem Qc)) (S : Qc) :
  addFirstBalance series S <> [].
Proof.
  destruct (addFirstBalance_shape series S) as (before & later & _ & _ & _ & ->).
  destruct before; discriminate.
Qed.

(** Seeding at [S] leaves the samples selected for a window that ends at or
    before [S] as they were. *)
Lemma addFirstBalance_earlier_window (series : list (BalanceItem Qc)) (S x y : Qc) :
  y <= S ->
  filter (selected x y) (addFirstBalance series S) = filter (selected x y) series.
Proof.
  intros HyS.
  destruct (addFirstBalance_shape series S)
    as (before & later & Hseries & _ & _ & Hrun).
  rewrite Hrun, Hseries. apply filter_app_drop.
  assert (Hts : timestamp (match before, later with
                           | [], _ :: _ => zeroItem S
                           | _, _ => withTimestamp (last_opt before) S
                           end) = Some S).
  { destruct before, later; try reflexivity;
      cbn [withTimestamp]; destruct (last_opt _); reflexivity. }
  apply (selected_false x y _ S Hts). intros (_ & _ & HSy). qc_order.
Qed.

Lemma addFirstBalance_has_seed (series : list (BalanceItem Qc)) (S : Qc) :
  exists seed, In seed (addFirstBalance series S) /\ timestamp seed = Some S.
Proof.
  destruct (addFirstBalance_shape series S)
    as (before & later & Hseries & _ & _ & Hrun).
  rewrite Hrun. eexists. split; [apply in_or_app; right; left; reflexivity |].
  destruct before, later; try reflexivity;
    cbn [withTimestamp]; destruct (last_opt _); reflexivity.
Qed.

(** The interval loop over [n] whole intervals: it ends, it records one TWAP
    per interval, and the recorded TWAPs, each weighted by [interval], add up
    to the integral of the final series over the whole range. *)
Lemma intervalTwaps_exact (interval : Qc) :
  0 < interval ->
  forall (n fuel : nat) (series : list (BalanceItem Qc))
         (startTimestamp toTimestamp : Qc),
    (n < fuel)%nat -> 0 < startTimestamp -> seriesSorted series ->
    toTimestamp = startTimestamp + qn n * interval ->
    exists twaps final,
      intervalTwaps fuel series startTimestamp toTimestamp interval
      = Ok (twaps, final) /\
      seriesSorted final /\
      (forall x y, y <= startTimestamp ->
         filter (selected x y) final = filter (selected x y) series) /\
      ((0 < n)%nat ->
       exists sample, In sample final /\ timestamp sample = Some startTimestamp) /\
      map fst twaps
      = map (fun k => startTimestamp + qn k * interval) (seq 0 n) /\
      fold_right js_add (Some 0)
        (map (fun tw : Qc * option Qc => js_mul (snd tw) (Some interval)) twaps)
      = weightedSum toTimestamp
          (filter (selected startTimestamp toTimestamp) final) (Some 0) /\
      (series <> [] -> Forall has_value series ->
       Forall (fun tw : Qc * option Qc => exists v, snd tw = Some v) twaps /\
       Forall has_value final).
Proof.
  intros Hi. induction n as [|n IH];
    intros fuel series start to Hfuel Hstart Hsorted Hto.
  - destruct fuel as [|fuel]; [lia |].
    assert (E : to = start).
    { rewrite Hto. change (Q2Qc (inject_Z (Z.of_nat 0))) with (Q2Qc 0). ring. }
    clear Hto. subst to.
    exists [], series. cbn [intervalTwaps num_ltb exact_number].
    assert (Hnlt : exact_ltb start start = false).
    { destruct (exact_ltb start start) eqn:El; [| reflexivity].
      apply exact_ltb_lt in El. qc_order. }
    rewrite Hnlt. split; [reflexivity |]. split; [assumption |].
    split; [auto |]. split; [lia |]. split; [reflexivity |].
    split; [| auto].
    rewrite selected_empty_window. reflexivity.
  - destruct fuel as [|fuel]; [lia |].
    set (start' := start + interval).
    assert (Hto' : to = start' + qn n * interval).
    { rewrite Hto, qn_S. unfold start'. ring. }
    assert (Hstart' : 0 < start').
    { eapply Qclt_trans; [exact Hstart | apply Qcplus_pos_r; exact Hi]. }
    assert (Hss' : start < start') by (apply Qcplus_pos_r; exact Hi).
    assert (Hs'to : start' <= to).
    { rewrite Hto'. apply Qcplus_nonneg_r.
      apply Qcmult_nonneg; [apply qn_nonneg | apply Qclt_le_weak; exact Hi]. }
    assert (Hlt : exact_ltb start to = true)
      by (apply exact_ltb_lt; qc_order).
    destruct (addFirstBalance_sorted_shape series start Hsorted)
      as (_ & _ & _ & _ & _ & _ & Hsorted1).
    set (series1 := addFirstBalance series start) in *.
    destruct (IH fuel series1 start' to ltac:(lia) Hstart' Hsorted1 Hto')
      as (twaps' & final & Hrun & Hsf & Hinv & Hseed & Hstarts & Hsum & Hvals).
    exists ((start, calculateTwap series1 start start') :: twaps'), final.
    split.
    { cbn [intervalTwaps num_ltb num_add exact_number]. rewrite Hlt.
      fold series1. fold start'. rewrite Hrun. reflexivity. }
    split; [assumption |].
    assert (Hwin : filter (selected start start') final
                   = filter (selected start start') series1)
      by (apply Hinv; apply Qcle_refl).
    split; [| split; [| split; [| split]]].
    + intros x y Hy. rewrite (Hinv x y) by qc_order.
      apply addFirstBalance_earlier_window. assumption.
    + intros _.
      destruct (addFirstBalance_has_seed series start) as (seed & Hin & Hts).
      exists seed. split; [| assumption].
      assert (Hsel : selected start start' seed = true).
      { apply (selected_exact start start' seed start Hts). split; [| split].
        - intros E. rewrite E in Hstart. qc_order.
        - apply Qcle_refl.
        - assumption. }
      assert (Hin' : In seed (filter (selected start start') final)).
      { rewrite Hwin. apply filter_In. split; assumption. }
      apply filter_In in Hin'. apply Hin'.
    + cbn [map fst seq]. rewrite Hstarts. f_equal.
      * cbn beta. change (Q2Qc (inject_Z (Z.of_nat 0))) with (Q2Qc 0). ring.
      * rewrite <- seq_shift, map_map. apply map_ext. intros k.
        rewrite qn_S. unfold start'. ring.
    + cbn [map fold_right snd]. rewrite Hsum.
      assert (Hfirst : js_mul (calculateTwap series1 start start') (Some interval)
                       = weightedSum start'
                           (filter (selected start start') final) (Some 0)).
      { rewrite Hwin. rewrite <- (calculateTwap_times_length series1 start start' Hss').
        do 2 f_equal. unfold start'. ring. }
      rewrite Hfirst.
      destruct n as [|n].
      * assert (E : to = start').
        { rewrite Hto'. change (Q2Qc (inject_Z (Z.of_nat 0))) with (Q2Qc 0). ring. }
        rewrite E, selected_empty_window. cbn [weightedSum].
        apply js_add_zero_r.
      * symmetry. apply integral_split; try assumption.
        -- apply Qclt_le_weak. assumption.
        -- rewrite Hto'. apply Qcplus_pos_r.
           rewrite <- (Qcmult_0_l interval).
           apply Qcmult_lt_compat_r; [assumption | apply qn_pos; lia].
        -- intros E. rewrite E in Hstart'. qc_order.
        -- apply Hseed. lia.
    + intros Hne Hv.
      assert (Hv1 : Forall has_value series1)
        by (apply addFirstBalance_has_value; assumption).
      destruct (Hvals (addFirstBalance_nonempty series start) Hv1) as [Htw Hfin].
      split; [| assumption].
      constructor; [| assumption].
      cbn [snd]. apply calculateTwap_Some. assumption.
Qed.

Lemma weighted_total (interval : Qc) (twaps : list (option Qc)) :
  fold_right js_add (Some 0) (map (fun tw => js_mul tw (Some interval)) twaps)
  = js_mul (fold_right js_add (Some 0) twaps) (Some interval).
Proof.
  induction twaps as [|tw twaps IH]; cbn [map fold_right].
  - cbn [js_mul lift2 num_mul exact_number]. f_equal. ring.
  - rewrite IH. destruct tw as [v|], (fold_right js_add (Some 0) twaps) as [s|];
      try reflexivity.
    cbn [js_add js_mul lift2 num_add num_mul exact_number]. f_equal. ring.
Qed.

Lemma fold_Some (values : list Qc) :
  fold_right js_add (Some 0) (map Some values)
  = Some (fold_right Qcplus 0 values).
Proof.
  induction values as [|v values IH]; cbn [map fold_right]; [reflexivity |].
  rewrite IH. reflexivity.
Qed.

Lemma all_Some (twaps : list (Qc * option Qc)) :
  Forall (fun tw : Qc * option Qc => exists v, snd tw = Some v) twaps ->
  exists values, map snd twaps = map Some values.
Proof.
  induction 1 as [|tw twaps [v Hv] _ [values IH]].
  - exists []. reflexivity.
  - exists (v :: values). cbn [map]. rewrite Hv, IH. reflexivity.
Qed.

End IntervalLoop.

Section IntervalLoopMean.
Import Tvl Main.
Local Open Scope Qc_scope.

(** The whole range is the mean of its intervals, for a range given as any
    number equal to [from + n * interval]. *)
Lemma twapsOfToken_mean_exact :
  forall (series : list (BalanceItem Qc)) (fromTimestamp toTimestamp interval : Qc)
         (n fuel : nat),
    toTimestamp = fromTimestamp + Q2Qc (inject_Z (Z.of_nat n)) * interval ->
    0 < fromTimestamp -> 0 < interval -> (0 < n)%nat -> (n < fuel)%nat ->
    series <> [] ->
    seriesSorted series ->
    Forall (fun sample => exists v, value sample = Some v) series ->
    exists (twaps : list (Qc * option Qc)) (values : list Qc) (all : Qc),
      twapsOfToken fuel series fromTimestamp toTimestamp interval
      = Ok (twaps, Some all) /\
      map fst twaps
      = map (fun k => fromTimestamp + Q2Qc (inject_Z (Z.of_nat k)) * interval)
            (seq 0 n) /\
      map snd twaps = map Some values /\
      all * Q2Qc (inject_Z (Z.of_nat n)) = fold_right Qcplus 0 values.
Proof.
  intros series from to interval n fuel Hto Hfrom Hi Hn Hfuel Hne Hsorted Hvalues.
  destruct (intervalTwaps_exact interval Hi n fuel series from to Hfuel Hfrom
              Hsorted Hto)
    as (twaps & final & Hrun & _ & _ & _ & Hstarts & Hsum & Hvals).
  destruct (Hvals Hne Hvalues) as [Htw Hfin].
  destruct (all_Some twaps Htw) as [values Hvs].
  destruct (calculateTwap_Some final from to Hfin) as [all Hall].
  exists twaps, values, all.
  split; [unfold twapsOfToken; rewrite Hrun, Hall; reflexivity |].
  split; [assumption |]. split; [assumption |].
  assert (Hlen : 0 < Q2Qc (inject_Z (Z.of_nat n)) * interval).
  { rewrite <- (Qcmult_0_l interval).
    apply Qcmult_lt_compat_r; [assumption | apply qn_pos; assumption]. }
  assert (Hlt : from < to) by (rewrite Hto; apply Qcplus_pos_r; exact Hlen).
  pose proof (calculateTwap_times_length final from to Hlt) as Hwhole.
  rewrite <- Hsum, Hall in Hwhole.
  rewrite <- (map_map snd (fun tw => js_mul tw (Some interval))) in Hwhole.
  rewrite weighted_total, Hvs, fold_Some in Hwhole.
  cbn [js_mul lift2 num_mul exact_number] in Hwhole.
  assert (Hw : all * (to - from) = fold_right Qcplus 0 values * interval)
    by congruence.
  assert (Hi0 : interval <> 0).
  { intros E. rewrite E in Hi. qc_order. }
  assert (Hscaled : all * Q2Qc (inject_Z (Z.of_nat n)) * interval
                    = fold_right Qcplus 0 values * interval).
  { rewrite <- Hw, Hto. ring. }
  rewrite <- (Qcdiv_mult_l (all * Q2Qc (inject_Z (Z.of_nat n))) interval Hi0).
  rewrite Hscaled. apply Qcdiv_mult_l. assumption.
Qed.

End IntervalLoopMean.

Section IntervalLoopTheorems.
Import Tvl Main.
Local Open Scope Qc_scope.

(** In exact arithmetic, when the range [[from, to)] is [n >= 1] whole
    intervals long ([0 < from], [0 < interval]) and the series is non-empty,
    sorted by timestamp and carries a value on every sample: the loop of
    [main] ends, records one TWAP for each of the intervals starting at
    [from + k * interval], [k < n], and the TWAP over the whole range,
    computed after the loop on the series the loop has seeded, is the
    arithmetic mean of the [n] interval TWAPs. *)
Theorem twapsOfToken_all_is_mean_of_intervals :
  forall (series : list (BalanceItem Qc)) (fromTimestamp interval : Qc)
         (n fuel : nat),
    0 < fromTimestamp -> 0 < interval -> (0 < n)%nat -> (n < fuel)%nat ->
    series <> [] ->
    seriesSorted series ->
    Forall (fun sample => exists v, value sample = Some v) series ->
    exists (twaps : list (Qc * option Qc)) (values : list Qc) (all : Qc),
      twapsOfToken fuel series fromTimestamp
        (fromTimestamp + Q2Qc (inject_Z (Z.of_nat n)) * interval) interval
      = Ok (twaps, Some all) /\
      map fst twaps
      = map (fun k => fromTimestamp + Q2Qc (inject_Z (Z.of_nat k)) * interval)
            (seq 0 n) /\
      map snd twaps = map Some values /\
      all * Q2Qc (inject_Z (Z.of_nat n)) = fold_right Qcplus 0 values.
Proof.
  intros series fromTimestamp interval n fuel.
  apply twapsOfToken_mean_exact. reflexivity.
Qed.

(** In exact arithmetic, an interval that is not positive makes the loop run
    for ever once [from < to]: [startTimestamp] never reaches
    [toTimestamp]. *)
Theorem intervalTwaps_never_ends_without_positive_interval :
  forall (series : list (BalanceItem Qc)) (fromTimestamp toTimestamp interval : Qc),
    fromTimestamp < toTimestamp -> interval <= 0 ->
    forall fuel,
      intervalTwaps fuel series fromTimestamp toTimestamp interval = OutOfFuel.
Proof.
  intros series from to interval Hlt Hi fuel. revert series from Hlt.
  induction fuel as [|fuel IH]; intros series from Hlt; [reflexivity |].
  cbn [intervalTwaps num_ltb num_add exact_number].
  rewrite (proj2 (exact_ltb_lt _ _) Hlt).
  rewrite IH; [reflexivity |].
  eapply Qcle_lt_trans; [| exact Hlt].
  apply Qcle_minus_iff. replace (from + - (from + interval)) with (- interval) by ring.
  apply Qcopp_le_compat in Hi. exact Hi.
Qed.

End IntervalLoopTheorems.

Section TwapMoreExamples.
Import Tvl Main.

(** Samples at 1000, 1500 and 1800, windows [[1000, 1500)] and
    [[1500, 2000)]. *)
Lemma calculateTwap_adds_over_adjacent_windows_witness :
  let series :=
    [sampleAt (Q2Qc 1000) (Q2Qc (1 # 10)); sampleAt (Q2Qc 1500) (Q2Qc (3 # 10));
     sampleAt (Q2Qc 1800) (Q2Qc (2 # 10))] in
  js_mul (calculateTwap series (Q2Qc 1000) (Q2Qc 2000))
         (Some (Q2Qc 2000 - Q2Qc 1000)%Qc)
  = js_add (js_mul (calculateTwap series (Q2Qc 1000) (Q2Qc 1500))
                   (Some (Q2Qc 1500 - Q2Qc 1000)%Qc))
           (js_mul (calculateTwap series (Q2Qc 1500) (Q2Qc 2000))
                   (Some (Q2Qc 2000 - Q2Qc 1500)%Qc)).
Proof.
  apply (calculateTwap_adds_over_adjacent_windows
           [sampleAt (Q2Qc 1000) (Q2Qc (1 # 10));
            sampleAt (Q2Qc 1500) (Q2Qc (3 # 10));
            sampleAt (Q2Qc 1800) (Q2Qc (2 # 10))]
           (Q2Qc 1000) (Q2Qc 1500) (Q2Qc 2000)).
  - reflexivity.
  - reflexivity.
  - discriminate.
  - repeat constructor.
  - eexists. split; [right; left; reflexivity | reflexivity].
Defined.

(** Values 1/10 and 3/10 over [[1000, 2000)]: the TWAP lies between them. *)
Lemma calculateTwap_between_extreme_values_witness :
  exists twap,
    calculateTwap
      [sampleAt (Q2Qc 1000) (Q2Qc (1 # 10)); sampleAt (Q2Qc 1500) (Q2Qc (3 # 10))]
      (Q2Qc 1000) (Q2Qc 2000) = Some twap /\
    (Q2Qc (1 # 10) <= twap <= Q2Qc (3 # 10))%Qc.
Proof.
  apply (calculateTwap_between_extreme_values
           [sampleAt (Q2Qc 1000) (Q2Qc (1 # 10));
            sampleAt (Q2Qc 1500) (Q2Qc (3 # 10))]
           (Q2Qc 1000) (Q2Qc 2000) (Q2Qc (1 # 10)) (Q2Qc (3 # 10))).
  - reflexivity.
  - discriminate.
  - repeat constructor.
  - eexists. split; [left; reflexivity | reflexivity].
  - intros sample [<- | [<- | []]] _; eexists;
      (split; [reflexivity | split; discriminate]).
Defined.

(** Seeding at 1700 a series with samples at 1000 and 1500 leaves the TWAP
    over [[1000, 2000)] as it was. *)
Lemma calculateTwap_unchanged_by_seeding_inside_witness :
  let series :=
    [sampleAt (Q2Qc 1000) (Q2Qc (1 # 10)); sampleAt (Q2Qc 1500) (Q2Qc (3 # 10))] in
  calculateTwap (addFirstBalance series (Q2Qc 1700)) (Q2Qc 1000) (Q2Qc 2000)
  = calculateTwap series (Q2Qc 1000) (Q2Qc 2000).
Proof.
  apply (calculateTwap_unchanged_by_seeding_inside
           [sampleAt (Q2Qc 1000) (Q2Qc (1 # 10));
            sampleAt (Q2Qc 1500) (Q2Qc (3 # 10))]
           (Q2Qc 1000) (Q2Qc 2000) (Q2Qc 1700)).
  - reflexivity.
  - repeat constructor.
  - exists (sampleAt (Q2Qc 1000) (Q2Qc (1 # 10))), (Q2Qc 1000).
    split; [left; reflexivity |]. split; [reflexivity |].
    split; discriminate.
Defined.

(** Two intervals of 500 from 1000, on samples at 1000 and 1200. *)
Lemma twapsOfToken_all_is_mean_of_intervals_witness :
  exists (twaps : list (Qc * option Qc)) (values : list Qc) (all : Qc),
    twapsOfToken 3
      [sampleAt (Q2Qc 1000) (Q2Qc (1 # 10)); sampleAt (Q2Qc 1200) (Q2Qc (3 # 10))]
      (Q2Qc 1000)
      (Q2Qc 1000 + Q2Qc (inject_Z (Z.of_nat 2)) * Q2Qc 500)%Qc (Q2Qc 500)
    = Ok (twaps, Some all) /\
    map fst twaps
    = map (fun k => (Q2Qc 1000 + Q2Qc (inject_Z (Z.of_nat k)) * Q2Qc 500)%Qc)
          (seq 0 2) /\
    map snd twaps = map Some values /\
    (all * Q2Qc (inject_Z (Z.of_nat 2)))%Qc = fold_right Qcplus (Q2Qc 0) values.
Proof.
  apply (twapsOfToken_all_is_mean_of_intervals
           [sampleAt (Q2Qc 1000) (Q2Qc (1 # 10));
            sampleAt (Q2Qc 1200) (Q2Qc (3 # 10))]
           (Q2Qc 1000) (Q2Qc 500) 2 3).
  - reflexivity.
  - reflexivity.
  - lia.
  - lia.
  - discriminate.
  - repeat constructor.
  - repeat constructor; eexists; reflexivity.
Defined.

(** An interval of -3600 over [[1000, 2000)]. *)
Lemma intervalTwaps_never_ends_without_positive_interval_witness :
  intervalTwaps 50
    [sampleAt (Q2Qc 1000) (Q2Qc (1 # 10))]
    (Q2Qc 1000) (Q2Qc 2000) (Q2Qc (- 3600 # 1)) = OutOfFuel.
Proof.
  apply (intervalTwaps_never_ends_without_positive_interval
           [sampleAt (Q2Qc 1000) (Q2Qc (1 # 10))]
           (Q2Qc 1000) (Q2Qc 2000) (Q2Qc (- 3600 # 1))).
  - reflexivity.
  - discriminate.
Defined.

End TwapMoreExamples.

(* ================================================================== *)
(** * The steps of [main]: scaling, timestamps, prices *)
(* ================================================================== *)

Section Scaling.
Import Main.

Lemma pow10_pos (k : Z) : 0 <= k -> 0 < 10 ^ k.
Proof. intros Hk. apply Z.pow_pos_nonneg; lia. Qed.

Lemma Q2Qc_inject_mult (a b : Z) :
  Q2Qc (inject_Z (a * b)) = (Q2Qc (inject_Z a) * Q2Qc (inject_Z b))%Qc.
Proof.
  rewrite inject_Z_mult. unfold Qcmult. apply Q2Qc_eq_iff.
  cbn [this Q2Qc]. rewrite !Qred_correct. reflexivity.
Qed.

Lemma Q2Qc_inject_nonzero (a : Z) : a <> 0 -> Q2Qc (inject_Z a) <> Q2Qc 0.
Proof.
  intros Ha E. apply Q2Qc_eq_iff in E. unfold Qeq in E. cbn in E. lia.
Qed.

(** For a token with at most 18 decimals the scaling loses nothing: the big
    integer handed to [fromWei] is [rawBalance * 10^(18 - decimals)], and the
    number [fromWei] writes, times [10^decimals], is [rawBalance]. *)
Theorem scaledBalance_is_exact_up_to_18_decimals :
  forall rawBalance tokenDecimals : Z,
    0 <= tokenDecimals <= 18 ->
    scaledBalance rawBalance tokenDecimals
    = rawBalance * 10 ^ (18 - tokenDecimals) /\
    (fromWei_exact (scaledBalance rawBalance tokenDecimals)
     * Q2Qc (inject_Z (10 ^ tokenDecimals)))%Qc
    = Q2Qc (inject_Z rawBalance).
Proof.
  intros raw d Hd.
  assert (Hsplit : 10 ^ 18 = 10 ^ (18 - d) * 10 ^ d).
  { rewrite <- Z.pow_add_r by lia. f_equal. lia. }
  pose proof (pow10_pos d ltac:(lia)) as Hpd.
  pose proof (pow10_pos (18 - d) ltac:(lia)) as Hpr.
  assert (Hscaled : scaledBalance raw d = raw * 10 ^ (18 - d)).
  { unfold scaledBalance. rewrite Hsplit, Z.mul_assoc.
    apply Z.quot_mul. lia. }
  split; [exact Hscaled |].
  rewrite Hscaled. unfold fromWei_exact.
  rewrite Hsplit, !Q2Qc_inject_mult.
  field. split; apply Q2Qc_inject_nonzero; lia.
Qed.

(** For a token with more than 18 decimals the scaling drops the digits
    below [10^-18] of a token, truncating toward zero: the scaled balance is
    [rawBalance] divided by [10^(decimals - 18)], the part dropped is smaller
    than one unit of the result and has the sign of [rawBalance]. *)
Theorem scaledBalance_truncates_beyond_18_decimals :
  forall rawBalance tokenDecimals : Z,
    18 < tokenDecimals ->
    scaledBalance rawBalance tokenDecimals
    = Z.quot rawBalance (10 ^ (tokenDecimals - 18)) /\
    Z.abs (rawBalance
           - scaledBalance rawBalance tokenDecimals * 10 ^ (tokenDecimals - 18))
    < 10 ^ (tokenDecimals - 18) /\
    0 <= (rawBalance
          - scaledBalance rawBalance tokenDecimals * 10 ^ (tokenDecimals - 18))
         * rawBalance.
Proof.
  intros raw d Hd.
  assert (Hsplit : 10 ^ d = 10 ^ (d - 18) * 10 ^ 18).
  { rewrite <- Z.pow_add_r by lia. f_equal. lia. }
  pose proof (pow10_pos (d - 18) ltac:(lia)) as Hpk.
  pose proof (pow10_pos 18 ltac:(lia)) as Hp18.
  assert (Hscaled : scaledBalance raw d = Z.quot raw (10 ^ (d - 18))).
  { unfold scaledBalance. rewrite Hsplit.
    apply Z.quot_mul_cancel_r; lia. }
  split; [exact Hscaled |].
  rewrite Hscaled.
  pose proof (Z.quot_rem' raw (10 ^ (d - 18))) as Hqr.
  assert (Hrem : raw - Z.quot raw (10 ^ (d - 18)) * 10 ^ (d - 18)
                 = Z.rem raw (10 ^ (d - 18))) by lia.
  rewrite Hrem. split.
  - pose proof (Z.rem_bound_abs raw (10 ^ (d - 18)) ltac:(lia)). lia.
  - apply Z.rem_sign_mul. lia.
Qed.

End Scaling.

Section ScalingExamples.
Import Main.

(** USDC has 6 decimals: 1.5 USDC is held as 1500000. *)
Lemma scaledBalance_is_exact_up_to_18_decimals_witness :
  scaledBalance 1500000 6 = 1500000 * 10 ^ (18 - 6) /\
  (fromWei_exact (scaledBalance 1500000 6) * Q2Qc (inject_Z (10 ^ 6)))%Qc
  = Q2Qc (inject_Z 1500000).
Proof.
  apply (scaledBalance_is_exact_up_to_18_decimals 1500000 6). lia.
Defined.

(** A token with 20 decimals: a withdrawal of 199 base units scales to -1. *)
Lemma scaledBalance_truncates_beyond_18_decimals_witness :
  scaledBalance (-199) 20 = Z.quot (-199) (10 ^ (20 - 18)) /\
  Z.abs (-199 - scaledBalance (-199) 20 * 10 ^ (20 - 18)) < 10 ^ (20 - 18) /\
  0 <= (-199 - scaledBalance (-199) 20 * 10 ^ (20 - 18)) * -199.
Proof.
  apply (scaledBalance_truncates_beyond_18_decimals (-199) 20). lia.
Defined.

End ScalingExamples.

Section EvaluationRange.
Import BlockFinder.

Variable requestBlock : BlockId -> Block.
Variable estimateBlocksElapsed : Z -> Z.
Variable estimatedBlock : Block -> Block -> Z -> Z.

(** Lines 192-195 of [main], on a chain whose timestamps strictly increase
    and that holds the bridge's deployment block, for
    [genesis <= fromTimestamp <= toTimestamp]: when [toTimestamp] is not
    before the deployment block's timestamp, both searches return and
    [fromBlock <= toBlock], with [toBlock] between the deployment block and
    the head; when it is before, the script throws. *)
Theorem evaluationBlocks_are_ordered :
  forall (blocks : list Block) (fuel : nat) (fromTimestamp toTimestamp : Z),
    chain_ok requestBlock ->
    cache_valid requestBlock blocks ->
    Bridge.earliestBlock <= number (head requestBlock) ->
    timestamp (block_at requestBlock 0) <= fromTimestamp ->
    fromTimestamp <= toTimestamp ->
    (Z.to_nat (number (head requestBlock)) < fuel)%nat ->
    (timestamp (block_at requestBlock Bridge.earliestBlock) <= toTimestamp ->
     exists fromBlock toBlock blocks',
       Main.evaluationBlocks requestBlock estimateBlocksElapsed estimatedBlock
         fuel fromTimestamp toTimestamp blocks
       = (Ok (fromBlock, toBlock), blocks') /\
       0 <= fromBlock <= toBlock /\
       Bridge.earliestBlock <= toBlock <= number (head requestBlock) /\
       cache_valid requestBlock blocks') /\
    (toTimestamp < timestamp (block_at requestBlock Bridge.earliestBlock) ->
     exists blocks',
       Main.evaluationBlocks requestBlock estimateBlocksElapsed estimatedBlock
         fuel fromTimestamp toTimestamp blocks
       = (Throw "--to timestamp cannot be earlier than L1StandardBridge deployment",
          blocks')).
Proof.
  intros blocks fuel from to Hchain Hv Hdeployed Hgen Hft Hfuel.
  destruct (getBlockForTimestamp_spec requestBlock estimateBlocksElapsed
              estimatedBlock fuel from blocks Hchain Hv Hgen Hfuel)
    as (B1 & blocks1 & Hrun1 & Hv1 & Hl1).
  destruct (getBlockForTimestamp_spec requestBlock estimateBlocksElapsed
              estimatedBlock fuel to blocks1 Hchain Hv1 ltac:(lia) Hfuel)
    as (B2 & blocks2 & Hrun2 & Hv2 & Hl2).
  pose proof (latest_at_or_before_mono requestBlock Hchain from to B1 B2 Hl1 Hl2 Hft)
    as Hmono.
  assert (Hearliest : 0 <= Bridge.earliestBlock <= number (head requestBlock))
    by (unfold Bridge.earliestBlock in *; lia).
  pose proof (on_chain_block_at requestBlock Hchain _ Hearliest) as Hon.
  pose proof (chain_number requestBlock Hchain Bridge.earliestBlock) as Hnum.
  unfold Main.evaluationBlocks, bind. rewrite Hrun1, Hrun2.
  split.
  - intros Hto.
    pose proof (exact_is_latest requestBlock Hchain _ _ Hon eq_refl) as Hle.
    pose proof (latest_at_or_before_mono requestBlock Hchain _ to _ B2 Hle Hl2 Hto)
      as Hge.
    rewrite Hnum in Hge.
    destruct (Z.ltb_spec (number B2) Bridge.earliestBlock) as [Hlt | _]; [lia |].
    exists (number B1), (number B2), blocks2.
    split; [reflexivity |].
    destruct Hl1 as ((R1 & _) & _). destruct Hl2 as ((R2 & _) & _).
    split; [lia |]. split; [lia | assumption].
  - intros Hto.
    destruct (Z.ltb_spec (number B2) Bridge.earliestBlock) as [_ | Hge];
      [exists blocks2; reflexivity |].
    exfalso.
    destruct Hl2 as ((R2 & E2) & Hts2 & _).
    assert (timestamp (block_at requestBlock Bridge.earliestBlock) <= timestamp B2).
    { destruct (Z.eq_dec Bridge.earliestBlock (number B2)) as [E | N].
      - rewrite E, E2. lia.
      - rewrite <- E2. apply Z.lt_le_incl.
        apply (chain_mono requestBlock Hchain); lia. }
    lia.
Qed.

End EvaluationRange.

Section EvaluationRangeExample.
Import BlockFinder.

Lemma example_mainnet_ok : chain_ok Main.example_mainnet.
Proof.
  split; [intros n; reflexivity |].
  split; [unfold head, Main.example_mainnet, Bridge.earliestBlock; cbn [number]; lia |].
  split; [reflexivity |].
  intros m n Hm Hmn Hn. unfold block_at, Main.example_mainnet.
  cbn [timestamp]. lia.
Qed.

(** On the example chain, a range from 10 to 50 blocks after the bridge's
    deployment. *)
Lemma evaluationBlocks_are_ordered_witness :
  exists fromBlock toBlock blocks',
    Main.evaluationBlocks Main.example_mainnet estimateBlocksElapsed_exact
      estimatedBlock_exact (Z.to_nat 20000000)
      (13 * (Bridge.earliestBlock + 10)) (13 * (Bridge.earliestBlock + 50)) []
    = (Ok (fromBlock, toBlock), blocks') /\
    0 <= fromBlock <= toBlock /\
    Bridge.earliestBlock <= toBlock <= number (head Main.example_mainnet) /\
    cache_valid Main.example_mainnet blocks'.
Proof.
  refine (proj1 (evaluationBlocks_are_ordered Main.example_mainnet
                   estimateBlocksElapsed_exact estimatedBlock_exact []
                   (Z.to_nat 20000000)
                   (13 * (Bridge.earliestBlock + 10))
                   (13 * (Bridge.earliestBlock + 50)) _ _ _ _ _ _) _).
  - exact example_mainnet_ok.
  - split; constructor.
  - unfold head, Main.example_mainnet. cbn [number]. lia.
  - unfold block_at, Main.example_mainnet, Bridge.earliestBlock.
    cbn [timestamp]. lia.
  - unfold Bridge.earliestBlock. lia.
  - apply Z2Nat.inj_lt;
      unfold head, Main.example_mainnet, Bridge.earliestBlock; cbn [number]; lia.
  - unfold block_at, Main.example_mainnet, Bridge.earliestBlock.
    cbn [timestamp]. lia.
Defined.

End EvaluationRangeExample.

Lemma Forall2_Forall_r {A B : Type} (R : A -> B -> Prop) (P : A -> Prop)
    (Q : B -> Prop) (l : list A) (l' : list B) :
  Forall2 R l l' -> Forall P l -> (forall x y, R x y -> P x -> Q y) ->
  Forall Q l'.
Proof.
  intros HR HP Hstep. induction HR as [|x y l l' Hxy _ IH]; [constructor |].
  constructor.
  - apply (Hstep x y Hxy). apply (Forall_inv HP).
  - apply IH. apply (Forall_inv_tail HP).
Qed.

Section Annotation.
Import Tvl Main.

Context {num : Type} `{JSNumber num}.

Variable requestBlock : BlockFinder.BlockId -> BlockFinder.Block.
Variable numberOfWei : Z -> num.

Hypothesis Hchain : BlockFinder.chain_ok requestBlock.

(** Integers keep their order when read as numbers. *)
Hypothesis Hmono :
  forall a b : Z, a <= b -> num_leb (num_of_Z a) (num_of_Z b) = true.

(** What the loop body makes of the sample of block [n] with raw balance
    [raw]. *)
Local Abbreviation annotated tokenDecimals fromBlock sample n raw :=
  (mkBalanceItem (Some n%Z) (Some raw%Z)
     (Some (numberOfWei (scaledBalance raw tokenDecimals)))
     (if fromBlock <=? n
      then Some (num_of_Z (BlockFinder.timestamp
                             (BlockFinder.block_at requestBlock n)))
      else None)
     (price sample) (value sample)).

Lemma chain_timestamps_ascend (m n : Z) :
  0 <= m -> m <= n -> n <= BlockFinder.number (BlockFinder.head requestBlock) ->
  BlockFinder.timestamp (BlockFinder.block_at requestBlock m)
  <= BlockFinder.timestamp (BlockFinder.block_at requestBlock n).
Proof.
  intros Hm Hmn Hn. destruct (Z.eq_dec m n) as [-> | Hne]; [lia |].
  apply Z.lt_le_incl. apply (chain_mono requestBlock Hchain); lia.
Qed.

Lemma annotateSeries_run (tokenDecimals fromBlock : Z) :
  forall (series : list (BalanceItem num)) (blocks : list BlockFinder.Block),
    BlockFinder.cache_valid requestBlock blocks ->
    Forall (fun sample =>
              exists n raw,
                blockNumber sample = Some n /\
                0 <= n <= BlockFinder.number (BlockFinder.head requestBlock) /\
                rawBalance sample = Some raw /\ timestamp sample = None)
           series ->
    exists series' blocks',
      annotateSeries requestBlock numberOfWei tokenDecimals fromBlock series blocks
      = (Ok series', blocks') /\
      BlockFinder.cache_valid requestBlock blocks' /\
      incl blocks blocks' /\
      Forall2 (fun sample result =>
                 exists n raw,
                   blockNumber sample = Some n /\ rawBalance sample = Some raw /\
                   result = annotated tokenDecimals fromBlock sample n raw)
              series series'.
Proof.
  induction series as [|sample rest IH]; intros blocks Hv HF.
  - exists [], blocks. split; [reflexivity |]. split; [assumption |].
    split; [apply incl_refl | constructor].
  - pose proof (Forall_inv HF) as (n & raw & Hn & Hrange & Hraw & Hts).
    apply Forall_inv_tail in HF.
    cbn [annotateSeries]. unfold annotateItem. rewrite Hraw, Hn.
    destruct (Z.leb_spec fromBlock n) as [Hin | Hout].
    + destruct (getBlock_spec requestBlock Hchain n blocks Hv Hrange)
        as (blocks1 & Hget & Hv1 & _ & Hiff1).
      destruct (IH blocks1 Hv1 HF) as (rest' & blocks2 & Hrun & Hv2 & Hincl & HR).
      exists (annotated tokenDecimals fromBlock sample n raw :: rest'), blocks2.
      split.
      { unfold BlockFinder.bind at 1. unfold BlockFinder.bind at 1.
        rewrite Hget. unfold BlockFinder.ret at 1.
        unfold BlockFinder.bind. rewrite Hrun. unfold BlockFinder.ret.
        destruct (Z.leb_spec fromBlock n); [| lia]. reflexivity. }
      split; [assumption |]. split.
      { intros x Hx. apply Hincl, Hiff1. right. assumption. }
      constructor; [| assumption].
      exists n, raw. split; [assumption |]. split; [assumption | reflexivity].
    + destruct (IH blocks Hv HF) as (rest' & blocks2 & Hrun & Hv2 & Hincl & HR).
      exists (annotated tokenDecimals fromBlock sample n raw :: rest'), blocks2.
      split.
      { unfold BlockFinder.bind at 1. unfold BlockFinder.ret at 1.
        unfold BlockFinder.bind. rewrite Hrun. unfold BlockFinder.ret.
        destruct (Z.leb_spec fromBlock n); [lia |]. rewrite Hts. reflexivity. }
      split; [assumption |]. split; [assumption |].
      constructor; [| assumption].
      exists n, raw. split; [assumption |]. split; [assumption | reflexivity].
Qed.

Lemma annotated_sorted (tokenDecimals fromBlock : Z) :
  forall series series' : list (BalanceItem num),
    Forall2 (fun sample result =>
               exists n raw,
                 blockNumber sample = Some n /\ rawBalance sample = Some raw /\
                 result = annotated tokenDecimals fromBlock sample n raw)
            series series' ->
    StronglySorted byBlockNumber series ->
    Forall (fun sample =>
              exists n,
                blockNumber sample = Some n /\
                0 <= n <= BlockFinder.number (BlockFinder.head requestBlock))
           series ->
    seriesSorted series'.
Proof.
  intros series series' HR. induction HR as [|sample result rest rest' Hsr HR IH];
    intros Hsorted Hrange; [constructor |].
  apply StronglySorted_inv in Hsorted. destruct Hsorted as [Hsorted Hall].
  pose proof (Forall_inv Hrange) as (n0 & Hn0 & Hr0).
  apply Forall_inv_tail in Hrange.
  constructor; [apply IH; assumption |].
  destruct Hsr as (n & raw & Hn & _ & ->).
  assert (n0 = n) by congruence. subst n0.
  assert (Hboth : Forall (fun later =>
                            byBlockNumber sample later /\
                            exists m, blockNumber later = Some m /\
                              0 <= m <= BlockFinder.number
                                          (BlockFinder.head requestBlock)) rest).
  { rewrite Forall_forall in *. intros later Hin. split; auto. }
  apply (Forall2_Forall_r _ _ _ rest rest' HR Hboth).
  intros later result' (m & raw' & Hm & _ & ->) (Hle & m' & Hm' & Hrm).
  assert (m' = m) by congruence. subst m'.
  unfold byBlockNumber in Hle. rewrite Hn, Hm in Hle.
  unfold sampleLe. cbn [timestamp].
  destruct (Z.leb_spec fromBlock n) as [Hin | Hout]; [| trivial].
  destruct (Z.leb_spec fromBlock m) as [_ | Hcontra]; [| lia].
  apply Hmono. apply chain_timestamps_ascend; lia.
Qed.

End Annotation.

Section AnnotationSeries.
Import Tvl Main.

Context {num : Type} `{JSNumber num}.

Variable requestBlock : BlockFinder.BlockId -> BlockFinder.Block.
Variable numberOfWei : Z -> num.

(** The loop over one series. *)
Lemma annotateSeries_stamps_and_sorts :
  forall (tokenDecimals fromBlock : Z) (series : list (BalanceItem num))
         (blocks : list BlockFinder.Block),
    BlockFinder.chain_ok requestBlock ->
    (forall a b : Z, a <= b -> num_leb (num_of_Z a) (num_of_Z b) = true) ->
    BlockFinder.cache_valid requestBlock blocks ->
    StronglySorted byBlockNumber series ->
    Forall (fun sample =>
              exists n raw,
                blockNumber sample = Some n /\
                0 <= n <= BlockFinder.number (BlockFinder.head requestBlock) /\
                rawBalance sample = Some raw /\ timestamp sample = None)
           series ->
    exists series' blocks',
      annotateSeries requestBlock numberOfWei tokenDecimals fromBlock series blocks
      = (Ok series', blocks') /\
      BlockFinder.cache_valid requestBlock blocks' /\
      incl blocks blocks' /\
      Forall2 (fun sample result =>
                 exists n raw,
                   blockNumber sample = Some n /\ rawBalance sample = Some raw /\
                   result
                   = mkBalanceItem (Some n) (Some raw)
                       (Some (numberOfWei (scaledBalance raw tokenDecimals)))
                       (if fromBlock <=? n
                        then Some (num_of_Z
                                     (BlockFinder.timestamp
                                        (BlockFinder.block_at requestBlock n)))
                        else None)
                       (price sample) (value sample))
              series series' /\
      seriesSorted series'.
Proof.
  intros tokenDecimals fromBlock series blocks Hchain Hmono Hv Hsorted HF.
  destruct (annotateSeries_run requestBlock numberOfWei Hchain tokenDecimals
              fromBlock series blocks Hv HF)
    as (series' & blocks' & Hrun & Hv' & Hincl & HR).
  exists series', blocks'. split; [assumption |]. split; [assumption |].
  split; [assumption |]. split; [assumption |].
  apply (annotated_sorted requestBlock numberOfWei Hchain Hmono tokenDecimals
           fromBlock series series' HR Hsorted).
  eapply Forall_impl; [| exact HF]. cbn beta.
  intros sample (n & raw & Hn & Hr & _). exists n. auto.
Qed.

End AnnotationSeries.

Section AnnotationTheorem.
Import Tvl Main.

Context {num : Type} `{JSNumber num}.

Variable requestBlock : BlockFinder.BlockId -> BlockFinder.Block.
Variable decimals : String.string -> Z.
Variable numberOfWei : Z -> num.

(** Lines 221-232 of [main] on the series the reconstruction leaves (each
    ascending by block number, every sample with a block of the chain and a
    raw balance, none with a timestamp yet), on a chain whose timestamps
    strictly increase and with integers read as numbers in their order: the
    loops never throw; every sample gets its balance scaled by the decimals
    of its token (18 for the zero address, the contract's answer otherwise);
    the samples at or after [fromBlock], and only they, get the timestamp of
    their block; every series comes out sorted by timestamp, samples without
    one first; and the cache only gains chain blocks. *)
Theorem annotateBalances_stamps_and_sorts :
  forall (fromBlock : Z) (balances : TokenMap (list (BalanceItem num)))
         (blocks : list BlockFinder.Block),
    BlockFinder.chain_ok requestBlock ->
    (forall a b : Z, a <= b -> num_leb (num_of_Z a) (num_of_Z b) = true) ->
    BlockFinder.cache_valid requestBlock blocks ->
    Forall (fun entry : String.string * list (BalanceItem num) =>
              StronglySorted byBlockNumber (snd entry) /\
              Forall (fun sample =>
                        exists n raw,
                          blockNumber sample = Some n /\
                          0 <= n <= BlockFinder.number
                                      (BlockFinder.head requestBlock) /\
                          rawBalance sample = Some raw /\
                          timestamp sample = None)
                     (snd entry))
           balances ->
    exists balances' blocks',
      annotateBalances requestBlock decimals numberOfWei fromBlock balances blocks
      = (Ok balances', blocks') /\
      BlockFinder.cache_valid requestBlock blocks' /\
      incl blocks blocks' /\
      Forall2 (fun entry entry' : String.string * list (BalanceItem num) =>
                 fst entry' = fst entry /\
                 seriesSorted (snd entry') /\
                 Forall2 (fun sample result =>
                            exists n raw,
                              blockNumber sample = Some n /\
                              rawBalance sample = Some raw /\
                              result
                              = mkBalanceItem (Some n) (Some raw)
                                  (Some (numberOfWei
                                           (scaledBalance raw
                                              (if String.eqb (fst entry)
                                                    Bridge.zeroAddress
                                               then 18
                                               else decimals (fst entry)))))
                                  (if fromBlock <=? n
                                   then Some (num_of_Z
                                                (BlockFinder.timestamp
                                                   (BlockFinder.block_at
                                                      requestBlock n)))
                                   else None)
                                  (price sample) (value sample))
                         (snd entry) (snd entry'))
              balances balances'.
Proof.
  intros fromBlock balances blocks Hchain Hmono.
  revert blocks. induction balances as [|[tokenAddress series] rest IH];
    intros blocks Hv HF.
  - exists [], blocks. split; [reflexivity |]. split; [assumption |].
    split; [apply incl_refl | constructor].
  - pose proof (Forall_inv HF) as [Hsorted Hsamples]. cbn [snd] in *.
    apply Forall_inv_tail in HF.
    destruct (annotateSeries_stamps_and_sorts requestBlock numberOfWei
                (getTokenDecimals decimals tokenAddress) fromBlock series blocks
                Hchain Hmono Hv Hsorted Hsamples)
      as (series' & blocks1 & Hrun1 & Hv1 & Hincl1 & HR1 & Hs1).
    destruct (IH blocks1 Hv1 HF) as (rest' & blocks2 & Hrun2 & Hv2 & Hincl2 & HR2).
    exists ((tokenAddress, series') :: rest'), blocks2.
    split.
    { cbn [annotateBalances]. unfold BlockFinder.bind at 1. rewrite Hrun1.
      unfold BlockFinder.bind. rewrite Hrun2. reflexivity. }
    split; [assumption |]. split.
    { intros x Hx. apply Hincl2, Hincl1. assumption. }
    constructor; [| assumption].
    cbn [fst snd]. split; [reflexivity |]. split; [assumption |].
    exact HR1.
Qed.

End AnnotationTheorem.

Section AnnotationExample.
Import Tvl Main.

Lemma exact_of_Z_mono (a b : Z) :
  a <= b -> exact_leb (Q2Qc (inject_Z a)) (Q2Qc (inject_Z b)) = true.
Proof.
  intros Hab. apply exact_leb_le. unfold Qcle. cbn [this Q2Qc].
  rewrite !Qred_correct. unfold Qle. cbn. lia.
Qed.

(** On the three-block example chain, ether samples of blocks 0 and 2, with
    the range starting at block 1. *)
Lemma annotateBalances_stamps_and_sorts_witness :
  let series :=
    [mkBalanceItem (Some 0) (Some 5) None None None None;
     mkBalanceItem (Some 2) (Some 7) None None None None] in
  exists balances' blocks',
    annotateBalances BlockFinder.example_requestBlock (fun _ => 6) fromWei_exact 1
      [(Bridge.zeroAddress, series)] []
    = (Ok balances', blocks') /\
    BlockFinder.cache_valid BlockFinder.example_requestBlock blocks' /\
    incl [] blocks' /\
    Forall2 (fun entry entry' : String.string * list (BalanceItem Qc) =>
               fst entry' = fst entry /\
               seriesSorted (snd entry') /\
               Forall2 (fun sample result =>
                          exists n raw,
                            blockNumber sample = Some n /\
                            rawBalance sample = Some raw /\
                            result
                            = mkBalanceItem (Some n) (Some raw)
                                (Some (fromWei_exact
                                         (scaledBalance raw
                                            (if String.eqb (fst entry)
                                                  Bridge.zeroAddress
                                             then 18 else 6))))
                                (if 1 <=? n
                                 then Some (num_of_Z
                                              (BlockFinder.timestamp
                                                 (BlockFinder.block_at
                                                    BlockFinder.example_requestBlock
                                                    n)))
                                 else None)
                                (price sample) (value sample))
                       (snd entry) (snd entry'))
            [(Bridge.zeroAddress, series)] balances'.
Proof.
  refine (@annotateBalances_stamps_and_sorts Qc exact_number
            BlockFinder.example_requestBlock (fun _ => 6) fromWei_exact 1
            [(Bridge.zeroAddress,
              [mkBalanceItem (Some 0) (Some 5) None None None None;
               mkBalanceItem (Some 2) (Some 7) None None None None])] []
            _ _ _ _).
  - exact example_chain_ok.
  - exact exact_of_Z_mono.
  - split; constructor.
  - constructor; [| constructor]. cbn [snd]. split.
    + repeat constructor; cbn; lia.
    + repeat constructor; eexists; eexists;
        (split; [reflexivity | split; [cbn; lia | split; reflexivity]]).
Defined.

End AnnotationExample.

(* ================================================================== *)
(** * The steps of [main]: pricing the samples, following the prices *)
(* ================================================================== *)

Section FindIndexMore.
Context {A : Type}.

Lemma findIndex_all_false (p : A -> bool) (l : list A) :
  Forall (fun y => p y = false) l -> findIndex p l = None.
Proof.
  induction 1 as [|y l Hy _ IH]; cbn [findIndex]; [reflexivity |].
  rewrite Hy, IH. reflexivity.
Qed.

Lemma findIndex_in_range (p : A -> bool) (l : list A) (i : nat) :
  findIndex p l = Some i -> (i < length l)%nat.
Proof.
  intros Hf. destruct (findIndex_Some p l i Hf) as (pre & x & post & -> & <- & _).
  rewrite length_app. cbn [length]. lia.
Qed.

End FindIndexMore.

Section Pricing.
Import Tvl Main.

Context {num : Type} `{JSNumber num}.

(** With at least one price point, the lookup throws exactly for a timestamp
    before the first point; a sample without a timestamp gets the last
    price. *)
Lemma getCoingeckoPriceAt_nonempty (tokenPrices : TokenMap (list (num * num)))
    (tokenAddress : String.string) (firstPrice : num * num)
    (morePrices : list (num * num)) (ts : option num) :
  lookup tokenAddress tokenPrices = Some (firstPrice :: morePrices) ->
  if js_gt (Some (pointTime firstPrice)) ts
  then exists msg, getCoingeckoPriceAt tokenPrices tokenAddress ts = Throw msg
  else exists p,
         getCoingeckoPriceAt tokenPrices tokenAddress ts = Ok p /\
         (ts = None -> p = snd (last morePrices firstPrice)).
Proof.
  intros Hlookup. unfold getCoingeckoPriceAt. rewrite Hlookup.
  cbn [findIndex]. fold (pointTime firstPrice).
  destruct (js_gt (Some (pointTime firstPrice)) ts) eqn:Efirst.
  - eexists. reflexivity.
  - destruct (findIndex _ morePrices) as [j|] eqn:Efind; cbn [option_map].
    + pose proof (findIndex_in_range _ _ _ Efind) as Hj.
      destruct (nth_error (firstPrice :: morePrices) j) as [timestampPrice|] eqn:En.
      * exists (snd timestampPrice). split; [reflexivity |].
        intros ->. destruct (findIndex_Some _ _ _ Efind) as (pre & x & post & _ & _ & Hx & _).
        discriminate.
      * apply nth_error_None in En. cbn [length] in En. lia.
    + cbn [last_opt]. eexists. split; reflexivity.
Qed.

End Pricing.

Section PricingLoop.
Import Tvl Main.

Context {num : Type} `{JSNumber num}.

Variable tokenPrices : TokenMap (list (num * num)).
Variable tokenAddress : String.string.
Variable firstPrice : num * num.
Variable morePrices : list (num * num).
Hypothesis Hlookup :
  lookup tokenAddress tokenPrices = Some (firstPrice :: morePrices).

Lemma priceSeries_ok (series : list (BalanceItem num)) :
  Forall (fun sample =>
            js_gt (Some (pointTime firstPrice)) (timestamp sample) = false)
         series ->
  exists series',
    priceSeries tokenPrices tokenAddress series = Ok series' /\
    Forall2 (fun sample priced =>
               exists p,
                 getCoingeckoPriceAt tokenPrices tokenAddress (timestamp sample)
                 = Ok p /\
                 (timestamp sample = None ->
                  p = snd (last morePrices firstPrice)) /\
                 priced
                 = mkBalanceItem (blockNumber sample) (rawBalance sample)
                     (tokenBalance sample) (timestamp sample) (Some p)
                     (js_mul (tokenBalance sample) (Some p)))
            series series'.
Proof.
  induction series as [|sample rest IH]; intros HF.
  - exists []. split; [reflexivity | constructor].
  - pose proof (Forall_inv HF) as Hsample. apply Forall_inv_tail in HF.
    destruct (IH HF) as (rest' & Hrest & HR).
    pose proof (getCoingeckoPriceAt_nonempty tokenPrices tokenAddress firstPrice
                  morePrices (timestamp sample) Hlookup) as Hprice.
    rewrite Hsample in Hprice. destruct Hprice as (p & Hp & Hlast).
    eexists. split.
    + cbn [priceSeries]. unfold priceItem. rewrite Hp, Hrest. reflexivity.
    + constructor; [| assumption]. exists p. auto.
Qed.

Lemma priceSeries_throws (series : list (BalanceItem num)) :
  Exists (fun sample =>
            js_gt (Some (pointTime firstPrice)) (timestamp sample) = true)
         series ->
  exists msg, priceSeries tokenPrices tokenAddress series = Throw msg.
Proof.
  induction series as [|sample rest IH]; intros HE; [inversion HE |].
  pose proof (getCoingeckoPriceAt_nonempty tokenPrices tokenAddress firstPrice
                morePrices (timestamp sample) Hlookup) as Hprice.
  cbn [priceSeries]. unfold priceItem.
  destruct (js_gt (Some (pointTime firstPrice)) (timestamp sample)) eqn:Efirst.
  - destruct Hprice as (msg & ->). eexists. reflexivity.
  - destruct Hprice as (p & -> & _).
    destruct IH as (msg & ->).
    + inversion HE as [? ? Hhere | ? ? Hthere]; subst; [congruence | assumption].
    + eexists. reflexivity.
Qed.

End PricingLoop.

Section PricingTheorem.
Import Tvl Main.

Context {num : Type} `{JSNumber num}.

(** Lines 257-260 of [main] with at least one price point for the token: the
    loop throws exactly when some sample carries a timestamp earlier than the
    first price point.  Otherwise every sample gets the price
    [getCoingeckoPriceAt] finds for its timestamp and the value
    [tokenBalance * price], its other fields unchanged; a sample without a
    timestamp gets the last price. *)
Theorem priceSeries_fails_only_before_first_price :
  forall (tokenPrices : TokenMap (list (num * num)))
         (tokenAddress : String.string) (firstPrice : num * num)
         (morePrices : list (num * num)) (series : list (BalanceItem num)),
    lookup tokenAddress tokenPrices = Some (firstPrice :: morePrices) ->
    (Forall (fun sample =>
               js_gt (Some (pointTime firstPrice)) (timestamp sample) = false)
            series ->
     exists series',
       priceSeries tokenPrices tokenAddress series = Ok series' /\
       Forall2 (fun sample priced =>
                  exists p,
                    getCoingeckoPriceAt tokenPrices tokenAddress (timestamp sample)
                    = Ok p /\
                    (timestamp sample = None ->
                     p = snd (last morePrices firstPrice)) /\
                    priced
                    = mkBalanceItem (blockNumber sample) (rawBalance sample)
                        (tokenBalance sample) (timestamp sample) (Some p)
                        (js_mul (tokenBalance sample) (Some p)))
               series series') /\
    (Exists (fun sample =>
               js_gt (Some (pointTime firstPrice)) (timestamp sample) = true)
            series ->
     exists msg, priceSeries tokenPrices tokenAddress series = Throw msg).
Proof.
  intros tokenPrices tokenAddress firstPrice morePrices series Hlookup.
  split.
  - apply (priceSeries_ok tokenPrices tokenAddress firstPrice morePrices Hlookup).
  - apply (priceSeries_throws tokenPrices tokenAddress firstPrice morePrices
             Hlookup).
Qed.

End PricingTheorem.

Section PriceUpdates.
Import Tvl Main.

Context {num : Type} `{JSNumber num}.

(** The two outcomes of [insertPriceUpdate] on any array. *)
Lemma insertPriceUpdate_shape (series : list (BalanceItem num))
    (timestampPrice : num * num) :
  (Forall (fun sample =>
             js_lt (timestamp sample) (Some (pointTime timestampPrice)) = false)
          series /\
   insertPriceUpdate series timestampPrice
   = Throw "TypeError: reading tokenBalance of undefined")
  \/
  (exists before previous later,
     series = before ++ previous :: later /\
     js_lt (timestamp previous) (Some (pointTime timestampPrice)) = true /\
     Forall (fun sample =>
               js_lt (timestamp sample) (Some (pointTime timestampPrice)) = false)
            later /\
     insertPriceUpdate series timestampPrice
     = Ok (before ++ previous :: updatedValue previous timestampPrice :: later)).
Proof.
  unfold insertPriceUpdate.
  destruct (findIndex _ (rev series)) as [j|] eqn:Efind.
  - right.
    destruct (findIndex_Some _ _ _ Efind) as (pre & x & post & Hrev & Hlen & Hx & Hpre).
    assert (Hseries : series = (rev post ++ [x]) ++ rev pre).
    { rewrite <- (rev_involutive series), Hrev, rev_app_distr. reflexivity. }
    exists (rev post), x, (rev pre).
    split; [rewrite Hseries, <- app_assoc; reflexivity |].
    split; [assumption |].
    split; [apply Forall_rev; assumption |].
    assert (Hidx : (length series - 1 - j = length (rev post))%nat).
    { rewrite Hseries, !length_app, !length_rev. cbn [length]. lia. }
    rewrite Hidx. rewrite Hseries at 1. rewrite nth_error_snoc_middle.
    replace (length (rev post) + 1)%nat with (length (rev post ++ [x]))
      by (rewrite length_app; reflexivity).
    rewrite Hseries at 1. rewrite splice_app, <- app_assoc. reflexivity.
  - left. split.
    + rewrite <- (rev_involutive series). apply Forall_rev.
      apply findIndex_None. assumption.
    + assert (Hn : nth_error series (length series) = None)
        by (apply nth_error_None; lia).
      rewrite Hn. reflexivity.
Qed.

End PriceUpdates.

Section PriceUpdateTheorems.
Import Tvl Main.

Context {num : Type} `{JSNumber num}.

(** The body of the price loop on any array: with no sample stamped before
    the price point, reading the previous sample throws; otherwise the new
    sample goes right behind the last sample stamped before the price point,
    with that sample's balance, the point's time and price, and their
    product as value; nothing else changes. *)
Theorem insertPriceUpdate_follows_last_earlier_sample :
  forall (series : list (BalanceItem num)) (timestampPrice : num * num),
    (Forall (fun sample =>
               js_lt (timestamp sample) (Some (pointTime timestampPrice)) = false)
            series ->
     insertPriceUpdate series timestampPrice
     = Throw "TypeError: reading tokenBalance of undefined") /\
    (Exists (fun sample =>
               js_lt (timestamp sample) (Some (pointTime timestampPrice)) = true)
            series ->
     exists before previous later,
       series = before ++ previous :: later /\
       js_lt (timestamp previous) (Some (pointTime timestampPrice)) = true /\
       Forall (fun sample =>
                 js_lt (timestamp sample) (Some (pointTime timestampPrice)) = false)
              later /\
       insertPriceUpdate series timestampPrice
       = Ok (before ++ previous
             :: mkBalanceItem None None (tokenBalance previous)
                  (Some (pointTime timestampPrice)) (Some (snd timestampPrice))
                  (js_mul (tokenBalance previous) (Some (snd timestampPrice)))
             :: later)).
Proof.
  intros series timestampPrice.
  destruct (insertPriceUpdate_shape series timestampPrice)
    as [[Hnone Hrun] | (before & previous & later & Hseries & Hprev & Hlater & Hrun)].
  - split; [intros _; assumption |].
    intros HE. apply Exists_exists in HE. destruct HE as (sample & Hin & Hs).
    rewrite Forall_forall in Hnone. rewrite (Hnone sample Hin) in Hs. discriminate.
  - split.
    + intros Hnone. rewrite Forall_forall in Hnone.
      rewrite (Hnone previous) in Hprev; [discriminate |].
      rewrite Hseries. apply in_or_app. right. left. reflexivity.
    + intros _. exists before, previous, later. auto.
Qed.

End PriceUpdateTheorems.

Section SortedPriceUpdates.
Import Tvl Main.

Context {num : Type} `{JSNumberOrder num}.

Lemma num_leb_ltb_trans (a b c : num) :
  num_leb a b = true -> num_ltb b c = true -> num_ltb a c = true.
Proof.
  intros Hab Hbc. destruct (num_ltb a c) eqn:E; [reflexivity | exfalso].
  apply num_leb_total in E.
  pose proof (num_leb_trans _ _ _ E Hab) as Hcb.
  apply num_leb_not_ltb in Hcb. congruence.
Qed.

(** Inserting the sample for a price point keeps a sorted series sorted. *)
Lemma insertPriceUpdate_sorted (series : list (BalanceItem num))
    (timestampPrice : num * num) (series' : list (BalanceItem num)) :
  seriesSorted series ->
  insertPriceUpdate series timestampPrice = Ok series' ->
  seriesSorted series' /\ length series' = S (length series) /\
  incl series series'.
Proof.
  intros Hsorted Hrun.
  destruct (insertPriceUpdate_shape series timestampPrice)
    as [[_ Hthrow] | (before & previous & later & Hseries & Hprev & Hlater & Hok)];
    [congruence |].
  rewrite Hok in Hrun. injection Hrun as <-.
  split; [| split].
  - rewrite Hseries in Hsorted.
    replace (before ++ previous :: updatedValue previous timestampPrice :: later)
      with ((before ++ [previous]) ++ updatedValue previous timestampPrice :: later)
      by (rewrite <- app_assoc; reflexivity).
    replace (before ++ previous :: later) with ((before ++ [previous]) ++ later)
      in Hsorted by (rewrite <- app_assoc; reflexivity).
    unfold js_lt in Hprev.
    destruct (timestamp previous) as [tp|] eqn:Etp; [| discriminate].
    apply StronglySorted_app_iff in Hsorted.
    destruct Hsorted as (Hs1 & Hs2 & Hcross).
    apply StronglySorted_app_iff. split; [assumption |]. split.
    + constructor; [assumption |].
      rewrite Forall_forall in *. intros sample Hin.
      specialize (Hlater sample Hin).
      assert (Hps : sampleLe previous sample).
      { apply Hcross; [apply in_or_app; right; left; reflexivity | assumption]. }
      unfold sampleLe in *. cbn [updatedValue timestamp]. rewrite Etp in Hps.
      destruct (timestamp sample) as [ts|]; [| destruct Hps].
      unfold js_lt in Hlater. apply num_leb_total. assumption.
    + intros a b Ha [<- | Hb]; [| apply Hcross; assumption].
      unfold sampleLe. cbn [updatedValue timestamp].
      destruct (timestamp a) as [ta|] eqn:Eta; [| trivial].
      apply in_app_or in Ha. destruct Ha as [Ha | [<- | []]].
      * apply StronglySorted_app_iff in Hs1. destruct Hs1 as (_ & _ & Hcross1).
        specialize (Hcross1 a previous Ha (or_introl eq_refl)).
        unfold sampleLe in Hcross1. rewrite Eta, Etp in Hcross1.
        apply num_ltb_leb. eapply num_leb_ltb_trans; eassumption.
      * assert (ta = tp) by congruence. subst ta.
        apply num_ltb_leb. assumption.
  - rewrite Hseries, !length_app. cbn [length]. lia.
  - rewrite Hseries. intros x Hx. apply in_app_or in Hx.
    apply in_or_app. destruct Hx as [Hx | [<- | Hx]]; [left; assumption | |].
    + right. left. reflexivity.
    + right. right. right. assumption.
Qed.

End SortedPriceUpdates.

Section SortedPriceLoop.
Import Tvl Main.

Context {num : Type} `{JSNumberOrder num}.

(** The price loop on a seeded sorted series, with a property [P] of samples
    that the new samples inherit from the sample before them. *)
Lemma updatePrices_run (P : BalanceItem num -> Prop)
    (fromTimestamp toTimestamp : num) :
  (forall previous timestampPrice,
     P previous -> P (updatedValue previous timestampPrice)) ->
  forall (prices : list (num * num)) (series : list (BalanceItem num)),
    seriesSorted series ->
    Forall P series ->
    (exists seed t0,
       In seed series /\ timestamp seed = Some t0 /\
       num_leb t0 fromTimestamp = true) ->
    exists series',
      updatePrices fromTimestamp toTimestamp series prices = Ok series' /\
      seriesSorted series' /\
      Forall P series' /\
      incl series series' /\
      length series'
      = (length series
         + length (filter (fun timestampPrice =>
                             num_ltb fromTimestamp (pointTime timestampPrice)
                             && num_ltb (pointTime timestampPrice) toTimestamp)
                          prices))%nat.
Proof.
  intros Hkeep.
  induction prices as [|timestampPrice rest IH]; intros series Hsorted HP Hseed.
  - exists series. split; [reflexivity |]. split; [assumption |].
    split; [assumption |]. split; [apply incl_refl |]. cbn [filter length]. lia.
  - cbn [updatePrices filter].
    destruct (num_ltb fromTimestamp (pointTime timestampPrice)
              && num_ltb (pointTime timestampPrice) toTimestamp) eqn:Ein.
    + apply andb_prop in Ein. destruct Ein as [Hafter _].
      destruct Hseed as (seed & t0 & Hin & Hts & Hle).
      assert (Hearlier : js_lt (timestamp seed) (Some (pointTime timestampPrice))
                         = true).
      { rewrite Hts. cbn [js_lt]. eapply num_leb_ltb_trans; eassumption. }
      destruct (insertPriceUpdate_shape series timestampPrice)
        as [[Hnone _] | (before & previous & later & Hseries & _ & _ & Hok)].
      { rewrite Forall_forall in Hnone. rewrite (Hnone seed Hin) in Hearlier.
        discriminate. }
      rewrite Hok.
      destruct (insertPriceUpdate_sorted series timestampPrice _ Hsorted Hok)
        as (Hsorted1 & Hlen1 & Hincl1).
      assert (HP1 : Forall P (before ++ previous
                              :: updatedValue previous timestampPrice :: later)).
      { rewrite Hseries in HP. apply Forall_app in HP. destruct HP as [HPb HPl].
        apply Forall_app. split; [assumption |].
        constructor; [apply (Forall_inv HPl) |].
        constructor; [apply Hkeep, (Forall_inv HPl) |].
        apply (Forall_inv_tail HPl). }
      destruct (IH _ Hsorted1 HP1) as (series' & Hrun & Hs' & HP' & Hincl' & Hlen').
      { exists seed, t0. split; [apply Hincl1; assumption | auto]. }
      exists series'. split; [assumption |]. split; [assumption |].
      split; [assumption |]. split.
      * intros x Hx. apply Hincl', Hincl1. assumption.
      * rewrite Hlen', Hlen1. cbn [length]. lia.
    + destruct (IH series Hsorted HP Hseed)
        as (series' & Hrun & Hs' & HP' & Hincl' & Hlen').
      exists series'. auto.
Qed.

End SortedPriceLoop.

Section SortedPriceUpdatesTheorem.
Import Tvl Main.

Context {num : Type} `{JSNumberOrder num}.

(** Lines 265-279 of [main] for one token, in any arithmetic whose
    comparisons form a total order: on a series sorted by timestamp that
    holds a sample stamped at or before [fromTimestamp] (the seed of line
    236), the price loop never throws, adds exactly one sample for each price
    point strictly inside [(fromTimestamp, toTimestamp)], keeps every sample
    that was there, and leaves the series sorted by timestamp. *)
Theorem updatePrices_keeps_seeded_series_sorted :
  forall (fromTimestamp toTimestamp : num) (prices : list (num * num))
         (series : list (BalanceItem num)),
    seriesSorted series ->
    (exists seed t0,
       In seed series /\ timestamp seed = Some t0 /\
       num_leb t0 fromTimestamp = true) ->
    exists series',
      updatePrices fromTimestamp toTimestamp series prices = Ok series' /\
      seriesSorted series' /\
      incl series series' /\
      length series'
      = (length series
         + length (filter (fun timestampPrice =>
                             num_ltb fromTimestamp (pointTime timestampPrice)
                             && num_ltb (pointTime timestampPrice) toTimestamp)
                          prices))%nat.
Proof.
  intros from to prices series Hsorted Hseed.
  destruct (updatePrices_run (fun _ => True) from to (fun _ _ _ => I) prices
              series Hsorted) as (series' & Hrun & Hs' & _ & Hincl & Hlen);
    [rewrite Forall_forall; trivial | assumption |].
  exists series'. auto.
Qed.

End SortedPriceUpdatesTheorem.

Section ValuedSeries.
Import Tvl Main.

Context {num : Type} `{JSNumberOrder num}.

Lemma addFirstBalance_has_balance (series : list (BalanceItem num)) (S : num) :
  series <> [] ->
  Forall (fun sample => exists b, tokenBalance sample = Some b) series ->
  Forall (fun sample => exists b, tokenBalance sample = Some b)
         (addFirstBalance series S).
Proof.
  intros Hne HF.
  destruct (addFirstBalance_shape series S)
    as (before & later & Hseries & _ & _ & Hrun).
  rewrite Hrun. rewrite Hseries in HF. apply Forall_app in HF.
  destruct HF as [HFb HFl].
  apply Forall_app. split; [assumption |]. constructor; [| assumption].
  destruct (nil_or_snoc before) as [-> | (before' & prev & ->)].
  - destruct later as [|next later'].
    + rewrite Hseries in Hne. contradiction Hne. reflexivity.
    + eexists. reflexivity.
  - apply Forall_app in HFb. destruct HFb as [_ HFp].
    apply Forall_inv in HFp. destruct HFp as [b Hb].
    exists b. rewrite last_opt_app.
    destruct before', later; cbn [app withTimestamp tokenBalance]; exact Hb.
Qed.

Lemma seed_timestamp (before later : list (BalanceItem num)) (S : num) :
  timestamp (match before, later with
             | [], _ :: _ => zeroItem S
             | _, _ => withTimestamp (last_opt before) S
             end) = Some S.
Proof.
  destruct before, later; try reflexivity;
    cbn [withTimestamp]; destruct (last_opt _); reflexivity.
Qed.

Lemma same_timestamps_sorted (series series' : list (BalanceItem num)) :
  Forall2 (fun sample result => timestamp result = timestamp sample)
          series series' ->
  seriesSorted series -> seriesSorted series'.
Proof.
  intros HR. induction HR as [|a a' l l' Ha HR IH]; intros Hs; [constructor |].
  apply StronglySorted_inv in Hs. destruct Hs as [Hs HF].
  constructor; [apply IH; assumption |].
  apply (Forall2_Forall_r _ _ _ l l' HR HF).
  intros x y Hxy Hax. unfold sampleLe in *. rewrite Ha, Hxy. exact Hax.
Qed.

End ValuedSeries.

Section ValuedSeriesTheorem.
Import Tvl Main.

Context {num : Type} `{JSNumberOrder num}.

Local Abbreviation valued :=
  (fun sample : BalanceItem num =>
     exists b p,
       tokenBalance sample = Some b /\ price sample = Some p /\
       value sample = Some (num_mul b p)).

(** Lines 235-280 of [main] for one token, in any arithmetic whose
    comparisons form a total order: on a non-empty series sorted by timestamp
    whose samples all carry a balance, with a first price point that is not
    later than [fromTimestamp] nor than any sample's timestamp, the three
    loops never throw and leave the series sorted by timestamp, with a sample
    exactly at [fromTimestamp] and, on every sample, a balance, a price and
    their product as value: what the aggregation and the integrator take as
    input. *)
Theorem valuedSeries_is_sorted_and_valued :
  forall (tokenPrices : TokenMap (list (num * num)))
         (tokenAddress : String.string) (firstPrice : num * num)
         (morePrices : list (num * num)) (fromTimestamp toTimestamp : num)
         (series : list (BalanceItem num)),
    lookup tokenAddress tokenPrices = Some (firstPrice :: morePrices) ->
    series <> [] ->
    seriesSorted series ->
    Forall (fun sample => exists b, tokenBalance sample = Some b) series ->
    num_leb (pointTime firstPrice) fromTimestamp = true ->
    Forall (fun sample =>
              forall t, timestamp sample = Some t ->
                        num_leb (pointTime firstPrice) t = true) series ->
    exists series',
      valuedSeries tokenPrices tokenAddress fromTimestamp toTimestamp series
      = Ok series' /\
      seriesSorted series' /\
      Forall (fun sample =>
                exists b p,
                  tokenBalance sample = Some b /\ price sample = Some p /\
                  value sample = Some (num_mul b p)) series' /\
      (exists seed, In seed series' /\ timestamp seed = Some fromTimestamp).
Proof.
  intros tokenPrices tokenAddress firstPrice morePrices from to series
         Hlookup Hne Hsorted Hbalances Hfirst Hlater.
  (* the seed *)
  destruct (addFirstBalance_sorted_shape series from Hsorted)
    as (before & later & Hseries & _ & _ & Hrun & Hsorted1).
  pose proof (addFirstBalance_has_balance series from Hne Hbalances) as Hbal1.
  assert (Hlater1 : Forall (fun sample =>
                              js_gt (Some (pointTime firstPrice)) (timestamp sample)
                              = false)
                           (addFirstBalance series from)).
  { assert (Hold : forall sample, In sample series ->
                     js_gt (Some (pointTime firstPrice)) (timestamp sample) = false).
    { intros sample Hin. rewrite Forall_forall in Hlater.
      specialize (Hlater sample Hin). unfold js_gt, js_lt.
      destruct (timestamp sample) as [t|]; [| reflexivity].
      apply num_leb_not_ltb. apply Hlater. reflexivity. }
    rewrite Hrun. apply Forall_app. split.
    - rewrite Forall_forall. intros sample Hin. apply Hold.
      rewrite Hseries. apply in_or_app. left. assumption.
    - constructor.
      + rewrite seed_timestamp. cbn [js_gt js_lt].
        apply num_leb_not_ltb. assumption.
      + rewrite Forall_forall. intros sample Hin. apply Hold.
        rewrite Hseries. apply in_or_app. right. assumption. }
  assert (Hseed1 : exists seed,
            In seed (addFirstBalance series from) /\ timestamp seed = Some from).
  { rewrite Hrun. eexists. split; [apply in_or_app; right; left; reflexivity |].
    apply seed_timestamp. }
  (* the prices *)
  destruct (priceSeries_ok tokenPrices tokenAddress firstPrice morePrices Hlookup
              (addFirstBalance series from) Hlater1) as (priced & Hpriced & HR).
  assert (Hsorted2 : seriesSorted priced).
  { apply (same_timestamps_sorted (addFirstBalance series from)); [| assumption].
    eapply Forall2_impl; [| exact HR]. cbn beta.
    intros sample result (p & _ & _ & ->). reflexivity. }
  assert (Hvalued2 : Forall valued priced).
  { apply (Forall2_Forall_r _ _ _ _ _ HR Hbal1).
    intros sample result (p & _ & _ & ->) [b Hb].
    exists b, p. cbn [tokenBalance price value]. rewrite Hb.
    split; [reflexivity |]. split; reflexivity. }
  assert (Hseed2 : exists seed t0,
            In seed priced /\ timestamp seed = Some t0 /\ num_leb t0 from = true).
  { destruct Hseed1 as (seed & Hin & Hts).
    clear - HR Hin Hts H0. induction HR as [|a a' l l' Ha HR IH]; [destruct Hin |].
    destruct Hin as [<- | Hin].
    - destruct Ha as (p & _ & _ & ->). eexists. exists from.
      split; [left; reflexivity |]. split; [exact Hts | apply num_leb_refl].
    - destruct (IH Hin) as (s & t0 & Hs & Ht & Hle).
      exists s, t0. split; [right; assumption | auto]. }
  (* the price changes *)
  destruct (updatePrices_run valued from to) with (prices := firstPrice :: morePrices)
                                                  (series := priced)
    as (series' & Hrun3 & Hsorted3 & Hvalued3 & Hincl3 & _);
    [| assumption | assumption | assumption |].
  { intros previous timestampPrice (b & p & Hb & _ & _).
    exists b, (snd timestampPrice). cbn [updatedValue tokenBalance price value].
    rewrite Hb. split; [reflexivity |]. split; reflexivity. }
  exists series'. split.
  { unfold valuedSeries. rewrite Hpriced, Hlookup. exact Hrun3. }
  split; [assumption |]. split; [assumption |].
  destruct Hseed1 as (seed & Hin & Hts).
  clear - HR Hin Hts Hincl3. revert Hincl3.
  induction HR as [|a a' l l' Ha HR IH]; intros Hincl3; [destruct Hin |].
  destruct Hin as [<- | Hin].
  - destruct Ha as (p & _ & _ & ->). eexists.
    split; [apply Hincl3; left; reflexivity | exact Hts].
  - apply IH; [assumption |]. intros x Hx. apply Hincl3. right. assumption.
Qed.

End ValuedSeriesTheorem.

Section PricingExamples.
Import Tvl Main.

(** Prices at 1000 s and 2000 s; a sample before the range (no timestamp)
    and one at 1500. *)
Lemma priceSeries_fails_only_before_first_price_witness :
  exists series',
    priceSeries [("A", [(Q2Qc 1000000, Q2Qc 2); (Q2Qc 2000000, Q2Qc 3)])] "A"
      [mkBalanceItem (Some 5) (Some 7) (Some (Q2Qc 7)) None None None;
       mkBalanceItem (Some 9) (Some 8) (Some (Q2Qc 8)) (Some (Q2Qc 1500)) None None]
    = Ok series' /\
    Forall2 (fun sample priced =>
               exists p,
                 getCoingeckoPriceAt
                   [("A", [(Q2Qc 1000000, Q2Qc 2); (Q2Qc 2000000, Q2Qc 3)])] "A"
                   (timestamp sample) = Ok p /\
                 (timestamp sample = None ->
                  p = snd (last [(Q2Qc 2000000, Q2Qc 3)] (Q2Qc 1000000, Q2Qc 2))) /\
                 priced
                 = mkBalanceItem (blockNumber sample) (rawBalance sample)
                     (tokenBalance sample) (timestamp sample) (Some p)
                     (js_mul (tokenBalance sample) (Some p)))
            [mkBalanceItem (Some 5) (Some 7) (Some (Q2Qc 7)) None None None;
             mkBalanceItem (Some 9) (Some 8) (Some (Q2Qc 8)) (Some (Q2Qc 1500))
               None None]
            series'.
Proof.
  refine (proj1 (priceSeries_fails_only_before_first_price
                   [("A", [(Q2Qc 1000000, Q2Qc 2); (Q2Qc 2000000, Q2Qc 3)])] "A"
                   (Q2Qc 1000000, Q2Qc 2) [(Q2Qc 2000000, Q2Qc 3)]
                   [mkBalanceItem (Some 5) (Some 7) (Some (Q2Qc 7)) None None None;
                    mkBalanceItem (Some 9) (Some 8) (Some (Q2Qc 8))
                      (Some (Q2Qc 1500)) None None] _) _).
  - reflexivity.
  - repeat constructor.
Defined.

(** A series seeded at 1000, with price points at 900, 1200 and 1600 seconds
    over the range (1000, 2000). *)
Lemma updatePrices_keeps_seeded_series_sorted_witness :
  exists series',
    updatePrices (Q2Qc 1000) (Q2Qc 2000)
      [sampleAt (Q2Qc 1000) (Q2Qc 5); sampleAt (Q2Qc 1500) (Q2Qc 6)]
      [(Q2Qc 900000, Q2Qc 2); (Q2Qc 1200000, Q2Qc 3); (Q2Qc 1600000, Q2Qc 4)]
    = Ok series' /\
    seriesSorted series' /\
    incl [sampleAt (Q2Qc 1000) (Q2Qc 5); sampleAt (Q2Qc 1500) (Q2Qc 6)] series' /\
    length series'
    = (2 + length (filter (fun timestampPrice =>
                             num_ltb (Q2Qc 1000) (pointTime timestampPrice)
                             && num_ltb (pointTime timestampPrice) (Q2Qc 2000))
                          [(Q2Qc 900000, Q2Qc 2); (Q2Qc 1200000, Q2Qc 3);
                           (Q2Qc 1600000, Q2Qc 4)]))%nat.
Proof.
  apply (updatePrices_keeps_seeded_series_sorted (Q2Qc 1000) (Q2Qc 2000)
           [(Q2Qc 900000, Q2Qc 2); (Q2Qc 1200000, Q2Qc 3); (Q2Qc 1600000, Q2Qc 4)]
           [sampleAt (Q2Qc 1000) (Q2Qc 5); sampleAt (Q2Qc 1500) (Q2Qc 6)]).
  - repeat constructor.
  - exists (sampleAt (Q2Qc 1000) (Q2Qc 5)), (Q2Qc 1000).
    split; [left; reflexivity |]. split; reflexivity.
Defined.

(** One sample at 1100, prices at 900 s and 1200 s, range [1000, 2000). *)
Lemma valuedSeries_is_sorted_and_valued_witness :
  exists series',
    valuedSeries [("A", [(Q2Qc 900000, Q2Qc 2); (Q2Qc 1200000, Q2Qc 3)])] "A"
      (Q2Qc 1000) (Q2Qc 2000)
      [mkBalanceItem (Some 9) (Some 8) (Some (Q2Qc 8)) (Some (Q2Qc 1100)) None None]
    = Ok series' /\
    seriesSorted series' /\
    Forall (fun sample =>
              exists b p,
                tokenBalance sample = Some b /\ price sample = Some p /\
                value sample = Some (num_mul b p)) series' /\
    (exists seed, In seed series' /\ timestamp seed = Some (Q2Qc 1000)).
Proof.
  apply (valuedSeries_is_sorted_and_valued
           [("A", [(Q2Qc 900000, Q2Qc 2); (Q2Qc 1200000, Q2Qc 3)])] "A"
           (Q2Qc 900000, Q2Qc 2) [(Q2Qc 1200000, Q2Qc 3)]
           (Q2Qc 1000) (Q2Qc 2000)
           [mkBalanceItem (Some 9) (Some 8) (Some (Q2Qc 8)) (Some (Q2Qc 1100))
              None None]).
  - reflexivity.
  - discriminate.
  - repeat constructor.
  - repeat constructor. eexists. reflexivity.
  - reflexivity.
  - repeat constructor. intros t E. injection E as <-. reflexivity.
Defined.

End PricingExamples.

(* ================================================================== *)
(** * The "Total" series is fit for the integrator *)
(* ================================================================== *)

Section TotalAscending.
Import Tvl Main.
Local Open Scope Qc_scope.

(** The walk over entries sorted by time emits strictly ascending
    timestamps, the last of them that of the last entry. *)
Lemma addToTotal_walk_ascending :
  forall deltas : list Delta,
    StronglySorted (fun a b => d_time a <= d_time b) deltas ->
    strictlyAscending (fold_left addToTotal (map ofDelta deltas) []) /\
    match last_opt (fold_left addToTotal (map ofDelta deltas) []) with
    | None => deltas = []
    | Some lastTotal =>
        exists earlier lastDelta,
          deltas = earlier ++ [lastDelta] /\
          timestamp lastTotal = Some (d_time lastDelta)
    end.
Proof.
  induction deltas as [|q deltas IH] using rev_ind; intros Hsorted.
  - split; [constructor | reflexivity].
  - apply StronglySorted_app_iff in Hsorted.
    destruct Hsorted as (Hsorted & _ & Hbefore).
    destruct (IH Hsorted) as [Hasc Hlast].
    rewrite map_app, fold_left_app. cbn [map fold_left].
    set (totals := fold_left addToTotal (map ofDelta deltas) []) in *.
    destruct (nil_or_snoc totals) as [E | (totals' & lastTotal & E)]; rewrite E in *.
    + assert (Hstep : addToTotal [] (ofDelta q)
                      = [totalItem (Some (d_time q)) (Some (d_value q))])
        by reflexivity.
      rewrite Hstep. cbn [last_opt]. split.
      * repeat constructor.
      * exists deltas, q. split; reflexivity.
    + rewrite last_opt_app in Hlast.
      destruct Hlast as (earlier & lastDelta & -> & Hts).
      assert (Hle : d_time lastDelta <= d_time q).
      { apply Hbefore; [apply in_or_app; right |]; left; reflexivity. }
      unfold strictlyAscending in Hasc.
      apply StronglySorted_app_iff in Hasc. destruct Hasc as (Hs1 & _ & Hcross).
      destruct (exact_ltb (d_time lastDelta) (d_time q)) eqn:Enew.
      * assert (Hstep : addToTotal (totals' ++ [lastTotal]) (ofDelta q)
                        = (totals' ++ [lastTotal])
                          ++ [totalItem (Some (d_time q))
                                (js_sub (js_add (value lastTotal) (Some (d_value q)))
                                        (Some (d_previous q)))]).
        { unfold addToTotal. rewrite last_opt_app, Hts.
          cbn [ofDelta c_timestamp c_value c_previousValue].
          change (js_lt (Some (d_time lastDelta)) (Some (d_time q)))
            with (exact_ltb (d_time lastDelta) (d_time q)).
          rewrite Enew. reflexivity. }
        rewrite Hstep. split.
        -- unfold strictlyAscending. apply StronglySorted_app_iff.
           split; [apply StronglySorted_app_iff; repeat split;
                   [assumption | repeat constructor | assumption] |].
           split; [repeat constructor |].
           intros a b Ha [<- | []].
           apply in_app_or in Ha. destruct Ha as [Ha | [<- | []]].
           ++ destruct (Hcross a lastTotal Ha (or_introl eq_refl))
                as (ta & tl & Hta & Htl & Hlt).
              exists ta, (d_time q). split; [assumption |].
              split; [reflexivity |].
              assert (tl = d_time lastDelta) by congruence. subst tl.
              cbn [num_ltb exact_number] in *.
              apply exact_ltb_lt in Hlt, Enew. apply exact_ltb_lt.
              eapply Qclt_trans; eassumption.
           ++ exists (d_time lastDelta), (d_time q).
              split; [assumption |]. split; [reflexivity | exact Enew].
        -- rewrite last_opt_app. exists (earlier ++ [lastDelta]), q.
           split; reflexivity.
      * assert (Hstep : addToTotal (totals' ++ [lastTotal]) (ofDelta q)
                        = totals'
                          ++ [withValue lastTotal
                                (js_add (value lastTotal)
                                   (js_sub (Some (d_value q))
                                           (Some (d_previous q))))]).
        { unfold addToTotal. rewrite last_opt_app, Hts.
          cbn [ofDelta c_timestamp c_value c_previousValue].
          change (js_lt (Some (d_time lastDelta)) (Some (d_time q)))
            with (exact_ltb (d_time lastDelta) (d_time q)).
          rewrite Enew, removelast_last. reflexivity. }
        assert (Esame : d_time lastDelta = d_time q).
        { apply Qcle_antisym; [assumption |].
          apply exact_ltb_false_le. exact Enew. }
        rewrite Hstep. split.
        -- unfold strictlyAscending. apply StronglySorted_app_iff.
           split; [assumption |]. split; [repeat constructor |].
           intros a b Ha [<- | []].
           destruct (Hcross a lastTotal Ha (or_introl eq_refl))
             as (ta & tl & Hta & Htl & Hlt).
           exists ta, tl. split; [assumption |]. split; [| assumption].
           cbn [withValue timestamp]. assumption.
        -- rewrite last_opt_app. exists (earlier ++ [lastDelta]), q.
           split; [reflexivity |]. cbn [withValue timestamp].
           rewrite Hts, Esame. reflexivity.
Qed.

End TotalAscending.

Section TotalAscendingTheorem.
Import Tvl Main.
Local Open Scope Qc_scope.

(** In exact arithmetic, for per-asset series that are sorted by timestamp
    and carry a value on every in-range sample, and a positive range start:
    the timestamps of the "Total" series strictly ascend, so no timestamp
    occurs twice, and the series is sorted as [addFirstBalance] and
    [calculateTwap] expect. *)
Theorem totalSeries_is_strictly_ascending :
  forall (balances : TokenMap (list (BalanceItem Qc))) (fromTimestamp : Qc),
    0 < fromTimestamp ->
    Forall (valueSeries fromTimestamp) balances ->
    strictlyAscending (totalSeries fromTimestamp balances) /\
    seriesSorted (totalSeries fromTimestamp balances).
Proof.
  intros balances fromTimestamp Hfrom Hvalid.
  rewrite (totalSeries_sorted_deltas balances fromTimestamp Hfrom Hvalid).
  destruct (addToTotal_walk_ascending _
              (sortBy_time_sorted (deltasOf fromTimestamp balances)))
    as [Hasc _].
  split; [assumption |].
  unfold strictlyAscending in Hasc. unfold seriesSorted.
  induction Hasc as [|a l _ IH HF]; constructor; [assumption |].
  eapply Forall_impl; [| exact HF]. cbn beta.
  intros b (ta & tb & Hta & Htb & Hlt). unfold sampleLe. rewrite Hta, Htb.
  apply num_ltb_leb. assumption.
Qed.

End TotalAscendingTheorem.

Section DefaultRun.
Import Tvl Main.
Local Open Scope Qc_scope.

(** The script run without arguments, in exact arithmetic, at a time [now]
    more than a day after the epoch: the range is the last 86400 seconds, the
    interval is 3600 seconds, the loop records the 24 hourly TWAPs and, on a
    non-empty series sorted by timestamp with a value on every sample, the
    TWAP over the day is their arithmetic mean. *)
Theorem default_run_is_24_hourly_twaps :
  forall (now : Qc) (series : list (BalanceItem Qc)),
    Q2Qc (inject_Z 86400) < now ->
    series <> [] ->
    seriesSorted series ->
    Forall (fun sample => exists v, value sample = Some v) series ->
    resolveArguments None None None now
    = Ok (now - Q2Qc (inject_Z 86400), now, Q2Qc (inject_Z 3600)) /\
    exists (twaps : list (Qc * option Qc)) (values : list Qc) (all : Qc),
      twapsOfToken 25 series (now - Q2Qc (inject_Z 86400)) now
        (Q2Qc (inject_Z 3600))
      = Ok (twaps, Some all) /\
      map fst twaps
      = map (fun k => now - Q2Qc (inject_Z 86400)
                      + Q2Qc (inject_Z (Z.of_nat k)) * Q2Qc (inject_Z 3600))
            (seq 0 24) /\
      map snd twaps = map Some values /\
      all * Q2Qc (inject_Z 24) = fold_right Qcplus 0 values.
Proof.
  intros now series Hnow Hne Hsorted Hvalues.
  assert (Hday : Q2Qc (inject_Z (Z.of_nat 24)) * Q2Qc (inject_Z 3600)
                 = Q2Qc (inject_Z 86400))
    by (apply Qc_is_canon; reflexivity).
  assert (Hrange : forall t : Qc,
            t = t - Q2Qc (inject_Z 86400)
                + Q2Qc (inject_Z (Z.of_nat 24)) * Q2Qc (inject_Z 3600))
    by (intros t; rewrite Hday; ring).
  assert (Hfrom : forall t : Qc,
            Q2Qc (inject_Z 86400) < t -> 0 < t - Q2Qc (inject_Z 86400))
    by (intros t Ht; apply Qclt_minus_iff in Ht; exact Ht).
  split.
  - unfold resolveArguments, orDefault.
    cbn [num_ltb num_sub num_of_Z exact_number].
    assert (E1 : exact_ltb now (now - Q2Qc (inject_Z 86400)) = false).
    { destruct (exact_ltb now (now - Q2Qc (inject_Z 86400))) eqn:E;
        [| reflexivity].
      apply exact_ltb_lt in E. apply Qclt_minus_iff in E.
      replace (now - Q2Qc (inject_Z 86400) + - now)
        with (- Q2Qc (inject_Z 86400)) in E by ring.
      discriminate E. }
    rewrite E1.
    replace (now - (now - Q2Qc (inject_Z 86400))) with (Q2Qc (inject_Z 86400))
      by ring.
    reflexivity.
  - apply (twapsOfToken_mean_exact series (now - Q2Qc (inject_Z 86400)) now
             (Q2Qc (inject_Z 3600)) 24 25 (Hrange now) (Hfrom now Hnow)
             eq_refl); [lia | lia | assumption | assumption | assumption].
Qed.

End DefaultRun.

Section MoreTotalExamples.
Import Tvl Main.

(** Two assets over the range starting at 1000. *)
Lemma totalSeries_is_strictly_ascending_witness :
  let balances :=
    [("A", [sampleAt (Q2Qc 1000) (Q2Qc (1 # 10)); sampleAt (Q2Qc 1200) (Q2Qc (2 # 10))]);
     ("B", [sampleAt (Q2Qc 1000) (Q2Qc 0); sampleAt (Q2Qc 1100) (Q2Qc (3 # 10))])] in
  strictlyAscending (totalSeries (Q2Qc 1000) balances) /\
  seriesSorted (totalSeries (Q2Qc 1000) balances).
Proof.
  apply (totalSeries_is_strictly_ascending
           [("A", [sampleAt (Q2Qc 1000) (Q2Qc (1 # 10));
                   sampleAt (Q2Qc 1200) (Q2Qc (2 # 10))]);
            ("B", [sampleAt (Q2Qc 1000) (Q2Qc 0);
                   sampleAt (Q2Qc 1100) (Q2Qc (3 # 10))])]
           (Q2Qc 1000)).
  - reflexivity.
  - repeat constructor;
      intros sample [<- | [<- | []]] _; eexists; reflexivity.
Defined.

(** A run at time 100000 on a series with one sample, at 5000. *)
Lemma default_run_is_24_hourly_twaps_witness :
  resolveArguments None None None (Q2Qc 100000)
  = Ok ((Q2Qc 100000 - Q2Qc (inject_Z 86400))%Qc, Q2Qc 100000,
        Q2Qc (inject_Z 3600)) /\
  exists (twaps : list (Qc * option Qc)) (values : list Qc) (all : Qc),
    twapsOfToken 25 [sampleAt (Q2Qc 5000) (Q2Qc (1 # 10))]
      (Q2Qc 100000 - Q2Qc (inject_Z 86400))%Qc (Q2Qc 100000)
      (Q2Qc (inject_Z 3600))
    = Ok (twaps, Some all) /\
    map fst twaps
    = map (fun k => (Q2Qc 100000 - Q2Qc (inject_Z 86400)
                     + Q2Qc (inject_Z (Z.of_nat k)) * Q2Qc (inject_Z 3600))%Qc)
          (seq 0 24) /\
    map snd twaps = map Some values /\
    (all * Q2Qc (inject_Z 24))%Qc = fold_right Qcplus (Q2Qc 0) values.
Proof.
  apply (default_run_is_24_hourly_twaps (Q2Qc 100000)
           [sampleAt (Q2Qc 5000) (Q2Qc (1 # 10))]).
  - reflexivity.
  - discriminate.
  - repeat constructor.
  - repeat constructor; eexists; reflexivity.
Defined.

End MoreTotalExamples.
